(** * RuVector PostgreSQL retrieval and attention functions (claude-flow)

    A shallow embedding of the PL/pgSQL functions of
    [docs/ruvector-postgres/examples/similarity-search.sql] and
    [docs/ruvector-postgres/examples/attention-ops.sql].

    Conventions of the embedding:
    - the table [claude_flow.embeddings] is the list of its rows in the
      order a sequential scan yields them;
    - [FLOAT] values are real numbers: rounding and the overflow of
      additions, multiplications and sums are idealised away, while the
      other run-time errors PostgreSQL raises (division by zero, a negative
      [LIMIT], a range error of [EXP] or of [INT] arithmetic) are kept in
      the [result] type;
    - every common table expression of a function is a definition of its
      own, named as in the source;
    - [ORDER BY] is a stable insertion sort over the incoming row order:
      PostgreSQL leaves the relative order of rows with equal sort keys
      unspecified, and the embedding fixes it to the incoming order;
    - the operators of the vector extension ([<=>], [subvector]), the
      builtin [EXP], the full-text search builtins and the value of [NOW()]
      are parameters of the development; a timestamp counts microseconds. *)

From Stdlib Require Import String.
From Stdlib Require Import Reals Lra Lia ZArith NArith Bool List.
From Stdlib Require Import Permutation Sorted.
Import ListNotations.
Local Open Scope R_scope.

(** ** Run-time errors *)

Inductive sqlstate : Type :=
| division_by_zero
| numeric_value_out_of_range
| invalid_row_count_in_limit_clause
| data_exception.

Inductive result (A : Type) : Type :=
| Ok (a : A)
| Raise (e : sqlstate).
Arguments Ok {A} a.
Arguments Raise {A} e.

Definition bind {A B : Type} (c : result A) (k : A -> result B) : result B :=
  match c with
  | Ok a => k a
  | Raise e => Raise e
  end.

Notation "x <- c1 ;; c2" := (bind c1 (fun x => c2))
  (at level 61, c1 at next level, right associativity).

Fixpoint mapM {A B : Type} (f : A -> result B) (l : list A) : result (list B) :=
  match l with
  | [] => Ok []
  | x :: l' => y <- f x ;; ys <- mapM f l' ;; Ok (y :: ys)
  end.

(** ** SQL values and operators *)

Abbreviation UUID := N (only parsing).
Abbreviation TEXT := string (only parsing).
Abbreviation TIMESTAMPTZ := Z (only parsing).
Abbreviation FLOAT := R (only parsing).
Definition vector := list R.

(** A [JSONB] object with text values, as the metadata column uses it. *)
Definition JSONB := list (string * string).

(** [m ->> k] *)
Fixpoint jsonb_get_text (m : JSONB) (k : string) : option string :=
  match m with
  | [] => None
  | (k', v) :: m' => if String.eqb k' k then Some v else jsonb_get_text m' k
  end.

(** [m @> sub] *)
Definition jsonb_contains (m sub : JSONB) : bool :=
  forallb (fun kv => match jsonb_get_text m (fst kv) with
                     | Some v => String.eqb v (snd kv)
                     | None => false
                     end) sub.

Fixpoint jsonb_eqb (a b : JSONB) : bool :=
  match a, b with
  | [], [] => true
  | (k, v) :: a', (k', v') :: b' =>
      String.eqb k k' && String.eqb v v' && jsonb_eqb a' b'
  | _, _ => false
  end.

(** [FLOAT] comparisons. *)
Definition Rleb (a b : R) : bool := if Rle_dec a b then true else false.
Definition Rltb (a b : R) : bool := if Rlt_dec a b then true else false.

(** [a / b] on [FLOAT]: a zero divisor raises. *)
Definition fdiv (a b : R) : result R :=
  if Req_dec_T b 0 then Raise division_by_zero else Ok (a / b).

(** [a / b] on integers truncates towards zero; a zero divisor raises. *)
Definition idiv (a b : Z) : result Z :=
  if Z.eqb b 0 then Raise division_by_zero else Ok (Z.quot a b).

(** [a + b], [a - b] and [a * b] on [INT]: a result outside the 32-bit
    range raises. *)
Definition int4 (x : Z) : result Z :=
  if Z.ltb x (-2147483648) || Z.ltb 2147483647 x
  then Raise numeric_value_out_of_range
  else Ok x.

Definition int4_add (a b : Z) : result Z := int4 (a + b).
Definition int4_sub (a b : Z) : result Z := int4 (a - b).
Definition int4_mul (a b : Z) : result Z := int4 (a * b).

Definition sum_R (l : list R) : R := fold_right Rplus 0 l.

(** Aggregates over a whole query: over no rows they yield [NULL]. *)
Definition SUM (l : list R) : option R :=
  match l with
  | [] => None
  | _ => Some (sum_R l)
  end.

Definition MAX (l : list R) : option R :=
  match l with
  | [] => None
  | x :: l' => Some (fold_left Rmax l' x)
  end.

Definition COALESCE (o : option R) (d : R) : R :=
  match o with
  | Some x => x
  | None => d
  end.

Definition NULLIF (o : option R) (z : R) : option R :=
  match o with
  | Some x => if Req_dec_T x z then None else Some x
  | None => None
  end.

(** [a / d] where the divisor may be [NULL]. *)
Definition div_nullable (a : R) (d : option R) : result (option R) :=
  match d with
  | Some x => y <- fdiv a x ;; Ok (Some y)
  | None => Ok None
  end.

(** [generate_series(lo, lo + n - 1)] *)
Fixpoint series_from (lo : Z) (n : nat) : list Z :=
  match n with
  | O => []
  | S n' => lo :: series_from (lo + 1) n'
  end.

Definition generate_series (lo hi : Z) : list Z :=
  series_from lo (Z.to_nat (hi - lo + 1)).

(** [x = ANY(arr)] on identifiers. *)
Definition eq_ANY (x : UUID) (arr : list UUID) : bool :=
  existsb (N.eqb x) arr.

(** [x != ALL(arr)] *)
Definition neq_ALL (x : UUID) (arr : list UUID) : bool :=
  forallb (fun y => negb (N.eqb x y)) arr.

(** ** ORDER BY, LIMIT, GROUP BY *)

Section OrderBy.
Context {A : Type}.
Variable before : A -> A -> bool.

Fixpoint insert_row (x : A) (l : list A) : list A :=
  match l with
  | [] => [x]
  | y :: l' => if before x y then x :: l else y :: insert_row x l'
  end.

Definition order_by (l : list A) : list A := fold_right insert_row [] l.
End OrderBy.

(** Sort keys: [ORDER BY k], [ORDER BY k DESC], and [ORDER BY k DESC] on a
    nullable key, where PostgreSQL puts [NULL] first. *)
Definition asc {A : Type} (key : A -> R) (x y : A) : bool :=
  Rleb (key x) (key y).

Definition asc_int {A : Type} (key : A -> Z) (x y : A) : bool :=
  Z.leb (key x) (key y).

Definition desc {A : Type} (key : A -> R) (x y : A) : bool :=
  Rleb (key y) (key x).

Definition desc_nulls_first {A : Type} (key : A -> option R) (x y : A) : bool :=
  match key x, key y with
  | None, _ => true
  | Some _, None => false
  | Some a, Some b => Rleb b a
  end.

(** [LIMIT n] over a query: the bound is checked before any row is
    fetched, a negative one raises; with the bound 0 no row is fetched at
    all, so that an error in the rows does not occur. *)
Definition LIMIT {A : Type} (n : Z) (rows : result (list A)) : result (list A) :=
  if Z.ltb n 0 then Raise invalid_row_count_in_limit_clause
  else if Z.eqb n 0 then Ok []
  else l <- rows ;; Ok (firstn (Z.to_nat n) l).

(** [l JOIN r ON on] as a nested loop over [l]. *)
Definition JOIN {A B : Type} (on : A -> B -> bool) (l : list A) (r : list B)
    : list (A * B) :=
  flat_map (fun a => map (pair a) (filter (on a) r)) l.

(** A group of [GROUP BY] has at least one row: its first row and the
    following ones. *)
Definition group (A : Type) : Type := A * list A.

Definition group_rows {A : Type} (g : group A) : list A := fst g :: snd g.

Definition group_map {A B : Type} (f : A -> B) (g : group A) : group B :=
  (f (fst g), map f (snd g)).

(** Aggregates over a group. *)
Definition MAX_of (g : group R) : R := fold_left Rmax (snd g) (fst g).
Definition MIN_of (g : group R) : R := fold_left Rmin (snd g) (fst g).
Definition SUM_of (g : group R) : R := sum_R (group_rows g).
Definition AVG_of (g : group R) : R :=
  sum_R (group_rows g) / INR (List.length (group_rows g)).

Section GroupBy.
Context {A K : Type}.
Variable eqb : K -> K -> bool.
Variable key : A -> K.

(** Groups in the order of first occurrence of their key, each with its
    rows in the incoming order. *)
Fixpoint group_by (rows : list A) : list (K * group A) :=
  match rows with
  | [] => []
  | r :: rows' =>
      (key r, (r, filter (fun r' => eqb (key r') (key r)) rows'))
      :: filter (fun g => negb (eqb (fst g) (key r))) (group_by rows')
  end.
End GroupBy.

(** [COUNT(DISTINCT x)] on integers. *)
Fixpoint distinct (l : list Z) : list Z :=
  match l with
  | [] => []
  | k :: l' => k :: filter (fun k' => negb (Z.eqb k' k)) (distinct l')
  end.

(** ** The table [claude_flow.embeddings] *)

Record embedding_row : Type := {
  id : UUID;
  content : TEXT;
  embedding : option vector;
  metadata : JSONB;
  created_at : TIMESTAMPTZ
}.

Definition table := list embedding_row.

(** [FROM claude_flow.embeddings e WHERE e.embedding IS NOT NULL], each row
    paired with its embedding. *)
Definition embedding_not_null (tbl : table) : list (embedding_row * vector) :=
  flat_map (fun e => match embedding e with
                     | Some v => [(e, v)]
                     | None => []
                     end) tbl.

Definition doc_id (ev : embedding_row * vector) : UUID := id (fst ev).

Definition doc_key : Type := UUID * TEXT * JSONB.

Definition doc_key_eqb (a b : doc_key) : bool :=
  let '(i, c, m) := a in
  let '(i', c', m') := b in
  N.eqb i i' && String.eqb c c' && jsonb_eqb m m'.

(** [unnest(arr) WITH ORDINALITY] *)
Definition with_ordinality {A : Type} (arr : list A) : list (A * Z) :=
  combine arr (series_from 1 (List.length arr)).

(** [flt IS NULL OR value = flt] *)
Definition null_or_equal (flt value : option TEXT) : bool :=
  match flt with
  | None => true
  | Some f => match value with
              | Some v => String.eqb v f
              | None => false
              end
  end.

(** ** similarity-search.sql *)

Record semantic_search_row : Type := {
  ss_id : UUID;
  ss_content : TEXT;
  ss_similarity : FLOAT;
  ss_metadata : JSONB;
  ss_created_at : TIMESTAMPTZ
}.

Record coarse_row : Type := {
  cr_id : UUID;
  cr_content : TEXT;
  cr_embedding : vector;
  cr_metadata : JSONB;
  cr_coarse_sim : FLOAT
}.

Record rag_retrieve_row : Type := {
  rr_id : UUID;
  rr_content : TEXT;
  rr_coarse_similarity : FLOAT;
  rr_exact_similarity : FLOAT;
  rr_metadata : JSONB
}.

Record query_similarity : Type := {
  qs_id : UUID;
  qs_content : TEXT;
  qs_metadata : JSONB;
  qs_query_idx : Z;
  qs_similarity : FLOAT
}.

Record aggregated_row : Type := {
  ag_id : UUID;
  ag_content : TEXT;
  ag_metadata : JSONB;
  ag_max_sim : FLOAT;
  ag_avg_sim : FLOAT;
  ag_min_sim : FLOAT;
  ag_match_count : Z
}.

Record cluster_search_row : Type := {
  cs_id : UUID;
  cs_content : TEXT;
  cs_best_similarity : FLOAT;
  cs_avg_similarity : FLOAT;
  cs_matching_queries : Z;
  cs_metadata : JSONB
}.

Record mmr_search_row : Type := {
  mmr_id : UUID;
  mmr_content : TEXT;
  mmr_relevance : FLOAT;
  mmr_diversity_penalty : FLOAT;
  mmr_mmr_score : FLOAT;
  mmr_metadata : JSONB
}.

Section SimilaritySearch.
(** The cosine distance operator [a <=> b] of the vector extension. *)
Variable cosine_distance : vector -> vector -> FLOAT.

(** *** semantic_search *)

Definition semantic_search_where (query_embedding : vector)
    (min_similarity : FLOAT) (category_filter agent_filter : option TEXT)
    (ev : embedding_row * vector) : bool :=
  Rleb min_similarity (1 - cosine_distance (snd ev) query_embedding)
  && null_or_equal category_filter (jsonb_get_text (metadata (fst ev)) "category")
  && null_or_equal agent_filter (jsonb_get_text (metadata (fst ev)) "agent").

Definition semantic_search (tbl : table) (query_embedding : vector)
    (limit_count : Z) (min_similarity : FLOAT)
    (category_filter agent_filter : option TEXT)
    : result (list semantic_search_row) :=
  rows <- LIMIT limit_count
            (Ok (order_by (asc (fun ev => cosine_distance (snd ev) query_embedding))
                   (filter (semantic_search_where query_embedding min_similarity
                              category_filter agent_filter)
                           (embedding_not_null tbl)))) ;;
  Ok (map (fun ev : embedding_row * vector =>
             {| ss_id := id (fst ev);
                ss_content := content (fst ev);
                ss_similarity := 1 - cosine_distance (snd ev) query_embedding;
                ss_metadata := metadata (fst ev);
                ss_created_at := created_at (fst ev) |}) rows).

(** *** rag_retrieve *)

(** Stage 1, the CTE [coarse_results]. *)
Definition coarse_results (tbl : table) (query_embedding : vector)
    (coarse_limit : Z) : result (list coarse_row) :=
  rows <- LIMIT coarse_limit
            (Ok (order_by (asc (fun ev => cosine_distance (snd ev) query_embedding))
                   (embedding_not_null tbl))) ;;
  Ok (map (fun ev : embedding_row * vector =>
             {| cr_id := id (fst ev);
                cr_content := content (fst ev);
                cr_embedding := snd ev;
                cr_metadata := metadata (fst ev);
                cr_coarse_sim := 1 - cosine_distance (snd ev) query_embedding |}) rows).

Definition exact_sim (query_embedding : vector) (cr : coarse_row) : FLOAT :=
  1 - cosine_distance (cr_embedding cr) query_embedding.

(** The select list of the main query. *)
Definition rag_row (query_embedding : vector) (cr : coarse_row)
    : rag_retrieve_row :=
  {| rr_id := cr_id cr;
     rr_content := cr_content cr;
     rr_coarse_similarity := cr_coarse_sim cr;
     rr_exact_similarity := exact_sim query_embedding cr;
     rr_metadata := cr_metadata cr |}.

(** Stage 2, the main query over [coarse_results]. *)
Definition rerank (query_embedding : vector) (final_limit : Z)
    (min_similarity : FLOAT) (coarse : result (list coarse_row))
    : result (list rag_retrieve_row) :=
  rows <- LIMIT final_limit
            (crs <- coarse ;;
             Ok (order_by (desc (exact_sim query_embedding))
                   (filter (fun cr => Rleb min_similarity (cr_coarse_sim cr)) crs))) ;;
  Ok (map (rag_row query_embedding) rows).

Definition rag_retrieve (tbl : table) (query_embedding : vector)
    (coarse_limit final_limit : Z) (min_similarity : FLOAT)
    : result (list rag_retrieve_row) :=
  rerank query_embedding final_limit min_similarity
         (coarse_results tbl query_embedding coarse_limit).

(** *** cluster_search *)

Definition query_similarities (tbl : table) (query_embeddings : list vector)
    : list query_similarity :=
  flat_map (fun ev : embedding_row * vector =>
              map (fun q : vector * Z =>
                     {| qs_id := id (fst ev);
                        qs_content := content (fst ev);
                        qs_metadata := metadata (fst ev);
                        qs_query_idx := snd q;
                        qs_similarity := 1 - cosine_distance (snd ev) (fst q) |})
                  (with_ordinality query_embeddings))
           (embedding_not_null tbl).

Definition qs_key (r : query_similarity) : doc_key :=
  (qs_id r, qs_content r, qs_metadata r).

Definition aggregate_group (g : doc_key * group query_similarity) : aggregated_row :=
  let sims := group_map qs_similarity (snd g) in
  {| ag_id := fst (fst (fst g));
     ag_content := snd (fst (fst g));
     ag_metadata := snd (fst g);
     ag_max_sim := MAX_of sims;
     ag_avg_sim := AVG_of sims;
     ag_min_sim := MIN_of sims;
     ag_match_count :=
       Z.of_nat (List.length
                   (distinct (map qs_query_idx (group_rows (snd g))))) |}.

Definition aggregated (tbl : table) (query_embeddings : list vector)
    : list aggregated_row :=
  map aggregate_group
      (group_by doc_key_eqb qs_key
         (filter (fun r => Rltb (1 / 2) (qs_similarity r))
                 (query_similarities tbl query_embeddings))).

(** [CASE aggregation_method WHEN 'max' ... ELSE a.max_sim END] *)
Definition aggregation_case (aggregation_method : TEXT) (a : aggregated_row)
    : FLOAT :=
  if String.eqb aggregation_method "max" then ag_max_sim a
  else if String.eqb aggregation_method "avg" then ag_avg_sim a
  else if String.eqb aggregation_method "min" then ag_min_sim a
  else ag_max_sim a.

Definition cluster_search (tbl : table) (query_embeddings : list vector)
    (limit_count : Z) (aggregation_method : TEXT)
    : result (list cluster_search_row) :=
  rows <- LIMIT limit_count
            (Ok (order_by (desc (aggregation_case aggregation_method))
                   (aggregated tbl query_embeddings))) ;;
  Ok (map (fun a =>
             {| cs_id := ag_id a;
                cs_content := ag_content a;
                cs_best_similarity := aggregation_case aggregation_method a;
                cs_avg_similarity := ag_avg_sim a;
                cs_matching_queries := ag_match_count a;
                cs_metadata := ag_metadata a |}) rows).

(** *** mmr_search *)

(** [COALESCE((SELECT MAX(1 - (emb <=> se)) FROM unnest(selected) AS se), 0)] *)
Definition max_sim_to (emb : vector) (selected : list vector) : FLOAT :=
  COALESCE (MAX (map (fun se => 1 - cosine_distance emb se) selected)) 0.

(** The sort key of the selection query inside the loop. *)
Definition mmr_order_key (query_embedding : vector) (lambda : FLOAT)
    (selected_embeddings : list vector) (ev : embedding_row * vector) : FLOAT :=
  lambda * (1 - cosine_distance (snd ev) query_embedding)
  - (1 - lambda) * max_sim_to (snd ev) selected_embeddings.

(** [SELECT INTO rec ... ORDER BY ... DESC LIMIT 1]; [None] when no row
    is found, which is when [rec IS NULL] holds. *)
Definition mmr_select (tbl : table) (query_embedding : vector) (lambda : FLOAT)
    (selected_ids : list UUID) (selected_embeddings : list vector)
    : option (embedding_row * vector) :=
  hd_error
    (order_by (desc (mmr_order_key query_embedding lambda selected_embeddings))
       (filter (fun ev => neq_ALL (id (fst ev)) selected_ids)
               (embedding_not_null tbl))).

(** The body of [FOR i IN 1..limit_count LOOP], run for the remaining
    [n] iterations from the state [(selected_ids, selected_embeddings)];
    the rows are those emitted by [RETURN NEXT]. *)
Fixpoint mmr_loop (tbl : table) (query_embedding : vector) (lambda : FLOAT)
    (n : nat) (selected_ids : list UUID) (selected_embeddings : list vector)
    : list mmr_search_row :=
  match n with
  | O => []
  | S n' =>
      match mmr_select tbl query_embedding lambda selected_ids selected_embeddings with
      | None => []
      | Some rec =>
          let rel := 1 - cosine_distance (snd rec) query_embedding in
          let selected_ids' := selected_ids ++ [id (fst rec)] in
          let selected_embeddings' := selected_embeddings ++ [snd rec] in
          let max_sim_to_selected :=
            max_sim_to (snd rec) (removelast selected_embeddings') in
          {| mmr_id := id (fst rec);
             mmr_content := content (fst rec);
             mmr_relevance := rel;
             mmr_diversity_penalty := max_sim_to_selected;
             mmr_mmr_score := lambda * rel - (1 - lambda) * max_sim_to_selected;
             mmr_metadata := metadata (fst rec) |}
          :: mmr_loop tbl query_embedding lambda n' selected_ids' selected_embeddings'
      end
  end.

Definition mmr_search (tbl : table) (query_embedding : vector)
    (limit_count : Z) (lambda : FLOAT) : list mmr_search_row :=
  mmr_loop tbl query_embedding lambda (Z.to_nat limit_count) [] [].

(** *** The rankings of the specification *)

(** Ranking purely by relevance: the rows with an embedding in descending
    order of their similarity to the query, cut to the limit. *)
Definition relevance_ranking (tbl : table) (query_embedding : vector)
    (limit_count : Z) : list UUID :=
  map doc_id
      (firstn (Z.to_nat limit_count)
         (order_by (desc (fun ev : embedding_row * vector =>
                            1 - cosine_distance (snd ev) query_embedding))
                   (embedding_not_null tbl))).

End SimilaritySearch.

(** The order the specification words for [semantic_search]: descending
    similarity, rows of equal similarity by ascending identifier. *)
Definition by_similarity_then_id (a b : semantic_search_row) : Prop :=
  ss_similarity b < ss_similarity a
  \/ (ss_similarity a = ss_similarity b /\ (ss_id a < ss_id b)%N).

(** The ranking a caller reads off the result: the documents in order,
    each with its aggregated similarity. *)
Definition cluster_ranking (res : result (list cluster_search_row))
    : result (list (UUID * FLOAT)) :=
  rows <- res ;; Ok (map (fun r => (cs_id r, cs_best_similarity r)) rows).

(** ** attention-ops.sql *)

Record attention_scores_row : Type := {
  as_id : UUID;
  as_content : TEXT;
  as_raw_score : FLOAT;
  as_attention_weight : option FLOAT;
  as_metadata : JSONB
}.

Record raw_scores_row : Type := {
  rs_s_id : UUID;
  rs_s_content : TEXT;
  rs_t_id : UUID;
  rs_t_content : TEXT;
  rs_h_idx : Z;
  rs_score : FLOAT
}.

Record softmax_scores_row : Type := {
  sm_raw : raw_scores_row;
  sm_attn_score : FLOAT
}.

Record self_attention_row : Type := {
  sa_source_id : UUID;
  sa_attended_id : UUID;
  sa_head_idx : Z;
  sa_attention_score : FLOAT;
  sa_source_content : TEXT;
  sa_attended_content : TEXT
}.

Record raw_attention_row : Type := {
  ra_q_id : UUID;
  ra_q_content : TEXT;
  ra_k_id : UUID;
  ra_k_content : TEXT;
  ra_k_meta : JSONB;
  ra_score : FLOAT
}.

Record softmax_attention_row : Type := {
  sx_raw : raw_attention_row;
  sx_attn_weight : FLOAT
}.

Record cross_attention_row : Type := {
  ca_query_id : UUID;
  ca_key_id : UUID;
  ca_attention_weight : FLOAT;
  ca_query_content : TEXT;
  ca_key_content : TEXT;
  ca_key_metadata : JSONB
}.

Record per_head_row : Type := {
  pha_id : UUID;
  pha_content : TEXT;
  pha_metadata : JSONB;
  pha_head_idx : Z;
  pha_head_score : FLOAT
}.

Record multihead_row : Type := {
  mh_id : UUID;
  mh_content : TEXT;
  mh_aggregated_attention : FLOAT;
  mh_head_attentions : list FLOAT;
  mh_metadata : JSONB
}.

Record numbered_row : Type := {
  ne_id : UUID;
  ne_content : TEXT;
  ne_embedding : vector;
  ne_metadata : JSONB;
  ne_row_num : Z
}.

Record blocked_row : Type := {
  b_ne : numbered_row;
  b_blk_id : Z
}.

Record block_attention_row : Type := {
  ba_b : blocked_row;
  ba_raw_score : FLOAT;
  ba_max_score : FLOAT;
  ba_stable_exp : FLOAT
}.

Record flash_attention_row : Type := {
  fa_id : UUID;
  fa_content : TEXT;
  fa_attention_score : option FLOAT;
  fa_block_id : Z;
  fa_metadata : JSONB
}.

Section AttentionOps.
(** The cosine distance operator [a <=> b] of the vector extension. *)
Variable cosine_distance : vector -> vector -> FLOAT.
(** The builtin [EXP], which raises when its result is out of range. *)
Variable EXP : FLOAT -> result FLOAT.
(** [subvector(v, start, count)] of the vector extension. *)
Variable subvector : vector -> Z -> Z -> result vector.

(** [EXP(score / temperature)] *)
Definition exp_scaled (score temperature : FLOAT) : result FLOAT :=
  x <- fdiv score temperature ;; EXP x.

(** *** attention_scores *)

(** The first statement: the softmax denominator. *)
Definition softmax_sum (tbl : table) (query_embedding : vector)
    (temperature : FLOAT) : result (option FLOAT) :=
  es <- mapM (fun ev : embedding_row * vector =>
                exp_scaled (1 - cosine_distance (snd ev) query_embedding) temperature)
             (embedding_not_null tbl) ;;
  Ok (SUM es).

(** The rows of the [RETURN QUERY] before [ORDER BY] and [LIMIT]. *)
Definition attention_weights (tbl : table) (query_embedding : vector)
    (temperature : FLOAT) (softmax_sum : option FLOAT)
    : result (list attention_scores_row) :=
  mapM (fun ev : embedding_row * vector =>
          e <- exp_scaled (1 - cosine_distance (snd ev) query_embedding) temperature ;;
          w <- div_nullable e (NULLIF softmax_sum 0) ;;
          Ok {| as_id := id (fst ev);
                as_content := content (fst ev);
                as_raw_score := 1 - cosine_distance (snd ev) query_embedding;
                as_attention_weight := w;
                as_metadata := metadata (fst ev) |})
       (embedding_not_null tbl).

Definition attention_scores (tbl : table) (query_embedding : vector)
    (limit_count : Z) (temperature : FLOAT)
    : result (list attention_scores_row) :=
  s <- softmax_sum tbl query_embedding temperature ;;
  LIMIT limit_count
    (rows <- attention_weights tbl query_embedding temperature s ;;
     Ok (order_by (desc_nulls_first as_attention_weight) rows)).

(** *** self_attention *)

Definition source_embeddings (tbl : table) (source_ids : list UUID)
    : list (embedding_row * vector) :=
  filter (fun ev => eq_ANY (id (fst ev)) source_ids) (embedding_not_null tbl).

(** The CTEs [all_pairs] and [raw_scores]: sources, cross joined with
    the targets, cross joined with the head indices. *)
Definition raw_scores (tbl : table) (source_ids : list UUID) (head_count : Z)
    : list raw_scores_row :=
  flat_map (fun s : embedding_row * vector =>
    flat_map (fun t : embedding_row * vector =>
      map (fun h : Z =>
             {| rs_s_id := id (fst s);
                rs_s_content := content (fst s);
                rs_t_id := id (fst t);
                rs_t_content := content (fst t);
                rs_h_idx := h;
                rs_score := 1 - cosine_distance (snd s) (snd t) |})
          (generate_series 1 head_count))
      (embedding_not_null tbl))
    (source_embeddings tbl source_ids).

(** [PARTITION BY rs.s_id, rs.h_idx] *)
Definition same_partition (a b : raw_scores_row) : bool :=
  N.eqb (rs_s_id a) (rs_s_id b) && Z.eqb (rs_h_idx a) (rs_h_idx b).

(** [x / SUM(x) OVER (PARTITION BY ...)]: the partition of a row holds
    that row, so the sum is never [NULL]. *)
Definition softmax_over {A : Type} (same : A -> A -> bool)
    (exps : list (A * FLOAT)) (r : A * FLOAT) : result FLOAT :=
  fdiv (snd r)
       (sum_R (map snd (filter (fun r' => same (fst r') (fst r)) exps))).

Definition softmax_scores (tbl : table) (source_ids : list UUID)
    (head_count : Z) (temperature : FLOAT) : result (list softmax_scores_row) :=
  exps <- mapM (fun rs => e <- exp_scaled (rs_score rs) temperature ;; Ok (rs, e))
               (raw_scores tbl source_ids head_count) ;;
  mapM (fun r => a <- softmax_over same_partition exps r ;;
                 Ok {| sm_raw := fst r; sm_attn_score := a |}) exps.

(** [ORDER BY ss.s_id, ss.h_idx, ss.attn_score DESC] *)
Definition self_attention_order (x y : softmax_scores_row) : bool :=
  if N.ltb (rs_s_id (sm_raw x)) (rs_s_id (sm_raw y)) then true
  else if N.ltb (rs_s_id (sm_raw y)) (rs_s_id (sm_raw x)) then false
  else if Z.ltb (rs_h_idx (sm_raw x)) (rs_h_idx (sm_raw y)) then true
  else if Z.ltb (rs_h_idx (sm_raw y)) (rs_h_idx (sm_raw x)) then false
  else Rleb (sm_attn_score y) (sm_attn_score x).

Definition self_attention (tbl : table) (source_ids : list UUID)
    (head_count : Z) (temperature : FLOAT) : result (list self_attention_row) :=
  ss <- softmax_scores tbl source_ids head_count temperature ;;
  Ok (map (fun r =>
             {| sa_source_id := rs_s_id (sm_raw r);
                sa_attended_id := rs_t_id (sm_raw r);
                sa_head_idx := rs_h_idx (sm_raw r);
                sa_attention_score := sm_attn_score r;
                sa_source_content := rs_s_content (sm_raw r);
                sa_attended_content := rs_t_content (sm_raw r) |})
          (order_by self_attention_order
             (filter (fun r => Rltb (1 / 100) (sm_attn_score r)) ss))).

(** *** cross_attention *)

Definition queries (tbl : table) (query_ids : list UUID)
    : list (embedding_row * vector) :=
  filter (fun ev => eq_ANY (id (fst ev)) query_ids) (embedding_not_null tbl).

Definition keys (tbl : table) (query_ids : list UUID)
    (key_value_filter : option JSONB) : list (embedding_row * vector) :=
  filter (fun ev : embedding_row * vector =>
            match key_value_filter with
            | None => true
            | Some f => jsonb_contains (metadata (fst ev)) f
            end
            && neq_ALL (id (fst ev)) query_ids)
         (embedding_not_null tbl).

Definition raw_attention (tbl : table) (query_ids : list UUID)
    (key_value_filter : option JSONB) : list raw_attention_row :=
  flat_map (fun q : embedding_row * vector =>
    map (fun k : embedding_row * vector =>
           {| ra_q_id := id (fst q);
              ra_q_content := content (fst q);
              ra_k_id := id (fst k);
              ra_k_content := content (fst k);
              ra_k_meta := metadata (fst k);
              ra_score := 1 - cosine_distance (snd q) (snd k) |})
        (keys tbl query_ids key_value_filter))
    (queries tbl query_ids).

(** [PARTITION BY ra.q_id] *)
Definition same_query (a b : raw_attention_row) : bool :=
  N.eqb (ra_q_id a) (ra_q_id b).

Definition softmax_attention (tbl : table) (query_ids : list UUID)
    (key_value_filter : option JSONB) (temperature : FLOAT)
    : result (list softmax_attention_row) :=
  exps <- mapM (fun ra => e <- exp_scaled (ra_score ra) temperature ;; Ok (ra, e))
               (raw_attention tbl query_ids key_value_filter) ;;
  mapM (fun r => a <- softmax_over same_query exps r ;;
                 Ok {| sx_raw := fst r; sx_attn_weight := a |}) exps.

(** [ORDER BY sa.q_id, sa.attn_weight DESC] *)
Definition cross_attention_order (x y : softmax_attention_row) : bool :=
  if N.ltb (ra_q_id (sx_raw x)) (ra_q_id (sx_raw y)) then true
  else if N.ltb (ra_q_id (sx_raw y)) (ra_q_id (sx_raw x)) then false
  else Rleb (sx_attn_weight y) (sx_attn_weight x).

Definition cross_attention (tbl : table) (query_ids : list UUID)
    (key_value_filter : option JSONB) (temperature : FLOAT)
    : result (list cross_attention_row) :=
  sa <- softmax_attention tbl query_ids key_value_filter temperature ;;
  Ok (map (fun r =>
             {| ca_query_id := ra_q_id (sx_raw r);
                ca_key_id := ra_k_id (sx_raw r);
                ca_attention_weight := sx_attn_weight r;
                ca_query_content := ra_q_content (sx_raw r);
                ca_key_content := ra_k_content (sx_raw r);
                ca_key_metadata := ra_k_meta (sx_raw r) |})
          (order_by cross_attention_order
             (filter (fun r => Rltb (1 / 100) (sx_attn_weight r)) sa))).

(** *** multihead_attention_aggregate *)

(** [(h.head_idx - 1) * head_dim + 1], on [INT]. *)
Definition segment_start (head_idx head_dim : Z) : result Z :=
  d <- int4_sub head_idx 1 ;;
  m <- int4_mul d head_dim ;;
  int4_add m 1.

(** The column [head_score]: the start of the segment is written out for
    the stored vector and again for the query. *)
Definition head_score (query_embedding : vector) (head_dim : Z)
    (v : vector) (head_idx : Z) : result FLOAT :=
  sa <- segment_start head_idx head_dim ;;
  a <- subvector v sa head_dim ;;
  sb <- segment_start head_idx head_dim ;;
  b <- subvector query_embedding sb head_dim ;;
  Ok (1 - cosine_distance a b).

Definition per_head_attention (tbl : table) (query_embedding : vector)
    (num_heads head_dim : Z) : result (list per_head_row) :=
  mapM (fun eh : (embedding_row * vector) * Z =>
          s <- head_score query_embedding head_dim (snd (fst eh)) (snd eh) ;;
          Ok {| pha_id := id (fst (fst eh));
                pha_content := content (fst (fst eh));
                pha_metadata := metadata (fst (fst eh));
                pha_head_idx := snd eh;
                pha_head_score := s |})
       (flat_map (fun ev => map (pair ev) (generate_series 1 num_heads))
                 (embedding_not_null tbl)).

Definition pha_key (r : per_head_row) : doc_key :=
  (pha_id r, pha_content r, pha_metadata r).

(** The CTE [aggregated] of [multihead_attention_aggregate]. *)
Definition multihead_aggregated (pha : list per_head_row) : list multihead_row :=
  map (fun g : doc_key * group per_head_row =>
         {| mh_id := fst (fst (fst g));
            mh_content := snd (fst (fst g));
            mh_aggregated_attention := AVG_of (group_map pha_head_score (snd g));
            mh_head_attentions :=
              map pha_head_score
                  (order_by (asc_int pha_head_idx) (group_rows (snd g)));
            mh_metadata := snd (fst g) |})
      (group_by doc_key_eqb pha_key pha).

Definition multihead_attention_aggregate (tbl : table) (query_embedding : vector)
    (num_heads head_dim limit_count : Z) : result (list multihead_row) :=
  LIMIT limit_count
    (pha <- per_head_attention tbl query_embedding num_heads head_dim ;;
     Ok (order_by (desc mh_aggregated_attention) (multihead_aggregated pha))).

(** *** flash_attention_search *)

(** [ROW_NUMBER() OVER (ORDER BY e.created_at)] *)
Definition numbered_embeddings (tbl : table) : list numbered_row :=
  map (fun en : (embedding_row * vector) * Z =>
         {| ne_id := id (fst (fst en));
            ne_content := content (fst (fst en));
            ne_embedding := snd (fst en);
            ne_metadata := metadata (fst (fst en));
            ne_row_num := snd en |})
      (with_ordinality
         (order_by (asc_int (fun ev : embedding_row * vector => created_at (fst ev)))
                   (embedding_not_null tbl))).

Definition blocked (tbl : table) (block_size : Z) : result (list blocked_row) :=
  mapM (fun ne => d <- idiv (ne_row_num ne - 1) block_size ;;
                  Ok {| b_ne := ne; b_blk_id := d + 1 |})
       (numbered_embeddings tbl).

Definition raw_score (query_embedding : vector) (b : blocked_row) : FLOAT :=
  1 - cosine_distance (ne_embedding (b_ne b)) query_embedding.

Definition block_max (query_embedding : vector) (bl : list blocked_row)
    : list (Z * FLOAT) :=
  map (fun g : Z * group blocked_row =>
         (fst g, MAX_of (group_map (raw_score query_embedding) (snd g))))
      (group_by Z.eqb b_blk_id bl).

Definition block_attention (query_embedding : vector) (bl : list blocked_row)
    : result (list block_attention_row) :=
  mapM (fun bbm : blocked_row * (Z * FLOAT) =>
          e <- EXP (raw_score query_embedding (fst bbm) - snd (snd bbm)) ;;
          Ok {| ba_b := fst bbm;
                ba_raw_score := raw_score query_embedding (fst bbm);
                ba_max_score := snd (snd bbm);
                ba_stable_exp := e |})
       (JOIN (fun b bm => Z.eqb (b_blk_id b) (fst bm)) bl
             (block_max query_embedding bl)).

Definition block_sums (ba : list block_attention_row) : list (Z * FLOAT) :=
  map (fun g : Z * group block_attention_row =>
         (fst g, SUM_of (group_map ba_stable_exp (snd g))))
      (group_by Z.eqb (fun r => b_blk_id (ba_b r)) ba).

Definition final_attention (ba : list block_attention_row)
    : result (list flash_attention_row) :=
  mapM (fun babs : block_attention_row * (Z * FLOAT) =>
          w <- div_nullable (ba_stable_exp (fst babs))
                            (NULLIF (Some (snd (snd babs))) 0) ;;
          Ok {| fa_id := ne_id (b_ne (ba_b (fst babs)));
                fa_content := ne_content (b_ne (ba_b (fst babs)));
                fa_attention_score := w;
                fa_block_id := b_blk_id (ba_b (fst babs));
                fa_metadata := ne_metadata (b_ne (ba_b (fst babs))) |})
       (JOIN (fun r bs => Z.eqb (b_blk_id (ba_b r)) (fst bs)) ba (block_sums ba)).

Definition flash_attention_search (tbl : table) (query_embedding : vector)
    (block_size limit_count : Z) : result (list flash_attention_row) :=
  LIMIT limit_count
    (bl <- blocked tbl block_size ;;
     ba <- block_attention query_embedding bl ;;
     fa <- final_attention ba ;;
     Ok (order_by (desc_nulls_first fa_attention_score) fa)).

(** *** The softmax of the specification *)

(** The softmax as the specification words it: the scaled scores
    [(1 - cosine_distance) / temperature] have their corpus-wide maximum
    subtracted before [EXP], and the exponentials are divided by their
    sum. *)
Definition max_subtracted_softmax (tbl : table) (query_embedding : vector)
    (temperature : R) : result (list (UUID * R)) :=
  xs <- mapM (fun ev : embedding_row * vector =>
                x <- fdiv (1 - cosine_distance (snd ev) query_embedding) temperature ;;
                Ok (ev, x))
             (embedding_not_null tbl) ;;
  match MAX (map snd xs) with
  | None => Ok []
  | Some m =>
      es <- mapM (fun p : (embedding_row * vector) * R =>
                    e <- EXP (snd p - m) ;; Ok (p, e)) xs ;;
      Ok (map (fun pe => (id (fst (fst (fst pe))), snd pe / sum_R (map snd es))) es)
  end.

End AttentionOps.

(** ** similarity-search.sql: hybrid_search and temporal_search *)

Record hybrid_search_row : Type := {
  hs_id : UUID;
  hs_content : TEXT;
  hs_vector_score : FLOAT;
  hs_keyword_score : FLOAT;
  hs_combined_score : FLOAT;
  hs_metadata : JSONB
}.

Record temporal_search_row : Type := {
  tmp_id : UUID;
  tmp_content : TEXT;
  tmp_vector_similarity : FLOAT;
  tmp_recency_score : FLOAT;
  tmp_combined_score : FLOAT;
  tmp_created_at : TIMESTAMPTZ;
  tmp_metadata : JSONB
}.

Section HybridSearch.
Variable cosine_distance : vector -> vector -> FLOAT.
(** Full-text search: the types [tsvector] and [tsquery] and the builtins
    on them are parameters.  [ts_rank_cd] is given a nullable result, which
    the source guards with [COALESCE]; [ts_match] is the operator [@@]. *)
Variable tsvector : Type.
Variable tsquery : Type.
Variable to_tsvector : TEXT -> TEXT -> tsvector.
Variable plainto_tsquery : TEXT -> TEXT -> tsquery.
Variable ts_rank_cd : tsvector -> tsquery -> option FLOAT.
Variable ts_match : tsvector -> tsquery -> bool.

(** [COALESCE(ts_rank_cd(to_tsvector('english', e.content),
              plainto_tsquery('english', keyword_query)), 0)] *)
Definition keyword_rank (keyword_query : TEXT) (e : embedding_row) : FLOAT :=
  COALESCE (ts_rank_cd (to_tsvector "english" (content e))
                       (plainto_tsquery "english" keyword_query)) 0.

Definition hybrid_search_where (query_embedding : vector) (keyword_query : TEXT)
    (ev : embedding_row * vector) : bool :=
  Rltb (3 / 10) (1 - cosine_distance (snd ev) query_embedding)
  || ts_match (to_tsvector "english" (content (fst ev)))
              (plainto_tsquery "english" keyword_query).

(** The select list. *)
Definition hybrid_row (query_embedding : vector) (keyword_query : TEXT)
    (vector_weight keyword_weight : FLOAT) (ev : embedding_row * vector)
    : hybrid_search_row :=
  {| hs_id := id (fst ev);
     hs_content := content (fst ev);
     hs_vector_score := 1 - cosine_distance (snd ev) query_embedding;
     hs_keyword_score := keyword_rank keyword_query (fst ev);
     hs_combined_score :=
       vector_weight * (1 - cosine_distance (snd ev) query_embedding)
       + keyword_weight * keyword_rank keyword_query (fst ev);
     hs_metadata := metadata (fst ev) |}.

Definition hybrid_search (tbl : table) (query_embedding : vector)
    (keyword_query : TEXT) (limit_count : Z)
    (vector_weight keyword_weight : FLOAT) : result (list hybrid_search_row) :=
  LIMIT limit_count
    (Ok (order_by (desc hs_combined_score)
           (map (hybrid_row query_embedding keyword_query
                            vector_weight keyword_weight)
                (filter (hybrid_search_where query_embedding keyword_query)
                        (embedding_not_null tbl))))).

End HybridSearch.

(** [EXTRACT(EPOCH FROM (later - earlier))]: the seconds between two
    timestamps, which count microseconds. *)
Definition epoch_between (later earlier : TIMESTAMPTZ) : FLOAT :=
  IZR (later - earlier) / 1000000.

Section TemporalSearch.
Variable cosine_distance : vector -> vector -> FLOAT.
Variable EXP : FLOAT -> result FLOAT.
(** [NOW()]: the start of the transaction, the same at every row. *)
Variable NOW : TIMESTAMPTZ.

(** [EXP(-EXTRACT(EPOCH FROM (NOW() - e.created_at)) / (decay_days * 86400))],
    with [decay_seconds] the value of [decay_days * 86400]. *)
Definition recency (decay_seconds : Z) (e : embedding_row) : result FLOAT :=
  x <- fdiv (- epoch_between NOW (created_at e)) (IZR decay_seconds) ;;
  EXP x.

(** The select list: the recency expression occurs in two columns. *)
Definition temporal_row (query_embedding : vector) (decay_seconds : Z)
    (time_weight : FLOAT) (ev : embedding_row * vector)
    : result temporal_search_row :=
  r_score <- recency decay_seconds (fst ev) ;;
  r <- recency decay_seconds (fst ev) ;;
  Ok {| tmp_id := id (fst ev);
        tmp_content := content (fst ev);
        tmp_vector_similarity := 1 - cosine_distance (snd ev) query_embedding;
        tmp_recency_score := r_score;
        tmp_combined_score :=
          (1 - time_weight) * (1 - cosine_distance (snd ev) query_embedding)
          + time_weight * r;
        tmp_created_at := created_at (fst ev);
        tmp_metadata := metadata (fst ev) |}.

(** The product [decay_days * 86400] holds a parameter and a constant
    only: the function's query is planned with the parameter as a constant
    and the product is folded into one, once, before the limit is looked
    at and before a row is read. *)
Definition temporal_search (tbl : table) (query_embedding : vector)
    (limit_count decay_days : Z) (time_weight : FLOAT)
    : result (list temporal_search_row) :=
  decay_seconds <- int4_mul decay_days 86400 ;;
  LIMIT limit_count
    (rows <- mapM (temporal_row query_embedding decay_seconds time_weight)
                  (embedding_not_null tbl) ;;
     Ok (order_by (desc tmp_combined_score) rows)).

End TemporalSearch.

(** ** attention-ops.sql: attention_weighted_retrieve, causal_attention and
    attention_matrix *)

Record scored_row : Type := {
  sc_id : UUID;
  sc_content : TEXT;
  sc_score : FLOAT
}.

Record weighted_row : Type := {
  wr_id : UUID;
  wr_content : TEXT;
  wr_score : FLOAT;
  wr_attention_weight : option FLOAT
}.

Record context_row : Type := {
  cx_context_text : option TEXT;
  cx_total_attention : option FLOAT;
  cx_contributing_ids : option (list UUID)
}.

Record causal_pairs_row : Type := {
  cp_s_id : UUID;
  cp_s_emb : vector;
  cp_s_created : TIMESTAMPTZ;
  cp_t_id : UUID;
  cp_t_emb : vector;
  cp_t_created : TIMESTAMPTZ;
  cp_score : FLOAT
}.

Record causal_softmax_row : Type := {
  csm_pair : causal_pairs_row;
  csm_attn : FLOAT
}.

Record causal_attention_row : Type := {
  cau_source_id : UUID;
  cau_attended_id : UUID;
  cau_attention_score : FLOAT;
  cau_source_created : TIMESTAMPTZ;
  cau_attended_created : TIMESTAMPTZ
}.

Record indexed_row : Type := {
  ix_id : UUID;
  ix_embedding : vector;
  ix_idx : Z
}.

Record pairs_row : Type := {
  p_r_id : UUID;
  p_r_idx : Z;
  p_c_id : UUID;
  p_c_idx : Z;
  p_score : FLOAT
}.

Record softmax_row_of_matrix : Type := {
  msm_pair : pairs_row;
  msm_attn : FLOAT
}.

Record attention_matrix_row : Type := {
  am_row_id : UUID;
  am_col_id : UUID;
  am_row_idx : Z;
  am_col_idx : Z;
  am_attention_value : FLOAT
}.

(** Aggregates that skip [NULL] inputs and yield [NULL] over no row. *)
Definition non_null {A : Type} (l : list (option A)) : list A :=
  flat_map (fun o => match o with
                     | Some x => [x]
                     | None => []
                     end) l.

(** [string_agg(x, delimiter)] *)
Definition string_agg (l : list TEXT) (delimiter : TEXT) : option TEXT :=
  match l with
  | [] => None
  | _ => Some (String.concat delimiter l)
  end.

(** [array_agg(x)] *)
Definition array_agg {A : Type} (l : list A) : option (list A) :=
  match l with
  | [] => None
  | _ => Some l
  end.

(** [E'\n\n'] *)
Definition paragraph_break : TEXT :=
  String (Ascii.ascii_of_nat 10) (String (Ascii.ascii_of_nat 10) EmptyString).

(** [w >= threshold] in a [WHERE]: a [NULL] comparison rejects the row. *)
Definition ge_nullable (w : option FLOAT) (threshold : FLOAT) : bool :=
  match w with
  | Some x => Rleb threshold x
  | None => false
  end.

(** [array_position(arr, x)]: the 1-based index of the first occurrence. *)
Fixpoint array_position (arr : list UUID) (x : UUID) : option Z :=
  match arr with
  | [] => None
  | y :: arr' =>
      if N.eqb y x then Some 1%Z
      else match array_position arr' x with
           | Some i => Some (i + 1)%Z
           | None => None
           end
  end.

(** [ORDER BY k] on a nullable integer key, where [NULL] comes last. *)
Definition asc_nulls_last {A : Type} (key : A -> option Z) (x y : A) : bool :=
  match key x, key y with
  | Some a, Some b => Z.leb a b
  | Some _, None => true
  | None, Some _ => false
  | None, None => true
  end.

Section AttentionRetrieval.
Variable cosine_distance : vector -> vector -> FLOAT.
Variable EXP : FLOAT -> result FLOAT.

(** *** attention_weighted_retrieve *)

(** The CTE [attention_scores] of [attention_weighted_retrieve]. *)
Definition awr_attention_scores (tbl : table) (query_embedding : vector)
    : list scored_row :=
  map (fun ev : embedding_row * vector =>
         {| sc_id := id (fst ev);
            sc_content := content (fst ev);
            sc_score := 1 - cosine_distance (snd ev) query_embedding |})
      (embedding_not_null tbl).

(** The CTE [softmax_attention]: [a.score / NULLIF(SUM(a.score) OVER (), 0)]. *)
Definition awr_softmax_attention (tbl : table) (query_embedding : vector)
    : result (list weighted_row) :=
  let scores := awr_attention_scores tbl query_embedding in
  mapM (fun a =>
          w <- div_nullable (sc_score a) (NULLIF (SUM (map sc_score scores)) 0) ;;
          Ok {| wr_id := sc_id a;
                wr_content := sc_content a;
                wr_score := sc_score a;
                wr_attention_weight := w |})
       scores.

(** The CTE [filtered]. *)
Definition filtered (tbl : table) (query_embedding : vector)
    (context_window : Z) (attention_threshold : FLOAT)
    : result (list weighted_row) :=
  LIMIT context_window
    (sa <- awr_softmax_attention tbl query_embedding ;;
     Ok (order_by (desc_nulls_first wr_attention_weight)
           (filter (fun r => ge_nullable (wr_attention_weight r) attention_threshold)
                   sa))).

(** The main query aggregates [filtered] without [GROUP BY]: it yields
    one row, whose columns are [NULL] when [filtered] is empty. *)
Definition attention_weighted_retrieve (tbl : table) (query_embedding : vector)
    (context_window : Z) (attention_threshold : FLOAT) : result context_row :=
  f <- filtered tbl query_embedding context_window attention_threshold ;;
  Ok {| cx_context_text :=
          string_agg
            (map wr_content (order_by (desc_nulls_first wr_attention_weight) f))
            paragraph_break;
        cx_total_attention := SUM (non_null (map wr_attention_weight f));
        cx_contributing_ids :=
          array_agg
            (map wr_id (order_by (desc_nulls_first wr_attention_weight) f)) |}.

(** *** causal_attention *)

Definition sources (tbl : table) (source_ids : list UUID)
    : list (embedding_row * vector) :=
  filter (fun ev => eq_ANY (id (fst ev)) source_ids) (embedding_not_null tbl).

(** [sources s JOIN claude_flow.embeddings t ON t.created_at <= s.created_at
    WHERE t.embedding IS NOT NULL] *)
Definition causal_pairs (tbl : table) (source_ids : list UUID)
    : list causal_pairs_row :=
  map (fun st : (embedding_row * vector) * (embedding_row * vector) =>
         {| cp_s_id := id (fst (fst st));
            cp_s_emb := snd (fst st);
            cp_s_created := created_at (fst (fst st));
            cp_t_id := id (fst (snd st));
            cp_t_emb := snd (snd st);
            cp_t_created := created_at (fst (snd st));
            cp_score := 1 - cosine_distance (snd (fst st)) (snd (snd st)) |})
      (JOIN (fun s t : embedding_row * vector =>
               Z.leb (created_at (fst t)) (created_at (fst s)))
            (sources tbl source_ids) (embedding_not_null tbl)).

(** [PARTITION BY cp.s_id] *)
Definition same_source (a b : causal_pairs_row) : bool :=
  N.eqb (cp_s_id a) (cp_s_id b).

(** The CTE [softmax_scores] of [causal_attention]. *)
Definition causal_softmax_scores (tbl : table) (source_ids : list UUID)
    (temperature : FLOAT) : result (list causal_softmax_row) :=
  exps <- mapM (fun cp => e <- exp_scaled EXP (cp_score cp) temperature ;; Ok (cp, e))
               (causal_pairs tbl source_ids) ;;
  mapM (fun r => a <- softmax_over same_source exps r ;;
                 Ok {| csm_pair := fst r; csm_attn := a |}) exps.

(** [ORDER BY ss.s_id, ss.attn DESC] *)
Definition causal_attention_order (x y : causal_softmax_row) : bool :=
  if N.ltb (cp_s_id (csm_pair x)) (cp_s_id (csm_pair y)) then true
  else if N.ltb (cp_s_id (csm_pair y)) (cp_s_id (csm_pair x)) then false
  else Rleb (csm_attn y) (csm_attn x).

Definition causal_attention (tbl : table) (source_ids : list UUID)
    (temperature : FLOAT) : result (list causal_attention_row) :=
  ss <- causal_softmax_scores tbl source_ids temperature ;;
  Ok (map (fun r =>
             {| cau_source_id := cp_s_id (csm_pair r);
                cau_attended_id := cp_t_id (csm_pair r);
                cau_attention_score := csm_attn r;
                cau_source_created := cp_s_created (csm_pair r);
                cau_attended_created := cp_t_created (csm_pair r) |})
          (order_by causal_attention_order
             (filter (fun r => Rltb (1 / 100) (csm_attn r)) ss))).

(** *** attention_matrix *)

(** The CTE [indexed]: [ROW_NUMBER() OVER (ORDER BY
    array_position(embedding_ids, e.id))]. *)
Definition indexed (tbl : table) (embedding_ids : list UUID) : list indexed_row :=
  map (fun en : (embedding_row * vector) * Z =>
         {| ix_id := id (fst (fst en));
            ix_embedding := snd (fst en);
            ix_idx := snd en |})
      (with_ordinality
         (order_by (asc_nulls_last (fun ev : embedding_row * vector =>
                                      array_position embedding_ids (id (fst ev))))
            (filter (fun ev => eq_ANY (id (fst ev)) embedding_ids)
                    (embedding_not_null tbl)))).

(** [indexed i1 CROSS JOIN indexed i2] *)
Definition pairs (tbl : table) (embedding_ids : list UUID) : list pairs_row :=
  flat_map (fun i1 =>
    map (fun i2 =>
           {| p_r_id := ix_id i1;
              p_r_idx := ix_idx i1;
              p_c_id := ix_id i2;
              p_c_idx := ix_idx i2;
              p_score := 1 - cosine_distance (ix_embedding i1) (ix_embedding i2) |})
        (indexed tbl embedding_ids))
    (indexed tbl embedding_ids).

(** [PARTITION BY p.r_id] *)
Definition same_row (a b : pairs_row) : bool := N.eqb (p_r_id a) (p_r_id b).

(** The CTE [softmax] of [attention_matrix]. *)
Definition softmax (tbl : table) (embedding_ids : list UUID)
    (temperature : FLOAT) : result (list softmax_row_of_matrix) :=
  exps <- mapM (fun p => e <- exp_scaled EXP (p_score p) temperature ;; Ok (p, e))
               (pairs tbl embedding_ids) ;;
  mapM (fun r => a <- softmax_over same_row exps r ;;
                 Ok {| msm_pair := fst r; msm_attn := a |}) exps.

(** [ORDER BY s.r_idx, s.c_idx] *)
Definition attention_matrix_order (x y : softmax_row_of_matrix) : bool :=
  if Z.ltb (p_r_idx (msm_pair x)) (p_r_idx (msm_pair y)) then true
  else if Z.ltb (p_r_idx (msm_pair y)) (p_r_idx (msm_pair x)) then false
  else Z.leb (p_c_idx (msm_pair x)) (p_c_idx (msm_pair y)).

Definition attention_matrix (tbl : table) (embedding_ids : list UUID)
    (temperature : FLOAT) : result (list attention_matrix_row) :=
  s <- softmax tbl embedding_ids temperature ;;
  Ok (map (fun r =>
             {| am_row_id := p_r_id (msm_pair r);
                am_col_id := p_c_id (msm_pair r);
                am_row_idx := p_r_idx (msm_pair r);
                am_col_idx := p_c_idx (msm_pair r);
                am_attention_value := msm_attn r |})
          (order_by attention_matrix_order s)).

End AttentionRetrieval.

(** ** Reference interpretations of the external operators

    The cosine distance of two vectors, a range-checked exponential and a
    slicing [subvector]: the interpretations under which the statements
    below are exercised on concrete tables. *)

Definition dot (a b : vector) : R :=
  sum_R (map (fun p => fst p * snd p) (combine a b)).

Definition cosine (a b : vector) : R :=
  1 - dot a b / (sqrt (dot a a) * sqrt (dot b b)).

(** [EXP] on [float8]: the result leaves the range of the type when the
    argument exceeds about 709.78 or is below about -745.13; the model
    uses the integer bounds. *)
Definition EXP_float8 (x : R) : result R :=
  if Rlt_dec 709 x then Raise numeric_value_out_of_range
  else if Rlt_dec x (-745) then Raise numeric_value_out_of_range
  else Ok (exp x).

(** [subvector(v, start, count)]: the components [start .. start+count-1]
    (1-based), cut at the end of [v]; raises when no component is left. *)
Definition subvector_slice (v : vector) (start count : Z) : result vector :=
  if Z.ltb count 1 then Raise data_exception
  else
    let dim := Z.of_nat (List.length v) in
    let stop := (if Z.ltb (dim - count) start then dim + 1 else start + count)%Z in
    let start' := (if Z.ltb start 1 then 1 else start)%Z in
    if Z.ltb dim start' then Raise data_exception
    else if Z.leb stop start' then Raise data_exception
    else Ok (firstn (Z.to_nat (stop - start')) (skipn (Z.to_nat (start' - 1)) v)).

(** A full-text search in which a document matches a query when both are
    the same text, with rank 1/10. *)
Definition text_as_is (config text : TEXT) : TEXT := text.

Definition same_text_rank (document query : TEXT) : option R :=
  if String.eqb document query then Some (1 / 10) else None.

(** ** Sample tables *)

Definition doc_a : embedding_row :=
  {| id := 1; content := "a"; embedding := Some [1; 0];
     metadata := [("category"%string, "tutorial"%string)]; created_at := 10 |}.

Definition doc_b : embedding_row :=
  {| id := 2; content := "b"; embedding := Some [0; 1];
     metadata := [("category"%string, "tutorial"%string)]; created_at := 20 |}.

(** A document with the same embedding as [doc_a]. *)
Definition doc_c : embedding_row :=
  {| id := 3; content := "c"; embedding := Some [1; 0];
     metadata := []; created_at := 30 |}.

Definition doc_pending : embedding_row :=
  {| id := 4; content := "pending"; embedding := None;
     metadata := []; created_at := 40 |}.

Definition corpus : table := [doc_a; doc_pending; doc_b; doc_c].

(** A table stored in the reverse of its creation order, whose documents
    are at different distances from the query. *)
Definition corpus_reversed : table := [doc_b; doc_pending; doc_a].

Definition vector_384 : vector := repeat 1 384.

Definition doc_384 : embedding_row :=
  {| id := 5; content := "d"; embedding := Some vector_384;
     metadata := []; created_at := 50 |}.

(** ** Basic facts *)

Lemma Rleb_true (a b : R) : a <= b -> Rleb a b = true.
Proof. intro H; unfold Rleb; destruct (Rle_dec a b); [reflexivity | contradiction]. Qed.

Lemma Rleb_false (a b : R) : b < a -> Rleb a b = false.
Proof. intro H; unfold Rleb; destruct (Rle_dec a b); [lra | reflexivity]. Qed.

Lemma Rleb_le (a b : R) : Rleb a b = true <-> a <= b.
Proof.
  unfold Rleb; destruct (Rle_dec a b); split; intro H; try easy.
Qed.

Lemma Rleb_gt (a b : R) : Rleb a b = false <-> b < a.
Proof.
  unfold Rleb; destruct (Rle_dec a b); split; intro H; try easy; lra.
Qed.

Lemma Rltb_lt (a b : R) : Rltb a b = true <-> a < b.
Proof.
  unfold Rltb; destruct (Rlt_dec a b); split; intro H; try easy.
Qed.

Lemma Rltb_ge (a b : R) : Rltb a b = false <-> b <= a.
Proof.
  unfold Rltb; destruct (Rlt_dec a b); split; intro H; try easy; lra.
Qed.

Lemma fdiv_ok (a b : R) : b <> 0 -> fdiv a b = Ok (a / b).
Proof. intro H; unfold fdiv; destruct (Req_dec_T b 0); [contradiction | reflexivity]. Qed.

Lemma fdiv_inv (a b y : R) : fdiv a b = Ok y -> b <> 0 /\ y = a / b.
Proof.
  unfold fdiv; destruct (Req_dec_T b 0); intro H; [discriminate | ].
  inversion H; auto.
Qed.

Lemma bind_inv {A B : Type} (c : result A) (k : A -> result B) (b : B) :
  bind c k = Ok b -> exists a, c = Ok a /\ k a = Ok b.
Proof. destruct c as [a | e]; simpl; intro H; [eauto | discriminate]. Qed.

Lemma mapM_inv {A B : Type} (f : A -> result B) (l : list A) (l' : list B) :
  mapM f l = Ok l' -> Forall2 (fun x y => f x = Ok y) l l'.
Proof.
  revert l'; induction l as [| x l IH]; simpl; intros l' H.
  - inversion H; constructor.
  - apply bind_inv in H; destruct H as (y & Hy & H).
    apply bind_inv in H; destruct H as (ys & Hys & H).
    inversion H; subst; constructor; auto.
Qed.

Lemma mapM_ok {A B : Type} (f : A -> result B) (l : list A) (l' : list B) :
  Forall2 (fun x y => f x = Ok y) l l' -> mapM f l = Ok l'.
Proof.
  induction 1 as [| x y l l' Hxy _ IH]; simpl; [reflexivity | ].
  rewrite Hxy; simpl; rewrite IH; reflexivity.
Qed.

Lemma mapM_map {A B C : Type} (f : B -> result C) (g : A -> B) (l : list A) :
  mapM f (map g l) = mapM (fun x => f (g x)) l.
Proof.
  induction l as [| x l IH]; simpl; [reflexivity | rewrite IH; reflexivity].
Qed.

Lemma mapM_exists {A B : Type} (f : A -> result B) (l : list A) :
  (forall x, In x l -> exists y, f x = Ok y) -> exists l', mapM f l = Ok l'.
Proof.
  induction l as [| x l IH]; simpl; intro H; [eauto | ].
  destruct (H x) as (y & Hy); [auto | ].
  destruct IH as (l' & Hl'); [auto | ].
  rewrite Hy, Hl'; simpl; eauto.
Qed.

Lemma mapM_raises {A B : Type} (f : A -> result B) (l : list A) (x : A) :
  In x l -> (exists e, f x = Raise e) -> exists e, mapM f l = Raise e.
Proof.
  induction l as [| y l IH]; simpl; intros Hin Hx; [contradiction | ].
  destruct (f y) as [b | e] eqn:Hy; simpl; [ | eauto].
  destruct Hin as [-> | Hin]; [destruct Hx as (e & Hx); congruence | ].
  destruct (IH Hin Hx) as (e & ->); simpl; eauto.
Qed.

Lemma mapM_total {A B : Type} (f : A -> result B) (g : A -> B) (l : list A) :
  (forall x, In x l -> f x = Ok (g x)) -> mapM f l = Ok (map g l).
Proof.
  induction l as [| x l IH]; simpl; intro H; [reflexivity | ].
  rewrite (H x) by auto; simpl; rewrite IH by auto; reflexivity.
Qed.

Lemma Forall2_In_r {A B : Type} (P : A -> B -> Prop) (l : list A) (l' : list B)
    (y : B) :
  Forall2 P l l' -> In y l' -> exists x, In x l /\ P x y.
Proof.
  induction 1 as [| x y' l l' Hxy _ IH]; simpl; [contradiction | ].
  intros [<- | Hin]; [eauto | ].
  destruct (IH Hin) as (x' & Hx' & HP); eauto.
Qed.

(** Rows tagged with a computed value keep their order. *)
Lemma mapM_tagged {A B : Type} (f : A -> result B) (l : list A)
    (l' : list (A * B)) :
  mapM (fun x => y <- f x ;; Ok (x, y)) l = Ok l' ->
  map fst l' = l /\ forall p, In p l' -> f (fst p) = Ok (snd p).
Proof.
  revert l'; induction l as [| x l IH]; simpl; intros l' H.
  - inversion H; subst; simpl; split; [reflexivity | contradiction].
  - apply bind_inv in H; destruct H as (p & Hp & H).
    apply bind_inv in Hp; destruct Hp as (y & Hy & Hp); inversion Hp; subst.
    apply bind_inv in H; destruct H as (ps & Hps & H); inversion H; subst.
    destruct (IH ps Hps) as (Hfst & Hall); simpl; split; [congruence | ].
    intros p [<- | Hin]; [exact Hy | auto].
Qed.

Lemma LIMIT_ok {A : Type} (n : Z) (l : list A) :
  (0 <= n)%Z -> LIMIT n (Ok l) = Ok (firstn (Z.to_nat n) l).
Proof.
  intro Hn; unfold LIMIT.
  destruct (Z.ltb_spec n 0); [lia | ].
  destruct (Z.eqb_spec n 0) as [-> | Hne]; reflexivity.
Qed.

Lemma LIMIT_pos {A : Type} (n : Z) (c : result (list A)) :
  (0 < n)%Z -> LIMIT n c = l <- c ;; Ok (firstn (Z.to_nat n) l).
Proof.
  intro Hn; unfold LIMIT.
  destruct (Z.ltb_spec n 0); [lia | ].
  destruct (Z.eqb_spec n 0); [lia | reflexivity].
Qed.

Lemma LIMIT_negative {A : Type} (n : Z) (c : result (list A)) :
  (n < 0)%Z -> LIMIT n c = Raise invalid_row_count_in_limit_clause.
Proof.
  intro Hn; unfold LIMIT.
  destruct (Z.ltb_spec n 0); [reflexivity | lia].
Qed.

(** A query under [LIMIT] that returns: the limit is 0 and nothing was
    read, or the limit is positive and the rows were computed. *)
Lemma LIMIT_inv {A : Type} (n : Z) (c : result (list A)) (rows : list A) :
  LIMIT n c = Ok rows ->
  (n = 0%Z /\ rows = [])
  \/ ((0 < n)%Z /\ exists l, c = Ok l /\ rows = firstn (Z.to_nat n) l).
Proof.
  unfold LIMIT; destruct (Z.ltb_spec n 0); [discriminate | ].
  destruct (Z.eqb_spec n 0) as [-> | Hne].
  - intro Hb; inversion Hb; left; split; reflexivity.
  - intro Hb; apply bind_inv in Hb; destruct Hb as (l & Hl & Hb).
    inversion Hb; right; split; [lia | eauto].
Qed.

(** Under [LIMIT], rows that cannot fail are cut to the limit. *)
Lemma LIMIT_inv_rows {A : Type} (n : Z) (l rows : list A) :
  LIMIT n (Ok l) = Ok rows -> (0 <= n)%Z /\ rows = firstn (Z.to_nat n) l.
Proof.
  intro H; apply LIMIT_inv in H.
  destruct H as [[-> ->] | (Hn & l' & Hl & ->)].
  - split; [lia | reflexivity].
  - inversion Hl; split; [lia | reflexivity].
Qed.

(** [INT] arithmetic. *)
Lemma int4_inv (x y : Z) :
  int4 x = Ok y -> y = x /\ (-2147483648 <= x <= 2147483647)%Z.
Proof.
  unfold int4.
  destruct (Z.ltb_spec x (-2147483648)) as [Hlo | Hlo]; simpl; [discriminate | ].
  destruct (Z.ltb_spec 2147483647 x) as [Hhi | Hhi]; [discriminate | ].
  intros Hy; injection Hy as <-; lia.
Qed.

Lemma int4_ok (x : Z) :
  (-2147483648 <= x <= 2147483647)%Z -> int4 x = Ok x.
Proof.
  intros Hrange; unfold int4.
  destruct (Z.ltb_spec x (-2147483648)) as [Hlo | Hlo]; [lia | ].
  destruct (Z.ltb_spec 2147483647 x) as [Hhi | Hhi]; [lia | reflexivity].
Qed.

Lemma int4_out_of_range (x : Z) :
  (x < -2147483648 \/ 2147483647 < x)%Z -> int4 x = Raise numeric_value_out_of_range.
Proof.
  intros Hrange; unfold int4.
  destruct (Z.ltb_spec x (-2147483648)) as [Hlo | Hlo]; [reflexivity | ].
  destruct (Z.ltb_spec 2147483647 x) as [Hhi | Hhi]; [reflexivity | lia].
Qed.

Lemma int4_mul_inv (a b p : Z) :
  int4_mul a b = Ok p ->
  p = (a * b)%Z /\ (-2147483648 <= a * b <= 2147483647)%Z.
Proof. apply int4_inv. Qed.

Lemma int4_mul_ok (a b : Z) :
  (-2147483648 <= a * b <= 2147483647)%Z -> int4_mul a b = Ok (a * b)%Z.
Proof. apply int4_ok. Qed.

(** The start of a segment, when it is computed, is
    [(head_idx - 1) * head_dim + 1]. *)
Lemma segment_start_inv (head_idx head_dim s : Z) :
  segment_start head_idx head_dim = Ok s -> s = ((head_idx - 1) * head_dim + 1)%Z.
Proof.
  unfold segment_start, int4_sub, int4_mul, int4_add; intro H.
  apply bind_inv in H; destruct H as (d & Hd & H).
  apply bind_inv in H; destruct H as (m & Hm & H).
  apply int4_inv in Hd, Hm, H.
  destruct Hd as (-> & _), Hm as (-> & _), H as (-> & _); reflexivity.
Qed.

Lemma segment_start_ok (head_idx head_dim : Z) :
  (-2147483648 <= head_idx - 1 <= 2147483647)%Z ->
  (-2147483648 <= (head_idx - 1) * head_dim <= 2147483647)%Z ->
  (-2147483648 <= (head_idx - 1) * head_dim + 1 <= 2147483647)%Z ->
  segment_start head_idx head_dim = Ok ((head_idx - 1) * head_dim + 1)%Z.
Proof.
  intros Hd Hm Hs; unfold segment_start, int4_sub, int4_mul, int4_add.
  rewrite (int4_ok _ Hd); cbn [bind].
  rewrite (int4_ok _ Hm); cbn [bind].
  apply int4_ok; exact Hs.
Qed.

Lemma SUM_nonempty (l : list R) : l <> [] -> SUM l = Some (sum_R l).
Proof. destruct l; [congruence | reflexivity]. Qed.

Lemma sum_R_app (l1 l2 : list R) : sum_R (l1 ++ l2) = sum_R l1 + sum_R l2.
Proof.
  induction l1 as [| x l1 IH]; simpl; [lra | ].
  unfold sum_R in *; simpl; rewrite IH; lra.
Qed.

Lemma sum_R_scale (c : R) (l : list R) :
  sum_R (map (fun x => x * c) l) = sum_R l * c.
Proof.
  induction l as [| x l IH]; unfold sum_R in *; simpl; [lra | rewrite IH; lra].
Qed.

Lemma sum_R_pos (l : list R) :
  l <> [] -> Forall (fun x => 0 < x) l -> 0 < sum_R l.
Proof.
  intros Hne H; induction H as [| x l Hx Hl IH]; [congruence | ].
  unfold sum_R in *; simpl.
  destruct l as [| y l]; [simpl; lra | ].
  assert (0 < fold_right Rplus 0 (y :: l)) by (apply IH; discriminate).
  lra.
Qed.

(** *** [ORDER BY] *)

Section OrderByFacts.
Context {A : Type}.
Variable before : A -> A -> bool.

Lemma insert_row_Permutation (x : A) (l : list A) :
  Permutation (insert_row before x l) (x :: l).
Proof.
  induction l as [| y l IH]; simpl; [reflexivity | ].
  destruct (before x y); [reflexivity | ].
  rewrite IH; apply perm_swap.
Qed.

Lemma order_by_Permutation (l : list A) : Permutation (order_by before l) l.
Proof.
  induction l as [| x l IH]; simpl; [reflexivity | ].
  rewrite insert_row_Permutation; auto.
Qed.

Lemma order_by_length (l : list A) : List.length (order_by before l) = List.length l.
Proof. apply Permutation_length, order_by_Permutation. Qed.

Lemma order_by_In (x : A) (l : list A) : In x (order_by before l) <-> In x l.
Proof.
  split; apply Permutation_in;
    [ | symmetry ]; apply order_by_Permutation.
Qed.

Hypothesis before_total : forall x y, before x y = true \/ before y x = true.
Hypothesis before_trans :
  forall x y z, before x y = true -> before y z = true -> before x z = true.

Let precedes (x y : A) : Prop := before x y = true.

Lemma insert_row_sorted (x : A) (l : list A) :
  StronglySorted precedes l -> StronglySorted precedes (insert_row before x l).
Proof.
  induction 1 as [| y l Hl IH Hy]; simpl.
  - constructor; constructor.
  - destruct (before x y) eqn:Hxy.
    + constructor; [constructor; assumption | ].
      constructor; [exact Hxy | ].
      eapply Forall_impl; [ | exact Hy].
      intros z Hz; eapply before_trans; eassumption.
    + constructor; [assumption | ].
      rewrite (Forall_forall (precedes y)).
      intros z Hz.
      apply (Permutation_in _ (insert_row_Permutation x l)) in Hz.
      destruct Hz as [<- | Hz].
      * destruct (before_total x y) as [H | H]; [congruence | exact H].
      * rewrite Forall_forall in Hy; auto.
Qed.

Lemma order_by_sorted (l : list A) : StronglySorted precedes (order_by before l).
Proof.
  induction l as [| x l IH]; simpl; [constructor | ].
  apply insert_row_sorted; assumption.
Qed.

(** A row that precedes every row of a sorted list is inserted in front. *)
Lemma insert_row_front (x : A) (l : list A) :
  Forall (precedes x) l -> insert_row before x l = x :: l.
Proof.
  destruct l as [| y l]; simpl; [reflexivity | ].
  intro H; inversion H as [| ? ? Hy _]; subst.
  unfold precedes in Hy; rewrite Hy; reflexivity.
Qed.

(** Stability: sorting commutes with any filter. *)
Lemma filter_insert_row (p : A -> bool) (x : A) (l : list A) :
  StronglySorted precedes l ->
  filter p (insert_row before x l) =
  if p x then insert_row before x (filter p l) else filter p l.
Proof.
  induction 1 as [| y l Hl IH Hy]; simpl.
  - destruct (p x); reflexivity.
  - destruct (before x y) eqn:Hxy; simpl.
    + destruct (p x) eqn:Hpx; [ | reflexivity].
      destruct (p y) eqn:Hpy; simpl; [rewrite Hxy; reflexivity | ].
      symmetry; apply insert_row_front.
      rewrite Forall_forall; intros z Hz.
      apply filter_In in Hz; destruct Hz as [Hz _].
      rewrite Forall_forall in Hy.
      eapply before_trans; [exact Hxy | apply Hy; exact Hz].
    + rewrite IH.
      destruct (p y) eqn:Hpy; destruct (p x) eqn:Hpx; simpl;
        try rewrite Hxy; reflexivity.
Qed.

Lemma filter_order_by (p : A -> bool) (l : list A) :
  filter p (order_by before l) = order_by before (filter p l).
Proof.
  induction l as [| x l IH]; simpl; [reflexivity | ].
  rewrite filter_insert_row by apply order_by_sorted.
  rewrite IH; destruct (p x); reflexivity.
Qed.
End OrderByFacts.

Lemma asc_total {A : Type} (key : A -> R) (x y : A) :
  asc key x y = true \/ asc key y x = true.
Proof.
  unfold asc; destruct (Rle_or_lt (key x) (key y));
    [left | right]; apply Rleb_true; lra.
Qed.

Lemma asc_trans {A : Type} (key : A -> R) (x y z : A) :
  asc key x y = true -> asc key y z = true -> asc key x z = true.
Proof. unfold asc; rewrite !Rleb_le; lra. Qed.

Lemma desc_total {A : Type} (key : A -> R) (x y : A) :
  desc key x y = true \/ desc key y x = true.
Proof.
  unfold desc; destruct (Rle_or_lt (key x) (key y));
    [right | left]; apply Rleb_true; lra.
Qed.

Lemma desc_trans {A : Type} (key : A -> R) (x y z : A) :
  desc key x y = true -> desc key y z = true -> desc key x z = true.
Proof. unfold desc; rewrite !Rleb_le; lra. Qed.

Lemma In_firstn {A : Type} (n : nat) (l : list A) (x : A) :
  In x (firstn n l) -> In x l.
Proof.
  intro H; rewrite <- (firstn_skipn n l); apply in_or_app; left; exact H.
Qed.

Lemma StronglySorted_firstn {A : Type} (P : A -> A -> Prop) (n : nat) (l : list A) :
  StronglySorted P l -> StronglySorted P (firstn n l).
Proof.
  intro H; revert n; induction H as [| x l Hl IH Hx]; intro n.
  - rewrite firstn_nil; constructor.
  - destruct n as [| n]; simpl; constructor; [apply IH | ].
    rewrite Forall_forall in *; intros y Hy.
    apply Hx; eapply In_firstn; exact Hy.
Qed.

Lemma StronglySorted_map {A B : Type} (P : B -> B -> Prop) (f : A -> B) (l : list A) :
  StronglySorted (fun x y => P (f x) (f y)) l -> StronglySorted P (map f l).
Proof.
  induction 1 as [| x l Hl IH Hx]; simpl; constructor; [assumption | ].
  rewrite Forall_forall in *; intros y Hy.
  apply in_map_iff in Hy; destruct Hy as (z & <- & Hz); auto.
Qed.

Lemma StronglySorted_impl {A : Type} (P Q : A -> A -> Prop) (l : list A) :
  (forall x y, P x y -> Q x y) -> StronglySorted P l -> StronglySorted Q l.
Proof.
  intros HPQ; induction 1 as [| x l Hl IH Hx]; constructor; [assumption | ].
  eapply Forall_impl; [ | exact Hx]; auto.
Qed.

Lemma embedding_not_null_In (tbl : table) (e : embedding_row) (v : vector) :
  In (e, v) (embedding_not_null tbl) <-> In e tbl /\ embedding e = Some v.
Proof.
  unfold embedding_not_null; rewrite in_flat_map; split.
  - intros (e' & He' & H); destruct (embedding e') as [v' | ] eqn:Hv; simpl in H;
      [ | contradiction].
    destruct H as [H | []]; inversion H; subst; auto.
  - intros (He & Hv); exists e; split; [assumption | ].
    rewrite Hv; left; reflexivity.
Qed.

(** *** [GROUP BY] *)

Lemma jsonb_eqb_eq (a b : JSONB) : jsonb_eqb a b = true <-> a = b.
Proof.
  revert b; induction a as [| [k v] a IH]; intros [| [k' v'] b]; simpl;
    try (split; intro H; [discriminate | congruence]).
  - split; reflexivity.
  - rewrite !andb_true_iff, !String.eqb_eq, IH.
    split; [intros ((-> & ->) & ->); reflexivity | intro H; inversion H; auto].
Qed.

Lemma doc_key_eqb_eq (a b : doc_key) : doc_key_eqb a b = true <-> a = b.
Proof.
  destruct a as [[i c] m], b as [[i' c'] m']; simpl.
  rewrite !andb_true_iff, N.eqb_eq, String.eqb_eq, jsonb_eqb_eq.
  split; [intros ((-> & ->) & ->); reflexivity | intro H; inversion H; auto].
Qed.

Section GroupByFacts.
Context {A K : Type}.
Variable eqb : K -> K -> bool.
Variable key : A -> K.
Hypothesis eqb_eq : forall a b, eqb a b = true <-> a = b.

Lemma eqb_refl (a : K) : eqb a a = true.
Proof. apply eqb_eq; reflexivity. Qed.

Lemma eqb_sym (a b : K) : eqb a b = eqb b a.
Proof.
  destruct (eqb a b) eqn:Hab, (eqb b a) eqn:Hba; try reflexivity.
  - apply eqb_eq in Hab; subst; rewrite eqb_refl in Hba; discriminate.
  - apply eqb_eq in Hba; subst; rewrite eqb_refl in Hab; discriminate.
Qed.

(** Each group holds exactly the rows of its key, in the incoming order. *)
Lemma group_by_rows (rows : list A) (k : K) (g : group A) :
  In (k, g) (group_by eqb key rows) ->
  group_rows g = filter (fun r => eqb (key r) k) rows.
Proof.
  induction rows as [| r rows IH]; simpl; [contradiction | ].
  intros [H | H].
  - inversion H; subst; unfold group_rows; simpl.
    rewrite eqb_refl; reflexivity.
  - apply filter_In in H; destruct H as (H & Hk); simpl in Hk.
    rewrite eqb_sym; destruct (eqb k (key r)); [discriminate | ].
    apply IH; exact H.
Qed.

Lemma group_by_key (rows : list A) (k : K) (g : group A) :
  In (k, g) (group_by eqb key rows) -> k = key (fst g) /\ In (fst g) rows.
Proof.
  induction rows as [| r rows IH]; simpl; [contradiction | ].
  intros [H | H].
  - inversion H; subst; simpl; auto.
  - apply filter_In in H; destruct H as (H & _).
    destruct (IH H); auto.
Qed.
End GroupByFacts.

Lemma order_by_ext {A : Type} (b1 b2 : A -> A -> bool) (l : list A) :
  (forall x y, b1 x y = b2 x y) -> order_by b1 l = order_by b2 l.
Proof.
  intro H; induction l as [| x l IH]; simpl; [reflexivity | ].
  rewrite IH; clear IH.
  induction (order_by b2 l) as [| y l' IH]; simpl; [reflexivity | ].
  rewrite H, IH; reflexivity.
Qed.

Lemma order_by_map {A B : Type} (before : B -> B -> bool) (f : A -> B) (l : list A) :
  order_by before (map f l) = map f (order_by (fun x y => before (f x) (f y)) l).
Proof.
  induction l as [| x l IH]; simpl; [reflexivity | ].
  rewrite IH; clear IH.
  induction (order_by _ l) as [| y l' IH]; simpl; [reflexivity | ].
  destruct (before (f x) (f y)); simpl; [reflexivity | rewrite IH; reflexivity].
Qed.

Lemma filter_map_comm {A B : Type} (p : B -> bool) (f : A -> B) (l : list A) :
  filter p (map f l) = map f (filter (fun x => p (f x)) l).
Proof.
  induction l as [| x l IH]; simpl; [reflexivity | ].
  destruct (p (f x)); simpl; rewrite IH; reflexivity.
Qed.

Lemma filter_idem {A : Type} (p : A -> bool) (l : list A) :
  filter p (filter p l) = filter p l.
Proof.
  induction l as [| x l IH]; simpl; [reflexivity | ].
  destruct (p x) eqn:Hp; simpl; [rewrite Hp, IH | rewrite IH]; reflexivity.
Qed.

(** Rows that come in pairs of the same key: every row is followed by a
    twin of the same key. *)
Section TwinRows.
Context {A K : Type}.
Variable eqb : K -> K -> bool.
Variable key : A -> K.
Variable twin : A -> A.
Hypothesis eqb_eq : forall a b, eqb a b = true <-> a = b.
Hypothesis twin_key : forall r, key (twin r) = key r.

Definition with_twin (r : A) : list A := [r; twin r].

Lemma filter_with_twin (p : A -> bool) (l : list A) :
  (forall r, p (twin r) = p r) ->
  filter p (flat_map with_twin l) = flat_map with_twin (filter p l).
Proof.
  intro Hp; induction l as [| r l IH]; simpl; [reflexivity | ].
  rewrite Hp, IH; destruct (p r); reflexivity.
Qed.

Definition twin_group (g : K * group A) : K * group A :=
  (fst g, (fst (snd g), twin (fst (snd g)) :: flat_map with_twin (snd (snd g)))).

Lemma group_by_with_twin (l : list A) :
  group_by eqb key (flat_map with_twin l) = map twin_group (group_by eqb key l).
Proof.
  induction l as [| r l IH]; simpl; [reflexivity | ].
  rewrite twin_key, (eqb_refl eqb eqb_eq); simpl.
  rewrite filter_idem, IH, filter_map_comm; simpl.
  unfold twin_group at 2; simpl.
  rewrite filter_with_twin by (intro r'; rewrite twin_key; reflexivity).
  reflexivity.
Qed.
End TwinRows.

(** * Properties of the retrieval functions *)

Section SimilaritySearchProperties.
Variable cosine_distance : vector -> vector -> FLOAT.

(** ** semantic_search *)

(** C2 (as amended): for a non-negative [limit_count], [semantic_search]
    returns rows of documents that have an embedding, whose similarity
    [1 - (embedding <=> query)] is at least [min_similarity] and that pass
    the category and agent filters; the rows are in descending order of
    similarity, and there are at most [limit_count] of them.  No order
    by document id is promised among rows of equal similarity. *)
Theorem semantic_search_filtered_sorted_truncated
    (tbl : table) (query_embedding : vector) (limit_count : Z)
    (min_similarity : FLOAT) (category_filter agent_filter : option TEXT) :
  (0 <= limit_count)%Z ->
  exists rows,
    semantic_search cosine_distance tbl query_embedding limit_count
                    min_similarity category_filter agent_filter = Ok rows
    /\ (forall r, In r rows ->
          exists e v,
            In e tbl /\ embedding e = Some v /\ ss_id r = id e
            /\ ss_similarity r = 1 - cosine_distance v query_embedding
            /\ min_similarity <= ss_similarity r
            /\ null_or_equal category_filter
                 (jsonb_get_text (metadata e) "category") = true
            /\ null_or_equal agent_filter
                 (jsonb_get_text (metadata e) "agent") = true)
    /\ StronglySorted (fun a b => ss_similarity b <= ss_similarity a) rows
    /\ (Z.of_nat (List.length rows) <= limit_count)%Z.
Proof.
  intro Hk; unfold semantic_search.
  rewrite LIMIT_ok by assumption; simpl.
  eexists; split; [reflexivity | ].
  set (dist := fun ev : embedding_row * vector =>
                 cosine_distance (snd ev) query_embedding).
  set (kept := filter _ (embedding_not_null tbl)).
  split; [ | split].
  - intros r Hr.
    apply in_map_iff in Hr; destruct Hr as ([e v] & <- & Hev).
    apply In_firstn, order_by_In, filter_In in Hev.
    destruct Hev as (Hin & Hw).
    apply embedding_not_null_In in Hin; destruct Hin as (He & Hv).
    unfold semantic_search_where in Hw; simpl in Hw.
    apply andb_prop in Hw; destruct Hw as (Hw & Hagent).
    apply andb_prop in Hw; destruct Hw as (Hsim & Hcat).
    apply Rleb_le in Hsim.
    exists e, v; simpl; repeat split; assumption.
  - apply StronglySorted_map, StronglySorted_firstn.
    eapply StronglySorted_impl;
      [ | apply (order_by_sorted (asc dist));
          [apply asc_total | apply asc_trans] ].
    intros x y Hxy; simpl.
    unfold asc, dist in Hxy; apply Rleb_le in Hxy; lra.
  - rewrite length_map, length_firstn; lia.
Qed.

(** ** rag_retrieve *)

Lemma coarse_results_exact (tbl : table) (query_embedding : vector)
    (coarse_limit : Z) (coarse : list coarse_row) :
  coarse_results cosine_distance tbl query_embedding coarse_limit = Ok coarse ->
  forall cr, In cr coarse ->
    cr_coarse_sim cr = exact_sim cosine_distance query_embedding cr.
Proof.
  unfold coarse_results; intro H.
  apply bind_inv in H; destruct H as (rows & _ & H).
  inversion H; subst; clear H.
  intros cr Hcr; apply in_map_iff in Hcr; destruct Hcr as (ev & <- & _).
  reflexivity.
Qed.

(** C8: for non-negative limits [rag_retrieve] raises no error; its rows
    are the coarse candidates whose exact similarity, recomputed as
    [1 - (embedding <=> query)], is at least [min_similarity], in
    descending order of that exact similarity and cut to [final_limit];
    when fewer than [final_limit] candidates survive the filter, the rows
    are exactly the survivors. *)
Theorem rag_retrieve_reranks_candidates
    (tbl : table) (query_embedding : vector) (coarse_limit final_limit : Z)
    (min_similarity : FLOAT) :
  (0 <= coarse_limit)%Z -> (0 <= final_limit)%Z ->
  exists coarse rows,
    coarse_results cosine_distance tbl query_embedding coarse_limit = Ok coarse
    /\ rag_retrieve cosine_distance tbl query_embedding coarse_limit
                    final_limit min_similarity = Ok rows
    /\ let exact := exact_sim cosine_distance query_embedding in
       let survivors := filter (fun cr => Rleb min_similarity (exact cr)) coarse in
       rows = map (rag_row cosine_distance query_embedding)
                  (firstn (Z.to_nat final_limit) (order_by (desc exact) survivors))
       /\ (forall r, In r rows -> min_similarity <= rr_exact_similarity r)
       /\ StronglySorted (fun a b => rr_exact_similarity b <= rr_exact_similarity a) rows
       /\ (Z.of_nat (List.length rows) <= final_limit)%Z
       /\ ((Z.of_nat (List.length survivors) < final_limit)%Z ->
           List.length rows = List.length survivors
           /\ Permutation rows
                (map (rag_row cosine_distance query_embedding) survivors)).
Proof.
  intros Hc Hf.
  destruct (coarse_results cosine_distance tbl query_embedding coarse_limit)
    as [coarse | err] eqn:Hcoarse.
  2:{ unfold coarse_results in Hcoarse.
      rewrite LIMIT_ok in Hcoarse by assumption; discriminate. }
  exists coarse; unfold rag_retrieve, rerank; rewrite Hcoarse.
  cbn [bind]; rewrite LIMIT_ok by lia; cbn [bind].
  eexists; split; [reflexivity | split; [reflexivity | ] ].
  assert (Hfilter :
    filter (fun cr => Rleb min_similarity (cr_coarse_sim cr)) coarse =
    filter (fun cr => Rleb min_similarity
                        (exact_sim cosine_distance query_embedding cr)) coarse).
  { apply filter_ext_in; intros cr Hcr.
    rewrite (coarse_results_exact _ _ _ _ Hcoarse cr Hcr); reflexivity. }
  rewrite Hfilter.
  set (exact := exact_sim cosine_distance query_embedding).
  set (survivors := filter _ coarse).
  split; [reflexivity | ].
  split; [ | split; [ | split] ].
  - intros r Hr; apply in_map_iff in Hr; destruct Hr as (cr & <- & Hcr).
    apply In_firstn, order_by_In, filter_In in Hcr.
    destruct Hcr as (_ & Hcr); apply Rleb_le in Hcr; exact Hcr.
  - apply StronglySorted_map, StronglySorted_firstn.
    eapply StronglySorted_impl;
      [ | apply (order_by_sorted (desc exact));
          [apply desc_total | apply desc_trans] ].
    intros x y Hxy; unfold desc in Hxy; apply Rleb_le in Hxy; exact Hxy.
  - rewrite length_map, length_firstn; lia.
  - intro Hlt.
    rewrite firstn_all2 by (rewrite order_by_length; lia).
    split.
    + rewrite length_map, order_by_length; reflexivity.
    + apply Permutation_map, order_by_Permutation.
Qed.

(** ** cluster_search *)

(** The row of the second copy of a duplicated query vector. *)
Definition second_query (r : query_similarity) : query_similarity :=
  {| qs_id := qs_id r;
     qs_content := qs_content r;
     qs_metadata := qs_metadata r;
     qs_query_idx := 2;
     qs_similarity := qs_similarity r |}.

Lemma query_similarities_duplicate (tbl : table) (v : vector) :
  query_similarities cosine_distance tbl [v; v] =
  flat_map (with_twin second_query) (query_similarities cosine_distance tbl [v]).
Proof.
  unfold query_similarities, with_ordinality; simpl combine.
  induction (embedding_not_null tbl) as [| ev l IH]; [reflexivity | ].
  simpl in IH |- *; rewrite IH; reflexivity.
Qed.

Lemma sum_with_twin (l : list query_similarity) :
  sum_R (map qs_similarity (flat_map (with_twin second_query) l)) =
  2 * sum_R (map qs_similarity l).
Proof.
  induction l as [| r l IH]; unfold sum_R in *; simpl; [lra | rewrite IH; lra].
Qed.

Lemma length_with_twin (l : list query_similarity) :
  List.length (flat_map (with_twin second_query) l) = (2 * List.length l)%nat.
Proof. induction l as [| r l IH]; simpl; [reflexivity | rewrite IH; lia]. Qed.

Lemma aggregate_twin_group (g : doc_key * group query_similarity) :
  let a := aggregate_group g in
  let a' := aggregate_group (twin_group second_query g) in
  ag_id a' = ag_id a /\ ag_avg_sim a' = ag_avg_sim a.
Proof.
  destruct g as [k [r rest]]; split; [reflexivity | ].
  unfold aggregate_group, twin_group, AVG_of, group_map, group_rows.
  cbn [ag_avg_sim fst snd map List.length with_twin flat_map app].
  rewrite !length_map, length_with_twin.
  change (sum_R (?x :: ?l)) with (x + sum_R l).
  change (sum_R (?x :: ?l)) with (x + sum_R l).
  rewrite sum_with_twin.
  replace (S (S (2 * List.length rest))) with (2 * S (List.length rest))%nat by lia.
  rewrite mult_INR; change (INR 2) with (1 + 1).
  assert (0 < INR (S (List.length rest))) by (apply lt_0_INR; lia).
  cbn [qs_similarity second_query].
  field; lra.
Qed.

Lemma group_rows_map {A B : Type} (f : A -> B) (g : group A) :
  group_rows (group_map f g) = map f (group_rows g).
Proof. reflexivity. Qed.

(** Every returned row aggregates the pairs of its document whose
    similarity exceeds 0.5, and there is at least one such pair. *)
Lemma cluster_search_survivors (tbl : table) (query_embeddings : list vector)
    (limit_count : Z) (aggregation_method : TEXT) (rows : list cluster_search_row) :
  cluster_search cosine_distance tbl query_embeddings limit_count
                 aggregation_method = Ok rows ->
  forall r, In r rows ->
    let survivors :=
      filter (fun p => doc_key_eqb (qs_key p) (cs_id r, cs_content r, cs_metadata r))
        (filter (fun p => Rltb (1 / 2) (qs_similarity p))
                (query_similarities cosine_distance tbl query_embeddings)) in
    survivors <> []
    /\ Forall (fun p => 1 / 2 < qs_similarity p) survivors
    /\ cs_avg_similarity r =
       sum_R (map qs_similarity survivors) / INR (List.length survivors).
Proof.
  unfold cluster_search; intros H r Hr.
  apply bind_inv in H; destruct H as (ags & Hags & H).
  inversion H; subst; clear H.
  apply LIMIT_inv_rows in Hags; destruct Hags as (_ & ->).
  apply in_map_iff in Hr; destruct Hr as (a & <- & Ha).
  apply In_firstn, order_by_In in Ha.
  unfold aggregated in Ha; apply in_map_iff in Ha.
  destruct Ha as ([k g] & <- & Hg).
  pose proof (group_by_rows doc_key_eqb qs_key doc_key_eqb_eq _ _ _ Hg) as Hrows.
  destruct k as [[i c] m]; cbv zeta.
  cbn [cs_id cs_content cs_metadata cs_avg_similarity aggregate_group
       ag_id ag_content ag_metadata ag_avg_sim fst snd].
  rewrite <- Hrows.
  split; [discriminate | split].
  - rewrite Hrows, Forall_forall; intros p Hp.
    apply filter_In in Hp; destruct Hp as (Hp & _).
    apply filter_In in Hp; destruct Hp as (_ & Hp).
    apply Rltb_lt in Hp; exact Hp.
  - unfold AVG_of; rewrite group_rows_map, length_map; reflexivity.
Qed.

(** C9: with the aggregation ['avg'], the duplicated query list [[v; v]]
    yields the same ranking (documents in the same order with the same
    aggregated similarity) as the single query list [[v]], whatever the
    corpus and the limit; and in both calls every returned row aggregates
    exactly the pairs of its document whose similarity exceeds 0.5, of which
    there is at least one: pairs with similarity at most 0.5 are discarded
    before aggregation, and a document without a surviving pair has no
    row. *)
Theorem cluster_search_duplicate_query_avg
    (tbl : table) (v : vector) (limit_count : Z) :
  cluster_ranking (cluster_search cosine_distance tbl [v; v] limit_count "avg") =
  cluster_ranking (cluster_search cosine_distance tbl [v] limit_count "avg")
  /\ forall query_embeddings, In query_embeddings [[v; v]; [v]] ->
       match cluster_search cosine_distance tbl query_embeddings limit_count "avg" with
       | Ok rows =>
           forall r, In r rows ->
             let survivors :=
               filter (fun p => doc_key_eqb (qs_key p)
                                  (cs_id r, cs_content r, cs_metadata r))
                 (filter (fun p => Rltb (1 / 2) (qs_similarity p))
                    (query_similarities cosine_distance tbl query_embeddings)) in
             survivors <> []
             /\ Forall (fun p => 1 / 2 < qs_similarity p) survivors
             /\ cs_best_similarity r =
                sum_R (map qs_similarity survivors) / INR (List.length survivors)
       | Raise _ => (limit_count < 0)%Z
       end.
Proof.
  split.
  - unfold cluster_search, LIMIT.
    destruct (Z.ltb_spec limit_count 0); [reflexivity | ].
    destruct (Z.eqb limit_count 0); [reflexivity | simpl].
    f_equal; unfold aggregated.
    rewrite query_similarities_duplicate.
    rewrite filter_with_twin by reflexivity.
    rewrite (group_by_with_twin doc_key_eqb qs_key second_query doc_key_eqb_eq)
      by reflexivity.
    rewrite !map_map, !order_by_map, !firstn_map, !map_map.
    set (G := group_by _ _ _).
    rewrite (order_by_ext _
               (fun x y => desc (aggregation_case "avg")
                                (aggregate_group x) (aggregate_group y))).
    + apply map_ext; intro g; cbn [cs_id cs_best_similarity].
      destruct (aggregate_twin_group g) as (Hid & Havg).
      rewrite Hid; change (aggregation_case "avg" ?a) with (ag_avg_sim a).
      rewrite Havg; reflexivity.
    + intros x y; unfold desc.
      change (aggregation_case "avg" ?a) with (ag_avg_sim a).
      destruct (aggregate_twin_group x) as (_ & ->).
      destruct (aggregate_twin_group y) as (_ & ->).
      reflexivity.
  - intros qs _.
    destruct (cluster_search cosine_distance tbl qs limit_count "avg")
      as [rows | err] eqn:Hcs.
    + intros r Hr.
      destruct (cluster_search_survivors _ _ _ _ _ Hcs r Hr) as (Hne & Hall & Havg).
      split; [exact Hne | split; [exact Hall | ] ].
      rewrite <- Havg; clear - Hcs Hr.
      unfold cluster_search in Hcs.
      apply bind_inv in Hcs; destruct Hcs as (ags & _ & H).
      inversion H; subst; clear H.
      apply in_map_iff in Hr; destruct Hr as (a & <- & _); reflexivity.
    + unfold cluster_search, LIMIT in Hcs.
      destruct (Z.ltb_spec limit_count 0); [assumption | ].
      destruct (Z.eqb limit_count 0); discriminate.
Qed.

(** ** mmr_search *)

Lemma neq_ALL_true (x : UUID) (arr : list UUID) :
  neq_ALL x arr = true <-> ~ In x arr.
Proof.
  unfold neq_ALL; rewrite forallb_forall; split.
  - intros H Hin; specialize (H x Hin).
    rewrite N.eqb_refl in H; discriminate.
  - intros H y Hy; destruct (N.eqb_spec x y); [subst; contradiction | reflexivity].
Qed.

Lemma neq_ALL_app (x : UUID) (arr : list UUID) (y : UUID) :
  neq_ALL x (arr ++ [y]) = neq_ALL x arr && negb (N.eqb x y).
Proof.
  unfold neq_ALL; rewrite forallb_app; simpl; rewrite andb_true_r; reflexivity.
Qed.

Lemma embedding_not_null_NoDup (tbl : table) :
  NoDup (map id tbl) -> NoDup (map doc_id (embedding_not_null tbl)).
Proof.
  induction tbl as [| e tbl IH]; simpl; intro H; [constructor | ].
  inversion H as [| ? ? Hnotin Hnd]; subst.
  destruct (embedding e) as [v | ] eqn:Hv; simpl; [ | auto].
  constructor; [ | auto].
  intro Hin; apply Hnotin.
  apply in_map_iff in Hin; destruct Hin as ([e' v'] & Hid & Hin).
  apply embedding_not_null_In in Hin; destruct Hin as (Hin & _).
  unfold doc_id in Hid; simpl in Hid; rewrite <- Hid.
  apply in_map; exact Hin.
Qed.

(** Removing the one row of a given identifier. *)
Lemma filter_other_length {A : Type} (f : A -> UUID) (l : list A) (x : A) :
  NoDup (map f l) -> In x l ->
  S (List.length (filter (fun y => negb (N.eqb (f y) (f x))) l)) = List.length l.
Proof.
  induction l as [| y l IH]; simpl; intros Hnd Hin; [contradiction | ].
  inversion Hnd as [| ? ? Hnotin Hnd']; subst.
  destruct Hin as [-> | Hin].
  - rewrite N.eqb_refl; simpl; f_equal.
    rewrite (proj2 (filter_ext_in_iff _ (fun _ => true) l));
      [ clear; induction l; simpl; congruence | ].
    intros z Hz; destruct (N.eqb_spec (f z) (f x)) as [Heq | ]; [ | reflexivity].
    exfalso; apply Hnotin; rewrite <- Heq; apply in_map; exact Hz.
  - destruct (N.eqb_spec (f y) (f x)) as [Heq | ]; simpl.
    + exfalso; apply Hnotin; rewrite Heq; apply in_map; exact Hin.
    + rewrite IH; auto.
Qed.

Lemma hd_error_order_by {A : Type} (before : A -> A -> bool) (l : list A) :
  match hd_error (order_by before l) with
  | Some x => In x l
  | None => l = []
  end.
Proof.
  pose proof (order_by_Permutation before l) as Hp.
  destruct (order_by before l) as [| x s]; simpl.
  - apply Permutation_nil in Hp; exact Hp.
  - apply (Permutation_in _ Hp); left; reflexivity.
Qed.

(** The candidates of an iteration: the rows with an embedding that are
    not selected yet. *)
Definition mmr_candidates (tbl : table) (selected_ids : list UUID)
    : list (embedding_row * vector) :=
  filter (fun ev => neq_ALL (id (fst ev)) selected_ids) (embedding_not_null tbl).

Lemma mmr_candidates_nil (tbl : table) :
  mmr_candidates tbl [] = embedding_not_null tbl.
Proof.
  unfold mmr_candidates.
  induction (embedding_not_null tbl) as [| ev l IH]; [reflexivity | ].
  cbn [filter]; rewrite IH; reflexivity.
Qed.

Lemma mmr_candidates_select (tbl : table) (selected_ids : list UUID)
    (rec : embedding_row * vector) :
  mmr_candidates tbl (selected_ids ++ [id (fst rec)]) =
  filter (fun ev => negb (N.eqb (doc_id ev) (doc_id rec)))
         (mmr_candidates tbl selected_ids).
Proof.
  unfold mmr_candidates.
  induction (embedding_not_null tbl) as [| ev l IH]; simpl; [reflexivity | ].
  rewrite neq_ALL_app, IH.
  destruct (neq_ALL (id (fst ev)) selected_ids); simpl; [ | reflexivity].
  reflexivity.
Qed.

Lemma mmr_candidates_NoDup (tbl : table) (selected_ids : list UUID) :
  NoDup (map id tbl) -> NoDup (map doc_id (mmr_candidates tbl selected_ids)).
Proof.
  intro H; apply embedding_not_null_NoDup in H.
  unfold mmr_candidates.
  induction (embedding_not_null tbl) as [| ev l IH]; simpl; [constructor | ].
  inversion H as [| ? ? Hnotin Hnd]; subst.
  destruct (neq_ALL (id (fst ev)) selected_ids); simpl; [ | auto].
  constructor; [ | auto].
  intro Hin; apply Hnotin.
  apply in_map_iff in Hin; destruct Hin as (ev' & Hid & Hin).
  apply filter_In in Hin; destruct Hin as (Hin & _).
  rewrite <- Hid; apply in_map; exact Hin.
Qed.

(** Every iteration selects a row with an embedding whose identifier is
    not selected yet. *)
Lemma mmr_loop_distinct (tbl : table) (query_embedding : vector) (lambda : R)
    (n : nat) (selected_ids : list UUID) (selected_embeddings : list vector) :
  let rows := mmr_loop cosine_distance tbl query_embedding lambda n
                       selected_ids selected_embeddings in
  NoDup (map mmr_id rows)
  /\ (forall r, In r rows ->
        ~ In (mmr_id r) selected_ids
        /\ exists e v, In e tbl /\ embedding e = Some v /\ mmr_id r = id e).
Proof.
  revert selected_ids selected_embeddings.
  induction n as [| n IH]; intros sel_ids sel_embs; simpl.
  - split; [constructor | contradiction].
  - unfold mmr_select.
    fold (mmr_candidates tbl sel_ids).
    pose proof (hd_error_order_by
                  (desc (mmr_order_key cosine_distance query_embedding lambda sel_embs))
                  (mmr_candidates tbl sel_ids)) as Hhd.
    destruct (hd_error _) as [rec | ]; [ | split; [constructor | contradiction] ].
    specialize (IH (sel_ids ++ [id (fst rec)]) (sel_embs ++ [snd rec])).
    simpl in IH; destruct IH as (Hdistinct & Hrows).
    simpl; split.
    + constructor; [ | exact Hdistinct].
      intro Hin; apply in_map_iff in Hin; destruct Hin as (r & Hid & Hr).
      destruct (Hrows r Hr) as (Hnot & _); apply Hnot.
      rewrite Hid; apply in_or_app; right; left; reflexivity.
    + intros r [<- | Hr]; simpl.
      * apply filter_In in Hhd; destruct Hhd as (Hin & Hsel).
        apply neq_ALL_true in Hsel; split; [exact Hsel | ].
        destruct rec as [e v]; apply embedding_not_null_In in Hin.
        exists e, v; simpl; tauto.
      * destruct (Hrows r Hr) as (Hnot & Hdoc); split; [ | exact Hdoc].
        intro Hin; apply Hnot, in_or_app; left; exact Hin.
Qed.

(** With unique identifiers every iteration removes exactly one
    candidate, so the loop runs until the limit or the candidates are
    exhausted. *)
Lemma mmr_loop_length (tbl : table) (query_embedding : vector) (lambda : R)
    (n : nat) (selected_ids : list UUID) (selected_embeddings : list vector) :
  NoDup (map id tbl) ->
  List.length (mmr_loop cosine_distance tbl query_embedding lambda n
                        selected_ids selected_embeddings)
  = Nat.min n (List.length (mmr_candidates tbl selected_ids)).
Proof.
  intro Hnd; revert selected_ids selected_embeddings.
  induction n as [| n IH]; intros sel_ids sel_embs; simpl; [reflexivity | ].
  unfold mmr_select.
  fold (mmr_candidates tbl sel_ids).
  pose proof (hd_error_order_by
                (desc (mmr_order_key cosine_distance query_embedding lambda sel_embs))
                (mmr_candidates tbl sel_ids)) as Hhd.
  destruct (hd_error _) as [rec | ].
  - simpl; rewrite IH, mmr_candidates_select.
    rewrite <- (filter_other_length doc_id _ rec
                  (mmr_candidates_NoDup tbl sel_ids Hnd) Hhd).
    reflexivity.
  - rewrite Hhd; reflexivity.
Qed.

(** C10: the rows returned by [mmr_search] carry pairwise distinct
    identifiers, as every iteration excludes the identifiers selected
    before; and when the document identifiers of the table are unique,
    the number of rows is the minimum of [limit_count] and the number of
    rows with a non-null embedding (no row for a non-positive
    [limit_count]). *)
Theorem mmr_search_distinct_ids_and_length
    (tbl : table) (query_embedding : vector) (limit_count : Z) (lambda : R) :
  let rows := mmr_search cosine_distance tbl query_embedding limit_count lambda in
  NoDup (map mmr_id rows)
  /\ (NoDup (map id tbl) ->
      List.length rows =
      Z.to_nat (Z.min limit_count (Z.of_nat (List.length (embedding_not_null tbl))))).
Proof.
  unfold mmr_search; split.
  - apply (mmr_loop_distinct tbl query_embedding lambda (Z.to_nat limit_count) [] []).
  - intro Hnd.
    rewrite (mmr_loop_length tbl query_embedding lambda (Z.to_nat limit_count)
               [] [] Hnd).
    rewrite mmr_candidates_nil; lia.
Qed.

Lemma mmr_order_key_pure_relevance (query_embedding : vector)
    (selected_embeddings : list vector) (ev : embedding_row * vector) :
  mmr_order_key cosine_distance query_embedding 1 selected_embeddings ev =
  1 - cosine_distance (snd ev) query_embedding.
Proof. unfold mmr_order_key; ring. Qed.

Lemma NoDup_app_disjoint {A : Type} (l1 l2 : list A) (a : A) :
  NoDup (l1 ++ l2) -> In a l1 -> ~ In a l2.
Proof.
  induction l1 as [| x l1 IH]; simpl; intros Hnd Hin; [contradiction | ].
  inversion Hnd as [| ? ? Hnotin Hnd']; subst.
  destruct Hin as [-> | Hin]; [ | auto].
  intro H2; apply Hnotin, in_or_app; right; exact H2.
Qed.

Lemma filter_selected_prefix {A : Type} (f : A -> UUID) (l1 l2 : list A) :
  NoDup (map f (l1 ++ l2)) ->
  filter (fun x => neq_ALL (f x) (map f l1)) (l1 ++ l2) = l2.
Proof.
  intro Hnd; rewrite filter_app.
  rewrite map_app in Hnd.
  replace (filter (fun x => neq_ALL (f x) (map f l1)) l1) with (@nil A).
  - simpl.
    rewrite (proj2 (filter_ext_in_iff _ (fun _ => true) l2)).
    + clear; induction l2; simpl; congruence.
    + intros x Hx; apply neq_ALL_true; intro Hin.
      apply (NoDup_app_disjoint _ _ _ Hnd Hin), in_map; exact Hx.
  - symmetry.
    assert (Hall : forall x, In x l1 -> neq_ALL (f x) (map f l1) = false).
    { intros x Hx; destruct (neq_ALL (f x) (map f l1)) eqn:Hn; [ | reflexivity].
      apply neq_ALL_true in Hn; exfalso; apply Hn, in_map; exact Hx. }
    clear Hnd; revert Hall; generalize (map f l1) as sel.
    induction l1 as [| y l1 IH]; simpl; intros sel Hall; [reflexivity | ].
    rewrite Hall by auto; apply IH; auto.
Qed.

Lemma skipn_cons_step {A : Type} (k : nat) (l : list A) (x : A) (rest : list A) :
  skipn k l = x :: rest ->
  firstn (S k) l = firstn k l ++ [x] /\ skipn (S k) l = rest.
Proof.
  revert l; induction k as [| k IH]; intros l H.
  - simpl in H; subst; auto.
  - destruct l as [| y l]; [discriminate | ].
    simpl in H; destruct (IH l H) as (Hf & Hs).
    split; [ | exact Hs].
    change (firstn (S (S k)) (y :: l)) with (y :: firstn (S k) l).
    rewrite Hf; reflexivity.
Qed.

Lemma mmr_loop_pure_relevance (tbl : table) (query_embedding : vector)
    (n k : nat) :
  NoDup (map id tbl) ->
  let ranked :=
    order_by (desc (fun ev : embedding_row * vector =>
                      1 - cosine_distance (snd ev) query_embedding))
             (embedding_not_null tbl) in
  map mmr_id (mmr_loop cosine_distance tbl query_embedding 1 n
                (map doc_id (firstn k ranked)) (map snd (firstn k ranked))) =
  map doc_id (firstn n (skipn k ranked)).
Proof.
  intros Hnd ranked; revert k; induction n as [| n IH]; intro k; [reflexivity | ].
  cbn [mmr_loop]; unfold mmr_select.
  rewrite (order_by_ext _
             (desc (fun ev : embedding_row * vector =>
                      1 - cosine_distance (snd ev) query_embedding)))
    by (intros x y; unfold desc;
        rewrite !mmr_order_key_pure_relevance; reflexivity).
  rewrite <- filter_order_by by (apply desc_total || apply desc_trans).
  fold ranked.
  assert (Hranked : NoDup (map doc_id ranked)).
  { eapply Permutation_NoDup;
      [ | apply embedding_not_null_NoDup; exact Hnd].
    apply Permutation_map; symmetry; apply order_by_Permutation. }
  pose proof (filter_selected_prefix doc_id (firstn k ranked) (skipn k ranked))
    as Hsel.
  rewrite firstn_skipn in Hsel; specialize (Hsel Hranked).
  unfold doc_id at 1 in Hsel; rewrite Hsel; clear Hsel.
  destruct (skipn k ranked) as [| rec rest] eqn:Hskip; [reflexivity | ].
  destruct (skipn_cons_step k ranked rec rest Hskip) as (Hfirst & Hrest).
  cbn [hd_error map firstn mmr_id].
  f_equal.
  specialize (IH (S k)); rewrite Hfirst, Hrest, !map_app in IH.
  exact IH.
Qed.

(** C7: when the document identifiers of the table are unique,
    [mmr_search] with [lambda = 1] returns the documents in exactly the
    order of ranking purely by relevance (descending similarity to the
    query, cut to the limit), whatever the embeddings of the corpus are;
    and, for every [lambda], the penalty term over an empty selected set is
    0, so that the first returned row reports a diversity penalty of 0. *)
Theorem mmr_search_lambda_one_is_relevance_ranking
    (tbl : table) (query_embedding : vector) (limit_count : Z) :
  NoDup (map id tbl) ->
  map mmr_id (mmr_search cosine_distance tbl query_embedding limit_count 1) =
  relevance_ranking cosine_distance tbl query_embedding limit_count
  /\ (forall emb, max_sim_to cosine_distance emb [] = 0)
  /\ (forall lambda r,
        hd_error (mmr_search cosine_distance tbl query_embedding limit_count lambda)
        = Some r ->
        mmr_diversity_penalty r = 0).
Proof.
  intro Hnd; split; [ | split].
  - unfold mmr_search, relevance_ranking.
    apply (mmr_loop_pure_relevance tbl query_embedding (Z.to_nat limit_count) 0 Hnd).
  - reflexivity.
  - intros lambda r; unfold mmr_search.
    destruct (Z.to_nat limit_count) as [| n]; [discriminate | ].
    cbn [mmr_loop].
    destruct (mmr_select _ _ _ _ _ _) as [rec | ]; [ | discriminate].
    intro H; inversion H; subst; reflexivity.
Qed.

End SimilaritySearchProperties.

(** * Properties of the attention functions *)

Section SoftmaxOver.
Context {A B : Type}.
Variable same : A -> A -> bool.
Variable mk : A -> R -> B.
Variable raw : B -> A.
Variable weight : B -> R.
Hypothesis same_refl : forall a, same a a = true.
Hypothesis same_equiv :
  forall a b c, same a b = true -> same c a = same c b.
Hypothesis raw_mk : forall a w, raw (mk a w) = a.
Hypothesis weight_mk : forall a w, weight (mk a w) = w.

(** The window sum of the partition of [r]. *)
Definition partition_total (exps : list (A * R)) (a : A) : R :=
  sum_R (map snd (filter (fun r' => same (fst r') a) exps)).

Lemma partition_total_same (exps : list (A * R)) (a b : A) :
  same a b = true -> partition_total exps a = partition_total exps b.
Proof.
  intro Hab; unfold partition_total; f_equal; f_equal.
  apply filter_ext; intro r'; apply same_equiv; exact Hab.
Qed.

Lemma softmax_over_rows (exps : list (A * R)) (rows : list B) :
  mapM (fun r => a <- softmax_over same exps r ;; Ok (mk (fst r) a)) exps = Ok rows ->
  rows = map (fun r => mk (fst r) (snd r / partition_total exps (fst r))) exps
  /\ forall r, In r exps -> partition_total exps (fst r) <> 0.
Proof.
  intro H; apply mapM_inv in H.
  assert (Hgen : forall l rows',
            Forall2 (fun x y => (a <- softmax_over same exps x ;; Ok (mk (fst x) a)) = Ok y)
                    l rows' ->
            rows' = map (fun r => mk (fst r) (snd r / partition_total exps (fst r))) l
            /\ forall r, In r l -> partition_total exps (fst r) <> 0).
  { induction 1 as [| x y l rows' Hxy _ IH]; simpl; [split; [reflexivity | tauto] | ].
    apply bind_inv in Hxy; destruct Hxy as (a & Ha & Hy).
    unfold softmax_over in Ha; apply fdiv_inv in Ha; destruct Ha as (Hnz & ->).
    inversion Hy; subst; destruct IH as (-> & IH).
    split; [reflexivity | ].
    intros r [<- | Hr]; [exact Hnz | auto]. }
  apply Hgen; exact H.
Qed.

(** Within the partition of any row the weights add up to 1. *)
Lemma softmax_over_normalised (exps : list (A * R)) (rows : list B) :
  mapM (fun r => a <- softmax_over same exps r ;; Ok (mk (fst r) a)) exps = Ok rows ->
  forall r, In r rows ->
    sum_R (map weight (filter (fun r' => same (raw r') (raw r)) rows)) = 1.
Proof.
  intros H r Hr; apply softmax_over_rows in H; destruct H as (-> & Hnz).
  apply in_map_iff in Hr; destruct Hr as ([a e] & <- & Hin).
  rewrite raw_mk; simpl fst.
  specialize (Hnz _ Hin); simpl in Hnz.
  rewrite filter_map_comm, map_map.
  rewrite (filter_ext _ (fun r' : A * R => same (fst r') a))
    by (intro r'; rewrite raw_mk; reflexivity).
  rewrite (map_ext_in _ (fun r' : A * R => snd r' * / partition_total exps a)).
  - rewrite <- (map_map snd (fun x => x * / partition_total exps a)).
    rewrite sum_R_scale.
    fold (partition_total exps a); field; exact Hnz.
  - intros r' Hr'; apply filter_In in Hr'; destruct Hr' as (_ & Hsame).
    rewrite weight_mk, (partition_total_same exps _ _ Hsame); reflexivity.
Qed.

(** With positive exponentials every division is defined. *)
Lemma softmax_over_defined (exps : list (A * R)) :
  (forall r, In r exps -> 0 < snd r) ->
  exists rows,
    mapM (fun r => a <- softmax_over same exps r ;; Ok (mk (fst r) a)) exps = Ok rows.
Proof.
  intro Hpos; apply mapM_exists; intros r Hr.
  unfold softmax_over; rewrite fdiv_ok; [simpl; eauto | ].
  assert (0 < sum_R (map snd (filter (fun r' => same (fst r') (fst r)) exps)));
    [ | lra].
  apply sum_R_pos.
  - intro Hnil; apply map_eq_nil in Hnil.
    assert (Hin : In r (filter (fun r' => same (fst r') (fst r)) exps))
      by (apply filter_In; split; [exact Hr | apply same_refl]).
    rewrite Hnil in Hin; exact Hin.
  - rewrite Forall_forall; intros y Hy.
    apply in_map_iff in Hy; destruct Hy as (r' & <- & Hr').
    apply filter_In in Hr'; apply Hpos; tauto.
Qed.
End SoftmaxOver.

Lemma same_partition_refl (a : raw_scores_row) : same_partition a a = true.
Proof. unfold same_partition; rewrite N.eqb_refl, Z.eqb_refl; reflexivity. Qed.

Lemma same_partition_equiv (a b c : raw_scores_row) :
  same_partition a b = true -> same_partition c a = same_partition c b.
Proof.
  unfold same_partition; rewrite andb_true_iff, N.eqb_eq, Z.eqb_eq.
  intros (-> & ->); reflexivity.
Qed.

Lemma same_query_refl (a : raw_attention_row) : same_query a a = true.
Proof. unfold same_query; apply N.eqb_refl. Qed.

Lemma same_query_equiv (a b c : raw_attention_row) :
  same_query a b = true -> same_query c a = same_query c b.
Proof. unfold same_query; rewrite N.eqb_eq; intros ->; reflexivity. Qed.

Lemma generate_series_In (lo hi h : Z) :
  In h (generate_series lo hi) <-> (lo <= h <= hi)%Z.
Proof.
  unfold generate_series.
  assert (Hgen : forall n lo', In h (series_from lo' n) <->
                               (lo' <= h < lo' + Z.of_nat n)%Z).
  { induction n as [| n IH]; intro lo'; simpl; [lia | ].
    rewrite IH; lia. }
  rewrite Hgen; lia.
Qed.

(** *** Facts for a single block *)

Lemma series_from_length (lo : Z) (n : nat) : List.length (series_from lo n) = n.
Proof. revert lo; induction n as [| n IH]; intro lo; simpl; congruence. Qed.

Lemma with_ordinality_fst {A : Type} (l : list A) : map fst (with_ordinality l) = l.
Proof.
  unfold with_ordinality; generalize 1%Z as lo.
  induction l as [| x l IH]; intro lo; simpl; [reflexivity | ].
  rewrite IH; reflexivity.
Qed.

Lemma with_ordinality_In {A : Type} (l : list A) (x : A) (i : Z) :
  In (x, i) (with_ordinality l) -> (1 <= i <= Z.of_nat (List.length l))%Z.
Proof.
  unfold with_ordinality; intro H; apply in_combine_r in H.
  assert (Hgen : forall n lo, In i (series_from lo n) ->
                              (lo <= i < lo + Z.of_nat n)%Z).
  { induction n as [| n IH]; intro lo; simpl; [contradiction | ].
    intros [<- | Hin]; [lia | apply IH in Hin; lia]. }
  apply Hgen in H; lia.
Qed.

Section SingleKey.
Context {A K : Type}.
Variable eqb : K -> K -> bool.
Variable key : A -> K.
Hypothesis eqb_eq : forall a b, eqb a b = true <-> a = b.

(** When all rows carry the same key, [GROUP BY] yields one group. *)
Lemma group_by_single_key (k : K) (r : A) (rows : list A) :
  (forall r', In r' (r :: rows) -> key r' = k) ->
  group_by eqb key (r :: rows) = [(k, (r, rows))].
Proof.
  intro Hall; simpl.
  rewrite (Hall r) by (left; reflexivity).
  f_equal.
  - f_equal; f_equal.
    rewrite (proj2 (filter_ext_in_iff _ (fun _ => true) rows)).
    + clear; induction rows; simpl; congruence.
    + intros r' Hr'; rewrite (Hall r') by (right; exact Hr').
      apply eqb_eq; reflexivity.
  - destruct (filter _ (group_by eqb key rows)) as [| g gs] eqn:Hf; [reflexivity | ].
    assert (Hg : In g (filter (fun g => negb (eqb (fst g) k)) (group_by eqb key rows)))
      by (rewrite Hf; left; reflexivity).
    apply filter_In in Hg; destruct Hg as (Hg & Hneq).
    destruct g as [k' g]; apply group_by_key in Hg; destruct Hg as (-> & Hin).
    simpl in Hneq; rewrite (Hall (fst g)) in Hneq by (right; exact Hin).
    rewrite (proj2 (eqb_eq k k) eq_refl) in Hneq; discriminate.
Qed.
End SingleKey.

Lemma JOIN_single {A B : Type} (on : A -> B -> bool) (l : list A) (b : B) :
  (forall a, In a l -> on a b = true) ->
  JOIN on l [b] = map (fun a => (a, b)) l.
Proof.
  unfold JOIN; induction l as [| a l IH]; intro H; [reflexivity | ].
  simpl in IH |- *; rewrite (H a) by (left; reflexivity).
  rewrite IH by (intros a' Ha'; apply H; right; exact Ha'); reflexivity.
Qed.

Lemma fold_left_Rmax_bounds (l : list R) (x lo hi : R) :
  lo <= x <= hi -> Forall (fun y => lo <= y <= hi) l ->
  lo <= fold_left Rmax l x <= hi.
Proof.
  intros Hx Hl; revert x Hx; induction Hl as [| y l Hy _ IH]; intros x Hx; simpl;
    [exact Hx | ].
  apply IH; unfold Rmax; destruct (Rle_dec x y); assumption.
Qed.

Lemma sum_R_Permutation (l1 l2 : list R) :
  Permutation l1 l2 -> sum_R l1 = sum_R l2.
Proof.
  unfold sum_R; induction 1; simpl; lra.
Qed.

Lemma StronglySorted_Permutation_eq {A : Type} (P : A -> A -> Prop)
    (l1 l2 : list A) :
  (forall x y, In x l1 -> In y l1 -> P x y -> P y x -> x = y) ->
  StronglySorted P l1 -> StronglySorted P l2 -> Permutation l1 l2 -> l1 = l2.
Proof.
  intros Hanti H1; revert l2 Hanti.
  induction H1 as [| x l1 Hs1 IH Hx]; intros l2 Hanti H2 Hperm.
  - apply Permutation_nil in Hperm; subst; reflexivity.
  - destruct H2 as [| y l2 Hs2 Hy].
    + symmetry in Hperm; apply Permutation_nil in Hperm; discriminate.
    + assert (Hin2 : In y (x :: l1))
        by (apply (Permutation_in _ (Permutation_sym Hperm)); left; reflexivity).
      assert (Hxy : x = y).
      { assert (Hin1 : In x (y :: l2))
          by (apply (Permutation_in _ Hperm); left; reflexivity).
        rewrite Forall_forall in Hx, Hy.
        destruct Hin1 as [-> | Hin1]; [reflexivity | ].
        destruct Hin2 as [-> | Hin2']; [reflexivity | ].
        apply Hanti; simpl; auto. }
      subst y; f_equal; apply IH.
      * intros a b Ha Hb; apply Hanti; simpl; auto.
      * exact Hs2.
      * apply Permutation_cons_inv in Hperm; exact Hperm.
Qed.

Lemma order_by_Permutation_eq {A : Type} (before : A -> A -> bool) (l1 l2 : list A) :
  (forall x y, before x y = true \/ before y x = true) ->
  (forall x y z, before x y = true -> before y z = true -> before x z = true) ->
  (forall x y, In x l1 -> In y l1 ->
     before x y = true -> before y x = true -> x = y) ->
  Permutation l1 l2 -> order_by before l1 = order_by before l2.
Proof.
  intros Htotal Htrans Hanti Hperm.
  apply (StronglySorted_Permutation_eq (fun x y => before x y = true)).
  - intros x y Hx Hy; apply Hanti;
      apply (Permutation_in _ (order_by_Permutation before l1)); assumption.
  - apply order_by_sorted; assumption.
  - apply order_by_sorted; assumption.
  - rewrite !order_by_Permutation; exact Hperm.
Qed.

Definition weight_order : option R -> option R -> bool :=
  desc_nulls_first (fun w => w).

Lemma weight_order_total (x y : option R) :
  weight_order x y = true \/ weight_order y x = true.
Proof.
  unfold weight_order, desc_nulls_first; destruct x as [a | ], y as [b | ]; auto.
  destruct (Rle_or_lt a b); [right | left]; apply Rleb_true; lra.
Qed.

Lemma weight_order_trans (x y z : option R) :
  weight_order x y = true -> weight_order y z = true -> weight_order x z = true.
Proof.
  unfold weight_order, desc_nulls_first;
    destruct x as [a | ], y as [b | ], z as [c | ]; try easy.
  rewrite !Rleb_le; lra.
Qed.

Lemma weight_order_antisym (x y : option R) :
  weight_order x y = true -> weight_order y x = true -> x = y.
Proof.
  unfold weight_order, desc_nulls_first; destruct x as [a | ], y as [b | ]; try easy.
  rewrite !Rleb_le; intros; f_equal; lra.
Qed.

(** The weight sequence of rows ordered by descending weight depends only
    on the weights present. *)
Lemma ordered_weights {A B : Type} (wa : A -> option R) (wb : B -> option R)
    (la : list A) (lb : list B) (n : nat) :
  Permutation (map wa la) (map wb lb) ->
  map wa (firstn n (order_by (desc_nulls_first wa) la)) =
  map wb (firstn n (order_by (desc_nulls_first wb) lb)).
Proof.
  intro Hperm; rewrite <- !firstn_map; f_equal.
  change (desc_nulls_first wa) with (fun x y => weight_order (wa x) (wa y)).
  change (desc_nulls_first wb) with (fun x y => weight_order (wb x) (wb y)).
  rewrite <- !order_by_map.
  apply order_by_Permutation_eq;
    [apply weight_order_total | apply weight_order_trans
     | intros x y _ _; apply weight_order_antisym | exact Hperm].
Qed.

(** When no two rows carry the same weight, the identifiers of the rows
    ordered by descending weight depend only on the (identifier, weight)
    pairs present. *)
Lemma ordered_ids {A B : Type} (ia : A -> UUID) (wa : A -> option R)
    (ib : B -> UUID) (wb : B -> option R) (la : list A) (lb : list B) (n : nat) :
  Permutation (map (fun a => (ia a, wa a)) la) (map (fun b => (ib b, wb b)) lb) ->
  (forall p1 p2, In p1 (map (fun a => (ia a, wa a)) la) ->
                 In p2 (map (fun a => (ia a, wa a)) la) ->
                 snd p1 = snd p2 -> p1 = p2) ->
  map ia (firstn n (order_by (desc_nulls_first wa) la)) =
  map ib (firstn n (order_by (desc_nulls_first wb) lb)).
Proof.
  intros Hperm Hdistinct.
  rewrite <- (map_map (fun a => (ia a, wa a)) fst).
  rewrite <- (map_map (fun b => (ib b, wb b)) fst).
  f_equal; rewrite <- !firstn_map; f_equal.
  change (desc_nulls_first wa)
    with (fun x y => desc_nulls_first (@snd UUID (option R)) (ia x, wa x) (ia y, wa y)).
  change (desc_nulls_first wb)
    with (fun x y => desc_nulls_first (@snd UUID (option R)) (ib x, wb x) (ib y, wb y)).
  rewrite <- !(order_by_map (desc_nulls_first (@snd UUID (option R)))).
  apply order_by_Permutation_eq.
  - intros x y; apply (weight_order_total (snd x) (snd y)).
  - intros x y z; apply (weight_order_trans (snd x) (snd y) (snd z)).
  - intros x y Hx Hy Hxy Hyx; apply Hdistinct; [exact Hx | exact Hy | ].
    apply weight_order_antisym; assumption.
  - exact Hperm.
Qed.

Lemma NoDup_map_injective {A B : Type} (f : A -> B) (l : list A) (x y : A) :
  NoDup (map f l) -> In x l -> In y l -> f x = f y -> x = y.
Proof.
  induction l as [| z l IH]; simpl; intros Hnd Hx Hy Hxy; [contradiction | ].
  inversion Hnd as [| ? ? Hnotin Hnd']; subst.
  destruct Hx as [-> | Hx], Hy as [-> | Hy]; auto.
  - exfalso; apply Hnotin; rewrite Hxy; apply in_map; exact Hy.
  - exfalso; apply Hnotin; rewrite <- Hxy; apply in_map; exact Hx.
Qed.

Section AttentionProperties.
Variable cosine_distance : vector -> vector -> FLOAT.
Variable EXP : FLOAT -> result FLOAT.

(** ** self_attention and cross_attention *)

Lemma softmax_scores_raw (tbl : table) (source_ids : list UUID) (head_count : Z)
    (temperature : R) (ss : list softmax_scores_row) :
  softmax_scores cosine_distance EXP tbl source_ids head_count temperature = Ok ss ->
  map sm_raw ss = raw_scores cosine_distance tbl source_ids head_count.
Proof.
  unfold softmax_scores; intro H.
  apply bind_inv in H; destruct H as (exps & Hexps & H).
  apply (softmax_over_rows same_partition Build_softmax_scores_row) in H.
  destruct H as (-> & _).
  rewrite map_map; simpl.
  apply mapM_tagged in Hexps; destruct Hexps as (Hfst & _); exact Hfst.
Qed.

Lemma softmax_attention_raw (tbl : table) (query_ids : list UUID)
    (key_value_filter : option JSONB) (temperature : R)
    (sa : list softmax_attention_row) :
  softmax_attention cosine_distance EXP tbl query_ids key_value_filter temperature
    = Ok sa ->
  map sx_raw sa = raw_attention cosine_distance tbl query_ids key_value_filter.
Proof.
  unfold softmax_attention; intro H.
  apply bind_inv in H; destruct H as (exps & Hexps & H).
  apply (softmax_over_rows same_query Build_softmax_attention_row) in H.
  destruct H as (-> & _).
  rewrite map_map; simpl.
  apply mapM_tagged in Hexps; destruct Hexps as (Hfst & _); exact Hfst.
Qed.

(** C3: in [self_attention], the weights computed by the CTE
    [softmax_scores] add up to 1 within every partition (one source
    identifier and one head index), and the partition of a row has a row
    for every document of the table with an embedding; every row that
    [self_attention] returns has an attention score above 0.01.  The same
    holds for [cross_attention] with the partitions by query identifier of
    the CTE [softmax_attention], whose targets are the rows of [keys]. *)
Theorem attention_partitions_sum_to_one :
  (forall tbl source_ids head_count temperature ss,
     softmax_scores cosine_distance EXP tbl source_ids head_count temperature = Ok ss ->
     forall r, In r ss ->
       let partition := filter (fun r' => same_partition (sm_raw r') (sm_raw r)) ss in
       sum_R (map sm_attn_score partition) = 1
       /\ forall e v, In e tbl -> embedding e = Some v ->
            In (id e) (map (fun r' => rs_t_id (sm_raw r')) partition))
  /\ (forall tbl source_ids head_count temperature rows,
        self_attention cosine_distance EXP tbl source_ids head_count temperature
          = Ok rows ->
        forall r, In r rows -> 1 / 100 < sa_attention_score r)
  /\ (forall tbl query_ids key_value_filter temperature sa,
        softmax_attention cosine_distance EXP tbl query_ids key_value_filter
                          temperature = Ok sa ->
        forall r, In r sa ->
          let partition := filter (fun r' => same_query (sx_raw r') (sx_raw r)) sa in
          sum_R (map sx_attn_weight partition) = 1
          /\ forall k, In k (keys tbl query_ids key_value_filter) ->
               In (id (fst k)) (map (fun r' => ra_k_id (sx_raw r')) partition))
  /\ (forall tbl query_ids key_value_filter temperature rows,
        cross_attention cosine_distance EXP tbl query_ids key_value_filter
                        temperature = Ok rows ->
        forall r, In r rows -> 1 / 100 < ca_attention_weight r).
Proof.
  split; [ | split; [ | split] ].
  - intros tbl source_ids head_count temperature ss Hss r Hr partition.
    split.
    + unfold softmax_scores in Hss.
      apply bind_inv in Hss; destruct Hss as (exps & _ & Hss).
      apply (softmax_over_normalised same_partition Build_softmax_scores_row
               sm_raw sm_attn_score same_partition_equiv) with (exps := exps);
        auto.
    + intros e v He Hv.
      pose proof (softmax_scores_raw _ _ _ _ _ Hss) as Hraw.
      assert (Hin : In (sm_raw r) (raw_scores cosine_distance tbl source_ids head_count))
        by (rewrite <- Hraw; apply in_map; exact Hr).
      unfold raw_scores in Hin.
      apply in_flat_map in Hin; destruct Hin as (s & Hs & Hin).
      apply in_flat_map in Hin; destruct Hin as (t & Ht & Hin).
      apply in_map_iff in Hin; destruct Hin as (h & Hrow & Hh).
      set (target :=
             {| rs_s_id := id (fst s);
                rs_s_content := content (fst s);
                rs_t_id := id e;
                rs_t_content := content e;
                rs_h_idx := h;
                rs_score := 1 - cosine_distance (snd s) v |}).
      assert (Htarget : In target (map sm_raw ss)).
      { rewrite Hraw; unfold raw_scores.
        apply in_flat_map; exists s; split; [exact Hs | ].
        apply in_flat_map; exists (e, v); split;
          [apply embedding_not_null_In; auto | ].
        apply in_map_iff; exists h; split; [reflexivity | exact Hh]. }
      apply in_map_iff in Htarget; destruct Htarget as (r' & Hr' & Hin').
      apply in_map_iff; exists r'; split; [rewrite Hr'; reflexivity | ].
      apply filter_In; split; [exact Hin' | ].
      rewrite Hr', <- Hrow; unfold same_partition; simpl.
      rewrite N.eqb_refl, Z.eqb_refl; reflexivity.
  - intros tbl source_ids head_count temperature rows H r Hr.
    unfold self_attention in H.
    apply bind_inv in H; destruct H as (ss & _ & H); inversion H; subst; clear H.
    apply in_map_iff in Hr; destruct Hr as (x & <- & Hx).
    apply order_by_In, filter_In in Hx; destruct Hx as (_ & Hx).
    apply Rltb_lt in Hx; exact Hx.
  - intros tbl query_ids flt temperature sa Hsa r Hr partition.
    split.
    + unfold softmax_attention in Hsa.
      apply bind_inv in Hsa; destruct Hsa as (exps & _ & Hsa).
      apply (softmax_over_normalised same_query Build_softmax_attention_row
               sx_raw sx_attn_weight same_query_equiv) with (exps := exps);
        auto.
    + intros k Hk.
      pose proof (softmax_attention_raw _ _ _ _ _ Hsa) as Hraw.
      assert (Hin : In (sx_raw r) (raw_attention cosine_distance tbl query_ids flt))
        by (rewrite <- Hraw; apply in_map; exact Hr).
      unfold raw_attention in Hin.
      apply in_flat_map in Hin; destruct Hin as (q & Hq & Hin).
      apply in_map_iff in Hin; destruct Hin as (k0 & Hrow & Hk0).
      set (target :=
             {| ra_q_id := id (fst q);
                ra_q_content := content (fst q);
                ra_k_id := id (fst k);
                ra_k_content := content (fst k);
                ra_k_meta := metadata (fst k);
                ra_score := 1 - cosine_distance (snd q) (snd k) |}).
      assert (Htarget : In target (map sx_raw sa)).
      { rewrite Hraw; unfold raw_attention.
        apply in_flat_map; exists q; split; [exact Hq | ].
        apply in_map_iff; exists k; split; [reflexivity | exact Hk]. }
      apply in_map_iff in Htarget; destruct Htarget as (r' & Hr' & Hin').
      apply in_map_iff; exists r'; split; [rewrite Hr'; reflexivity | ].
      apply filter_In; split; [exact Hin' | ].
      rewrite Hr', <- Hrow; unfold same_query; simpl.
      apply N.eqb_refl.
  - intros tbl query_ids flt temperature rows H r Hr.
    unfold cross_attention in H.
    apply bind_inv in H; destruct H as (sa & _ & H); inversion H; subst; clear H.
    apply in_map_iff in Hr; destruct Hr as (x & <- & Hx).
    apply order_by_In, filter_In in Hx; destruct Hx as (_ & Hx).
    apply Rltb_lt in Hx; exact Hx.
Qed.

(** ** attention_scores *)

Lemma mapM_length {A B : Type} (f : A -> result B) (l : list A) (l' : list B) :
  mapM f l = Ok l' -> List.length l' = List.length l.
Proof.
  intro H; apply mapM_inv in H.
  induction H; simpl; congruence.
Qed.

Lemma mapM_defined {A B : Type} (f : A -> result B) (l : list A) (l' : list B) :
  mapM f l = Ok l' -> forall x, In x l -> exists y, f x = Ok y.
Proof.
  intro H; apply mapM_inv in H.
  induction H as [| x y l l' Hxy _ IH]; simpl; [contradiction | ].
  intros x' [<- | Hin]; eauto.
Qed.

Lemma mapM_function {A B : Type} (f : A -> result B) (g : A -> B)
    (l : list A) (l' : list B) :
  (forall x y, In x l -> f x = Ok y -> y = g x) -> mapM f l = Ok l' -> l' = map g l.
Proof.
  intros Hfg H; apply mapM_inv in H.
  induction H as [| x y l l' Hxy _ IH]; simpl; [reflexivity | ].
  rewrite (Hfg x y) by (simpl; auto).
  rewrite IH by (intros; apply Hfg; simpl; auto); reflexivity.
Qed.

Lemma div_nullable_ok (a : R) (d : option R) :
  exists w, div_nullable a (NULLIF d 0) = Ok w.
Proof.
  destruct d as [x | ]; simpl; [ | eauto].
  destruct (Req_dec_T x 0); simpl; [eauto | ].
  rewrite fdiv_ok by assumption; simpl; eauto.
Qed.

(** [attention_scores] succeeds whenever the limit is not negative, the
    temperature is not zero and [EXP] is defined on every scaled score. *)
Lemma attention_scores_succeeds (tbl : table) (query_embedding : vector)
    (limit_count : Z) (temperature : R) :
  (0 <= limit_count)%Z -> temperature <> 0 ->
  (forall ev, In ev (embedding_not_null tbl) ->
     exists y, EXP ((1 - cosine_distance (snd ev) query_embedding) / temperature)
               = Ok y) ->
  exists rows,
    attention_scores cosine_distance EXP tbl query_embedding limit_count temperature
      = Ok rows
    /\ List.length rows =
       Nat.min (Z.to_nat limit_count) (List.length (embedding_not_null tbl)).
Proof.
  intros Hlimit Htemp Hexp.
  assert (Hscaled : forall ev, In ev (embedding_not_null tbl) ->
            exists y, exp_scaled EXP (1 - cosine_distance (snd ev) query_embedding)
                                 temperature = Ok y).
  { intros ev Hev; unfold exp_scaled; rewrite fdiv_ok by assumption; simpl; auto. }
  unfold attention_scores, softmax_sum.
  destruct (mapM_exists _ _ Hscaled) as (es & Hes); rewrite Hes; cbn [bind].
  assert (Hrows : exists all, attention_weights cosine_distance EXP tbl query_embedding
                                temperature (SUM es) = Ok all).
  { apply mapM_exists; intros ev Hev.
    destruct (Hscaled ev Hev) as (y & ->); simpl.
    destruct (div_nullable_ok y (SUM es)) as (w & ->); simpl; eauto. }
  destruct Hrows as (all & Hall); rewrite Hall; cbn [bind].
  rewrite LIMIT_ok by lia.
  eexists; split; [reflexivity | ].
  rewrite length_firstn, order_by_length.
  unfold attention_weights in Hall; rewrite (mapM_length _ _ _ Hall); reflexivity.
Qed.

Hypothesis EXP_exact : forall x y, EXP x = Ok y -> y = exp x.

Lemma exp_scaled_inv (score temperature y : R) :
  exp_scaled EXP score temperature = Ok y ->
  temperature <> 0 /\ y = exp (score / temperature).
Proof.
  unfold exp_scaled; intro H.
  apply bind_inv in H; destruct H as (x & Hx & H).
  apply fdiv_inv in Hx; destruct Hx as (Hnz & ->).
  split; [exact Hnz | apply EXP_exact; exact H].
Qed.

Lemma sum_exp_pos {A : Type} (f : A -> R) (l : list A) :
  l <> [] -> 0 < sum_R (map (fun x => exp (f x)) l).
Proof.
  intro Hne; apply sum_R_pos.
  - destruct l; [congruence | discriminate].
  - rewrite Forall_forall; intros y Hy.
    apply in_map_iff in Hy; destruct Hy as (x & <- & _); apply exp_pos.
Qed.

(** The sum of the exponentials over the rows that have an embedding. *)
Definition softmax_total (tbl : table) (query_embedding : vector)
    (temperature : R) : R :=
  sum_R (map (fun ev : embedding_row * vector =>
                exp ((1 - cosine_distance (snd ev) query_embedding) / temperature))
             (embedding_not_null tbl)).

Definition softmax_row (tbl : table) (query_embedding : vector) (temperature : R)
    (ev : embedding_row * vector) : attention_scores_row :=
  {| as_id := id (fst ev);
     as_content := content (fst ev);
     as_raw_score := 1 - cosine_distance (snd ev) query_embedding;
     as_attention_weight :=
       Some (exp ((1 - cosine_distance (snd ev) query_embedding) / temperature)
             / softmax_total tbl query_embedding temperature);
     as_metadata := metadata (fst ev) |}.

Lemma attention_scores_rows (tbl : table) (query_embedding : vector)
    (limit_count : Z) (temperature : R) (rows : list attention_scores_row) :
  attention_scores cosine_distance EXP tbl query_embedding limit_count temperature
    = Ok rows ->
  exists s,
    softmax_sum cosine_distance EXP tbl query_embedding temperature = Ok s
    /\ attention_weights cosine_distance EXP tbl query_embedding temperature s
       = Ok (map (softmax_row tbl query_embedding temperature)
                 (embedding_not_null tbl))
    /\ rows = firstn (Z.to_nat limit_count)
                (order_by (desc_nulls_first as_attention_weight)
                   (map (softmax_row tbl query_embedding temperature)
                        (embedding_not_null tbl))).
Proof.
  unfold attention_scores; intro H.
  apply bind_inv in H; destruct H as (s & Hs & H).
  assert (Hex : exists all,
            attention_weights cosine_distance EXP tbl query_embedding
                              temperature s = Ok all).
  { pose proof Hs as Hsum; unfold softmax_sum in Hsum.
    apply bind_inv in Hsum; destruct Hsum as (es & Hes & _).
    apply mapM_exists; intros ev Hev.
    destruct (mapM_defined _ _ _ Hes ev Hev) as (y & ->); simpl.
    destruct (div_nullable_ok y s) as (w & ->); simpl; eauto. }
  destruct Hex as (all & Hall).
  rewrite Hall in H; cbn [bind] in H.
  apply LIMIT_inv_rows in H; destruct H as (_ & ->).
  exists s; split; [exact Hs | ].
  assert (Heq : all = map (softmax_row tbl query_embedding temperature)
                          (embedding_not_null tbl)).
  { unfold softmax_sum in Hs.
    apply bind_inv in Hs; destruct Hs as (es & Hes & Hs); inversion Hs; subst; clear Hs.
    apply (mapM_function _
             (fun ev : embedding_row * vector =>
                exp ((1 - cosine_distance (snd ev) query_embedding) / temperature)))
      in Hes; [ | intros x y _ Hxy; apply exp_scaled_inv in Hxy; tauto].
    unfold attention_weights in Hall.
    apply (mapM_function _ (softmax_row tbl query_embedding temperature)) in Hall;
      [exact Hall | ].
    intros ev r Hev Hrow.
    apply bind_inv in Hrow; destruct Hrow as (y & Hy & Hrow).
    apply exp_scaled_inv in Hy; destruct Hy as (_ & ->).
    apply bind_inv in Hrow; destruct Hrow as (w & Hw & Hrow).
    inversion Hrow; subst; clear Hrow; unfold softmax_row; f_equal.
    assert (Hne : embedding_not_null tbl <> [])
      by (intro Hnil; rewrite Hnil in Hev; contradiction).
    pose proof (sum_exp_pos
                  (fun ev : embedding_row * vector =>
                     (1 - cosine_distance (snd ev) query_embedding) / temperature)
                  _ Hne) as Hpos.
    cbv beta in Hpos.
    rewrite SUM_nonempty in Hw
      by (intro Hnil; apply map_eq_nil in Hnil; contradiction).
    fold (softmax_total tbl query_embedding temperature) in Hpos, Hw.
    unfold NULLIF in Hw.
    destruct (Req_dec_T (softmax_total tbl query_embedding temperature) 0)
      as [Hz | Hnz]; [lra | ].
    simpl in Hw; rewrite fdiv_ok in Hw by assumption.
    simpl in Hw; inversion Hw; reflexivity. }
  rewrite <- Heq; auto.
Qed.

(** C1 (as amended): [attention_scores] computes the softmax over the
    whole corpus directly, without subtracting a maximum.  With [EXP]
    returning the exponential of its argument: whenever the call returns,
    the weight of every returned document is
    [exp(raw_score / temperature)] divided by the sum of
    [exp((1 - cosine_distance) / temperature)] over all rows of the table
    that have an embedding; and the call fails as soon as [EXP] fails on
    the scaled score [(1 - cosine_distance) / temperature] of one such
    row, whatever the other scores are. *)
Theorem attention_scores_plain_softmax
    (tbl : table) (query_embedding : vector) (limit_count : Z) (temperature : R) :
  (forall rows,
     attention_scores cosine_distance EXP tbl query_embedding limit_count temperature
       = Ok rows ->
     forall r, In r rows ->
       exists e v,
         In e tbl /\ embedding e = Some v /\ as_id r = id e
         /\ as_raw_score r = 1 - cosine_distance v query_embedding
         /\ as_attention_weight r =
            Some (exp (as_raw_score r / temperature)
                  / sum_R (map (fun ev : embedding_row * vector =>
                                  exp ((1 - cosine_distance (snd ev) query_embedding)
                                       / temperature))
                               (embedding_not_null tbl))))
  /\ (forall ev err,
        In ev (embedding_not_null tbl) ->
        EXP ((1 - cosine_distance (snd ev) query_embedding) / temperature)
          = Raise err ->
        exists err',
          attention_scores cosine_distance EXP tbl query_embedding limit_count
                           temperature = Raise err').
Proof.
  split.
  - intros rows H r Hr.
    apply attention_scores_rows in H; destruct H as (s & _ & _ & ->).
    apply In_firstn, order_by_In, in_map_iff in Hr.
    destruct Hr as ([e v] & <- & Hev).
    apply embedding_not_null_In in Hev.
    exists e, v; simpl; tauto.
  - intros ev err Hev Hraise.
    unfold attention_scores, softmax_sum.
    destruct (mapM_raises
                (fun ev : embedding_row * vector =>
                   exp_scaled EXP (1 - cosine_distance (snd ev) query_embedding)
                              temperature)
                (embedding_not_null tbl) ev) as (err' & ->); [exact Hev | | simpl; eauto].
    unfold exp_scaled, fdiv.
    destruct (Req_dec_T temperature 0); simpl; [eauto | rewrite Hraise; eauto].
Qed.

(** [self_attention] and [cross_attention] succeed for a non-zero
    temperature when [EXP] is defined on every scaled score. *)
Lemma self_attention_succeeds (tbl : table) (source_ids : list UUID)
    (head_count : Z) (temperature : R) :
  temperature <> 0 ->
  (forall rs, In rs (raw_scores cosine_distance tbl source_ids head_count) ->
     exists y, EXP (rs_score rs / temperature) = Ok y) ->
  exists ss rows,
    softmax_scores cosine_distance EXP tbl source_ids head_count temperature = Ok ss
    /\ map sm_raw ss = raw_scores cosine_distance tbl source_ids head_count
    /\ self_attention cosine_distance EXP tbl source_ids head_count temperature
       = Ok rows.
Proof.
  intros Htemp Hexp.
  assert (Hss : exists ss, softmax_scores cosine_distance EXP tbl source_ids
                             head_count temperature = Ok ss).
  { unfold softmax_scores.
    destruct (mapM_exists
                (fun rs => e <- exp_scaled EXP (rs_score rs) temperature ;; Ok (rs, e))
                (raw_scores cosine_distance tbl source_ids head_count))
      as (exps & Hexps).
    { intros rs Hrs; destruct (Hexp rs Hrs) as (y & Hy).
      unfold exp_scaled; rewrite fdiv_ok by assumption; simpl; rewrite Hy; simpl; eauto. }
    rewrite Hexps; cbn [bind].
    apply (softmax_over_defined same_partition Build_softmax_scores_row
             same_partition_refl).
    intros r Hr; apply mapM_tagged in Hexps; destruct Hexps as (_ & Hall).
    apply Hall, exp_scaled_inv in Hr; destruct Hr as (_ & ->); apply exp_pos. }
  destruct Hss as (ss & Hss); exists ss.
  unfold self_attention; rewrite Hss; cbn [bind].
  eexists; split; [reflexivity | split; [ | reflexivity] ].
  apply softmax_scores_raw with (temperature := temperature); exact Hss.
Qed.

Lemma cross_attention_succeeds (tbl : table) (query_ids : list UUID)
    (key_value_filter : option JSONB) (temperature : R) :
  temperature <> 0 ->
  (forall ra, In ra (raw_attention cosine_distance tbl query_ids key_value_filter) ->
     exists y, EXP (ra_score ra / temperature) = Ok y) ->
  exists sa rows,
    softmax_attention cosine_distance EXP tbl query_ids key_value_filter temperature
      = Ok sa
    /\ map sx_raw sa = raw_attention cosine_distance tbl query_ids key_value_filter
    /\ cross_attention cosine_distance EXP tbl query_ids key_value_filter temperature
       = Ok rows.
Proof.
  intros Htemp Hexp.
  assert (Hsa : exists sa, softmax_attention cosine_distance EXP tbl query_ids
                             key_value_filter temperature = Ok sa).
  { unfold softmax_attention.
    destruct (mapM_exists
                (fun ra => e <- exp_scaled EXP (ra_score ra) temperature ;; Ok (ra, e))
                (raw_attention cosine_distance tbl query_ids key_value_filter))
      as (exps & Hexps).
    { intros ra Hra; destruct (Hexp ra Hra) as (y & Hy).
      unfold exp_scaled; rewrite fdiv_ok by assumption; simpl; rewrite Hy; simpl; eauto. }
    rewrite Hexps; cbn [bind].
    apply (softmax_over_defined same_query Build_softmax_attention_row
             same_query_refl).
    intros r Hr; apply mapM_tagged in Hexps; destruct Hexps as (_ & Hall).
    apply Hall, exp_scaled_inv in Hr; destruct Hr as (_ & ->); apply exp_pos. }
  destruct Hsa as (sa & Hsa); exists sa.
  unfold cross_attention; rewrite Hsa; cbn [bind].
  eexists; split; [reflexivity | split; [ | reflexivity] ].
  apply softmax_attention_raw with (temperature := temperature); exact Hsa.
Qed.

(** ** flash_attention_search *)

Lemma numbered_row_num (tbl : table) (ne : numbered_row) :
  In ne (numbered_embeddings tbl) ->
  (1 <= ne_row_num ne <= Z.of_nat (List.length (embedding_not_null tbl)))%Z.
Proof.
  unfold numbered_embeddings; intro H.
  apply in_map_iff in H; destruct H as ([ev i] & <- & Hin).
  apply with_ordinality_In in Hin; rewrite order_by_length in Hin; exact Hin.
Qed.

(** The rows of [blocked] when every row falls into block 1. *)
Definition one_block (tbl : table) : list blocked_row :=
  map (fun ne => {| b_ne := ne; b_blk_id := 1 |}) (numbered_embeddings tbl).

Lemma blocked_single_block (tbl : table) (block_size : Z) :
  (Z.of_nat (List.length (embedding_not_null tbl)) <= block_size)%Z ->
  blocked tbl block_size = Ok (one_block tbl).
Proof.
  intro Hsize; unfold blocked, one_block.
  apply mapM_total; intros ne Hne.
  apply numbered_row_num in Hne.
  unfold idiv; destruct (Z.eqb_spec block_size 0); [lia | simpl].
  rewrite Z.quot_small by lia; reflexivity.
Qed.

Lemma one_block_blk_id (tbl : table) (b : blocked_row) :
  In b (one_block tbl) -> b_blk_id b = 1%Z.
Proof.
  unfold one_block; intro H; apply in_map_iff in H.
  destruct H as (ne & <- & _); reflexivity.
Qed.

Lemma one_block_embeddings (tbl : table) :
  Permutation
    (map (fun b => (ne_id (b_ne b), ne_embedding (b_ne b))) (one_block tbl))
    (map (fun ev : embedding_row * vector => (id (fst ev), snd ev))
         (embedding_not_null tbl)).
Proof.
  unfold one_block, numbered_embeddings; rewrite !map_map; simpl.
  rewrite <- (map_map fst (fun ev : embedding_row * vector => (id (fst ev), snd ev))).
  rewrite with_ordinality_fst.
  apply Permutation_map, order_by_Permutation.
Qed.

Lemma Zeqb_eq (a b : Z) : Z.eqb a b = true <-> a = b.
Proof. apply Z.eqb_eq. Qed.

Section OneBlock.
Variable query_embedding : vector.
Variable b0 : blocked_row.
Variable rest : list blocked_row.
Hypothesis single : forall b, In b (b0 :: rest) -> b_blk_id b = 1%Z.

(** The maximum raw score of the block. *)
Definition block_top : R :=
  MAX_of (group_map (raw_score cosine_distance query_embedding) (b0, rest)).

Lemma block_max_single :
  block_max cosine_distance query_embedding (b0 :: rest) = [(1%Z, block_top)].
Proof.
  unfold block_max.
  rewrite (group_by_single_key Z.eqb b_blk_id Zeqb_eq 1%Z b0 rest single).
  reflexivity.
Qed.

Definition stable_row (b : blocked_row) : block_attention_row :=
  {| ba_b := b;
     ba_raw_score := raw_score cosine_distance query_embedding b;
     ba_max_score := block_top;
     ba_stable_exp := exp (raw_score cosine_distance query_embedding b - block_top) |}.

Lemma block_attention_single (ba : list block_attention_row) :
  block_attention cosine_distance EXP query_embedding (b0 :: rest) = Ok ba ->
  ba = map stable_row (b0 :: rest).
Proof.
  unfold block_attention; rewrite block_max_single.
  rewrite JOIN_single
    by (intros b Hb; rewrite (single b Hb); reflexivity).
  rewrite mapM_map; intro H.
  apply (mapM_function _ stable_row) in H; [exact H | ].
  intros b r _ Hr; simpl in Hr.
  apply bind_inv in Hr; destruct Hr as (e & He & Hr).
  apply EXP_exact in He; inversion Hr; subst; reflexivity.
Qed.

Lemma block_sums_single :
  block_sums (map stable_row (b0 :: rest)) =
  [(1%Z, sum_R (map ba_stable_exp (map stable_row (b0 :: rest))))].
Proof.
  unfold block_sums; cbn [map].
  rewrite (group_by_single_key Z.eqb (fun r => b_blk_id (ba_b r)) Zeqb_eq 1%Z).
  - reflexivity.
  - intros r [<- | Hr]; simpl; [apply single; left; reflexivity | ].
    apply in_map_iff in Hr; destruct Hr as (b & <- & Hb).
    simpl; apply single; right; exact Hb.
Qed.

(** The sum of the stabilised exponentials of the block. *)
Definition block_total : R :=
  sum_R (map ba_stable_exp (map stable_row (b0 :: rest))).

Lemma block_total_pos : 0 < block_total.
Proof.
  unfold block_total; rewrite map_map; apply sum_R_pos; [discriminate | ].
  rewrite Forall_forall; intros y Hy.
  apply in_map_iff in Hy; destruct Hy as (b & <- & _); apply exp_pos.
Qed.

Definition flash_row (b : blocked_row) : flash_attention_row :=
  {| fa_id := ne_id (b_ne b);
     fa_content := ne_content (b_ne b);
     fa_attention_score :=
       Some (exp (raw_score cosine_distance query_embedding b - block_top)
             / block_total);
     fa_block_id := b_blk_id b;
     fa_metadata := ne_metadata (b_ne b) |}.

Lemma final_attention_single :
  final_attention (map stable_row (b0 :: rest)) = Ok (map flash_row (b0 :: rest)).
Proof.
  unfold final_attention; rewrite block_sums_single.
  fold block_total.
  rewrite JOIN_single.
  2:{ intros r Hr; apply in_map_iff in Hr; destruct Hr as (b & <- & Hb).
      simpl; rewrite (single b Hb); reflexivity. }
  rewrite !mapM_map; apply mapM_total; intros b Hb; simpl.
  pose proof block_total_pos as Hpos.
  destruct (Req_dec_T block_total 0) as [Hz | Hnz]; [lra | simpl].
  rewrite fdiv_ok by assumption; reflexivity.
Qed.
End OneBlock.

(** The softmax weight at temperature 1 of a document with embedding [v]. *)
Definition unit_softmax (tbl : table) (query_embedding : vector) (v : vector) : R :=
  exp (1 - cosine_distance v query_embedding)
  / sum_R (map (fun ev : embedding_row * vector =>
                  exp (1 - cosine_distance (snd ev) query_embedding))
               (embedding_not_null tbl)).

Lemma softmax_row_unit (tbl : table) (query_embedding : vector)
    (ev : embedding_row * vector) :
  as_attention_weight (softmax_row tbl query_embedding 1 ev) =
  Some (unit_softmax tbl query_embedding (snd ev)).
Proof.
  unfold softmax_row, softmax_total, unit_softmax; simpl.
  rewrite Rdiv_1_r; do 3 f_equal.
  apply map_ext; intro x; rewrite Rdiv_1_r; reflexivity.
Qed.

Lemma flash_row_unit (tbl : table) (query_embedding : vector)
    (b0 : blocked_row) (rest : list blocked_row) (b : blocked_row) :
  one_block tbl = b0 :: rest ->
  fa_attention_score (flash_row query_embedding b0 rest b) =
  Some (unit_softmax tbl query_embedding (ne_embedding (b_ne b))).
Proof.
  intro Hbl; unfold flash_row, unit_softmax; simpl; f_equal.
  set (top := block_top query_embedding b0 rest).
  assert (Htotal :
    block_total query_embedding b0 rest =
    sum_R (map (fun ev : embedding_row * vector =>
                  exp (1 - cosine_distance (snd ev) query_embedding))
               (embedding_not_null tbl)) * exp (- top)).
  { unfold block_total; rewrite <- Hbl, map_map; simpl.
    transitivity
      (sum_R (map (fun p : UUID * vector =>
                     exp (1 - cosine_distance (snd p) query_embedding - top))
                  (map (fun b => (ne_id (b_ne b), ne_embedding (b_ne b)))
                       (one_block tbl)))).
    - rewrite map_map; reflexivity.
    - rewrite (sum_R_Permutation _ _
                 (Permutation_map _ (one_block_embeddings tbl))).
      rewrite map_map; simpl.
      rewrite <- sum_R_scale, map_map.
      f_equal; apply map_ext; intro ev.
      unfold Rminus at 1; rewrite exp_plus; reflexivity. }
  rewrite Htotal.
  unfold raw_score; unfold Rminus at 1; rewrite exp_plus.
  pose proof (exp_pos (- top)) as Hpos.
  assert (Hsum : 0 < sum_R (map (fun ev : embedding_row * vector =>
                                   exp (1 - cosine_distance (snd ev) query_embedding))
                                (embedding_not_null tbl))).
  { rewrite <- Rmult_1_r at 1.
    pose proof (block_total_pos query_embedding b0 rest) as Hbt.
    rewrite Htotal in Hbt.
    destruct (Rle_or_lt (sum_R (map (fun ev : embedding_row * vector =>
                 exp (1 - cosine_distance (snd ev) query_embedding))
                 (embedding_not_null tbl))) 0) as [Hle | Hlt]; [ | lra].
    exfalso; nra. }
  field; lra.
Qed.

Lemma one_block_length (tbl : table) :
  List.length (one_block tbl) = List.length (embedding_not_null tbl).
Proof.
  rewrite <- (length_map (fun b => (ne_id (b_ne b), ne_embedding (b_ne b)))),
    (Permutation_length (one_block_embeddings tbl)), length_map.
  reflexivity.
Qed.

(** The rows of [flash_attention_search] when every row is in block 1. *)
Lemma flash_attention_rows (tbl : table) (query_embedding : vector)
    (block_size limit_count : Z) (frows : list flash_attention_row) :
  (Z.of_nat (List.length (embedding_not_null tbl)) <= block_size)%Z ->
  flash_attention_search cosine_distance EXP tbl query_embedding block_size
                         limit_count = Ok frows ->
  exists fa,
    frows = firstn (Z.to_nat limit_count)
              (order_by (desc_nulls_first fa_attention_score) fa)
    /\ Forall (fun r => fa_block_id r = 1%Z) fa
    /\ Forall2 (fun b r =>
                  fa_id r = ne_id (b_ne b)
                  /\ fa_attention_score r =
                     Some (unit_softmax tbl query_embedding (ne_embedding (b_ne b))))
               (one_block tbl) fa.
Proof.
  intros Hsize H; unfold flash_attention_search in H.
  apply LIMIT_inv in H; destruct H as [[-> ->] | (_ & l & Hl & ->)].
  { (* nothing was read: the rows that would have been computed *)
    exists (map (fun b =>
                   {| fa_id := ne_id (b_ne b);
                      fa_content := ne_content (b_ne b);
                      fa_attention_score :=
                        Some (unit_softmax tbl query_embedding
                                           (ne_embedding (b_ne b)));
                      fa_block_id := 1;
                      fa_metadata := ne_metadata (b_ne b) |})
                (one_block tbl)).
    split; [reflexivity | split].
    - rewrite Forall_forall; intros r Hr.
      apply in_map_iff in Hr; destruct Hr as (b & <- & _); reflexivity.
    - induction (one_block tbl) as [| b bl IH]; simpl; constructor;
        [split; reflexivity | exact IH]. }
  rewrite (blocked_single_block tbl block_size Hsize) in Hl; simpl in Hl.
  apply bind_inv in Hl; destruct Hl as (ba & Hba & Hl).
  apply bind_inv in Hl; destruct Hl as (fa & Hfa & Hl).
  inversion Hl; subst; clear Hl.
  exists fa; split; [reflexivity | ].
  destruct (one_block tbl) as [| b0 rest] eqn:Hbl.
  - simpl in Hba; inversion Hba; subst.
    simpl in Hfa; inversion Hfa; subst.
    split; constructor.
  - assert (Hsingle : forall b, In b (b0 :: rest) -> b_blk_id b = 1%Z)
      by (intros b Hb; apply (one_block_blk_id tbl); rewrite Hbl; exact Hb).
    apply (block_attention_single query_embedding b0 rest Hsingle) in Hba.
    subst ba.
    rewrite (final_attention_single query_embedding b0 rest Hsingle) in Hfa.
    inversion Hfa; subst; clear Hfa.
    split.
    + rewrite Forall_forall; intros r Hr.
      change (In r (map (flash_row query_embedding b0 rest) (b0 :: rest))) in Hr.
      apply in_map_iff in Hr; destruct Hr as (b & <- & Hb).
      simpl; apply Hsingle; exact Hb.
    + change (flash_row query_embedding b0 rest b0
              :: map (flash_row query_embedding b0 rest) rest)
        with (map (flash_row query_embedding b0 rest) (b0 :: rest)).
      generalize (b0 :: rest) as bl.
      induction bl as [| b bl IH]; simpl; constructor; [ | exact IH].
      split; [reflexivity | ].
      apply (flash_row_unit tbl query_embedding b0 rest b Hbl).
Qed.

(** [flash_attention_search] succeeds on a corpus of at most [block_size]
    documents whose cosine distances to the query lie between 0 and 2, when
    [EXP] is defined between -2 and 2. *)
Lemma flash_attention_succeeds (tbl : table) (query_embedding : vector)
    (block_size limit_count : Z) :
  (0 <= limit_count)%Z ->
  (Z.of_nat (List.length (embedding_not_null tbl)) <= block_size)%Z ->
  (forall ev, In ev (embedding_not_null tbl) ->
     0 <= cosine_distance (snd ev) query_embedding <= 2) ->
  (forall x, -2 <= x <= 2 -> exists y, EXP x = Ok y) ->
  exists frows,
    flash_attention_search cosine_distance EXP tbl query_embedding block_size
                           limit_count = Ok frows.
Proof.
  intros Hlimit Hsize Hdist Hexp; unfold flash_attention_search, LIMIT.
  destruct (Z.ltb_spec limit_count 0); [lia | ].
  destruct (Z.eqb limit_count 0); [eauto | ].
  rewrite (blocked_single_block tbl block_size Hsize); cbn [bind].
  assert (Hraw : forall b, In b (one_block tbl) ->
            -1 <= raw_score cosine_distance query_embedding b <= 1).
  { intros b Hb.
    assert (Hin : In (ne_id (b_ne b), ne_embedding (b_ne b))
                     (map (fun ev : embedding_row * vector => (id (fst ev), snd ev))
                          (embedding_not_null tbl))).
    { apply (Permutation_in _ (one_block_embeddings tbl)).
      apply (in_map (fun b => (ne_id (b_ne b), ne_embedding (b_ne b)))); exact Hb. }
    apply in_map_iff in Hin; destruct Hin as (ev & Hev & Hin).
    inversion Hev as [[Hid Hemb]].
    unfold raw_score; rewrite <- Hemb.
    specialize (Hdist ev Hin); lra. }
  destruct (one_block tbl) as [| b0 rest] eqn:Hbl; [simpl; eauto | ].
  assert (Hsingle : forall b, In b (b0 :: rest) -> b_blk_id b = 1%Z)
    by (intros b Hb; apply (one_block_blk_id tbl); rewrite Hbl; exact Hb).
  assert (Hba : block_attention cosine_distance EXP query_embedding (b0 :: rest)
                = Ok (map (stable_row query_embedding b0 rest) (b0 :: rest))).
  { unfold block_attention.
    rewrite (block_max_single query_embedding b0 rest Hsingle).
    rewrite JOIN_single
      by (intros b Hb; rewrite (Hsingle b Hb); reflexivity).
    rewrite mapM_map; apply mapM_total; intros b Hb; cbn [fst snd].
    assert (Htop : -1 <= block_top query_embedding b0 rest <= 1).
    { unfold block_top, MAX_of, group_map; cbn [fst snd].
      apply fold_left_Rmax_bounds; [apply Hraw; left; reflexivity | ].
      rewrite Forall_forall; intros y Hy.
      apply in_map_iff in Hy; destruct Hy as (b' & <- & Hb').
      apply Hraw; right; exact Hb'. }
    destruct (Hexp (raw_score cosine_distance query_embedding b
                    - block_top query_embedding b0 rest)) as (y & Hy);
      [specialize (Hraw b Hb); lra | ].
    rewrite Hy; cbn [bind]; rewrite (EXP_exact _ _ Hy); reflexivity. }
  rewrite Hba; cbn [bind].
  rewrite (final_attention_single query_embedding b0 rest Hsingle); cbn [bind].
  eauto.
Qed.

(** C6: when the corpus has at most [block_size] documents with an
    embedding, [flash_attention_search] puts every one of them into block 1;
    and whenever it and [attention_scores] at temperature 1 both return for
    the same limit, with [EXP] returning the exponential of its argument,
    the weights they return agree rank by rank, every row returned by
    [flash_attention_search] lies in block 1 and carries the weight that
    [attention_scores] computes for the same document, and the two
    functions return the same documents in the same order when no two
    documents are at the same distance from the query. *)
Theorem flash_attention_single_block_matches_attention_scores
    (tbl : table) (query_embedding : vector) (block_size limit_count : Z)
    (frows : list flash_attention_row) (arows : list attention_scores_row) :
  (Z.of_nat (List.length (embedding_not_null tbl)) <= block_size)%Z ->
  flash_attention_search cosine_distance EXP tbl query_embedding block_size
                         limit_count = Ok frows ->
  attention_scores cosine_distance EXP tbl query_embedding limit_count 1 = Ok arows ->
  (exists bl,
     blocked tbl block_size = Ok bl
     /\ List.length bl = List.length (embedding_not_null tbl)
     /\ Forall (fun b => b_blk_id b = 1%Z) bl)
  /\ map fa_attention_score frows = map as_attention_weight arows
  /\ (forall r, In r frows ->
       fa_block_id r = 1%Z
       /\ exists s all a,
            softmax_sum cosine_distance EXP tbl query_embedding 1 = Ok s
            /\ attention_weights cosine_distance EXP tbl query_embedding 1 s = Ok all
            /\ In a all
            /\ as_id a = fa_id r
            /\ as_attention_weight a = fa_attention_score r)
  /\ (NoDup (map (fun ev : embedding_row * vector =>
                    cosine_distance (snd ev) query_embedding)
                 (embedding_not_null tbl)) ->
      map fa_id frows = map as_id arows).
Proof.
  intros Hsize Hflash Hattn.
  apply (flash_attention_rows _ _ _ _ _ Hsize) in Hflash.
  destruct Hflash as (fa & -> & Hblock & Hfa).
  apply attention_scores_rows in Hattn.
  destruct Hattn as (s & Hs & Hall & ->).
  assert (Hweights :
    map fa_attention_score fa =
    map (fun p : UUID * vector => Some (unit_softmax tbl query_embedding (snd p)))
        (map (fun b => (ne_id (b_ne b), ne_embedding (b_ne b))) (one_block tbl))).
  { rewrite map_map; simpl; clear - Hfa.
    induction Hfa as [| b r bl fa (_ & Hw) _ IH]; simpl; [reflexivity | ].
    rewrite Hw, IH; reflexivity. }
  split; [ | split; [ | split] ].
  - exists (one_block tbl); split; [apply blocked_single_block; exact Hsize | ].
    split; [apply one_block_length | ].
    rewrite Forall_forall; apply one_block_blk_id.
  - apply ordered_weights.
    rewrite Hweights, (Permutation_map _ (one_block_embeddings tbl)), !map_map.
    apply Permutation_refl'; apply map_ext; intro ev; simpl.
    symmetry; apply softmax_row_unit.
  - intros r Hr; apply In_firstn, order_by_In in Hr.
    split; [rewrite Forall_forall in Hblock; apply Hblock; exact Hr | ].
    destruct (Forall2_In_r _ _ _ _ Hfa Hr) as (b & Hb & Hid & Hw).
    assert (Hdoc : In (ne_id (b_ne b), ne_embedding (b_ne b))
                      (map (fun ev : embedding_row * vector => (id (fst ev), snd ev))
                           (embedding_not_null tbl))).
    { apply (Permutation_in _ (one_block_embeddings tbl)).
      apply (in_map (fun b => (ne_id (b_ne b), ne_embedding (b_ne b)))); exact Hb. }
    apply in_map_iff in Hdoc; destruct Hdoc as (ev & Hev & Hin).
    inversion Hev as [[Hevid Hevemb]].
    exists s, (map (softmax_row tbl query_embedding 1) (embedding_not_null tbl)),
      (softmax_row tbl query_embedding 1 ev).
    split; [exact Hs | split; [exact Hall | split; [apply in_map; exact Hin | ] ] ].
    split; [simpl; congruence | ].
    rewrite softmax_row_unit, Hw, Hevemb; reflexivity.
  - intro Hdistinct.
    set (tag := fun p : UUID * vector =>
                  (fst p, Some (unit_softmax tbl query_embedding (snd p)))).
    assert (Hflash_pairs :
      map (fun r => (fa_id r, fa_attention_score r)) fa =
      map tag (map (fun b => (ne_id (b_ne b), ne_embedding (b_ne b))) (one_block tbl))).
    { rewrite map_map; unfold tag; simpl; clear - Hfa.
      induction Hfa as [| b r bl fa (Hid & Hw) _ IH]; simpl; [reflexivity | ].
      rewrite Hid, Hw, IH; reflexivity. }
    assert (Hattn_pairs :
      map (fun r => (as_id r, as_attention_weight r))
          (map (softmax_row tbl query_embedding 1) (embedding_not_null tbl)) =
      map tag (map (fun ev : embedding_row * vector => (id (fst ev), snd ev))
                   (embedding_not_null tbl))).
    { rewrite !map_map; apply map_ext; intro ev.
      rewrite softmax_row_unit; reflexivity. }
    apply ordered_ids.
    + rewrite Hflash_pairs, Hattn_pairs.
      apply Permutation_map, one_block_embeddings.
    + intros p1 p2 Hp1 Hp2 Hsnd.
      rewrite Hflash_pairs in Hp1, Hp2.
      apply (Permutation_in _ (Permutation_map tag (one_block_embeddings tbl)))
        in Hp1, Hp2.
      rewrite map_map in Hp1, Hp2.
      apply in_map_iff in Hp1; destruct Hp1 as (ev1 & <- & Hev1).
      apply in_map_iff in Hp2; destruct Hp2 as (ev2 & <- & Hev2).
      unfold tag in Hsnd |- *; simpl in Hsnd |- *.
      inversion Hsnd as [Hunit].
      replace ev2 with ev1; [reflexivity | ].
      apply (NoDup_map_injective _ _ ev1 ev2 Hdistinct Hev1 Hev2).
      unfold unit_softmax in Hunit.
      assert (Hne : embedding_not_null tbl <> [])
        by (intro Hnil; rewrite Hnil in Hev1; contradiction).
      pose proof (sum_exp_pos
                    (fun ev : embedding_row * vector =>
                       1 - cosine_distance (snd ev) query_embedding) _ Hne) as Hpos.
      cbv beta in Hpos.
      apply Rmult_eq_reg_r in Hunit; [ | apply Rinv_neq_0_compat; lra].
      apply exp_inv in Hunit; lra.
Qed.

(** ** Parameter handling *)

(** Every row that the loop of [mmr_search] emits is scored with [lambda]
    as it was passed. *)
Lemma mmr_loop_score (tbl : table) (query_embedding : vector) (lambda : R)
    (n : nat) (selected_ids : list UUID) (selected_embeddings : list vector) :
  forall r,
    In r (mmr_loop cosine_distance tbl query_embedding lambda n
                   selected_ids selected_embeddings) ->
    mmr_mmr_score r
    = lambda * mmr_relevance r - (1 - lambda) * mmr_diversity_penalty r.
Proof.
  revert selected_ids selected_embeddings.
  induction n as [| n IH]; intros selected_ids selected_embeddings r;
    cbn [mmr_loop]; [contradiction | ].
  destruct (mmr_select _ _ _ _ _ _) as [rec | ]; [ | contradiction].
  intros [<- | Hr]; [reflexivity | exact (IH _ _ r Hr)].
Qed.

(** C5 (as amended): [mmr_search] and [attention_scores] do not validate
    their limit, lambda or temperature before they scan the table.
    [mmr_search] returns the empty result for every non-positive limit,
    and it scores every row it returns with [lambda] as given, inside
    [0, 1] or not.  [attention_scores] scans the table
    for its softmax sum before the limit is looked at: once the sum is
    computed, the limit 0 gives the empty result and a negative limit the
    error of [LIMIT], while an error of the scan is the error of the call
    whatever the limit is; and the temperature 0 is a division by zero as
    soon as one row has an embedding, whatever the limit is. *)
Theorem no_parameter_validation :
  (forall tbl query_embedding limit_count lambda,
     (limit_count <= 0)%Z ->
     mmr_search cosine_distance tbl query_embedding limit_count lambda = [])
  /\ (forall tbl query_embedding limit_count lambda r,
        In r (mmr_search cosine_distance tbl query_embedding limit_count lambda) ->
        mmr_mmr_score r
        = lambda * mmr_relevance r - (1 - lambda) * mmr_diversity_penalty r)
  /\ (forall tbl query_embedding temperature s,
        softmax_sum cosine_distance EXP tbl query_embedding temperature = Ok s ->
        attention_scores cosine_distance EXP tbl query_embedding 0 temperature
        = Ok [])
  /\ (forall tbl query_embedding limit_count temperature s,
        (limit_count < 0)%Z ->
        softmax_sum cosine_distance EXP tbl query_embedding temperature = Ok s ->
        attention_scores cosine_distance EXP tbl query_embedding limit_count
                         temperature = Raise invalid_row_count_in_limit_clause)
  /\ (forall tbl query_embedding limit_count temperature e,
        softmax_sum cosine_distance EXP tbl query_embedding temperature = Raise e ->
        attention_scores cosine_distance EXP tbl query_embedding limit_count
                         temperature = Raise e)
  /\ (forall tbl query_embedding limit_count,
        embedding_not_null tbl <> [] ->
        attention_scores cosine_distance EXP tbl query_embedding limit_count 0
        = Raise division_by_zero).
Proof.
  split; [ | split; [ | split; [ | split; [ | split] ] ] ].
  - intros tbl q limit_count lambda Hle; unfold mmr_search.
    replace (Z.to_nat limit_count) with 0%nat by lia; reflexivity.
  - intros tbl q limit_count lambda r Hr.
    exact (mmr_loop_score _ _ _ _ _ _ r Hr).
  - intros tbl q temperature s Hs; unfold attention_scores.
    rewrite Hs; reflexivity.
  - intros tbl q limit_count temperature s Hneg Hs; unfold attention_scores.
    rewrite Hs; cbn [bind]; apply LIMIT_negative; exact Hneg.
  - intros tbl q limit_count temperature e He; unfold attention_scores.
    rewrite He; reflexivity.
  - intros tbl q limit_count Hne; unfold attention_scores, softmax_sum.
    destruct (embedding_not_null tbl) as [| ev l]; [congruence | ].
    simpl; unfold exp_scaled, fdiv.
    destruct (Req_dec_T 0 0); [reflexivity | congruence].
Qed.

End AttentionProperties.

Section MultiheadProperties.
Variable cosine_distance : vector -> vector -> FLOAT.
Variable subvector : vector -> Z -> Z -> result vector.

(** ** multihead_attention_aggregate *)

(** The CTE [per_head_attention] is computed when [subvector] succeeds on
    every segment it is asked for. *)
Lemma per_head_attention_succeeds (tbl : table) (query_embedding : vector)
    (num_heads head_dim : Z) :
  (forall ev h,
     In ev (embedding_not_null tbl) -> (1 <= h <= num_heads)%Z ->
     exists s a b,
       segment_start h head_dim = Ok s
       /\ subvector (snd ev) s head_dim = Ok a
       /\ subvector query_embedding s head_dim = Ok b) ->
  exists pha,
    per_head_attention cosine_distance subvector tbl query_embedding
                       num_heads head_dim = Ok pha.
Proof.
  intro Hsub; apply mapM_exists; intros [ev h] Hin.
  apply in_flat_map in Hin; destruct Hin as (ev' & Hev & Hin).
  apply in_map_iff in Hin; destruct Hin as (h' & Heq & Hh).
  inversion Heq; subst.
  apply generate_series_In in Hh.
  destruct (Hsub ev h Hev Hh) as (s & a & b & Hs & Ha & Hb).
  unfold head_score; cbn [fst snd].
  rewrite Hs; cbn [bind]; rewrite Ha; cbn [bind]; rewrite Hb; cbn [bind]; eauto.
Qed.

(** C4 (as amended): [multihead_attention_aggregate] does not compare
    [num_heads * head_dim] with the dimension of the vectors.  For a limit
    that is not negative it returns whenever [subvector] succeeds on the
    segment of [head_dim] components that starts at
    [(h - 1) * head_dim + 1], of the query and of every stored embedding,
    for every head [h] in [1 .. num_heads]: the product
    [num_heads * head_dim] may differ from the dimension. *)
Theorem multihead_returns_when_segments_exist
    (tbl : table) (query_embedding : vector) (num_heads head_dim limit_count : Z) :
  (0 <= limit_count)%Z ->
  (forall ev h,
     In ev (embedding_not_null tbl) -> (1 <= h <= num_heads)%Z ->
     exists s a b,
       segment_start h head_dim = Ok s
       /\ subvector (snd ev) s head_dim = Ok a
       /\ subvector query_embedding s head_dim = Ok b) ->
  exists rows,
    multihead_attention_aggregate cosine_distance subvector tbl query_embedding
      num_heads head_dim limit_count = Ok rows.
Proof.
  intros Hlimit Hsub; unfold multihead_attention_aggregate.
  destruct (per_head_attention_succeeds tbl query_embedding num_heads head_dim Hsub)
    as (pha & ->).
  cbn [bind]; rewrite LIMIT_ok by exact Hlimit; eauto.
Qed.

End MultiheadProperties.

(** * The statements on concrete tables *)

Lemma EXP_float8_exact (x y : R) : EXP_float8 x = Ok y -> y = exp x.
Proof.
  unfold EXP_float8; destruct (Rlt_dec 709 x); [discriminate | ].
  destruct (Rlt_dec x (-745)); [discriminate | ].
  intro H; inversion H; reflexivity.
Qed.

Lemma EXP_float8_defined (x : R) : -745 <= x <= 709 -> EXP_float8 x = Ok (exp x).
Proof.
  intro H; unfold EXP_float8.
  destruct (Rlt_dec 709 x); [lra | ].
  destruct (Rlt_dec x (-745)); [lra | reflexivity].
Qed.

Lemma EXP_float8_overflow (x : R) :
  709 < x -> EXP_float8 x = Raise numeric_value_out_of_range.
Proof.
  intro H; unfold EXP_float8.
  destruct (Rlt_dec 709 x); [reflexivity | lra].
Qed.

Lemma cosine_same_axis : cosine [1; 0] [1; 0] = 0.
Proof.
  unfold cosine, dot, sum_R; simpl.
  replace (1 * 1 + (0 * 0 + 0)) with 1 by lra.
  rewrite sqrt_1; lra.
Qed.

Lemma cosine_orthogonal : cosine [0; 1] [1; 0] = 1.
Proof.
  unfold cosine, dot, sum_R; simpl.
  replace (0 * 1 + (1 * 0 + 0)) with 0 by lra.
  unfold Rdiv; rewrite Rmult_0_l; lra.
Qed.

(** C2, as stated, fails: [doc_c] and [doc_a] are equally similar to the
    query and are returned in the order of the table, identifier 3 before
    identifier 1. *)
Lemma semantic_search_ties_not_by_id :
  exists rows,
    semantic_search cosine [doc_c; doc_a] [1; 0] 10 (1 / 2) None None = Ok rows
    /\ map ss_id rows = [3; 1]%N
    /\ map ss_similarity rows = [1; 1]
    /\ ~ StronglySorted by_similarity_then_id rows.
Proof.
  unfold semantic_search.
  rewrite LIMIT_ok by lia.
  cbn [embedding_not_null flat_map doc_c doc_a embedding app filter].
  unfold semantic_search_where; cbn [fst snd metadata null_or_equal].
  rewrite !cosine_same_axis.
  rewrite !Rleb_true by lra.
  cbn [andb order_by fold_right insert_row].
  unfold asc; cbn [snd].
  rewrite Rleb_true by lra.
  change (Z.to_nat 10) with 10%nat; cbn [firstn bind map fst snd].
  eexists; split; [reflexivity | ].
  split; [reflexivity | split].
  - cbn [map ss_similarity]; rewrite cosine_same_axis.
    repeat f_equal; lra.
  - intro Hsorted; inversion Hsorted as [| r l _ Hall]; subst.
    inversion Hall as [| r' l' Hrel _]; subst.
    unfold by_similarity_then_id in Hrel; cbn in Hrel.
    destruct Hrel as [Hlt | (_ & Hid)]; [lra | lia].
Qed.

(** The amended statement of C2 on a table of three documents and one
    row without embedding. *)
Lemma semantic_search_filtered_sorted_truncated_witness :
  exists rows,
    semantic_search cosine [doc_a; doc_pending; doc_b; doc_c] [1; 0] 2 (1 / 2)
                    (Some "tutorial"%string) None = Ok rows
    /\ (forall r, In r rows ->
          exists e v,
            In e [doc_a; doc_pending; doc_b; doc_c] /\ embedding e = Some v
            /\ ss_id r = id e
            /\ ss_similarity r = 1 - cosine v [1; 0]
            /\ 1 / 2 <= ss_similarity r
            /\ null_or_equal (Some "tutorial"%string)
                 (jsonb_get_text (metadata e) "category") = true
            /\ null_or_equal None (jsonb_get_text (metadata e) "agent") = true)
    /\ StronglySorted (fun a b => ss_similarity b <= ss_similarity a) rows
    /\ (Z.of_nat (List.length rows) <= 2)%Z.
Proof.
  apply (semantic_search_filtered_sorted_truncated cosine
           [doc_a; doc_pending; doc_b; doc_c] [1; 0] 2 (1 / 2)
           (Some "tutorial"%string) None).
  lia.
Defined.

Lemma corpus_ids_unique : NoDup (map id corpus).
Proof.
  repeat constructor; simpl; intuition discriminate.
Qed.

(** C8 on [corpus]: five coarse candidates, ten final rows at most. *)
Lemma rag_retrieve_reranks_candidates_witness :
  exists coarse rows,
    coarse_results cosine corpus [1; 0] 5 = Ok coarse
    /\ rag_retrieve cosine corpus [1; 0] 5 10 (6 / 10) = Ok rows
    /\ let exact := exact_sim cosine [1; 0] in
       let survivors := filter (fun cr => Rleb (6 / 10) (exact cr)) coarse in
       rows = map (rag_row cosine [1; 0])
                  (firstn (Z.to_nat 10) (order_by (desc exact) survivors))
       /\ (forall r, In r rows -> 6 / 10 <= rr_exact_similarity r)
       /\ StronglySorted (fun a b => rr_exact_similarity b <= rr_exact_similarity a) rows
       /\ (Z.of_nat (List.length rows) <= 10)%Z
       /\ ((Z.of_nat (List.length survivors) < 10)%Z ->
           List.length rows = List.length survivors
           /\ Permutation rows (map (rag_row cosine [1; 0]) survivors)).
Proof.
  apply (rag_retrieve_reranks_candidates cosine corpus [1; 0] 5 10 (6 / 10)); lia.
Defined.

(** C10 on [corpus], whose identifiers are unique. *)
Lemma mmr_search_distinct_ids_and_length_witness :
  let rows := mmr_search cosine corpus [1; 0] 2 (1 / 2) in
  NoDup (map mmr_id rows)
  /\ List.length rows =
     Z.to_nat (Z.min 2 (Z.of_nat (List.length (embedding_not_null corpus)))).
Proof.
  destruct (mmr_search_distinct_ids_and_length cosine corpus [1; 0] 2 (1 / 2))
    as (Hdistinct & Hlength).
  split; [exact Hdistinct | apply Hlength; exact corpus_ids_unique].
Defined.

(** C7 on [corpus], whose identifiers are unique. *)
Lemma mmr_search_lambda_one_is_relevance_ranking_witness :
  map mmr_id (mmr_search cosine corpus [1; 0] 3 1) =
  relevance_ranking cosine corpus [1; 0] 3
  /\ (forall emb, max_sim_to cosine emb [] = 0)
  /\ (forall lambda r,
        hd_error (mmr_search cosine corpus [1; 0] 3 lambda) = Some r ->
        mmr_diversity_penalty r = 0).
Proof.
  apply (mmr_search_lambda_one_is_relevance_ranking cosine corpus [1; 0] 3).
  exact corpus_ids_unique.
Defined.

Lemma corpus_embeddings :
  embedding_not_null corpus = [(doc_a, [1; 0]); (doc_b, [0; 1]); (doc_c, [1; 0])].
Proof. reflexivity. Qed.

(** Tables whose embeddings are unit vectors along an axis of the plane. *)
Definition axis_table (tbl : table) : Prop :=
  forall ev, In ev (embedding_not_null tbl) -> snd ev = [1; 0] \/ snd ev = [0; 1].

Lemma corpus_axis_table : axis_table corpus.
Proof.
  intros ev Hev; rewrite corpus_embeddings in Hev; simpl in Hev.
  destruct Hev as [<- | [<- | [<- | []]]]; simpl; auto.
Qed.

Lemma axis_table_distances (tbl : table) (ev : embedding_row * vector) :
  axis_table tbl -> In ev (embedding_not_null tbl) ->
  0 <= cosine (snd ev) [1; 0] <= 1.
Proof.
  intros Haxis Hev; destruct (Haxis ev Hev) as [-> | ->];
    rewrite ?cosine_same_axis, ?cosine_orthogonal; lra.
Qed.

Lemma axis_table_exp_defined (tbl : table) (temperature : R) :
  axis_table tbl ->
  1 <= temperature \/ temperature <= -1 ->
  forall ev, In ev (embedding_not_null tbl) ->
    exists y, EXP_float8 ((1 - cosine (snd ev) [1; 0]) / temperature) = Ok y.
Proof.
  intros Haxis Ht ev Hev; eexists; apply EXP_float8_defined.
  pose proof (axis_table_distances tbl ev Haxis Hev) as Hscore.
  unfold Rdiv.
  destruct Ht as [Ht | Ht].
  - assert (Hinv : 0 < / temperature <= 1).
    { split; [apply Rinv_0_lt_compat; lra | ].
      rewrite <- Rinv_1; apply Rinv_le_contravar; lra. }
    nra.
  - assert (Hinv : -1 <= / temperature < 0).
    { assert (Hneg : / temperature < 0) by (apply Rinv_lt_0_compat; lra).
      assert (Hone : temperature * / temperature = 1) by (apply Rinv_r; lra).
      split; [nra | exact Hneg]. }
    nra.
Qed.

(** C1, as stated, fails: at the positive temperature 0.001 and the
    one-document corpus [[doc_a]], whose document has similarity 1 to the
    query, [attention_scores] exponentiates the scaled score 1000 itself
    and fails with a range error, where the max-subtracted softmax of the
    specification exponentiates 0 and gives the document the weight 1. *)
Lemma attention_scores_not_max_subtracted :
  0 < 1 / 1000
  /\ embedding_not_null [doc_a] <> []
  /\ attention_scores cosine EXP_float8 [doc_a] [1; 0] 10 (1 / 1000)
     = Raise numeric_value_out_of_range
  /\ max_subtracted_softmax cosine EXP_float8 [doc_a] [1; 0] (1 / 1000)
     = Ok [(1%N, 1)].
Proof.
  split; [lra | split; [discriminate | ] ].
  assert (Hscaled : (1 - cosine [1; 0] [1; 0]) / (1 / 1000) = 1000)
    by (rewrite cosine_same_axis; field).
  split.
  - unfold attention_scores, softmax_sum.
    cbn [embedding_not_null flat_map doc_a embedding app mapM snd].
    unfold exp_scaled; rewrite fdiv_ok by lra.
    cbn [bind]; rewrite Hscaled, EXP_float8_overflow by lra.
    reflexivity.
  - unfold max_subtracted_softmax.
    cbn [embedding_not_null flat_map doc_a embedding app mapM snd].
    rewrite fdiv_ok by lra.
    cbn [bind map snd MAX fold_left mapM]; rewrite Hscaled.
    rewrite EXP_float8_defined by lra.
    cbn [bind map snd fst id].
    replace (1000 - 1000) with 0 by lra; rewrite exp_0.
    unfold sum_R; cbn [fold_right].
    do 3 f_equal; field.
Qed.

(** The amended statement of C1 on [corpus]: at temperature 1 the call
    returns; at temperature 0.001 [EXP] fails on the scaled score of
    [doc_a], and so does the call. *)
Lemma attention_scores_plain_softmax_witness :
  (exists rows r,
     attention_scores cosine EXP_float8 corpus [1; 0] 10 1 = Ok rows
     /\ In r rows
     /\ exists e v,
          In e corpus /\ embedding e = Some v /\ as_id r = id e
          /\ as_raw_score r = 1 - cosine v [1; 0]
          /\ as_attention_weight r =
             Some (exp (as_raw_score r / 1)
                   / sum_R (map (fun ev : embedding_row * vector =>
                                   exp ((1 - cosine (snd ev) [1; 0]) / 1))
                                (embedding_not_null corpus))))
  /\ exists err,
       attention_scores cosine EXP_float8 corpus [1; 0] 10 (1 / 1000) = Raise err.
Proof.
  split.
  - destruct (attention_scores_succeeds cosine EXP_float8 corpus [1; 0] 10 1)
      as (rows & Hrows & Hlen);
      [lia | lra | apply axis_table_exp_defined; [apply corpus_axis_table | lra] | ].
    destruct rows as [| r rows']; [discriminate Hlen | ].
    exists (r :: rows'), r.
    split; [exact Hrows | split; [left; reflexivity | ] ].
    destruct (attention_scores_plain_softmax cosine EXP_float8 EXP_float8_exact
                corpus [1; 0] 10 1) as (Hweights & _).
    apply (Hweights (r :: rows') Hrows r); left; reflexivity.
  - destruct (attention_scores_plain_softmax cosine EXP_float8 EXP_float8_exact
                corpus [1; 0] 10 (1 / 1000)) as (_ & Hfails).
    apply (Hfails (doc_a, [1; 0]) numeric_value_out_of_range).
    + rewrite corpus_embeddings; left; reflexivity.
    + apply EXP_float8_overflow; simpl.
      rewrite cosine_same_axis.
      replace ((1 - 0) / (1 / 1000)) with 1000 by field; lra.
Defined.

(** C5, as stated, fails: with the limit 0 [mmr_search] returns the empty
    result and no error; with [lambda = 2], outside [0, 1], it returns the
    document; and [attention_scores] returns the document at the negative
    temperature -1 and the empty result at the limit 0. *)
Lemma invalid_parameters_accepted :
  mmr_search cosine [doc_a] [1; 0] 0 (1 / 2) = []
  /\ map mmr_id (mmr_search cosine [doc_a] [1; 0] 1 2) = [1%N]
  /\ (exists rows,
        attention_scores cosine EXP_float8 [doc_a] [1; 0] 10 (-1) = Ok rows
        /\ map as_id rows = [1%N])
  /\ attention_scores cosine EXP_float8 [doc_a] [1; 0] 0 1 = Ok [].
Proof.
  assert (Hdefined : forall t, t = 1 \/ t = -1 ->
            forall ev, In ev (embedding_not_null [doc_a]) ->
              exists y, EXP_float8 ((1 - cosine (snd ev) [1; 0]) / t) = Ok y).
  { intros t Ht ev [<- | []]; eexists; apply EXP_float8_defined.
    simpl; rewrite cosine_same_axis.
    destruct Ht as [-> | ->]; lra. }
  split; [reflexivity | split; [reflexivity | split] ].
  - destruct (attention_scores_succeeds cosine EXP_float8 [doc_a] [1; 0] 10 (-1))
      as (rows & Hrows & _); [lia | lra | apply Hdefined; auto | ].
    exists rows; split; [exact Hrows | ].
    destruct (attention_scores_rows cosine EXP_float8 EXP_float8_exact
                _ _ _ _ _ Hrows) as (s & _ & _ & ->).
    reflexivity.
  - destruct (attention_scores_succeeds cosine EXP_float8 [doc_a] [1; 0] 0 1)
      as (rows & Hrows & Hlen); [lia | lra | apply Hdefined; auto | ].
    destruct rows; [exact Hrows | discriminate Hlen].
Qed.

Lemma subvector_slice_segment (v : vector) (h : Z) :
  List.length v = 384%nat -> (1 <= h <= 4)%Z ->
  subvector_slice v ((h - 1) * 48 + 1) 48 =
  Ok (firstn 48 (skipn (Z.to_nat ((h - 1) * 48)) v)).
Proof.
  intros Hlen Hh; unfold subvector_slice; rewrite Hlen.
  change (Z.of_nat 384) with 384%Z.
  destruct (Z.ltb_spec 48 1); [lia | ].
  destruct (Z.ltb_spec (384 - 48) ((h - 1) * 48 + 1)); [lia | ].
  destruct (Z.ltb_spec ((h - 1) * 48 + 1) 1); [lia | ].
  destruct (Z.ltb_spec 384 ((h - 1) * 48 + 1)); [lia | ].
  destruct (Z.leb_spec ((h - 1) * 48 + 1 + 48) ((h - 1) * 48 + 1)); [lia | ].
  do 3 f_equal; lia.
Qed.

(** The four segments of 48 components that 4 heads cut out of the
    document [doc_384] and of the query [vector_384]. *)
Lemma doc_384_segments (ev : embedding_row * vector) (h : Z) :
  In ev (embedding_not_null [doc_384]) -> (1 <= h <= 4)%Z ->
  exists s a b,
    segment_start h 48 = Ok s
    /\ subvector_slice (snd ev) s 48 = Ok a
    /\ subvector_slice vector_384 s 48 = Ok b.
Proof.
  intros [<- | []] Hh; cbn [snd].
  exists ((h - 1) * 48 + 1)%Z; eexists; eexists.
  split; [apply segment_start_ok; lia | ].
  split; apply subvector_slice_segment; (apply repeat_length || exact Hh).
Qed.

(** C4, as stated, fails: with 4 heads of dimension 48 over vectors of
    dimension 384, [4 * 48 = 192] differs from the dimension, and
    [multihead_attention_aggregate] returns the document with its four
    per-head scores instead of failing. *)
Lemma multihead_accepts_dimension_mismatch :
  (4 * 48 <> 384)%Z
  /\ List.length vector_384 = 384%nat
  /\ (forall ev, In ev (embedding_not_null [doc_384]) ->
        List.length (snd ev) = 384%nat)
  /\ exists rows,
       multihead_attention_aggregate cosine subvector_slice [doc_384] vector_384
         4 48 10 = Ok rows
       /\ map mh_id rows = [5%N]
       /\ map (fun r => List.length (mh_head_attentions r)) rows = [4%nat].
Proof.
  assert (Hlen : List.length vector_384 = 384%nat) by apply repeat_length.
  split; [lia | split; [exact Hlen | split] ].
  - intros ev [<- | []]; exact Hlen.
  - unfold multihead_attention_aggregate.
    set (segment := fun h : Z => firstn 48 (skipn (Z.to_nat ((h - 1) * 48)) vector_384)).
    set (row := fun h : Z =>
           {| pha_id := 5%N; pha_content := "d"; pha_metadata := [];
              pha_head_idx := h;
              pha_head_score := 1 - cosine (segment h) (segment h) |}).
    assert (Hpha : per_head_attention cosine subvector_slice [doc_384] vector_384 4 48
                   = Ok (map row [1; 2; 3; 4]%Z)).
    { unfold per_head_attention.
      change (embedding_not_null [doc_384]) with [(doc_384, vector_384)].
      change (generate_series 1 4) with [1; 2; 3; 4]%Z.
      cbn [flat_map map app].
      apply (mapM_total _ (fun eh : (embedding_row * vector) * Z => row (snd eh))).
      intros [ev h] Hin; cbn [map] in Hin.
      assert (Hev : ev = (doc_384, vector_384) /\ (1 <= h <= 4)%Z).
      { destruct Hin as [H | [H | [H | [H | []]]]]; inversion H; split;
          (reflexivity || lia). }
      destruct Hev as (-> & Hh).
      unfold head_score; cbn [fst snd].
      rewrite (segment_start_ok h 48) by lia; cbn [bind].
      rewrite !(subvector_slice_segment vector_384 h Hlen Hh); reflexivity. }
    rewrite Hpha; cbn [bind]; rewrite LIMIT_ok by lia.
    unfold multihead_aggregated.
    cbn [map].
    rewrite (group_by_single_key doc_key_eqb pha_key doc_key_eqb_eq
               (5%N, "d"%string, [])).
    2:{ intros r Hr; destruct Hr as [<- | [<- | [<- | [<- | []]]]]; reflexivity. }
    cbn [map order_by fold_right insert_row].
    eexists; split; [reflexivity | split; reflexivity].
Qed.

(** C4 on the table of [doc_384]: 4 heads of 48 components cover 192 of
    the 384 components, and every segment exists. *)
Lemma multihead_returns_when_segments_exist_witness :
  (4 * 48 <> 384)%Z
  /\ exists rows,
       multihead_attention_aggregate cosine subvector_slice [doc_384] vector_384
         4 48 10 = Ok rows.
Proof.
  split; [lia | ].
  apply (multihead_returns_when_segments_exist cosine subvector_slice
           [doc_384] vector_384 4 48 10); [lia | exact doc_384_segments].
Defined.

Lemma corpus_reversed_embeddings :
  embedding_not_null corpus_reversed = [(doc_b, [0; 1]); (doc_a, [1; 0])].
Proof. reflexivity. Qed.

Lemma corpus_reversed_axis_table : axis_table corpus_reversed.
Proof.
  intros ev Hev; rewrite corpus_reversed_embeddings in Hev; simpl in Hev.
  destruct Hev as [<- | [<- | []]]; simpl; auto.
Qed.

(** C6 on [corpus_reversed]: two documents with an embedding, blocks of
    64. *)
Lemma flash_attention_single_block_matches_attention_scores_witness :
  exists frows arows,
    flash_attention_search cosine EXP_float8 corpus_reversed [1; 0] 64 10 = Ok frows
    /\ attention_scores cosine EXP_float8 corpus_reversed [1; 0] 10 1 = Ok arows
    /\ (exists bl,
          blocked corpus_reversed 64 = Ok bl
          /\ List.length bl = List.length (embedding_not_null corpus_reversed)
          /\ Forall (fun b => b_blk_id b = 1%Z) bl)
    /\ map fa_attention_score frows = map as_attention_weight arows
    /\ (forall r, In r frows ->
         fa_block_id r = 1%Z
         /\ exists s all a,
              softmax_sum cosine EXP_float8 corpus_reversed [1; 0] 1 = Ok s
              /\ attention_weights cosine EXP_float8 corpus_reversed [1; 0] 1 s
                 = Ok all
              /\ In a all
              /\ as_id a = fa_id r
              /\ as_attention_weight a = fa_attention_score r)
    /\ map fa_id frows = map as_id arows.
Proof.
  assert (Hsize :
    (Z.of_nat (List.length (embedding_not_null corpus_reversed)) <= 64)%Z)
    by (rewrite corpus_reversed_embeddings; simpl; lia).
  destruct (flash_attention_succeeds cosine EXP_float8 EXP_float8_exact
              corpus_reversed [1; 0] 64 10) as (frows & Hflash);
    [lia | exact Hsize
     | intros ev Hev;
       pose proof (axis_table_distances _ ev corpus_reversed_axis_table Hev); lra
     | intros x Hx; eexists; apply EXP_float8_defined; lra | ].
  destruct (attention_scores_succeeds cosine EXP_float8 corpus_reversed [1; 0] 10 1)
    as (arows & Hattn & _);
    [lia | lra
     | apply axis_table_exp_defined; [apply corpus_reversed_axis_table | lra] | ].
  exists frows, arows.
  split; [exact Hflash | split; [exact Hattn | ] ].
  destruct (flash_attention_single_block_matches_attention_scores
              cosine EXP_float8 EXP_float8_exact corpus_reversed [1; 0] 64 10
              frows arows Hsize Hflash Hattn)
    as (Hblock & Hweights & Hrows & Hids).
  split; [exact Hblock | split; [exact Hweights | split; [exact Hrows | ] ] ].
  apply Hids.
  rewrite corpus_reversed_embeddings; simpl.
  rewrite cosine_same_axis, cosine_orthogonal.
  repeat constructor; simpl; [intros [H | []]; lra | tauto].
Defined.

Lemma cosine_axes (u v : vector) :
  u = [1; 0] \/ u = [0; 1] -> v = [1; 0] \/ v = [0; 1] -> 0 <= cosine u v <= 1.
Proof.
  intros [-> | ->] [-> | ->]; unfold cosine, dot, sum_R; simpl.
  - replace (1 * 1 + (0 * 0 + 0)) with 1 by lra.
    rewrite sqrt_1; lra.
  - replace (1 * 0 + (0 * 1 + 0)) with 0 by lra.
    unfold Rdiv; rewrite Rmult_0_l; lra.
  - replace (0 * 1 + (1 * 0 + 0)) with 0 by lra.
    unfold Rdiv; rewrite Rmult_0_l; lra.
  - replace (0 * 0 + (1 * 1 + 0)) with 1 by lra.
    rewrite sqrt_1; lra.
Qed.

(** C3 on [corpus]: self-attention of the documents 1 and 2 with two
    heads. *)
Lemma attention_partitions_sum_to_one_witness :
  exists ss r,
    softmax_scores cosine EXP_float8 corpus [1; 2]%N 2 1 = Ok ss
    /\ In r ss
    /\ sum_R (map sm_attn_score
                (filter (fun r' => same_partition (sm_raw r') (sm_raw r)) ss)) = 1
    /\ forall e v, In e corpus -> embedding e = Some v ->
         In (id e)
            (map (fun r' => rs_t_id (sm_raw r'))
                 (filter (fun r' => same_partition (sm_raw r') (sm_raw r)) ss)).
Proof.
  destruct (self_attention_succeeds cosine EXP_float8 EXP_float8_exact
              corpus [1; 2]%N 2 1) as (ss & rows & Hss & Hraw & _).
  - lra.
  - intros rs Hrs; eexists; apply EXP_float8_defined.
    unfold raw_scores in Hrs.
    apply in_flat_map in Hrs; destruct Hrs as (s & Hs & Hrs).
    apply in_flat_map in Hrs; destruct Hrs as (t & Ht & Hrs).
    apply in_map_iff in Hrs; destruct Hrs as (h & <- & _).
    apply filter_In in Hs; destruct Hs as (Hs & _).
    pose proof (cosine_axes (snd s) (snd t)
                  (corpus_axis_table s Hs) (corpus_axis_table t Ht)).
    simpl; lra.
  - destruct ss as [| r ss'].
    + apply (f_equal (@List.length raw_scores_row)) in Hraw.
      rewrite length_map in Hraw; discriminate Hraw.
    + exists (r :: ss'), r.
      split; [exact Hss | split; [left; reflexivity | ] ].
      destruct (attention_partitions_sum_to_one cosine EXP_float8) as (Hself & _).
      apply (Hself corpus [1; 2]%N 2%Z 1 (r :: ss') Hss r).
      left; reflexivity.
Defined.

(** Comparisons of [FLOAT] values that linear arithmetic decides. *)
Ltac decide_R :=
  repeat match goal with
         | |- context [Rleb ?a ?b] =>
             first [ rewrite (Rleb_true a b) by lra
                   | rewrite (Rleb_false a b) by lra ]
         | |- context [Rltb ?a ?b] =>
             first [ rewrite (proj2 (Rltb_lt a b)) by lra
                   | rewrite (proj2 (Rltb_ge a b)) by lra ]
         end.

(** [cluster_search] on [corpus] with a duplicated query: [doc_b], whose
    similarity 0 does not exceed 0.5, has no row. *)
Example cluster_search_corpus :
  cluster_ranking (cluster_search cosine corpus [[1; 0]; [1; 0]] 10 "avg")
  = Ok [(1%N, 1); (3%N, 1)].
Proof.
  unfold cluster_search; rewrite LIMIT_ok by lia.
  unfold aggregated, query_similarities.
  rewrite corpus_embeddings.
  unfold with_ordinality; cbn [List.length series_from combine flat_map map app fst snd].
  rewrite !cosine_same_axis, !cosine_orthogonal.
  cbn [filter qs_similarity].
  decide_R.
  assert (Havg : AVG_of (1 - 0, [1 - 0]) = 1).
  { unfold AVG_of, group_rows, sum_R; cbn [fst snd fold_right List.length].
    change (INR 2) with (1 + 1); field. }
  cbn -[INR Rleb Rdiv AVG_of]; unfold desc.
  change (aggregation_case "avg") with ag_avg_sim.
  unfold aggregate_group, group_map.
  cbn [ag_avg_sim ag_id fst snd map qs_similarity].
  rewrite !Havg.
  decide_R.
  reflexivity.
Qed.

Lemma cosine_orthogonal_sym : cosine [1; 0] [0; 1] = 1.
Proof.
  unfold cosine, dot, sum_R; simpl.
  replace (1 * 0 + (0 * 1 + 0)) with 0 by lra.
  unfold Rdiv; rewrite Rmult_0_l; lra.
Qed.

Lemma cosine_same_axis_2 : cosine [0; 1] [0; 1] = 0.
Proof.
  unfold cosine, dot, sum_R; simpl.
  replace (0 * 0 + (1 * 1 + 0)) with 1 by lra.
  rewrite sqrt_1; lra.
Qed.

Arguments cosine : simpl never.
Arguments Rleb : simpl never.
Arguments Rltb : simpl never.

Ltac eval_cosine :=
  rewrite ?cosine_same_axis, ?cosine_orthogonal, ?cosine_orthogonal_sym,
    ?cosine_same_axis_2.

Ltac decide_Rmax :=
  repeat match goal with
         | |- context [Rmax ?a ?b] =>
             first [ rewrite (Rmax_right a b) by lra
                   | rewrite (Rmax_left a b) by lra ]
         end.

(** Runs a query on a table of axis vectors. *)
Ltac eval_query :=
  repeat (progress (simpl; eval_cosine; decide_Rmax; decide_R)).

(** [mmr_search] on [corpus]: with [lambda = 1] the two documents along
    the query come first; with [lambda = 1/2] the second pick is [doc_b],
    since [doc_c] repeats the embedding of the first pick. *)
Example mmr_search_corpus_relevant :
  map mmr_id (mmr_search cosine corpus [1; 0] 3 1) = [1; 3; 2]%N.
Proof.
  unfold mmr_search; change (Z.to_nat 3) with 3%nat.
  cbn [mmr_loop]; unfold mmr_select, mmr_order_key, max_sim_to, desc.
  rewrite corpus_embeddings.
  eval_query.
  reflexivity.
Qed.

Example mmr_search_corpus_diverse :
  map mmr_id (mmr_search cosine corpus [1; 0] 3 (1 / 2)) = [1; 2; 3]%N.
Proof.
  unfold mmr_search; change (Z.to_nat 3) with 3%nat.
  cbn [mmr_loop]; unfold mmr_select, mmr_order_key, max_sim_to, desc.
  rewrite corpus_embeddings.
  eval_query.
  reflexivity.
Qed.

(** ** Further properties of the retrieval functions *)

Lemma StronglySorted_app_inv {A : Type} (P : A -> A -> Prop) (l1 l2 : list A) :
  StronglySorted P (l1 ++ l2) -> forall x y, In x l1 -> In y l2 -> P x y.
Proof.
  induction l1 as [| a l1 IH]; simpl; intros H x y Hx Hy; [contradiction | ].
  inversion H as [| a' l' Hs Hall]; subst.
  destruct Hx as [<- | Hx].
  - rewrite Forall_forall in Hall; apply Hall, in_or_app; right; exact Hy.
  - exact (IH Hs x y Hx Hy).
Qed.

Lemma order_by_sorted_id {A : Type} (before : A -> A -> bool) (l : list A) :
  StronglySorted (fun x y => before x y = true) l -> order_by before l = l.
Proof.
  induction 1 as [| x l Hs IH Hall]; simpl; [reflexivity | ].
  rewrite IH; apply insert_row_front; exact Hall.
Qed.

(** The first [n] rows of a sorted result dominate every row: a row is
    either among them, or [n] rows that precede it are. *)
Lemma firstn_order_by_best {A : Type} (before : A -> A -> bool) (n : nat)
    (l : list A) (y : A) :
  (forall x y, before x y = true \/ before y x = true) ->
  (forall x y z, before x y = true -> before y z = true -> before x z = true) ->
  In y l ->
  In y (firstn n (order_by before l))
  \/ (List.length (firstn n (order_by before l)) = n
      /\ forall x, In x (firstn n (order_by before l)) -> before x y = true).
Proof.
  intros Htotal Htrans Hin.
  pose proof (order_by_sorted before Htotal Htrans l) as Hsorted.
  apply (order_by_In before) in Hin.
  revert Hsorted Hin; generalize (order_by before l) as L; intros L Hsorted Hin.
  rewrite <- (firstn_skipn n L) in Hin, Hsorted.
  apply in_app_or in Hin; destruct Hin as [Hin | Hin]; [left; exact Hin | right].
  split.
  - rewrite length_firstn; apply Nat.min_l.
    destruct (Nat.le_gt_cases n (List.length L)) as [Hle | Hlt]; [exact Hle | ].
    rewrite skipn_all2 in Hin by lia; destruct Hin.
  - intros x Hx; exact (StronglySorted_app_inv _ _ _ Hsorted x y Hx Hin).
Qed.

(** Cutting a sorted list before filtering it loses nothing of the first
    [f] survivors when the cut keeps at least [f] rows and the filter is
    closed under preceding rows. *)
Lemma firstn_filter_firstn {A : Type} (before : A -> A -> bool) (p : A -> bool)
    (l : list A) :
  (forall x y, before x y = true -> p y = true -> p x = true) ->
  StronglySorted (fun x y => before x y = true) l ->
  forall f c, (f <= c)%nat ->
    firstn f (filter p (firstn c l)) = firstn f (filter p l).
Proof.
  intros Hclosed; induction 1 as [| x l Hs IH Hall]; intros f c Hfc.
  - rewrite firstn_nil; reflexivity.
  - destruct c as [| c].
    + replace f with 0%nat by lia; reflexivity.
    + simpl; destruct (p x) eqn:Hpx.
      * destruct f as [| f]; [reflexivity | ].
        simpl; f_equal; apply IH; lia.
      * assert (Hnone : forall l', (forall y, In y l' -> In y l) -> filter p l' = []).
        { intros l' Hl'; induction l' as [| y l' IHl']; simpl; [reflexivity | ].
          destruct (p y) eqn:Hpy.
          - rewrite Forall_forall in Hall.
            rewrite (Hclosed x y (Hall y (Hl' y (or_introl eq_refl))) Hpy) in Hpx.
            discriminate Hpx.
          - apply IHl'; intros z Hz; apply Hl'; right; exact Hz. }
        rewrite (Hnone l) by tauto.
        rewrite (Hnone (firstn c l)) by (intros y; apply In_firstn).
        reflexivity.
Qed.

Lemma StronglySorted_filter {A : Type} (P : A -> A -> Prop) (p : A -> bool)
    (l : list A) :
  StronglySorted P l -> StronglySorted P (filter p l).
Proof.
  induction 1 as [| x l Hs IH Hall]; simpl; [constructor | ].
  destruct (p x); [ | exact IH].
  constructor; [exact IH | ].
  rewrite Forall_forall in *; intros y Hy; apply filter_In in Hy; apply Hall, Hy.
Qed.

Lemma sum_R_nonneg (l : list R) : Forall (fun x => 0 <= x) l -> 0 <= sum_R l.
Proof.
  induction 1 as [| x l Hx _ IH]; simpl; [lra | ].
  unfold sum_R in *; simpl; lra.
Qed.

Lemma fold_left_Rmax_upper (l : list R) (x : R) :
  x <= fold_left Rmax l x /\ Forall (fun y => y <= fold_left Rmax l x) l.
Proof.
  revert x; induction l as [| y l IH]; intros x; simpl; [split; [lra | constructor] | ].
  destruct (IH (Rmax x y)) as (Hx & Hall).
  pose proof (Rmax_l x y); pose proof (Rmax_r x y).
  split; [lra | constructor; [lra | exact Hall] ].
Qed.

Lemma fold_left_Rmin_lower (l : list R) (x : R) :
  fold_left Rmin l x <= x /\ Forall (fun y => fold_left Rmin l x <= y) l.
Proof.
  revert x; induction l as [| y l IH]; intros x; simpl; [split; [lra | constructor] | ].
  destruct (IH (Rmin x y)) as (Hx & Hall).
  pose proof (Rmin_l x y); pose proof (Rmin_r x y).
  split; [lra | constructor; [lra | exact Hall] ].
Qed.

Lemma fold_left_Rmin_In (l : list R) (x : R) : In (fold_left Rmin l x) (x :: l).
Proof.
  revert x; induction l as [| y l IH]; intros x; simpl; [left; reflexivity | ].
  destruct (IH (Rmin x y)) as [H | H]; [ | right; right; exact H].
  rewrite <- H; unfold Rmin; destruct (Rle_dec x y); [left | right; left]; reflexivity.
Qed.

Lemma sum_R_bounds (l : list R) (lo hi : R) :
  Forall (fun y => lo <= y <= hi) l ->
  lo * INR (List.length l) <= sum_R l <= hi * INR (List.length l).
Proof.
  induction 1 as [| y l Hy _ IH]; [simpl; lra | ].
  change (sum_R (y :: l)) with (y + sum_R l).
  change (List.length (y :: l)) with (S (List.length l)).
  rewrite S_INR; lra.
Qed.

Lemma AVG_of_bounds (g : group R) (lo hi : R) :
  Forall (fun y => lo <= y <= hi) (group_rows g) -> lo <= AVG_of g <= hi.
Proof.
  intros Hall; unfold AVG_of.
  pose proof (sum_R_bounds _ lo hi Hall) as Hsum.
  assert (Hn : 0 < INR (List.length (group_rows g)))
    by (apply lt_0_INR; simpl; lia).
  split.
  - apply Rmult_le_reg_r with (INR (List.length (group_rows g))); [exact Hn | ].
    unfold Rdiv; rewrite Rmult_assoc, Rinv_l, Rmult_1_r by lra; lra.
  - apply Rmult_le_reg_r with (INR (List.length (group_rows g))); [exact Hn | ].
    unfold Rdiv; rewrite Rmult_assoc, Rinv_l, Rmult_1_r by lra; lra.
Qed.

Lemma MIN_le_AVG_le_MAX (g : group R) : MIN_of g <= AVG_of g <= MAX_of g.
Proof.
  apply AVG_of_bounds; unfold MIN_of, MAX_of, group_rows.
  destruct (fold_left_Rmax_upper (snd g) (fst g)) as (Hx & Hmax).
  destruct (fold_left_Rmin_lower (snd g) (fst g)) as (Hn & Hmin).
  constructor; [lra | ].
  rewrite Forall_forall in *; intros y Hy; split; [apply Hmin | apply Hmax]; exact Hy.
Qed.

Lemma distinct_In (l : list Z) (k : Z) : In k (distinct l) <-> In k l.
Proof.
  induction l as [| x l IH]; simpl; [tauto | ].
  rewrite filter_In, IH.
  destruct (Z.eqb_spec k x) as [-> | Hne]; simpl; intuition congruence.
Qed.

Lemma distinct_NoDup (l : list Z) : NoDup (distinct l).
Proof.
  induction l as [| x l IH]; simpl; constructor.
  - rewrite filter_In, Z.eqb_refl; simpl; intros (_ & H); discriminate H.
  - apply NoDup_filter, IH.
Qed.

Lemma group_by_NoDup_keys {A K : Type} (eqb : K -> K -> bool) (key : A -> K)
    (rows : list A) :
  (forall a b, eqb a b = true <-> a = b) ->
  NoDup (map fst (group_by eqb key rows)).
Proof.
  intros Heqb; induction rows as [| r rows IH]; simpl; constructor.
  - intros Hin; apply in_map_iff in Hin; destruct Hin as (g & Hg & Hin).
    apply filter_In in Hin; destruct Hin as (_ & Hne).
    rewrite Hg, (proj2 (Heqb _ _) eq_refl) in Hne; discriminate Hne.
  - revert IH; generalize (group_by eqb key rows); intros gs IH.
    induction gs as [| g gs IHgs]; simpl; [constructor | ].
    inversion IH as [| k ks Hk Hks]; subst.
    destruct (negb (eqb (fst g) (key r))); [ | exact (IHgs Hks)].
    simpl; constructor; [ | exact (IHgs Hks)].
    intros Hin; apply Hk.
    apply in_map_iff in Hin; destruct Hin as (g' & Hg' & Hin).
    apply filter_In in Hin; apply in_map_iff; exists g'; tauto.
Qed.

Lemma NoDup_firstn_of {A : Type} (n : nat) (l : list A) :
  NoDup l -> NoDup (firstn n l).
Proof.
  intros H; rewrite <- (firstn_skipn n l) in H.
  exact (NoDup_app_remove_r _ _ H).
Qed.

Section SimilaritySearchCoverage.
Variable cosine_distance : vector -> vector -> FLOAT.

(** *** rag_retrieve *)

(** X2: when the coarse stage keeps at least as many rows as the final
    limit asks for, the two-stage [rag_retrieve] returns the documents of
    [semantic_search] without metadata filters, in the same order and with
    the same similarities; the coarse and the exact similarity of a row
    coincide. *)
Theorem rag_retrieve_agrees_with_semantic_search
    (tbl : table) (query_embedding : vector) (coarse_limit final_limit : Z)
    (min_similarity : FLOAT) :
  (0 <= final_limit <= coarse_limit)%Z ->
  exists rrows srows,
    rag_retrieve cosine_distance tbl query_embedding coarse_limit final_limit
                 min_similarity = Ok rrows
    /\ semantic_search cosine_distance tbl query_embedding final_limit
                       min_similarity None None = Ok srows
    /\ map (fun r => (rr_id r, rr_content r, rr_exact_similarity r, rr_metadata r))
           rrows
       = map (fun r => (ss_id r, ss_content r, ss_similarity r, ss_metadata r))
             srows
    /\ forall r, In r rrows -> rr_coarse_similarity r = rr_exact_similarity r.
Proof.
  intros Hlimits.
  unfold rag_retrieve, rerank, coarse_results, semantic_search.
  rewrite !LIMIT_ok by lia; cbn [bind].
  rewrite !LIMIT_ok by lia; cbn [bind].
  eexists; eexists; split; [reflexivity | split; [reflexivity | ] ].
  set (key := fun ev : embedding_row * vector =>
                cosine_distance (snd ev) query_embedding).
  set (keep := fun ev : embedding_row * vector =>
                 Rleb min_similarity (1 - key ev)).
  set (L := order_by (asc key) (embedding_not_null tbl)).
  assert (Hsorted : StronglySorted (fun x y => asc key x y = true) L)
    by (apply order_by_sorted; [apply asc_total | apply asc_trans]).
  assert (Hwhere :
    filter (semantic_search_where cosine_distance query_embedding min_similarity
              None None) (embedding_not_null tbl)
    = filter keep (embedding_not_null tbl)).
  { apply filter_ext; intros ev; unfold semantic_search_where, keep, key; simpl.
    rewrite !andb_true_r; reflexivity. }
  rewrite Hwhere.
  rewrite <- (filter_order_by (asc key) (asc_total key) (asc_trans key)).
  fold L.
  rewrite filter_map_comm; cbn [cr_coarse_sim].
  change (fun x : embedding_row * vector =>
            Rleb min_similarity (1 - cosine_distance (snd x) query_embedding))
    with keep.
  rewrite order_by_map.
  rewrite order_by_sorted_id.
  - rewrite <- !firstn_map, !map_map.
    rewrite firstn_map, (firstn_map _ (Z.to_nat final_limit) (filter keep L)).
    rewrite (firstn_filter_firstn (asc key) keep L) by
      (try assumption; try lia;
       intros x y Hxy Hy; unfold keep, asc in *;
       apply Rleb_le in Hxy, Hy; apply Rleb_le; lra).
    split; [reflexivity | ].
    intros r Hr; apply In_firstn, in_map_iff in Hr.
    destruct Hr as (ev & <- & _); reflexivity.
  - apply (StronglySorted_impl (fun x y => asc key x y = true)).
    + intros x y Hxy; unfold asc, desc, exact_sim, key in *; simpl.
      apply Rleb_le in Hxy; apply Rleb_le; lra.
    + apply StronglySorted_filter, StronglySorted_firstn, Hsorted.
Qed.

(** *** cluster_search *)

Lemma aggregation_case_default (aggregation_method : TEXT) (a : aggregated_row) :
  aggregation_method <> "avg"%string -> aggregation_method <> "min"%string ->
  aggregation_case aggregation_method a = aggregation_case "max" a.
Proof.
  intros Havg Hmin; unfold aggregation_case.
  destruct (String.eqb_spec aggregation_method "max"); [reflexivity | ].
  destruct (String.eqb_spec aggregation_method "avg"); [contradiction | ].
  destruct (String.eqb_spec aggregation_method "min"); [contradiction | ].
  reflexivity.
Qed.

Lemma cluster_search_rows (tbl : table) (query_embeddings : list vector)
    (limit_count : Z) (aggregation_method : TEXT) (rows : list cluster_search_row) :
  cluster_search cosine_distance tbl query_embeddings limit_count
                 aggregation_method = Ok rows ->
  rows =
  map (fun a =>
         {| cs_id := ag_id a;
            cs_content := ag_content a;
            cs_best_similarity := aggregation_case aggregation_method a;
            cs_avg_similarity := ag_avg_sim a;
            cs_matching_queries := ag_match_count a;
            cs_metadata := ag_metadata a |})
      (firstn (Z.to_nat limit_count)
         (order_by (desc (aggregation_case aggregation_method))
            (aggregated cosine_distance tbl query_embeddings))).
Proof.
  unfold cluster_search; intros H.
  apply bind_inv in H; destruct H as (ags & Hags & H).
  injection H as <-.
  apply LIMIT_inv_rows in Hags; destruct Hags as (_ & ->); reflexivity.
Qed.

(** X3: the aggregates [cluster_search] reports.  Only similarities above
    0.5 enter a row, so its average and its best similarity exceed 0.5 and
    it counts between one and all of the queries; the best similarity is
    the average for ['avg'], at most the average for ['min'] and at least
    the average otherwise.  An aggregation method other than ['avg'] and
    ['min'] is not rejected: the call behaves as for ['max']. *)
Theorem cluster_search_aggregates
    (tbl : table) (query_embeddings : list vector) (limit_count : Z)
    (aggregation_method : TEXT) :
  (aggregation_method <> "avg"%string -> aggregation_method <> "min"%string ->
   cluster_search cosine_distance tbl query_embeddings limit_count
                  aggregation_method
   = cluster_search cosine_distance tbl query_embeddings limit_count "max")
  /\ forall rows,
       cluster_search cosine_distance tbl query_embeddings limit_count
                      aggregation_method = Ok rows ->
       forall r, In r rows ->
         1 / 2 < cs_avg_similarity r
         /\ 1 / 2 < cs_best_similarity r
         /\ (1 <= cs_matching_queries r
             <= Z.of_nat (List.length query_embeddings))%Z
         /\ (aggregation_method = "avg"%string ->
             cs_best_similarity r = cs_avg_similarity r)
         /\ (aggregation_method = "min"%string ->
             cs_best_similarity r <= cs_avg_similarity r)
         /\ (aggregation_method <> "avg"%string ->
             aggregation_method <> "min"%string ->
             cs_avg_similarity r <= cs_best_similarity r).
Proof.
  split.
  - intros Havg Hmin; unfold cluster_search.
    rewrite (order_by_ext (desc (aggregation_case aggregation_method))
                          (desc (aggregation_case "max"))) by
      (intros x y; unfold desc;
       rewrite !(aggregation_case_default aggregation_method) by assumption;
       reflexivity).
    destruct (LIMIT limit_count _) as [picked | e]; [ | reflexivity].
    cbn [bind]; f_equal; apply map_ext; intros a.
    rewrite (aggregation_case_default aggregation_method) by assumption.
    reflexivity.
  - intros rows Hrows r Hr.
    rewrite (cluster_search_rows _ _ _ _ _ Hrows) in Hr.
    apply in_map_iff in Hr; destruct Hr as (a & <- & Ha).
    apply In_firstn, order_by_In in Ha.
    unfold aggregated in Ha; apply in_map_iff in Ha.
    destruct Ha as ([k g] & <- & Hg).
    pose proof (group_by_rows doc_key_eqb qs_key doc_key_eqb_eq _ _ _ Hg) as Hgroup.
    cbn [cs_avg_similarity cs_best_similarity cs_matching_queries
         aggregate_group ag_avg_sim ag_match_count snd].
    set (sims := group_map qs_similarity g).
    assert (Hmembers : forall p, In p (group_rows g) ->
              1 / 2 < qs_similarity p
              /\ (1 <= qs_query_idx p
                  <= Z.of_nat (List.length query_embeddings))%Z).
    { intros p Hp; rewrite Hgroup in Hp.
      apply filter_In in Hp; destruct Hp as (Hp & _).
      apply filter_In in Hp; destruct Hp as (Hp & Hsim).
      split; [apply Rltb_lt; exact Hsim | ].
      unfold query_similarities in Hp.
      apply in_flat_map in Hp; destruct Hp as (ev & _ & Hp).
      apply in_map_iff in Hp; destruct Hp as ([q i] & <- & Hq).
      exact (with_ordinality_In _ _ _ Hq). }
    pose proof (MIN_le_AVG_le_MAX sims) as Horder.
    assert (Hlow : 1 / 2 < MIN_of sims).
    { pose proof (fold_left_Rmin_In (snd sims) (fst sims)) as Hin.
      change (fst sims :: snd sims) with (group_rows sims) in Hin.
      unfold sims in Hin at 3; rewrite group_rows_map in Hin.
      apply in_map_iff in Hin; destruct Hin as (p & Hp & Hin).
      unfold MIN_of; rewrite <- Hp; apply Hmembers; exact Hin. }
    assert (Hcase : forall m,
              aggregation_case m (aggregate_group (k, g)) = MAX_of sims
              \/ aggregation_case m (aggregate_group (k, g)) = AVG_of sims
              \/ aggregation_case m (aggregate_group (k, g)) = MIN_of sims).
    { intros m; unfold aggregation_case.
      destruct (String.eqb m "max"); [left; reflexivity | ].
      destruct (String.eqb m "avg"); [right; left; reflexivity | ].
      destruct (String.eqb m "min"); [right; right | left]; reflexivity. }
    split; [lra | ].
    split; [destruct (Hcase aggregation_method) as [-> | [-> | ->] ]; lra | ].
    split.
    + set (idxs := distinct (map qs_query_idx (group_rows g))).
      split.
      * assert (Hne : idxs <> []).
        { unfold idxs; destruct g as [p ps]; simpl; discriminate. }
        destruct idxs; [contradiction | simpl; lia].
      * assert (Hincl : incl idxs
                          (generate_series 1 (Z.of_nat (List.length query_embeddings)))).
        { intros i Hi; unfold idxs in Hi; apply (proj1 (distinct_In _ _)) in Hi.
          apply in_map_iff in Hi; destruct Hi as (p & <- & Hp).
          apply generate_series_In, Hmembers; exact Hp. }
        pose proof (NoDup_incl_length (distinct_NoDup _) Hincl) as Hlen.
        unfold generate_series in Hlen; rewrite series_from_length in Hlen.
        fold idxs in Hlen; lia.
    + split; [ | split].
      * intros ->; reflexivity.
      * intros ->; unfold aggregation_case; simpl; fold sims; lra.
      * intros Havg Hmin.
        rewrite (aggregation_case_default aggregation_method) by assumption.
        unfold aggregation_case; simpl; fold sims; lra.
Qed.

(** X4: [cluster_search] returns a document once, although it compares
    each document with every query: no two rows agree on id, content and
    metadata, and under unique ids no two rows share an id.  Every row is a
    document of the table that has an embedding, and without query
    embeddings nothing is returned. *)
Theorem cluster_search_one_row_per_document
    (tbl : table) (query_embeddings : list vector) (limit_count : Z)
    (aggregation_method : TEXT) (rows : list cluster_search_row) :
  cluster_search cosine_distance tbl query_embeddings limit_count
                 aggregation_method = Ok rows ->
  NoDup (map (fun r => (cs_id r, cs_content r, cs_metadata r)) rows)
  /\ (forall r, In r rows ->
        exists e v,
          In e tbl /\ embedding e = Some v
          /\ cs_id r = id e /\ cs_content r = content e
          /\ cs_metadata r = metadata e)
  /\ (NoDup (map id tbl) -> NoDup (map cs_id rows))
  /\ (query_embeddings = [] -> rows = []).
Proof.
  intros Hrows; rewrite (cluster_search_rows _ _ _ _ _ Hrows); clear Hrows rows.
  set (survivors := filter (fun r => Rltb (1 / 2) (qs_similarity r))
                      (query_similarities cosine_distance tbl query_embeddings)).
  set (picked := firstn (Z.to_nat limit_count)
                   (order_by (desc (aggregation_case aggregation_method))
                      (aggregated cosine_distance tbl query_embeddings))).
  assert (Hkeys : NoDup (map (fun a => (ag_id a, ag_content a, ag_metadata a)) picked)).
  { unfold picked; rewrite <- firstn_map; apply NoDup_firstn_of.
    apply (Permutation_NoDup
             (l := map (fun a => (ag_id a, ag_content a, ag_metadata a))
                       (aggregated cosine_distance tbl query_embeddings))).
    - apply Permutation_map, Permutation_sym, order_by_Permutation.
    - unfold aggregated; rewrite map_map.
      rewrite (map_ext _ fst)
        by (intros [[[i c] m] g]; reflexivity).
      apply group_by_NoDup_keys, doc_key_eqb_eq. }
  assert (Hdocs : forall a, In a picked ->
            exists e v,
              In e tbl /\ embedding e = Some v
              /\ ag_id a = id e /\ ag_content a = content e
              /\ ag_metadata a = metadata e).
  { intros a Ha; unfold picked in Ha; apply In_firstn, order_by_In in Ha.
    unfold aggregated in Ha; apply in_map_iff in Ha.
    destruct Ha as ([k g] & <- & Hg).
    destruct (group_by_key doc_key_eqb qs_key _ _ _ Hg) as (Hk & Hfst).
    apply filter_In in Hfst; destruct Hfst as (Hfst & _).
    unfold query_similarities in Hfst.
    apply in_flat_map in Hfst; destruct Hfst as ([e v] & Hev & Hp).
    apply in_map_iff in Hp; destruct Hp as (q & Hp & _).
    apply embedding_not_null_In in Hev; destruct Hev as (He & Hv).
    exists e, v; subst k; rewrite <- Hp; simpl; tauto. }
  split; [rewrite map_map; exact Hkeys | ].
  split.
  { intros r Hr; apply in_map_iff in Hr; destruct Hr as (a & <- & Ha).
    exact (Hdocs a Ha). }
  split.
  - intros Hunique; rewrite map_map; cbn [cs_id].
    change (NoDup (map (fun a => fst (fst (ag_id a, ag_content a, ag_metadata a)))
                       picked)).
    rewrite <- (map_map (fun a => (ag_id a, ag_content a, ag_metadata a))
                        (fun k : doc_key => fst (fst k)) picked).
    apply Finite.Injective_map_NoDup_in; [ | exact Hkeys].
    intros k1 k2 H1 H2 Hid.
    apply in_map_iff in H1; destruct H1 as (a1 & <- & H1).
    apply in_map_iff in H2; destruct H2 as (a2 & <- & H2).
    destruct (Hdocs a1 H1) as (e1 & v1 & He1 & _ & Hi1 & Hc1 & Hm1).
    destruct (Hdocs a2 H2) as (e2 & v2 & He2 & _ & Hi2 & Hc2 & Hm2).
    simpl in Hid.
    assert (e1 = e2)
      by (apply (NoDup_map_injective id tbl); try assumption; congruence).
    subst e2; congruence.
  - intros ->; unfold picked, aggregated, query_similarities; simpl.
    assert (Hnil : forall (A : Type) (l : list A),
              flat_map (fun _ => @nil query_similarity) l = [])
      by (intros A l; induction l; simpl; auto).
    rewrite Hnil; simpl; rewrite firstn_nil; reflexivity.
Qed.

(** *** mmr_search *)

(** X5: with unique ids and a limit that is at least the number of
    documents with an embedding, [mmr_search] returns each of them exactly
    once: [lambda] only decides the order. *)
Theorem mmr_search_covers_all_documents
    (tbl : table) (query_embedding : vector) (limit_count : Z) (lambda : R) :
  NoDup (map id tbl) ->
  (Z.of_nat (List.length (embedding_not_null tbl)) <= limit_count)%Z ->
  Permutation
    (map mmr_id (mmr_search cosine_distance tbl query_embedding limit_count lambda))
    (map doc_id (embedding_not_null tbl)).
Proof.
  intros Hunique Hlimit; unfold mmr_search.
  destruct (mmr_loop_distinct cosine_distance tbl query_embedding lambda
              (Z.to_nat limit_count) [] []) as (Hnodup & Hrows).
  pose proof (mmr_loop_length cosine_distance tbl query_embedding lambda
                (Z.to_nat limit_count) [] [] Hunique) as Hlen.
  rewrite mmr_candidates_nil in Hlen.
  apply NoDup_Permutation_bis; [exact Hnodup | | ].
  - rewrite !length_map, Hlen; lia.
  - intros i Hi; apply in_map_iff in Hi; destruct Hi as (r & <- & Hr).
    destruct (Hrows r Hr) as (_ & e & v & He & Hv & ->).
    apply in_map_iff; exists (e, v); split; [reflexivity | ].
    apply embedding_not_null_In; tauto.
Qed.

Lemma hd_error_order_by_best {A : Type} (before : A -> A -> bool) (l : list A)
    (x : A) :
  (forall x y, before x y = true \/ before y x = true) ->
  (forall x y z, before x y = true -> before y z = true -> before x z = true) ->
  hd_error (order_by before l) = Some x ->
  In x l /\ forall y, In y l -> before x y = true.
Proof.
  intros Htotal Htrans Hhd.
  pose proof (order_by_sorted before Htotal Htrans l) as Hsorted.
  assert (Hin : forall y, In y l <-> In y (order_by before l))
    by (intros y; symmetry; apply order_by_In).
  destruct (order_by before l) as [| x' L]; [discriminate Hhd | ].
  injection Hhd as ->.
  split; [apply Hin; left; reflexivity | ].
  intros y Hy; apply Hin in Hy; destruct Hy as [<- | Hy].
  - destruct (Htotal x x); assumption.
  - inversion Hsorted as [| a b _ Hall]; subst.
    rewrite Forall_forall in Hall; exact (Hall y Hy).
Qed.

(** The greedy selection of [mmr_search], from any state of the loop. *)
Lemma mmr_loop_greedy (tbl : table) (query_embedding : vector) (lambda : R)
    (n : nat) (selected_ids : list UUID) (selected_embeddings : list vector) :
  let rows := mmr_loop cosine_distance tbl query_embedding lambda n
                       selected_ids selected_embeddings in
  exists picked : list (embedding_row * vector),
    List.length picked = List.length rows
    /\ forall i ev, nth_error picked i = Some ev ->
         let ids := selected_ids ++ map doc_id (firstn i picked) in
         let selected := selected_embeddings ++ map snd (firstn i picked) in
         In ev (embedding_not_null tbl)
         /\ ~ In (doc_id ev) ids
         /\ (exists r,
               nth_error rows i = Some r
               /\ mmr_id r = doc_id ev
               /\ mmr_relevance r = 1 - cosine_distance (snd ev) query_embedding
               /\ mmr_diversity_penalty r =
                  max_sim_to cosine_distance (snd ev) selected
               /\ mmr_mmr_score r =
                  lambda * mmr_relevance r
                  - (1 - lambda) * mmr_diversity_penalty r)
         /\ forall ev', In ev' (embedding_not_null tbl) -> ~ In (doc_id ev') ids ->
              mmr_order_key cosine_distance query_embedding lambda selected ev'
              <= mmr_order_key cosine_distance query_embedding lambda selected ev.
Proof.
  revert selected_ids selected_embeddings.
  induction n as [| n IH]; intros selected_ids selected_embeddings; simpl.
  - exists []; split; [reflexivity | ].
    intros [| i] ev H; discriminate H.
  - unfold mmr_select.
    destruct (hd_error _) as [rec | ] eqn:Hhd.
    + apply hd_error_order_by_best in Hhd;
        [ | apply desc_total | apply desc_trans].
      destruct Hhd as (Hrec & Hbest).
      apply filter_In in Hrec; destruct Hrec as (Hrec & Hfresh).
      apply neq_ALL_true in Hfresh.
      destruct (IH (selected_ids ++ [id (fst rec)])
                   (selected_embeddings ++ [snd rec])) as (picked & Hlen & Hpicked).
      exists (rec :: picked); split; [simpl; rewrite Hlen; reflexivity | ].
      intros [| i] ev Hev.
      * injection Hev as <-; simpl; rewrite !app_nil_r.
        split; [exact Hrec | split; [exact Hfresh | split] ].
        -- eexists; split; [reflexivity | ]; simpl.
           rewrite removelast_last; repeat split; reflexivity.
        -- intros ev' Hev' Hfresh'.
           assert (Hcand : In ev' (filter (fun ev => neq_ALL (id (fst ev)) selected_ids)
                                          (embedding_not_null tbl)))
             by (apply filter_In; split; [exact Hev' | apply neq_ALL_true, Hfresh']).
           apply Hbest in Hcand; unfold desc in Hcand; apply Rleb_le in Hcand.
           exact Hcand.
      * simpl in Hev; specialize (Hpicked i ev Hev); simpl in Hpicked |- *.
        rewrite <- !app_assoc in Hpicked; exact Hpicked.
    + exists []; split; [reflexivity | ].
      intros [| i] ev H; discriminate H.
Qed.

(** X6: [mmr_search] is a greedy selection.  Its rows are those of a list
    of documents with an embedding, taken one after the other: each pick
    has an id that no earlier pick has, and its MMR key, [lambda] times
    its relevance minus [1 - lambda] times its greatest similarity to the
    earlier picks, is the greatest among all documents whose id was not
    picked before.  The row reports that greatest similarity as its
    diversity penalty and that key as its score. *)
Theorem mmr_search_is_greedy
    (tbl : table) (query_embedding : vector) (limit_count : Z) (lambda : R) :
  exists picked : list (embedding_row * vector),
    List.length picked =
    List.length (mmr_search cosine_distance tbl query_embedding limit_count lambda)
    /\ forall i ev, nth_error picked i = Some ev ->
         let ids := map doc_id (firstn i picked) in
         let selected := map snd (firstn i picked) in
         In ev (embedding_not_null tbl)
         /\ ~ In (doc_id ev) ids
         /\ (exists r,
               nth_error (mmr_search cosine_distance tbl query_embedding
                                     limit_count lambda) i = Some r
               /\ mmr_id r = doc_id ev
               /\ mmr_relevance r = 1 - cosine_distance (snd ev) query_embedding
               /\ mmr_diversity_penalty r =
                  max_sim_to cosine_distance (snd ev) selected
               /\ mmr_mmr_score r =
                  lambda * mmr_relevance r
                  - (1 - lambda) * mmr_diversity_penalty r)
         /\ forall ev', In ev' (embedding_not_null tbl) -> ~ In (doc_id ev') ids ->
              lambda * (1 - cosine_distance (snd ev') query_embedding)
              - (1 - lambda) * max_sim_to cosine_distance (snd ev') selected
              <= lambda * (1 - cosine_distance (snd ev) query_embedding)
                 - (1 - lambda) * max_sim_to cosine_distance (snd ev) selected.
Proof.
  exact (mmr_loop_greedy tbl query_embedding lambda (Z.to_nat limit_count) [] []).
Qed.

End SimilaritySearchCoverage.

Section HybridSearchProperties.
Variable cosine_distance : vector -> vector -> FLOAT.
Variable tsvector : Type.
Variable tsquery : Type.
Variable to_tsvector : TEXT -> TEXT -> tsvector.
Variable plainto_tsquery : TEXT -> TEXT -> tsquery.
Variable ts_rank_cd : tsvector -> tsquery -> option FLOAT.
Variable ts_match : tsvector -> tsquery -> bool.

(** *** hybrid_search *)

(** X7: [hybrid_search] returns the best rows by combined score.  For a
    non-negative limit it returns at most [limit_count] rows in descending
    order of their combined score, the weighted sum of vector and keyword
    score; each has a vector score above 0.3 or matches the keyword query.
    A row with an embedding that qualifies in this way is left out only
    when [limit_count] rows of at least its combined score are returned. *)
Theorem hybrid_search_returns_best_combined
    (tbl : table) (query_embedding : vector) (keyword_query : TEXT)
    (limit_count : Z) (vector_weight keyword_weight : FLOAT) :
  (0 <= limit_count)%Z ->
  let matches (e : embedding_row) :=
    ts_match (to_tsvector "english" (content e))
             (plainto_tsquery "english" keyword_query) in
  let rank (e : embedding_row) :=
    COALESCE (ts_rank_cd (to_tsvector "english" (content e))
                         (plainto_tsquery "english" keyword_query)) 0 in
  exists rows,
    hybrid_search cosine_distance tsvector tsquery to_tsvector plainto_tsquery
                  ts_rank_cd ts_match tbl query_embedding keyword_query
                  limit_count vector_weight keyword_weight = Ok rows
    /\ (forall r, In r rows ->
          exists e v,
            In e tbl /\ embedding e = Some v /\ hs_id r = id e
            /\ hs_vector_score r = 1 - cosine_distance v query_embedding
            /\ hs_keyword_score r = rank e
            /\ hs_combined_score r =
               vector_weight * hs_vector_score r
               + keyword_weight * hs_keyword_score r
            /\ (3 / 10 < hs_vector_score r \/ matches e = true))
    /\ StronglySorted (fun a b => hs_combined_score b <= hs_combined_score a) rows
    /\ (Z.of_nat (List.length rows) <= limit_count)%Z
    /\ (forall e v,
          In e tbl -> embedding e = Some v ->
          3 / 10 < 1 - cosine_distance v query_embedding \/ matches e = true ->
          (exists r, In r rows /\ hs_id r = id e /\ hs_content r = content e
                     /\ hs_vector_score r = 1 - cosine_distance v query_embedding)
          \/ (List.length rows = Z.to_nat limit_count
              /\ forall r, In r rows ->
                   vector_weight * (1 - cosine_distance v query_embedding)
                   + keyword_weight * rank e <= hs_combined_score r)).
Proof.
  intros Hlimit matches rank.
  unfold hybrid_search; rewrite LIMIT_ok by exact Hlimit.
  eexists; split; [reflexivity | ].
  set (mk := hybrid_row cosine_distance tsvector tsquery to_tsvector
               plainto_tsquery ts_rank_cd query_embedding keyword_query
               vector_weight keyword_weight).
  set (keep := hybrid_search_where cosine_distance tsvector tsquery to_tsvector
                 plainto_tsquery ts_match query_embedding keyword_query).
  assert (Hkeep : forall e v,
            keep (e, v) = true <->
            (3 / 10 < 1 - cosine_distance v query_embedding \/ matches e = true)).
  { intros e v; unfold keep, hybrid_search_where; simpl.
    rewrite orb_true_iff, Rltb_lt; reflexivity. }
  split; [ | split; [ | split] ].
  - intros r Hr; apply In_firstn, order_by_In, in_map_iff in Hr.
    destruct Hr as ([e v] & <- & Hev).
    apply filter_In in Hev; destruct Hev as (Hev & Hq).
    apply embedding_not_null_In in Hev; destruct Hev as (He & Hv).
    exists e, v; simpl; repeat split; try assumption; try reflexivity.
    apply Hkeep; exact Hq.
  - apply StronglySorted_firstn.
    apply (StronglySorted_impl (fun a b => desc hs_combined_score a b = true)).
    + intros a b Hab; unfold desc in Hab; apply Rleb_le in Hab; exact Hab.
    + apply order_by_sorted; [apply desc_total | apply desc_trans].
  - rewrite length_firstn; lia.
  - intros e v He Hv Hq.
    assert (Hin : In (mk (e, v)) (map mk (filter keep (embedding_not_null tbl)))).
    { apply in_map, filter_In; split; [ | apply Hkeep; exact Hq].
      apply embedding_not_null_In; tauto. }
    destruct (firstn_order_by_best (desc hs_combined_score) (Z.to_nat limit_count)
                _ _ (desc_total hs_combined_score) (desc_trans hs_combined_score) Hin)
      as [Hfound | (Hfull & Hbest)].
    + left; exists (mk (e, v)); repeat split; exact Hfound.
    + right; split; [exact Hfull | ].
      intros r Hr; apply Hbest in Hr; unfold desc in Hr; apply Rleb_le in Hr.
      exact Hr.
Qed.

End HybridSearchProperties.

Lemma insert_row_Forall2 {A B : Type} (R : A -> B -> Prop)
    (b : A -> A -> bool) (b' : B -> B -> bool) (x : A) (x' : B)
    (l : list A) (l' : list B) :
  (forall x x' y y', R x x' -> R y y' -> b x y = b' x' y') ->
  R x x' -> Forall2 R l l' ->
  Forall2 R (insert_row b x l) (insert_row b' x' l').
Proof.
  intros Hb Hx; induction 1 as [| y y' l l' Hy Hl IH]; simpl.
  - constructor; [exact Hx | constructor].
  - rewrite (Hb x x' y y' Hx Hy).
    destruct (b' x' y'); constructor; try assumption.
    constructor; assumption.
Qed.

(** Sorting two row lists that correspond row by row by corresponding
    sort keys keeps them in correspondence. *)
Lemma order_by_Forall2 {A B : Type} (R : A -> B -> Prop)
    (b : A -> A -> bool) (b' : B -> B -> bool) (l : list A) (l' : list B) :
  (forall x x' y y', R x x' -> R y y' -> b x y = b' x' y') ->
  Forall2 R l l' -> Forall2 R (order_by b l) (order_by b' l').
Proof.
  intros Hb; induction 1 as [| x x' l l' Hx Hl IH]; simpl; [constructor | ].
  apply insert_row_Forall2; assumption.
Qed.

Lemma firstn_Forall2 {A B : Type} (R : A -> B -> Prop) (n : nat)
    (l : list A) (l' : list B) :
  Forall2 R l l' -> Forall2 R (firstn n l) (firstn n l').
Proof.
  intros H; revert n; induction H as [| x x' l l' Hx Hl IH]; intros [| n]; simpl;
    constructor; auto.
Qed.

Lemma Forall2_map_eq {A B C : Type} (R : A -> B -> Prop) (f : A -> C) (g : B -> C)
    (l : list A) (l' : list B) :
  (forall x y, R x y -> f x = g y) -> Forall2 R l l' -> map f l = map g l'.
Proof.
  intros Hfg; induction 1 as [| x y l l' Hxy _ IH]; simpl; [reflexivity | ].
  rewrite (Hfg x y Hxy), IH; reflexivity.
Qed.

Lemma Forall2_In_l {A B : Type} (P : A -> B -> Prop) (l : list A) (l' : list B)
    (x : A) :
  Forall2 P l l' -> In x l -> exists y, In y l' /\ P x y.
Proof.
  induction 1 as [| a b l l' Hab _ IH]; simpl; [contradiction | ].
  intros [<- | Hin]; [exists b; tauto | ].
  destruct (IH Hin) as (y & Hy & Hxy); exists y; tauto.
Qed.

Lemma mapM_first_raises {A B : Type} (f : A -> result B) (x : A) (l : list A)
    (e : sqlstate) :
  f x = Raise e -> mapM f (x :: l) = Raise e.
Proof. intros H; simpl; rewrite H; reflexivity. Qed.

Lemma exp_monotone (x y : R) : x <= y -> exp x <= exp y.
Proof.
  intros [Hlt | ->]; [left; apply exp_increasing; exact Hlt | right; reflexivity].
Qed.

Section TemporalSearchProperties.
Variable cosine_distance : vector -> vector -> FLOAT.
Variable EXP : FLOAT -> result FLOAT.
Variable NOW : TIMESTAMPTZ.

(** *** temporal_search *)

(** The argument of [EXP] in the recency of a row created at [t]. *)
Definition decay_exponent (decay_seconds : Z) (t : TIMESTAMPTZ) : R :=
  - epoch_between NOW t / IZR decay_seconds.

Lemma recency_inv (decay_seconds : Z) (e : embedding_row) (y : R) :
  recency EXP NOW decay_seconds e = Ok y ->
  decay_seconds <> 0%Z
  /\ EXP (decay_exponent decay_seconds (created_at e)) = Ok y.
Proof.
  unfold recency; intros H.
  apply bind_inv in H; destruct H as (x & Hdiv & H).
  apply fdiv_inv in Hdiv; destruct Hdiv as (Hnz & ->).
  split; [ | exact H].
  intros ->; apply Hnz; reflexivity.
Qed.

Lemma temporal_row_inv (query_embedding : vector) (decay_seconds : Z)
    (time_weight : R) (ev : embedding_row * vector) (r : temporal_search_row) :
  temporal_row cosine_distance EXP NOW query_embedding decay_seconds time_weight ev
    = Ok r ->
  recency EXP NOW decay_seconds (fst ev) = Ok (tmp_recency_score r)
  /\ tmp_id r = id (fst ev)
  /\ tmp_created_at r = created_at (fst ev)
  /\ tmp_vector_similarity r = 1 - cosine_distance (snd ev) query_embedding
  /\ tmp_combined_score r =
     (1 - time_weight) * tmp_vector_similarity r
     + time_weight * tmp_recency_score r.
Proof.
  unfold temporal_row; intros H.
  apply bind_inv in H; destruct H as (y & Hy & H).
  rewrite Hy in H; cbn [bind] in H; injection H as <-; simpl.
  repeat split; try reflexivity; exact Hy.
Qed.

(** A call that returns: the product [decay_days * 86400] is an [INT], and
    either the limit is 0 and no row was read, or every row with an
    embedding was computed. *)
Lemma temporal_search_rows (tbl : table) (query_embedding : vector)
    (limit_count decay_days : Z) (time_weight : R)
    (rows : list temporal_search_row) :
  temporal_search cosine_distance EXP NOW tbl query_embedding limit_count
                  decay_days time_weight = Ok rows ->
  (-2147483648 <= decay_days * 86400 <= 2147483647)%Z
  /\ ((limit_count = 0%Z /\ rows = [])
      \/ ((0 < limit_count)%Z
          /\ exists all,
               Forall2 (fun ev r =>
                          temporal_row cosine_distance EXP NOW query_embedding
                                       (decay_days * 86400) time_weight ev = Ok r)
                       (embedding_not_null tbl) all
               /\ rows = firstn (Z.to_nat limit_count)
                           (order_by (desc tmp_combined_score) all))).
Proof.
  unfold temporal_search; intros H.
  apply bind_inv in H; destruct H as (seconds & Hmul & H).
  apply int4_mul_inv in Hmul; destruct Hmul as (-> & Hrange).
  split; [exact Hrange | ].
  apply LIMIT_inv in H; destruct H as [Hzero | (Hpos & l & Hl & ->)];
    [left; exact Hzero | right].
  split; [exact Hpos | ].
  apply bind_inv in Hl; destruct Hl as (all & Hall & Hl).
  injection Hl as <-.
  exists all; split; [apply mapM_inv; exact Hall | reflexivity].
Qed.

Lemma temporal_search_row_source (tbl : table) (query_embedding : vector)
    (limit_count decay_days : Z) (time_weight : R)
    (rows : list temporal_search_row) :
  temporal_search cosine_distance EXP NOW tbl query_embedding limit_count
                  decay_days time_weight = Ok rows ->
  forall r, In r rows ->
    exists ev,
      In ev (embedding_not_null tbl)
      /\ temporal_row cosine_distance EXP NOW query_embedding (decay_days * 86400)
                      time_weight ev = Ok r.
Proof.
  intros H r Hr.
  destruct (temporal_search_rows _ _ _ _ _ _ H)
    as (_ & [(_ & ->) | (_ & all & Hall & ->)]); [contradiction | ].
  apply In_firstn, order_by_In in Hr.
  destruct (Forall2_In_r _ _ _ _ Hall Hr) as (ev & Hev & Hrow).
  exists ev; tauto.
Qed.

(** X8: [temporal_search] does not check [decay_days].  Over a table with
    at least one embedding and for a limit of at least 1, [decay_days = 0]
    raises a division by zero, and a [decay_days] beyond 24855 in absolute
    value raises a range error, as [decay_days * 86400] leaves the 32-bit
    integers.  With the limit 0 no row is read, and [decay_days = 0] goes
    unnoticed. *)
Theorem temporal_search_decay_days_errors
    (tbl : table) (query_embedding : vector) (limit_count : Z) (time_weight : R) :
  (1 <= limit_count)%Z -> embedding_not_null tbl <> [] ->
  temporal_search cosine_distance EXP NOW tbl query_embedding limit_count
                  0 time_weight = Raise division_by_zero
  /\ (forall decay_days,
        (24855 < Z.abs decay_days)%Z ->
        temporal_search cosine_distance EXP NOW tbl query_embedding limit_count
                        decay_days time_weight = Raise numeric_value_out_of_range)
  /\ temporal_search cosine_distance EXP NOW tbl query_embedding 0 0 time_weight
     = Ok [].
Proof.
  intros Hlimit Hrows.
  destruct (embedding_not_null tbl) as [| ev rest] eqn:Hev; [contradiction | ].
  split; [ | split; [intros decay_days Hbig | reflexivity] ];
    unfold temporal_search.
  - rewrite int4_mul_ok by lia; cbn [bind].
    rewrite LIMIT_pos by lia; rewrite Hev.
    rewrite (mapM_first_raises _ ev rest division_by_zero); [reflexivity | ].
    unfold temporal_row, recency, fdiv; simpl.
    destruct (Req_dec_T 0 0) as [_ | Hne]; [reflexivity | contradiction].
  - unfold int4_mul; rewrite int4_out_of_range by lia; reflexivity.
Qed.

(** X9: with [time_weight = 0] the recency has no influence.  Whenever
    the call returns, the combined score of each row is its vector
    similarity, and the documents are returned in the order of the pure
    relevance ranking: descending similarity, cut to the limit. *)
Theorem temporal_search_without_time_weight
    (tbl : table) (query_embedding : vector) (limit_count decay_days : Z)
    (rows : list temporal_search_row) :
  temporal_search cosine_distance EXP NOW tbl query_embedding limit_count
                  decay_days 0 = Ok rows ->
  map tmp_id rows = relevance_ranking cosine_distance tbl query_embedding limit_count
  /\ forall r, In r rows -> tmp_combined_score r = tmp_vector_similarity r.
Proof.
  intros H.
  pose proof (temporal_search_row_source _ _ _ _ _ _ H) as Hsource.
  destruct (temporal_search_rows _ _ _ _ _ _ H)
    as (_ & [(-> & ->) | (_ & all & Hall & ->)]).
  { split; [reflexivity | intros r []]. }
  split.
  - unfold relevance_ranking; symmetry.
    apply (Forall2_map_eq
             (fun ev r =>
                temporal_row cosine_distance EXP NOW query_embedding
                             (decay_days * 86400) 0 ev = Ok r)).
    + intros ev r Hr; apply temporal_row_inv in Hr.
      unfold doc_id; symmetry; tauto.
    + apply firstn_Forall2, order_by_Forall2; [ | exact Hall].
      intros x x' y y' Hx Hy.
      apply temporal_row_inv in Hx, Hy.
      destruct Hx as (_ & _ & _ & Hx & Hcx), Hy as (_ & _ & _ & Hy & Hcy).
      unfold desc; rewrite Hcx, Hcy, Hx, Hy; f_equal; lra.
  - intros r Hr; destruct (Hsource r Hr) as (ev & _ & Hrow).
    apply temporal_row_inv in Hrow; destruct Hrow as (_ & _ & _ & _ & ->); lra.
Qed.

Hypothesis EXP_exact : forall x y, EXP x = Ok y -> y = exp x.

Lemma decay_exponent_eq (decay_days : Z) (t : TIMESTAMPTZ) :
  decay_days <> 0%Z ->
  decay_exponent (decay_days * 86400) t =
  (IZR t - IZR NOW) / (1000000 * 86400) / IZR decay_days.
Proof.
  intros Hnz; unfold decay_exponent, epoch_between.
  rewrite mult_IZR, minus_IZR.
  assert (Hd : IZR decay_days <> 0) by (apply not_0_IZR; exact Hnz).
  field; exact Hd.
Qed.

Lemma temporal_row_recency (query_embedding : vector) (decay_days : Z)
    (time_weight : R) (ev : embedding_row * vector) (r : temporal_search_row) :
  temporal_row cosine_distance EXP NOW query_embedding (decay_days * 86400)
               time_weight ev = Ok r ->
  decay_days <> 0%Z
  /\ tmp_recency_score r =
     exp ((IZR (tmp_created_at r) - IZR NOW) / (1000000 * 86400) / IZR decay_days).
Proof.
  intros Hrow; apply temporal_row_inv in Hrow.
  destruct Hrow as (Hrec & _ & Hcreated & _).
  apply recency_inv in Hrec; destruct Hrec as (Hsec & Hexp).
  assert (Hnz : decay_days <> 0%Z) by (intros ->; apply Hsec; reflexivity).
  split; [exact Hnz | ].
  rewrite (EXP_exact _ _ Hexp), decay_exponent_eq, Hcreated by exact Hnz.
  reflexivity.
Qed.

(** X10: the recency score of [temporal_search].  For a positive
    [decay_days] the recency of every returned row is
    [exp (- age / decay)] with the age of the row and the decay period in
    the same unit: it is positive, it is at most 1 exactly when the row
    was not created after [NOW()], and of two rows the one created later
    has the greater or equal recency. *)
Theorem temporal_search_recency_decays
    (tbl : table) (query_embedding : vector) (limit_count decay_days : Z)
    (time_weight : R) (rows : list temporal_search_row) :
  (0 < decay_days)%Z ->
  temporal_search cosine_distance EXP NOW tbl query_embedding limit_count
                  decay_days time_weight = Ok rows ->
  (forall r, In r rows ->
     tmp_recency_score r =
     exp (- (IZR (NOW - tmp_created_at r) / 1000000) / (IZR decay_days * 86400))
     /\ 0 < tmp_recency_score r
     /\ (tmp_recency_score r <= 1 <-> (tmp_created_at r <= NOW)%Z))
  /\ forall r1 r2, In r1 rows -> In r2 rows ->
       (tmp_created_at r1 <= tmp_created_at r2)%Z ->
       tmp_recency_score r1 <= tmp_recency_score r2.
Proof.
  intros Hdecay H.
  pose proof (temporal_search_row_source _ _ _ _ _ _ H) as Hsource.
  assert (Hpos : 0 < IZR decay_days) by (apply IZR_lt; exact Hdecay).
  assert (Hscale : 0 < / (1000000 * 86400) / IZR decay_days).
  { apply Rdiv_lt_0_compat; [apply Rinv_0_lt_compat; lra | exact Hpos]. }
  assert (Hvalue : forall r, In r rows ->
            tmp_recency_score r =
            exp ((IZR (tmp_created_at r) - IZR NOW)
                 * (/ (1000000 * 86400) / IZR decay_days))).
  { intros r Hr; destruct (Hsource r Hr) as (ev & _ & Hrow).
    apply temporal_row_recency in Hrow; destruct Hrow as (_ & ->).
    f_equal; field; lra. }
  split.
  - intros r Hr; rewrite (Hvalue r Hr).
    split; [f_equal; rewrite minus_IZR; field; lra | ].
    split; [apply exp_pos | ].
    rewrite <- exp_0 at 1.
    split.
    + intros Hle.
      destruct (Z.le_gt_cases (tmp_created_at r) NOW) as [Hok | Hlate];
        [exact Hok | exfalso].
      apply IZR_lt in Hlate.
      assert (Hx : 0 < (IZR (tmp_created_at r) - IZR NOW)
                       * (/ (1000000 * 86400) / IZR decay_days))
        by (apply Rmult_lt_0_compat; lra).
      apply exp_increasing in Hx; lra.
    + intros Hok; apply IZR_le in Hok.
      assert (Hx : (IZR (tmp_created_at r) - IZR NOW)
                   * (/ (1000000 * 86400) / IZR decay_days) <= 0)
        by nra.
      destruct Hx as [Hlt | Heq]; [left; apply exp_increasing, Hlt | right].
      rewrite Heq; reflexivity.
  - intros r1 r2 H1 H2 Hle; rewrite (Hvalue r1 H1), (Hvalue r2 H2).
    apply IZR_le in Hle.
    assert (Hx : (IZR (tmp_created_at r1) - IZR NOW)
                 * (/ (1000000 * 86400) / IZR decay_days)
                 <= (IZR (tmp_created_at r2) - IZR NOW)
                    * (/ (1000000 * 86400) / IZR decay_days))
      by (apply Rmult_le_compat_r; lra).
    destruct Hx as [Hlt | Heq]; [left; apply exp_increasing, Hlt | right].
    rewrite Heq; reflexivity.
Qed.

(** X11: recency breaks ties of similarity through the score.  For a
    [time_weight] that is not negative, of two returned rows with the same
    vector similarity the one created later has the greater or equal
    combined score when [decay_days] is positive; for a negative
    [decay_days], which is not rejected, it is the one created earlier
    that has it. *)
Theorem temporal_search_score_follows_recency
    (tbl : table) (query_embedding : vector) (limit_count decay_days : Z)
    (time_weight : R) (rows : list temporal_search_row) :
  0 <= time_weight ->
  temporal_search cosine_distance EXP NOW tbl query_embedding limit_count
                  decay_days time_weight = Ok rows ->
  forall a b, In a rows -> In b rows ->
    tmp_vector_similarity a = tmp_vector_similarity b ->
    (tmp_created_at a <= tmp_created_at b)%Z ->
    ((0 < decay_days)%Z -> tmp_combined_score a <= tmp_combined_score b)
    /\ ((decay_days < 0)%Z -> tmp_combined_score b <= tmp_combined_score a).
Proof.
  intros Hweight H a b Ha Hb Hsim Hcreated.
  pose proof (temporal_search_row_source _ _ _ _ _ _ H) as Hsource.
  destruct (Hsource a Ha) as (eva & _ & Hrowa).
  destruct (Hsource b Hb) as (evb & _ & Hrowb).
  pose proof (temporal_row_recency _ _ _ _ _ Hrowa) as (_ & Hra).
  pose proof (temporal_row_recency _ _ _ _ _ Hrowb) as (_ & Hrb).
  apply temporal_row_inv in Hrowa, Hrowb.
  destruct Hrowa as (_ & _ & _ & _ & Hca), Hrowb as (_ & _ & _ & _ & Hcb).
  rewrite Hca, Hcb, Hsim, Hra, Hrb.
  apply IZR_le in Hcreated.
  assert (Hday : 0 < / (1000000 * 86400)) by (apply Rinv_0_lt_compat; lra).
  set (xa := (IZR (tmp_created_at a) - IZR NOW) / (1000000 * 86400)).
  set (xb := (IZR (tmp_created_at b) - IZR NOW) / (1000000 * 86400)).
  assert (Hx : xa <= xb) by (unfold xa, xb, Rdiv; nra).
  split; intros Hdecay; apply IZR_lt in Hdecay.
  - assert (Hinv : 0 < / IZR decay_days) by (apply Rinv_0_lt_compat; exact Hdecay).
    assert (Hexp : exp (xa / IZR decay_days) <= exp (xb / IZR decay_days))
      by (apply exp_monotone; unfold Rdiv; nra).
    nra.
  - assert (Hinv : / IZR decay_days < 0) by (apply Rinv_lt_0_compat; exact Hdecay).
    assert (Hexp : exp (xb / IZR decay_days) <= exp (xa / IZR decay_days))
      by (apply exp_monotone; unfold Rdiv; nra).
    nra.
Qed.

End TemporalSearchProperties.

(** ** Further properties of the attention functions *)

Lemma desc_nulls_first_total {A : Type} (key : A -> option R) (x y : A) :
  desc_nulls_first key x y = true \/ desc_nulls_first key y x = true.
Proof. exact (weight_order_total (key x) (key y)). Qed.

Lemma desc_nulls_first_trans {A : Type} (key : A -> option R) (x y z : A) :
  desc_nulls_first key x y = true -> desc_nulls_first key y z = true ->
  desc_nulls_first key x z = true.
Proof. exact (weight_order_trans (key x) (key y) (key z)). Qed.

Lemma sum_R_firstn_le (n : nat) (l : list R) :
  Forall (fun x => 0 <= x) l -> sum_R (firstn n l) <= sum_R l.
Proof.
  intros Hall; rewrite <- (firstn_skipn n l) at 2; rewrite sum_R_app.
  assert (0 <= sum_R (skipn n l)); [ | lra].
  apply sum_R_nonneg; rewrite Forall_forall in *.
  intros x Hx; apply Hall.
  rewrite <- (firstn_skipn n l); apply in_or_app; right; exact Hx.
Qed.

Lemma sum_R_filter_le {A : Type} (f : A -> R) (p : A -> bool) (l : list A) :
  Forall (fun x => 0 <= f x) l -> sum_R (map f (filter p l)) <= sum_R (map f l).
Proof.
  induction 1 as [| x l Hx _ IH]; simpl; [lra | ].
  destruct (p x); simpl; unfold sum_R in *; simpl; lra.
Qed.

Lemma sum_R_map_div {A : Type} (f : A -> R) (s : R) (l : list A) :
  sum_R (map (fun x => f x / s) l) = sum_R (map f l) / s.
Proof.
  induction l as [| x l IH]; simpl; [unfold Rdiv; lra | ].
  unfold sum_R in *; simpl; rewrite IH; unfold Rdiv; lra.
Qed.

Section AttentionRetrievalProperties.
Variable cosine_distance : vector -> vector -> FLOAT.

(** *** attention_weighted_retrieve *)

(** [x / NULLIF(total, 0)] *)
Definition normalised (total : option R) (x : R) : option R :=
  match NULLIF total 0 with
  | Some s => Some (x / s)
  | None => None
  end.

Lemma div_nullable_normalised (total : option R) (x : R) :
  div_nullable x (NULLIF total 0) = Ok (normalised total x).
Proof.
  unfold normalised, div_nullable.
  destruct (NULLIF total 0) as [s | ] eqn:Hs; [ | reflexivity].
  assert (s <> 0).
  { unfold NULLIF in Hs; destruct total as [t | ]; [ | discriminate Hs].
    destruct (Req_dec_T t 0); [discriminate Hs | congruence]. }
  rewrite fdiv_ok by assumption; reflexivity.
Qed.

(** The similarity of a document to the query, the score of
    [attention_weighted_retrieve]. *)
Definition similarity_to (query_embedding : vector) (ev : embedding_row * vector)
    : R :=
  1 - cosine_distance (snd ev) query_embedding.

Definition score_total (tbl : table) (query_embedding : vector) : option R :=
  SUM (map (similarity_to query_embedding) (embedding_not_null tbl)).

Definition weighted (tbl : table) (query_embedding : vector)
    (ev : embedding_row * vector) : weighted_row :=
  {| wr_id := id (fst ev);
     wr_content := content (fst ev);
     wr_score := similarity_to query_embedding ev;
     wr_attention_weight :=
       normalised (score_total tbl query_embedding)
                  (similarity_to query_embedding ev) |}.

Lemma awr_softmax_attention_rows (tbl : table) (query_embedding : vector) :
  awr_softmax_attention cosine_distance tbl query_embedding =
  Ok (map (weighted tbl query_embedding) (embedding_not_null tbl)).
Proof.
  unfold awr_softmax_attention, awr_attention_scores.
  rewrite mapM_map, map_map; cbn [sc_score sc_id sc_content].
  apply mapM_total; intros ev _.
  change (map (fun x : embedding_row * vector =>
                 1 - cosine_distance (snd x) query_embedding)
              (embedding_not_null tbl))
    with (map (similarity_to query_embedding) (embedding_not_null tbl)).
  fold (score_total tbl query_embedding).
  rewrite div_nullable_normalised; reflexivity.
Qed.

(** The documents [filtered] selects, in its order. *)
Definition selected_documents (tbl : table) (query_embedding : vector)
    (context_window : Z) (attention_threshold : R)
    : list (embedding_row * vector) :=
  firstn (Z.to_nat context_window)
    (order_by (desc_nulls_first
                 (fun ev => wr_attention_weight (weighted tbl query_embedding ev)))
       (filter (fun ev => ge_nullable
                            (wr_attention_weight (weighted tbl query_embedding ev))
                            attention_threshold)
               (embedding_not_null tbl))).

Lemma filtered_rows (tbl : table) (query_embedding : vector)
    (context_window : Z) (attention_threshold : R) :
  (0 <= context_window)%Z ->
  filtered cosine_distance tbl query_embedding context_window attention_threshold
  = Ok (map (weighted tbl query_embedding)
            (selected_documents tbl query_embedding context_window
                                attention_threshold)).
Proof.
  intros Hwindow; unfold filtered.
  rewrite awr_softmax_attention_rows; cbn [bind].
  rewrite LIMIT_ok by exact Hwindow.
  rewrite filter_map_comm, order_by_map, firstn_map; reflexivity.
Qed.

Lemma selected_documents_sorted (tbl : table) (query_embedding : vector)
    (context_window : Z) (attention_threshold : R) :
  StronglySorted
    (fun x y => desc_nulls_first wr_attention_weight
                  (weighted tbl query_embedding x)
                  (weighted tbl query_embedding y) = true)
    (selected_documents tbl query_embedding context_window attention_threshold).
Proof.
  apply StronglySorted_firstn.
  apply (order_by_sorted
           (desc_nulls_first
              (fun ev => wr_attention_weight (weighted tbl query_embedding ev)))).
  - intros x y; apply desc_nulls_first_total.
  - intros x y z; apply desc_nulls_first_trans.
Qed.

Lemma attention_weighted_retrieve_row (tbl : table) (query_embedding : vector)
    (context_window : Z) (attention_threshold : R) :
  (0 <= context_window)%Z ->
  let sel := selected_documents tbl query_embedding context_window
                                attention_threshold in
  attention_weighted_retrieve cosine_distance tbl query_embedding context_window
                              attention_threshold
  = Ok {| cx_context_text :=
            string_agg (map (fun ev => content (fst ev)) sel) paragraph_break;
          cx_total_attention :=
            SUM (non_null
                   (map (fun ev => wr_attention_weight
                                     (weighted tbl query_embedding ev)) sel));
          cx_contributing_ids := array_agg (map doc_id sel) |}.
Proof.
  intros Hwindow sel; unfold attention_weighted_retrieve.
  rewrite filtered_rows by exact Hwindow; cbn [bind]; fold sel.
  rewrite order_by_map, order_by_sorted_id
    by apply selected_documents_sorted.
  rewrite !map_map; reflexivity.
Qed.

(** X12: [attention_weighted_retrieve] answers with one row of [NULL]s
    instead of failing.  For a non-negative [context_window], when the
    similarities of the documents add up to zero, as they do over a table
    without embeddings, the division is by [NULL], no document reaches the
    threshold, and the text, the total and the ids are all [NULL]. *)
Theorem attention_weighted_retrieve_null_row
    (tbl : table) (query_embedding : vector) (context_window : Z)
    (attention_threshold : R) :
  (0 <= context_window)%Z ->
  sum_R (map (fun ev : embedding_row * vector =>
                1 - cosine_distance (snd ev) query_embedding)
             (embedding_not_null tbl)) = 0 ->
  attention_weighted_retrieve cosine_distance tbl query_embedding context_window
                              attention_threshold
  = Ok {| cx_context_text := None;
          cx_total_attention := None;
          cx_contributing_ids := None |}.
Proof.
  intros Hwindow Hzero.
  rewrite attention_weighted_retrieve_row by exact Hwindow.
  assert (Hnone : forall x, normalised (score_total tbl query_embedding) x = None).
  { intros x; unfold normalised, score_total, SUM.
    change (map (similarity_to query_embedding) (embedding_not_null tbl))
      with (map (fun ev : embedding_row * vector =>
                   1 - cosine_distance (snd ev) query_embedding)
                (embedding_not_null tbl)).
    destruct (map _ (embedding_not_null tbl)) eqn:Hmap; [reflexivity | ].
    rewrite Hzero; simpl.
    destruct (Req_dec_T 0 0); [reflexivity | contradiction]. }
  assert (Hsel : selected_documents tbl query_embedding context_window
                                    attention_threshold = []).
  { unfold selected_documents.
    rewrite (filter_ext _ (fun _ => false))
      by (intros ev; cbn [weighted wr_attention_weight]; rewrite Hnone; reflexivity).
    assert (Hfalse : forall l : list (embedding_row * vector),
              filter (fun _ => false) l = [])
      by (induction l; simpl; auto).
    rewrite Hfalse; simpl; apply firstn_nil. }
  rewrite Hsel; reflexivity.
Qed.

(** X13: [attention_weighted_retrieve] normalises linearly.  When the
    similarities add up to a non-zero total, the weight of a document is
    its similarity divided by that total, without an exponential.  The
    contributing documents are at most [context_window] documents whose
    weight reaches the threshold, in descending order of weight; their
    contents form the text and their weights add up to the reported
    total, which is at most 1 when no similarity is negative. *)
Theorem attention_weighted_retrieve_normalises_linearly
    (tbl : table) (query_embedding : vector) (context_window : Z)
    (attention_threshold : R) :
  (0 <= context_window)%Z ->
  let score (ev : embedding_row * vector) :=
    1 - cosine_distance (snd ev) query_embedding in
  let total := sum_R (map score (embedding_not_null tbl)) in
  total <> 0 ->
  exists sel row,
    attention_weighted_retrieve cosine_distance tbl query_embedding
                                context_window attention_threshold = Ok row
    /\ (forall ev, In ev sel ->
          In ev (embedding_not_null tbl)
          /\ attention_threshold <= score ev / total)
    /\ StronglySorted (fun x y => score y / total <= score x / total) sel
    /\ (Z.of_nat (List.length sel) <= context_window)%Z
    /\ cx_contributing_ids row = array_agg (map doc_id sel)
    /\ cx_context_text row =
       string_agg (map (fun ev => content (fst ev)) sel) paragraph_break
    /\ cx_total_attention row = SUM (map (fun ev => score ev / total) sel)
    /\ ((forall ev, In ev (embedding_not_null tbl) -> 0 <= score ev) ->
        sum_R (map (fun ev => score ev / total) sel) <= 1).
Proof.
  intros Hwindow score total Htotal.
  assert (Hweight : forall ev,
            wr_attention_weight (weighted tbl query_embedding ev)
            = Some (score ev / total)).
  { intros ev; cbn [weighted wr_attention_weight].
    unfold normalised, score_total, SUM.
    change (map (similarity_to query_embedding) (embedding_not_null tbl))
      with (map score (embedding_not_null tbl)).
    destruct (map score (embedding_not_null tbl)) as [| x xs] eqn:Hmap.
    - exfalso; apply Htotal; reflexivity.
    - change (sum_R (x :: xs)) with total; simpl.
      destruct (Req_dec_T total 0); [contradiction | reflexivity]. }
  exists (selected_documents tbl query_embedding context_window attention_threshold).
  eexists; split;
    [apply attention_weighted_retrieve_row; exact Hwindow | ].
  cbn [cx_contributing_ids cx_context_text cx_total_attention].
  split; [ | split; [ | split; [ | split; [ | split; [ | split] ] ] ] ].
  - intros ev Hev; unfold selected_documents in Hev.
    apply In_firstn, order_by_In, filter_In in Hev; destruct Hev as (Hev & Hge).
    rewrite Hweight in Hge; simpl in Hge; apply Rleb_le in Hge; tauto.
  - eapply StronglySorted_impl; [ | apply selected_documents_sorted].
    intros x y Hxy; unfold desc_nulls_first in Hxy.
    rewrite !Hweight in Hxy; apply Rleb_le in Hxy; exact Hxy.
  - unfold selected_documents; rewrite length_firstn; lia.
  - reflexivity.
  - reflexivity.
  - rewrite (map_ext _ (fun ev => Some (score ev / total))) by exact Hweight.
    f_equal; generalize (selected_documents tbl query_embedding context_window
                                            attention_threshold).
    induction l as [| ev l IH]; simpl; [reflexivity | rewrite IH; reflexivity].
  - intros Hnonneg.
    assert (Hpos : 0 < total).
    { assert (0 <= total); [ | lra].
      apply sum_R_nonneg, Forall_forall; intros x Hx.
      apply in_map_iff in Hx; destruct Hx as (ev & <- & Hev); auto. }
    rewrite sum_R_map_div.
    apply Rmult_le_reg_r with total; [exact Hpos | ].
    unfold Rdiv; rewrite Rmult_assoc, Rinv_l, Rmult_1_r, Rmult_1_l by lra.
    unfold selected_documents; rewrite <- firstn_map.
    eapply Rle_trans; [apply sum_R_firstn_le | ].
    + apply Forall_forall; intros x Hx; apply in_map_iff in Hx.
      destruct Hx as (ev & <- & Hev).
      apply order_by_In, filter_In in Hev; apply Hnonneg; tauto.
    + erewrite sum_R_Permutation
        by (apply Permutation_map, order_by_Permutation).
      apply sum_R_filter_le, Forall_forall; exact Hnonneg.
Qed.

End AttentionRetrievalProperties.

(** A [WHERE] over a lateral join filters the rows each outer row joins. *)
Lemma filter_lateral {A B : Type} (keep : B -> bool) (joined : A -> list B)
    (rows : list A) :
  flat_map (fun r => filter keep (joined r)) rows
  = filter keep (flat_map joined rows).
Proof.
  induction rows as [| r rows IH]; simpl; [reflexivity | ].
  rewrite filter_app, IH; reflexivity.
Qed.

Lemma filter_singleton {A : Type} (p : A -> bool) (l : list A) (x : A) :
  NoDup l -> In x l -> p x = true ->
  (forall y, In y l -> y <> x -> p y = false) ->
  filter p l = [x].
Proof.
  induction 1 as [| a l Ha Hl IH]; simpl; [contradiction | ].
  intros [-> | Hin] Hpx Hothers.
  - rewrite Hpx; f_equal.
    assert (Hnone : forall l', (forall y, In y l' -> In y l) -> filter p l' = []).
    { induction l' as [| y l' IHl']; simpl; intros Hsub; [reflexivity | ].
      rewrite (Hothers y); [apply IHl'; intros z Hz; apply Hsub; right; exact Hz
                           | right; apply Hsub; left; reflexivity
                           | intros ->; apply Ha, Hsub; left; reflexivity]. }
    apply Hnone; tauto.
  - rewrite (Hothers a); [ | left; reflexivity | intros ->; contradiction].
    apply IH; [exact Hin | exact Hpx | ].
    intros y Hy; apply Hothers; right; exact Hy.
Qed.

Lemma flat_map_singleton {A B : Type} (f : A -> list B) (l : list A) (x : A) :
  NoDup l -> In x l ->
  (forall y, In y l -> y <> x -> f y = []) ->
  flat_map f l = f x.
Proof.
  induction 1 as [| a l Ha Hl IH]; simpl; [contradiction | ].
  intros [-> | Hin] Hothers.
  - assert (Hnone : forall l', (forall y, In y l' -> In y l) -> flat_map f l' = []).
    { induction l' as [| y l' IHl']; simpl; intros Hsub; [reflexivity | ].
      rewrite (Hothers y); [apply IHl'; intros z Hz; apply Hsub; right; exact Hz
                           | right; apply Hsub; left; reflexivity
                           | intros ->; apply Ha, Hsub; left; reflexivity]. }
    rewrite Hnone by tauto; apply app_nil_r.
  - rewrite (Hothers a); [ | left; reflexivity | intros ->; contradiction].
    apply IH; [exact Hin | ].
    intros y Hy; apply Hothers; right; exact Hy.
Qed.

Lemma embedding_not_null_rows_NoDup (tbl : table) :
  NoDup (map id tbl) -> NoDup (embedding_not_null tbl).
Proof.
  intros H; apply embedding_not_null_NoDup in H.
  exact (NoDup_map_inv _ _ H).
Qed.

Lemma same_source_refl (a : causal_pairs_row) : same_source a a = true.
Proof. apply N.eqb_refl. Qed.

Lemma same_source_equiv (a b c : causal_pairs_row) :
  same_source a b = true -> same_source c a = same_source c b.
Proof.
  unfold same_source; intros H; apply N.eqb_eq in H; rewrite H; reflexivity.
Qed.

Section CausalAttentionProperties.
Variable cosine_distance : vector -> vector -> FLOAT.
Variable EXP : FLOAT -> result FLOAT.

(** *** causal_attention *)

(** The pair of a source and a target in [causal_pairs]. *)
Definition causal_pair (s t : embedding_row * vector) : causal_pairs_row :=
  {| cp_s_id := id (fst s);
     cp_s_emb := snd s;
     cp_s_created := created_at (fst s);
     cp_t_id := id (fst t);
     cp_t_emb := snd t;
     cp_t_created := created_at (fst t);
     cp_score := 1 - cosine_distance (snd s) (snd t) |}.

Lemma causal_pairs_In (tbl : table) (source_ids : list UUID)
    (cp : causal_pairs_row) :
  In cp (causal_pairs cosine_distance tbl source_ids) <->
  exists s t,
    cp = causal_pair s t
    /\ In s (embedding_not_null tbl) /\ In (id (fst s)) source_ids
    /\ In t (embedding_not_null tbl)
    /\ (created_at (fst t) <= created_at (fst s))%Z.
Proof.
  unfold causal_pairs, JOIN, sources; rewrite in_map_iff; split.
  - intros ([s t] & <- & Hst).
    apply in_flat_map in Hst; destruct Hst as (s' & Hs & Hst).
    apply in_map_iff in Hst; destruct Hst as (t' & Heq & Ht).
    injection Heq as -> ->.
    apply filter_In in Hs, Ht; destruct Hs as (Hs & Hany), Ht as (Ht & Hle).
    exists s, t; repeat split; try assumption.
    + unfold eq_ANY in Hany; apply existsb_exists in Hany.
      destruct Hany as (x & Hx & Heq); apply N.eqb_eq in Heq; subst x; exact Hx.
    + apply Z.leb_le; exact Hle.
  - intros (s & t & -> & Hs & Hid & Ht & Hle).
    exists (s, t); split; [reflexivity | ].
    apply in_flat_map; exists s; split.
    + apply filter_In; split; [exact Hs | ].
      unfold eq_ANY; apply existsb_exists; exists (id (fst s)).
      split; [exact Hid | apply N.eqb_refl].
    + apply in_map, filter_In; split; [exact Ht | apply Z.leb_le; exact Hle].
Qed.

Lemma causal_softmax_scores_pairs (tbl : table) (source_ids : list UUID)
    (temperature : R) (ss : list causal_softmax_row) :
  causal_softmax_scores cosine_distance EXP tbl source_ids temperature = Ok ss ->
  map csm_pair ss = causal_pairs cosine_distance tbl source_ids.
Proof.
  unfold causal_softmax_scores; intro H.
  apply bind_inv in H; destruct H as (exps & Hexps & H).
  apply (softmax_over_rows same_source Build_causal_softmax_row) in H.
  destruct H as (-> & _).
  rewrite map_map; simpl.
  apply mapM_tagged in Hexps; destruct Hexps as (Hfst & _); exact Hfst.
Qed.

Lemma causal_attention_rows (tbl : table) (source_ids : list UUID)
    (temperature : R) (rows : list causal_attention_row) :
  causal_attention cosine_distance EXP tbl source_ids temperature = Ok rows ->
  exists ss,
    causal_softmax_scores cosine_distance EXP tbl source_ids temperature = Ok ss
    /\ forall r, In r rows <->
         exists x,
           In x ss /\ 1 / 100 < csm_attn x
           /\ r = {| cau_source_id := cp_s_id (csm_pair x);
                     cau_attended_id := cp_t_id (csm_pair x);
                     cau_attention_score := csm_attn x;
                     cau_source_created := cp_s_created (csm_pair x);
                     cau_attended_created := cp_t_created (csm_pair x) |}.
Proof.
  unfold causal_attention; intros H.
  apply bind_inv in H; destruct H as (ss & Hss & H); injection H as <-.
  exists ss; split; [exact Hss | ].
  intros r; rewrite in_map_iff; split.
  - intros (x & <- & Hx); apply order_by_In, filter_In in Hx.
    exists x; rewrite <- Rltb_lt; tauto.
  - intros (x & Hx & Hattn & ->); exists x; split; [reflexivity | ].
    apply order_by_In, filter_In; rewrite Rltb_lt; tauto.
Qed.

(** X14: [causal_attention] attends to the past only.  Every returned
    row pairs a source, a document with an embedding whose id is among
    [source_ids], with a document with an embedding that was created no
    later than the source, and its attention score is above 0.01. *)
Theorem causal_attention_attends_to_the_past
    (tbl : table) (source_ids : list UUID) (temperature : R)
    (rows : list causal_attention_row) :
  causal_attention cosine_distance EXP tbl source_ids temperature = Ok rows ->
  forall r, In r rows ->
    (cau_attended_created r <= cau_source_created r)%Z
    /\ 1 / 100 < cau_attention_score r
    /\ In (cau_source_id r) source_ids
    /\ exists s t vs vt,
         In s tbl /\ embedding s = Some vs /\ In t tbl /\ embedding t = Some vt
         /\ cau_source_id r = id s /\ cau_source_created r = created_at s
         /\ cau_attended_id r = id t /\ cau_attended_created r = created_at t.
Proof.
  intros H r Hr.
  destruct (causal_attention_rows _ _ _ _ H) as (ss & Hss & Hrows).
  apply Hrows in Hr; destruct Hr as (x & Hx & Hattn & ->); simpl.
  assert (Hpair : In (csm_pair x) (causal_pairs cosine_distance tbl source_ids))
    by (rewrite <- (causal_softmax_scores_pairs _ _ _ _ Hss); apply in_map, Hx).
  apply causal_pairs_In in Hpair.
  destruct Hpair as ([s vs] & [t vt] & -> & Hs & Hid & Ht & Hle); simpl in *.
  apply embedding_not_null_In in Hs, Ht.
  repeat split; try assumption.
  exists s, t, vs, vt; tauto.
Qed.

(** X15: the weights of [causal_attention] are a distribution over the
    past of each source.  Whenever the CTE [softmax_scores] is computed,
    the weights of the rows of one source add up to 1, and every source
    has a row for itself and for each document with an embedding that
    was created no later. *)
Theorem causal_attention_weights_are_distribution
    (tbl : table) (source_ids : list UUID) (temperature : R)
    (ss : list causal_softmax_row) :
  causal_softmax_scores cosine_distance EXP tbl source_ids temperature = Ok ss ->
  (forall r, In r ss ->
     sum_R (map csm_attn
              (filter (fun r' => same_source (csm_pair r') (csm_pair r)) ss)) = 1)
  /\ forall s t,
       In s (embedding_not_null tbl) -> In (id (fst s)) source_ids ->
       In t (embedding_not_null tbl) ->
       (created_at (fst t) <= created_at (fst s))%Z ->
       exists r,
         In r ss /\ cp_s_id (csm_pair r) = id (fst s)
         /\ cp_t_id (csm_pair r) = id (fst t).
Proof.
  intros Hss; split.
  - intros r Hr; unfold causal_softmax_scores in Hss.
    apply bind_inv in Hss; destruct Hss as (exps & _ & Hss).
    apply (softmax_over_normalised same_source Build_causal_softmax_row
             csm_pair csm_attn same_source_equiv) with (exps := exps); auto.
  - intros s t Hs Hid Ht Hle.
    assert (Hpair : In (causal_pair s t) (map csm_pair ss)).
    { rewrite (causal_softmax_scores_pairs _ _ _ _ Hss).
      apply causal_pairs_In; exists s, t; tauto. }
    apply in_map_iff in Hpair; destruct Hpair as (r & Hr & Hin).
    exists r; rewrite Hr; simpl; tauto.
Qed.

(** X16: the oldest source attends to itself alone.  With unique ids,
    for a source that was created strictly before every other document
    with an embedding, [causal_attention] returns a row in which the
    source attends to itself, and every returned row of that source is
    such a row, with attention score 1. *)
Theorem causal_attention_oldest_source
    (tbl : table) (source_ids : list UUID) (temperature : R)
    (rows : list causal_attention_row) (e : embedding_row) (v : vector) :
  NoDup (map id tbl) ->
  In e tbl -> embedding e = Some v -> In (id e) source_ids ->
  (forall e' v', In e' tbl -> embedding e' = Some v' -> e' <> e ->
     (created_at e < created_at e')%Z) ->
  causal_attention cosine_distance EXP tbl source_ids temperature = Ok rows ->
  (exists r, In r rows /\ cau_source_id r = id e)
  /\ forall r, In r rows -> cau_source_id r = id e ->
       cau_attended_id r = id e /\ cau_attention_score r = 1.
Proof.
  intros Hunique He Hv Hid Holdest H.
  destruct (causal_attention_rows _ _ _ _ H) as (ss & Hss & Hrows).
  pose proof (causal_softmax_scores_pairs _ _ _ _ Hss) as Hpairs.
  assert (Hev : In (e, v) (embedding_not_null tbl))
    by (apply embedding_not_null_In; tauto).
  set (p0 := causal_pair (e, v) (e, v)).
  (* the partition of the source holds the single pair of the source with itself *)
  assert (Honly : forall cp,
            In cp (causal_pairs cosine_distance tbl source_ids) ->
            cp_s_id cp = id e -> cp = p0).
  { intros cp Hcp Hsid; apply causal_pairs_In in Hcp.
    destruct Hcp as ([s vs] & [t vt] & -> & Hs & _ & Ht & Hle); simpl in *.
    apply embedding_not_null_In in Hs, Ht.
    assert (s = e)
      by (apply (NoDup_map_injective id tbl); tauto).
    subst s; assert (vs = v) by (destruct Hs; congruence); subst vs.
    destruct (N.eq_dec (id t) (id e)) as [Heq | Hne].
    - assert (t = e) by (apply (NoDup_map_injective id tbl); tauto).
      subst t; assert (vt = v) by (destruct Ht; congruence); subst vt; reflexivity.
    - destruct Ht as (Ht & Hvt).
      assert (Hte : t <> e) by (intros ->; apply Hne; reflexivity).
      pose proof (Holdest t vt Ht Hvt Hte); lia. }
  assert (Hpartition :
    filter (fun cp => same_source cp p0)
           (causal_pairs cosine_distance tbl source_ids) = [p0]).
  { unfold causal_pairs, JOIN, sources.
    rewrite filter_map_comm, <- filter_lateral.
    rewrite (flat_map_singleton _ _ (e, v)).
    - rewrite filter_map_comm.
      rewrite (filter_singleton _ _ (e, v)).
      + reflexivity.
      + apply NoDup_filter, embedding_not_null_rows_NoDup, Hunique.
      + apply filter_In; split; [exact Hev | apply Z.leb_refl].
      + apply same_source_refl.
      + intros [t vt] Ht Hne; apply filter_In in Ht; destruct Ht as (Ht & Hle).
        apply embedding_not_null_In in Ht; destruct Ht as (Ht & Hvt).
        apply Z.leb_le in Hle; simpl in Hle.
        assert (Hte : t <> e) by (intros ->; apply Hne; f_equal; congruence).
        pose proof (Holdest t vt Ht Hvt Hte); lia.
    - apply NoDup_filter, embedding_not_null_rows_NoDup, Hunique.
    - apply filter_In; split; [exact Hev | ].
      unfold eq_ANY; apply existsb_exists; exists (id e).
      split; [exact Hid | apply N.eqb_refl].
    - intros [s vs] Hs Hne; apply filter_In in Hs; destruct Hs as (Hs & _).
      apply embedding_not_null_In in Hs; destruct Hs as (Hs & Hvs).
      assert (Hids : id s <> id e).
      { intros Heq; apply Hne.
        assert (s = e) by (apply (NoDup_map_injective id tbl); assumption).
        subst s; f_equal; congruence. }
      rewrite filter_map_comm.
      rewrite (filter_ext _ (fun _ => false)).
      + generalize (filter (fun t : embedding_row * vector =>
                              (created_at (fst t) <=? created_at (fst (s, vs)))%Z)
                           (embedding_not_null tbl)).
        induction l; simpl; auto.
      + intros t; unfold same_source; simpl.
        apply N.eqb_neq; exact Hids. }
  unfold causal_softmax_scores in Hss.
  apply bind_inv in Hss; destruct Hss as (exps & Hexps & Hss).
  apply (softmax_over_rows same_source Build_causal_softmax_row) in Hss.
  destruct Hss as (-> & Htotal).
  apply mapM_tagged in Hexps; destruct Hexps as (Hfst & _).
  assert (Hexp0 : exists x0,
            filter (fun r' => same_source (fst r') p0) exps = [(p0, x0)]).
  { rewrite <- Hfst in Hpartition.
    rewrite filter_map_comm in Hpartition.
    destruct (filter (fun x => same_source (fst x) p0) exps) as [| [p x0] rest];
      [discriminate Hpartition | ].
    destruct rest; [ | discriminate Hpartition].
    injection Hpartition as ->; exists x0; reflexivity. }
  destruct Hexp0 as (x0 & Hexp0).
  assert (Hin0 : In (p0, x0) exps).
  { assert (Hin : In (p0, x0) (filter (fun r' => same_source (fst r') p0) exps))
      by (rewrite Hexp0; left; reflexivity).
    apply filter_In in Hin; tauto. }
  assert (Hx0 : x0 <> 0).
  { pose proof (Htotal _ Hin0) as Hnz.
    unfold partition_total in Hnz; simpl in Hnz; rewrite Hexp0 in Hnz.
    simpl in Hnz; lra. }
  assert (Hone : forall x, In x exps -> cp_s_id (fst x) = id e ->
            fst x = p0 /\ snd x / partition_total same_source exps (fst x) = 1).
  { intros x Hx Hsid.
    assert (Hp : fst x = p0)
      by (apply Honly; [rewrite <- Hfst; apply in_map, Hx | exact Hsid]).
    split; [exact Hp | ].
    assert (Hin : In x (filter (fun r' => same_source (fst r') p0) exps))
      by (apply filter_In; split; [exact Hx | rewrite Hp; apply same_source_refl]).
    rewrite Hexp0 in Hin; destruct Hin as [<- | [] ].
    unfold partition_total; simpl; rewrite Hexp0; simpl.
    field; exact Hx0. }
  split.
  - eexists; split.
    + apply Hrows; eexists; split;
        [apply in_map_iff; exists (p0, x0); split; [reflexivity | exact Hin0] | ].
      split; [ | reflexivity].
      simpl; destruct (Hone _ Hin0 eq_refl) as (_ & Hw); simpl in Hw.
      rewrite Hw; lra.
    + reflexivity.
  - intros r Hr Hsid; apply Hrows in Hr; destruct Hr as (y & Hy & _ & ->).
    apply in_map_iff in Hy; destruct Hy as (x & <- & Hx); simpl in *.
    destruct (Hone x Hx Hsid) as (Hp & Hw).
    split; [rewrite Hp; reflexivity | exact Hw].
Qed.

End CausalAttentionProperties.

Lemma StronglySorted_append {A : Type} (P : A -> A -> Prop) (l1 l2 : list A) :
  StronglySorted P l1 -> StronglySorted P l2 ->
  (forall x y, In x l1 -> In y l2 -> P x y) ->
  StronglySorted P (l1 ++ l2).
Proof.
  induction 1 as [| a l1 Hs IH Hall]; simpl; intros H2 Hcross; [exact H2 | ].
  constructor.
  - apply IH; [exact H2 | intros x y Hx Hy; apply Hcross; [right | ]; assumption].
  - apply Forall_app; split; [exact Hall | ].
    apply Forall_forall; intros y Hy; apply Hcross; [left; reflexivity | exact Hy].
Qed.

Lemma StronglySorted_of_map {A B : Type} (P : B -> B -> Prop) (f : A -> B)
    (l : list A) :
  StronglySorted P (map f l) -> StronglySorted (fun x y => P (f x) (f y)) l.
Proof.
  induction l as [| x l IH]; simpl; intros H; [constructor | ].
  inversion H as [| a b Hs Hall]; subst.
  constructor; [exact (IH Hs) | ].
  rewrite Forall_forall in *; intros y Hy; apply Hall, in_map, Hy.
Qed.

Lemma series_from_In (lo : Z) (n : nat) (i : Z) :
  In i (series_from lo n) <-> (lo <= i < lo + Z.of_nat n)%Z.
Proof.
  revert lo; induction n as [| n IH]; intros lo; simpl; [lia | ].
  rewrite IH; lia.
Qed.

Lemma series_from_sorted (lo : Z) (n : nat) :
  StronglySorted Z.lt (series_from lo n).
Proof.
  revert lo; induction n as [| n IH]; intros lo; simpl; constructor; [apply IH | ].
  apply Forall_forall; intros i Hi; apply series_from_In in Hi; lia.
Qed.

Lemma series_from_NoDup (lo : Z) (n : nat) : NoDup (series_from lo n).
Proof.
  revert lo; induction n as [| n IH]; intros lo; simpl; constructor; [ | apply IH].
  intros Hin; apply series_from_In in Hin; lia.
Qed.

Lemma with_ordinality_snd {A : Type} (l : list A) :
  map snd (with_ordinality l) = series_from 1 (List.length l).
Proof.
  unfold with_ordinality; generalize 1%Z.
  induction l as [| x l IH]; intros lo; simpl; [reflexivity | ].
  rewrite IH; reflexivity.
Qed.

(** [ORDER BY a, b] on pairs of integers. *)
Definition row_major (x y : Z * Z) : bool :=
  if Z.ltb (fst x) (fst y) then true
  else if Z.ltb (fst y) (fst x) then false
  else Z.leb (snd x) (snd y).

Lemma list_prod_row_major (l l' : list Z) :
  StronglySorted Z.lt l -> StronglySorted Z.lt l' ->
  StronglySorted (fun x y => row_major x y = true) (list_prod l l').
Proof.
  intros Hl Hl'; induction Hl as [| a l Hs IH Hall]; simpl; [constructor | ].
  apply StronglySorted_append; [ | exact IH | ].
  - apply StronglySorted_map.
    apply (StronglySorted_impl Z.lt); [ | exact Hl'].
    intros x y Hxy; unfold row_major; simpl.
    rewrite Z.ltb_irrefl; apply Z.leb_le; lia.
  - intros x y Hx Hy.
    apply in_map_iff in Hx; destruct Hx as (b & <- & _).
    destruct y as [c d]; apply in_prod_iff in Hy; destruct Hy as (Hc & _).
    rewrite Forall_forall in Hall; specialize (Hall c Hc).
    unfold row_major; simpl.
    destruct (Z.ltb_spec a c); [reflexivity | lia].
Qed.

Lemma map_flat_map_prod {A B C : Type} (h : A -> C) (mk : A -> A -> B)
    (g : B -> C * C) (l l' : list A) :
  (forall a b, g (mk a b) = (h a, h b)) ->
  map g (flat_map (fun a => map (mk a) l') l) = list_prod (map h l) (map h l').
Proof.
  intros Hg; induction l as [| a l IH]; simpl; [reflexivity | ].
  rewrite map_app, IH, !map_map; f_equal.
  apply map_ext; intros b; apply Hg.
Qed.

Lemma array_position_app (ids extra : list UUID) (x : UUID) :
  In x ids -> array_position (ids ++ extra) x = array_position ids x.
Proof.
  induction ids as [| y ids IH]; simpl; [contradiction | ].
  destruct (N.eqb_spec y x) as [_ | Hne]; [reflexivity | ].
  intros [Heq | Hin]; [contradiction | ].
  rewrite IH by exact Hin; reflexivity.
Qed.

Lemma eq_ANY_In (x : UUID) (arr : list UUID) : eq_ANY x arr = true <-> In x arr.
Proof.
  unfold eq_ANY; rewrite existsb_exists; split.
  - intros (y & Hy & Heq); apply N.eqb_eq in Heq; subst y; exact Hy.
  - intros Hin; exists x; split; [exact Hin | apply N.eqb_refl].
Qed.

Lemma insert_row_ext_In {A : Type} (b1 b2 : A -> A -> bool) (x : A) (l : list A) :
  (forall y, In y l -> b1 x y = b2 x y) -> insert_row b1 x l = insert_row b2 x l.
Proof.
  induction l as [| y l IH]; simpl; intros Hb; [reflexivity | ].
  rewrite (Hb y) by (left; reflexivity).
  destruct (b2 x y); [reflexivity | ].
  rewrite IH; [reflexivity | intros z Hz; apply Hb; right; exact Hz].
Qed.

(** Sorting depends on the comparison of the rows present only. *)
Lemma order_by_ext_In {A : Type} (b1 b2 : A -> A -> bool) (l : list A) :
  (forall x y, In x l -> In y l -> b1 x y = b2 x y) ->
  order_by b1 l = order_by b2 l.
Proof.
  induction l as [| x l IH]; simpl; intros Hb; [reflexivity | ].
  rewrite IH by (intros y z Hy Hz; apply Hb; right; assumption).
  apply insert_row_ext_In; intros y Hy; apply order_by_In in Hy.
  apply Hb; [left; reflexivity | right; exact Hy].
Qed.

Lemma same_row_equiv (a b c : pairs_row) :
  same_row a b = true -> same_row c a = same_row c b.
Proof.
  unfold same_row; intros H; apply N.eqb_eq in H; rewrite H; reflexivity.
Qed.

Lemma sum_R_member_le {A : Type} (f : A -> R) (l : list A) (x : A) :
  (forall y, In y l -> 0 < f y) -> In x l -> f x <= sum_R (map f l).
Proof.
  induction l as [| a l IH]; simpl; intros Hpos Hin; [contradiction | ].
  assert (0 <= sum_R (map f l)).
  { apply sum_R_nonneg, Forall_forall; intros y Hy.
    apply in_map_iff in Hy; destruct Hy as (z & <- & Hz).
    left; apply Hpos; right; exact Hz. }
  destruct Hin as [-> | Hin]; unfold sum_R in *; simpl.
  - lra.
  - assert (0 < f a) by (apply Hpos; left; reflexivity).
    assert (f x <= fold_right Rplus 0 (map f l))
      by (apply IH; [intros y Hy; apply Hpos; right; exact Hy | exact Hin]).
    lra.
Qed.

Lemma array_position_found (ids : list UUID) (x : UUID) :
  In x ids -> exists i, array_position ids x = Some i /\ (1 <= i)%Z.
Proof.
  induction ids as [| y ids IH]; simpl; [contradiction | ].
  destruct (N.eqb_spec y x) as [_ | Hne]; [exists 1%Z; split; [reflexivity | lia] | ].
  intros [Heq | Hin]; [contradiction | ].
  destruct (IH Hin) as (i & -> & Hi); exists (i + 1)%Z; split; [reflexivity | lia].
Qed.

Lemma array_position_injective (ids : list UUID) (x y : UUID) (i : Z) :
  array_position ids x = Some i -> array_position ids y = Some i -> x = y.
Proof.
  revert i; induction ids as [| a ids IH]; simpl; intros i; [discriminate | ].
  assert (Hpos : forall z j, array_position ids z = Some j -> (1 <= j)%Z).
  { clear; induction ids as [| a ids IH]; simpl; intros z j; [discriminate | ].
    destruct (N.eqb a z); [intros H; injection H as <-; lia | ].
    destruct (array_position ids z) as [k | ] eqn:Hk; [ | discriminate].
    intros H; injection H as <-; specialize (IH z k Hk); lia. }
  destruct (N.eqb_spec a x) as [<- | Hx], (N.eqb_spec a y) as [<- | Hy].
  - reflexivity.
  - intros H; injection H as <-.
    destruct (array_position ids y) as [k | ] eqn:Hk; [ | discriminate].
    intros H; injection H as H; specialize (Hpos y k Hk); lia.
  - destruct (array_position ids x) as [k | ] eqn:Hk; [ | discriminate].
    intros H H'; injection H as <-; injection H' as H'.
    specialize (Hpos x k Hk); lia.
  - destruct (array_position ids x) as [k | ] eqn:Hk; [ | discriminate].
    destruct (array_position ids y) as [k' | ] eqn:Hk'; [ | discriminate].
    intros H H'; injection H as <-; injection H' as H'.
    apply (IH k); [reflexivity | f_equal; lia].
Qed.

Lemma StronglySorted_impl_In {A : Type} (P Q : A -> A -> Prop) (l : list A) :
  (forall x y, In x l -> In y l -> P x y -> Q x y) ->
  StronglySorted P l -> StronglySorted Q l.
Proof.
  intros HPQ H; induction H as [| a l Hs IH Hall]; constructor.
  - apply IH; intros x y Hx Hy; apply HPQ; right; assumption.
  - rewrite Forall_forall in *; intros y Hy.
    apply HPQ; [left; reflexivity | right; exact Hy | exact (Hall y Hy)].
Qed.

(** An array without repetition lists its elements by ascending position. *)
Lemma array_position_sorted (ids : list UUID) :
  NoDup ids ->
  StronglySorted
    (fun x y => asc_nulls_last (array_position ids) x y = true) ids.
Proof.
  induction 1 as [| a ids Ha Hids IH]; constructor.
  - apply (StronglySorted_impl_In
             (fun x y => asc_nulls_last (array_position ids) x y = true));
      [ | exact IH].
    intros x y Hx Hy; unfold asc_nulls_last; simpl.
    destruct (N.eqb_spec a x) as [-> | _]; [contradiction | ].
    destruct (N.eqb_spec a y) as [-> | _]; [contradiction | ].
    destruct (array_position_found ids x Hx) as (i & -> & _).
    destruct (array_position_found ids y Hy) as (j & -> & _).
    rewrite !Z.leb_le; lia.
  - apply Forall_forall; intros y Hy; unfold asc_nulls_last; simpl.
    rewrite N.eqb_refl.
    destruct (N.eqb_spec a y) as [-> | _]; [contradiction | ].
    destruct (array_position_found ids y Hy) as (j & -> & Hj).
    apply Z.leb_le; lia.
Qed.

Lemma asc_nulls_last_total {A : Type} (key : A -> option Z) (x y : A) :
  asc_nulls_last key x y = true \/ asc_nulls_last key y x = true.
Proof.
  unfold asc_nulls_last; destruct (key x), (key y); auto.
  rewrite !Z.leb_le; lia.
Qed.

Lemma asc_nulls_last_trans {A : Type} (key : A -> option Z) (x y z : A) :
  asc_nulls_last key x y = true -> asc_nulls_last key y z = true ->
  asc_nulls_last key x z = true.
Proof.
  unfold asc_nulls_last; destruct (key x), (key y), (key z); auto;
    try discriminate.
  rewrite !Z.leb_le; lia.
Qed.

Section AttentionMatrixProperties.
Variable cosine_distance : vector -> vector -> FLOAT.
Variable EXP : FLOAT -> result FLOAT.

(** *** attention_matrix *)

(** The rows of the table that [attention_matrix] selects. *)
Definition matrix_documents (tbl : table) (embedding_ids : list UUID)
    : list (embedding_row * vector) :=
  filter (fun ev => eq_ANY (id (fst ev)) embedding_ids) (embedding_not_null tbl).

Lemma indexed_idx (tbl : table) (embedding_ids : list UUID) :
  map ix_idx (indexed tbl embedding_ids) =
  series_from 1 (List.length (matrix_documents tbl embedding_ids)).
Proof.
  unfold indexed; rewrite map_map; cbn [ix_idx].
  rewrite with_ordinality_snd, order_by_length; reflexivity.
Qed.

Lemma pairs_idx (tbl : table) (embedding_ids : list UUID) :
  map (fun p => (p_r_idx p, p_c_idx p)) (pairs cosine_distance tbl embedding_ids) =
  let n := List.length (matrix_documents tbl embedding_ids) in
  list_prod (series_from 1 n) (series_from 1 n).
Proof.
  cbv zeta; rewrite <- indexed_idx; unfold pairs.
  apply (map_flat_map_prod ix_idx
           (fun i1 i2 =>
              {| p_r_id := ix_id i1;
                 p_r_idx := ix_idx i1;
                 p_c_id := ix_id i2;
                 p_c_idx := ix_idx i2;
                 p_score := 1 - cosine_distance (ix_embedding i1) (ix_embedding i2) |})).
  reflexivity.
Qed.

Lemma softmax_pairs (tbl : table) (embedding_ids : list UUID) (temperature : R)
    (s : list softmax_row_of_matrix) :
  softmax cosine_distance EXP tbl embedding_ids temperature = Ok s ->
  map msm_pair s = pairs cosine_distance tbl embedding_ids.
Proof.
  unfold softmax; intro H.
  apply bind_inv in H; destruct H as (exps & Hexps & H).
  apply (softmax_over_rows same_row Build_softmax_row_of_matrix) in H.
  destruct H as (-> & _).
  rewrite map_map; simpl.
  apply mapM_tagged in Hexps; destruct Hexps as (Hfst & _); exact Hfst.
Qed.

(** The CTE [softmax] is computed in the order of the result. *)
Lemma softmax_row_major (tbl : table) (embedding_ids : list UUID)
    (temperature : R) (s : list softmax_row_of_matrix) :
  softmax cosine_distance EXP tbl embedding_ids temperature = Ok s ->
  order_by attention_matrix_order s = s.
Proof.
  intros Hs; apply order_by_sorted_id.
  apply (StronglySorted_of_map
           (fun x y => row_major x y = true)
           (fun r => (p_r_idx (msm_pair r), p_c_idx (msm_pair r)))).
  rewrite <- (map_map msm_pair (fun p => (p_r_idx p, p_c_idx p))).
  rewrite (softmax_pairs _ _ _ _ Hs), pairs_idx.
  apply list_prod_row_major; apply series_from_sorted.
Qed.

Lemma attention_matrix_rows (tbl : table) (embedding_ids : list UUID)
    (temperature : R) (rows : list attention_matrix_row) :
  attention_matrix cosine_distance EXP tbl embedding_ids temperature = Ok rows ->
  exists s,
    softmax cosine_distance EXP tbl embedding_ids temperature = Ok s
    /\ rows = map (fun r =>
                     {| am_row_id := p_r_id (msm_pair r);
                        am_col_id := p_c_id (msm_pair r);
                        am_row_idx := p_r_idx (msm_pair r);
                        am_col_idx := p_c_idx (msm_pair r);
                        am_attention_value := msm_attn r |}) s.
Proof.
  unfold attention_matrix; intros H.
  apply bind_inv in H; destruct H as (s & Hs & H); injection H as <-.
  exists s; split; [exact Hs | ].
  rewrite (softmax_row_major _ _ _ _ Hs); reflexivity.
Qed.

Lemma attention_matrix_length (tbl : table) (embedding_ids : list UUID)
    (temperature : R) (rows : list attention_matrix_row) :
  attention_matrix cosine_distance EXP tbl embedding_ids temperature = Ok rows ->
  List.length rows =
  (List.length (matrix_documents tbl embedding_ids)
   * List.length (matrix_documents tbl embedding_ids))%nat.
Proof.
  intros H; destruct (attention_matrix_rows _ _ _ _ H) as (s & Hs & ->).
  rewrite length_map, <- (length_map msm_pair), (softmax_pairs _ _ _ _ Hs).
  rewrite <- (length_map (fun p => (p_r_idx p, p_c_idx p))), pairs_idx; cbv zeta.
  rewrite length_prod, !series_from_length; reflexivity.
Qed.

(** X17: the shape of [attention_matrix].  With [n] the number of
    documents with an embedding whose id is among [embedding_ids], the
    result has [n * n] entries, whose row and column indices run through
    [1 .. n] in row-major order: ids outside the table leave no gap. *)
Theorem attention_matrix_shape
    (tbl : table) (embedding_ids : list UUID) (temperature : R)
    (rows : list attention_matrix_row) :
  attention_matrix cosine_distance EXP tbl embedding_ids temperature = Ok rows ->
  let n := List.length
             (filter (fun ev : embedding_row * vector =>
                        eq_ANY (id (fst ev)) embedding_ids)
                     (embedding_not_null tbl)) in
  map (fun r => (am_row_idx r, am_col_idx r)) rows =
  list_prod (series_from 1 n) (series_from 1 n)
  /\ List.length rows = (n * n)%nat.
Proof.
  intros H n.
  destruct (attention_matrix_rows _ _ _ _ H) as (s & Hs & ->).
  assert (Hidx :
    map (fun r => (am_row_idx r, am_col_idx r))
        (map (fun r =>
                {| am_row_id := p_r_id (msm_pair r);
                   am_col_id := p_c_id (msm_pair r);
                   am_row_idx := p_r_idx (msm_pair r);
                   am_col_idx := p_c_idx (msm_pair r);
                   am_attention_value := msm_attn r |}) s)
    = list_prod (series_from 1 n) (series_from 1 n)).
  { rewrite map_map; cbn [am_row_idx am_col_idx].
    rewrite <- (map_map msm_pair (fun p => (p_r_idx p, p_c_idx p))).
    rewrite (softmax_pairs _ _ _ _ Hs); apply pairs_idx. }
  split; [exact Hidx | ].
  apply (f_equal (@List.length (Z * Z))) in Hidx.
  rewrite length_map, length_prod, !series_from_length in Hidx; exact Hidx.
Qed.

(** X18: repeated ids do not matter.  Appending to [embedding_ids] ids
    that it already holds changes nothing of the result: a document is
    selected once, and numbered by its first position in the array. *)
Theorem attention_matrix_ignores_repeated_ids
    (tbl : table) (embedding_ids extra : list UUID) (temperature : R) :
  (forall x, In x extra -> In x embedding_ids) ->
  attention_matrix cosine_distance EXP tbl (embedding_ids ++ extra) temperature
  = attention_matrix cosine_distance EXP tbl embedding_ids temperature.
Proof.
  intros Hextra.
  assert (Hany : forall x, eq_ANY x (embedding_ids ++ extra) = eq_ANY x embedding_ids).
  { intros x; apply eq_true_iff_eq; rewrite !eq_ANY_In, in_app_iff.
    split; [intros [H | H]; auto | tauto]. }
  assert (Hindexed : indexed tbl (embedding_ids ++ extra) = indexed tbl embedding_ids).
  { unfold indexed; f_equal; f_equal.
    rewrite (filter_ext _ (fun ev : embedding_row * vector =>
                             eq_ANY (id (fst ev)) embedding_ids))
      by (intros ev; apply Hany).
    apply order_by_ext_In; intros x y Hx Hy.
    apply filter_In in Hx, Hy; destruct Hx as (_ & Hx), Hy as (_ & Hy).
    apply eq_ANY_In in Hx, Hy.
    unfold asc_nulls_last; rewrite !array_position_app by assumption.
    reflexivity. }
  unfold attention_matrix, softmax, pairs; rewrite Hindexed; reflexivity.
Qed.

Lemma indexed_ids_in_array_order (tbl : table) (embedding_ids : list UUID) :
  NoDup (map id tbl) -> NoDup embedding_ids ->
  (forall x, In x embedding_ids ->
     exists e v, In e tbl /\ embedding e = Some v /\ id e = x) ->
  map ix_id (indexed tbl embedding_ids) = embedding_ids.
Proof.
  intros Hunique Hids Hpresent.
  unfold indexed; rewrite map_map; cbn [ix_id].
  rewrite <- (map_map fst (fun ev : embedding_row * vector => id (fst ev))).
  rewrite with_ordinality_fst.
  set (position := fun ev : embedding_row * vector =>
                     array_position embedding_ids (id (fst ev))).
  fold (matrix_documents tbl embedding_ids).
  assert (Hdocs : forall x, In x (map doc_id (matrix_documents tbl embedding_ids))
                            <-> In x embedding_ids).
  { intros x; unfold matrix_documents; rewrite in_map_iff; split.
    - intros (ev & <- & Hev); apply filter_In in Hev.
      apply eq_ANY_In; tauto.
    - intros Hx; destruct (Hpresent x Hx) as (e & v & He & Hv & <-).
      exists (e, v); split; [reflexivity | ].
      apply filter_In; split; [apply embedding_not_null_In; tauto | ].
      apply eq_ANY_In; exact Hx. }
  assert (Hnodup : NoDup (map doc_id (matrix_documents tbl embedding_ids))).
  { unfold matrix_documents.
    pose proof (embedding_not_null_NoDup tbl Hunique) as Hall.
    revert Hall; generalize (embedding_not_null tbl); intros l Hall.
    induction l as [| ev l IH]; simpl; [constructor | ].
    inversion Hall as [| a b Ha Hb]; subst.
    destruct (eq_ANY (id (fst ev)) embedding_ids); [ | exact (IH Hb)].
    simpl; constructor; [ | exact (IH Hb)].
    intros Hin; apply Ha.
    apply in_map_iff in Hin; destruct Hin as (ev' & Heq & Hin).
    apply filter_In in Hin; apply in_map_iff; exists ev'; tauto. }
  change (fun ev : embedding_row * vector => id (fst ev)) with doc_id.
  assert (Hsorted_docs :
    forall x,
      In x (map doc_id (order_by (asc_nulls_last position)
                          (matrix_documents tbl embedding_ids)))
      <-> In x embedding_ids).
  { intros x; rewrite <- Hdocs, !in_map_iff; split; intros (ev & Hx & Hev);
      exists ev; (split; [exact Hx | ]);
      apply (order_by_In (asc_nulls_last position)); exact Hev. }
  apply (StronglySorted_Permutation_eq
           (fun x y => asc_nulls_last (array_position embedding_ids) x y = true)).
  - intros x y Hx Hy Hxy Hyx.
    apply Hsorted_docs in Hx, Hy.
    destruct (array_position_found _ _ Hx) as (i & Hi & _).
    destruct (array_position_found _ _ Hy) as (j & Hj & _).
    unfold asc_nulls_last in Hxy, Hyx; rewrite Hi, Hj in Hxy, Hyx.
    apply Z.leb_le in Hxy, Hyx.
    apply (array_position_injective embedding_ids x y i); [exact Hi | ].
    rewrite Hj; f_equal; lia.
  - apply StronglySorted_map.
    apply (order_by_sorted (asc_nulls_last position)).
    + intros x y; apply asc_nulls_last_total.
    + intros x y z; apply asc_nulls_last_trans.
  - apply array_position_sorted, Hids.
  - apply NoDup_Permutation; [ | exact Hids | exact Hsorted_docs].
    apply (Permutation_NoDup (l := map doc_id (matrix_documents tbl embedding_ids)));
      [ | exact Hnodup].
    apply Permutation_map, Permutation_sym, order_by_Permutation.
Qed.

(** X20: the matrix is laid out in the order of [embedding_ids].  With
    unique ids, when [embedding_ids] holds no id twice and only ids of
    documents with an embedding, the entries pair the ids in the order of
    the array, row by row: the entry with indices [(i, j)] is that of the
    [i]-th and the [j]-th id, whatever the order of the table. *)
Theorem attention_matrix_follows_array_order
    (tbl : table) (embedding_ids : list UUID) (temperature : R)
    (rows : list attention_matrix_row) :
  NoDup (map id tbl) -> NoDup embedding_ids ->
  (forall x, In x embedding_ids ->
     exists e v, In e tbl /\ embedding e = Some v /\ id e = x) ->
  attention_matrix cosine_distance EXP tbl embedding_ids temperature = Ok rows ->
  map (fun r => (am_row_id r, am_col_id r)) rows
  = list_prod embedding_ids embedding_ids
  /\ map (fun r => (am_row_idx r, am_col_idx r)) rows
     = list_prod (series_from 1 (List.length embedding_ids))
                 (series_from 1 (List.length embedding_ids)).
Proof.
  intros Hunique Hids Hpresent H.
  pose proof (indexed_ids_in_array_order tbl embedding_ids Hunique Hids Hpresent)
    as Horder.
  destruct (attention_matrix_rows _ _ _ _ H) as (s & Hs & ->).
  rewrite !map_map; cbn [am_row_id am_col_id am_row_idx am_col_idx].
  rewrite <- (map_map msm_pair (fun p => (p_r_id p, p_c_id p))).
  rewrite <- (map_map msm_pair (fun p => (p_r_idx p, p_c_idx p))).
  rewrite (softmax_pairs _ _ _ _ Hs).
  split.
  - rewrite <- Horder at 2 3; unfold pairs.
    apply (map_flat_map_prod ix_id
             (fun i1 i2 =>
                {| p_r_id := ix_id i1;
                   p_r_idx := ix_idx i1;
                   p_c_id := ix_id i2;
                   p_c_idx := ix_idx i2;
                   p_score := 1 - cosine_distance (ix_embedding i1)
                                                  (ix_embedding i2) |})).
    reflexivity.
  - rewrite pairs_idx; cbv zeta.
    replace (List.length (matrix_documents tbl embedding_ids))
      with (List.length embedding_ids); [reflexivity | ].
    rewrite <- Horder at 1.
    unfold indexed; rewrite !length_map.
    unfold with_ordinality; rewrite length_combine, series_from_length, Nat.min_id.
    apply order_by_length.
Qed.

Hypothesis EXP_exact : forall x y, EXP x = Ok y -> y = exp x.

(** X19: the attention matrix is row-stochastic.  Whenever the call
    returns, every entry lies in (0, 1], none is dropped, and the entries
    that share a row id add up to 1. *)
Theorem attention_matrix_rows_sum_to_one
    (tbl : table) (embedding_ids : list UUID) (temperature : R)
    (rows : list attention_matrix_row) :
  attention_matrix cosine_distance EXP tbl embedding_ids temperature = Ok rows ->
  forall r, In r rows ->
    0 < am_attention_value r <= 1
    /\ sum_R (map am_attention_value
                (filter (fun r' => N.eqb (am_row_id r') (am_row_id r)) rows)) = 1.
Proof.
  intros H r Hr.
  destruct (attention_matrix_rows _ _ _ _ H) as (s & Hs & ->).
  apply in_map_iff in Hr; destruct Hr as (x & <- & Hx).
  cbn [am_attention_value am_row_id].
  rewrite filter_map_comm, map_map; cbn [am_attention_value am_row_id].
  unfold softmax in Hs.
  apply bind_inv in Hs; destruct Hs as (exps & Hexps & Hs).
  pose proof (softmax_over_normalised same_row Build_softmax_row_of_matrix
                msm_pair msm_attn same_row_equiv
                (fun _ _ => eq_refl) (fun _ _ => eq_refl) exps s Hs x Hx) as Hsum.
  split; [ | exact Hsum].
  apply (softmax_over_rows same_row Build_softmax_row_of_matrix) in Hs.
  destruct Hs as (-> & Htotal).
  apply in_map_iff in Hx; destruct Hx as (p & <- & Hp); simpl.
  apply mapM_tagged in Hexps; destruct Hexps as (_ & Hexps).
  assert (Hpos : forall q, In q exps -> 0 < snd q).
  { intros q Hq; apply Hexps, (exp_scaled_inv EXP EXP_exact) in Hq.
    destruct Hq as (_ & ->); apply exp_pos. }
  assert (Hle : snd p <= partition_total same_row exps (fst p)).
  { unfold partition_total.
    apply (sum_R_member_le snd).
    - intros q Hq; apply filter_In in Hq; apply Hpos; tauto.
    - apply filter_In; split; [exact Hp | apply N.eqb_refl]. }
  pose proof (Hpos p Hp) as Hp0.
  split.
  - apply Rdiv_lt_0_compat; lra.
  - apply Rmult_le_reg_r with (partition_total same_row exps (fst p)); [lra | ].
    unfold Rdiv; rewrite Rmult_assoc, Rinv_l by lra; lra.
Qed.

End AttentionMatrixProperties.

Lemma mapM_all_raise {A B : Type} (f : A -> result B) (l : list A) (e : sqlstate) :
  l <> [] -> (forall x, In x l -> f x = Raise e) -> mapM f l = Raise e.
Proof.
  destruct l as [| x l]; [contradiction | ].
  intros _ Hall; apply mapM_first_raises, Hall; left; reflexivity.
Qed.

Lemma exp_scaled_zero_temperature (EXP : R -> result R) (score : R) :
  exp_scaled EXP score 0 = Raise division_by_zero.
Proof.
  unfold exp_scaled, fdiv.
  destruct (Req_dec_T 0 0) as [_ | Hne]; [reflexivity | contradiction].
Qed.

Section AttentionScoresCoverage.
Variable cosine_distance : vector -> vector -> FLOAT.
Variable EXP : FLOAT -> result FLOAT.
Hypothesis EXP_exact : forall x y, EXP x = Ok y -> y = exp x.

(** *** attention_scores *)

Lemma softmax_total_pos (tbl : table) (query_embedding : vector) (temperature : R) :
  embedding_not_null tbl <> [] ->
  0 < softmax_total cosine_distance tbl query_embedding temperature.
Proof.
  intros Hrows; unfold softmax_total.
  apply (sum_exp_pos
           (fun ev : embedding_row * vector =>
              (1 - cosine_distance (snd ev) query_embedding) / temperature)).
  exact Hrows.
Qed.

(** The weight of a row of [attention_scores]. *)
Definition softmax_weight (tbl : table) (query_embedding : vector)
    (temperature : R) (ev : embedding_row * vector) : R :=
  exp ((1 - cosine_distance (snd ev) query_embedding) / temperature)
  / softmax_total cosine_distance tbl query_embedding temperature.

Lemma softmax_weight_sum (tbl : table) (query_embedding : vector) (temperature : R) :
  embedding_not_null tbl <> [] ->
  sum_R (map (softmax_weight tbl query_embedding temperature)
             (embedding_not_null tbl)) = 1.
Proof.
  intros Hrows; unfold softmax_weight.
  rewrite (sum_R_map_div
             (fun ev : embedding_row * vector =>
                exp ((1 - cosine_distance (snd ev) query_embedding) / temperature))).
  pose proof (softmax_total_pos tbl query_embedding temperature Hrows) as Hpos.
  unfold softmax_total in *; field; lra.
Qed.

(** X21: the weights of [attention_scores] form a distribution over the
    table.  Whenever the call returns, every weight is a number in
    (0, 1] and the returned weights add up to at most 1; when the limit
    does not cut the result, they add up to exactly 1. *)
Theorem attention_scores_weights_form_distribution
    (tbl : table) (query_embedding : vector) (limit_count : Z) (temperature : R)
    (rows : list attention_scores_row) :
  attention_scores cosine_distance EXP tbl query_embedding limit_count temperature
    = Ok rows ->
  exists ws,
    map as_attention_weight rows = map Some ws
    /\ (forall w, In w ws -> 0 < w <= 1)
    /\ sum_R ws <= 1
    /\ ((Z.of_nat (List.length (embedding_not_null tbl)) <= limit_count)%Z ->
        embedding_not_null tbl <> [] -> sum_R ws = 1).
Proof.
  intros H.
  destruct (attention_scores_rows cosine_distance EXP EXP_exact _ _ _ _ _ H)
    as (s & _ & _ & ->).
  set (weight := softmax_weight tbl query_embedding temperature).
  set (mk := softmax_row cosine_distance tbl query_embedding temperature).
  assert (Hmk : forall ev, as_attention_weight (mk ev) = Some (weight ev))
    by reflexivity.
  rewrite order_by_map, firstn_map, map_map.
  set (sorted := order_by (fun x y => desc_nulls_first as_attention_weight (mk x) (mk y))
                          (embedding_not_null tbl)).
  exists (map weight (firstn (Z.to_nat limit_count) sorted)).
  assert (Hperm : Permutation sorted (embedding_not_null tbl))
    by apply order_by_Permutation.
  assert (Hpositive : forall ev, In ev (embedding_not_null tbl) -> 0 < weight ev).
  { intros ev Hev; unfold weight, softmax_weight.
    apply Rdiv_lt_0_compat; [apply exp_pos | ].
    apply softmax_total_pos; intros Hnil; rewrite Hnil in Hev; exact Hev. }
  assert (Hall : Forall (fun x => 0 <= x) (map weight sorted)).
  { apply Forall_forall; intros x Hx; apply in_map_iff in Hx.
    destruct Hx as (ev & <- & Hev); left; apply Hpositive.
    apply (Permutation_in _ Hperm), Hev. }
  assert (Hsum : embedding_not_null tbl <> [] -> sum_R (map weight sorted) = 1).
  { intros Hrows.
    rewrite (sum_R_Permutation _ _ (Permutation_map weight Hperm)).
    apply softmax_weight_sum, Hrows. }
  assert (Hcut : sum_R (map weight (firstn (Z.to_nat limit_count) sorted)) <= 1).
  { destruct (embedding_not_null tbl) as [| ev0 rest] eqn:Hrows.
    - apply Permutation_sym, Permutation_nil in Hperm; rewrite Hperm.
      rewrite firstn_nil; simpl; lra.
    - rewrite <- firstn_map.
      eapply Rle_trans; [apply sum_R_firstn_le, Hall | ].
      rewrite Hsum by discriminate; lra. }
  split; [rewrite map_map; reflexivity | ].
  split; [ | split; [exact Hcut | ] ].
  - intros w Hw; apply in_map_iff in Hw; destruct Hw as (ev & <- & Hev).
    assert (Hin : In ev (embedding_not_null tbl))
      by (apply (Permutation_in _ Hperm), (In_firstn _ _ _ Hev)).
    split; [apply Hpositive, Hin | ].
    assert (Hle : weight ev <= sum_R (map weight (embedding_not_null tbl)))
      by (apply sum_R_member_le; [exact Hpositive | exact Hin]).
    unfold weight in Hle at 2; rewrite softmax_weight_sum in Hle; [exact Hle | ].
    intros Hnil; rewrite Hnil in Hin; exact Hin.
  - intros Hlimit Hrows.
    rewrite firstn_all2; [apply Hsum, Hrows | ].
    unfold sorted; rewrite order_by_length; lia.
Qed.

(** X22: the sign of the temperature decides the direction of the
    weighting.  Whenever [attention_scores] returns, of two returned rows
    the more similar one carries the greater or equal weight for a
    positive temperature, and the smaller or equal weight for a negative
    temperature, which is not rejected; the rows come in descending order
    of their weights. *)
Theorem attention_scores_weights_follow_temperature_sign
    (tbl : table) (query_embedding : vector) (limit_count : Z) (temperature : R)
    (rows : list attention_scores_row) :
  attention_scores cosine_distance EXP tbl query_embedding limit_count temperature
    = Ok rows ->
  (forall a b, In a rows -> In b rows ->
     as_raw_score a <= as_raw_score b ->
     exists wa wb,
       as_attention_weight a = Some wa /\ as_attention_weight b = Some wb
       /\ (0 < temperature -> wa <= wb)
       /\ (temperature < 0 -> wb <= wa))
  /\ StronglySorted
       (fun a b => forall wa wb,
          as_attention_weight a = Some wa -> as_attention_weight b = Some wb ->
          wb <= wa) rows.
Proof.
  intros H.
  destruct (attention_scores_rows cosine_distance EXP EXP_exact _ _ _ _ _ H)
    as (s & _ & _ & ->).
  set (mk := softmax_row cosine_distance tbl query_embedding temperature).
  set (total := softmax_total cosine_distance tbl query_embedding temperature).
  assert (Hrows : forall a,
            In a (firstn (Z.to_nat limit_count)
                    (order_by (desc_nulls_first as_attention_weight)
                              (map mk (embedding_not_null tbl)))) ->
            0 < total
            /\ as_attention_weight a
               = Some (exp (as_raw_score a / temperature) / total)).
  { intros a Ha; apply In_firstn, order_by_In, in_map_iff in Ha.
    destruct Ha as (ev & <- & Hev); split; [ | reflexivity].
    apply softmax_total_pos; intros Hnil; rewrite Hnil in Hev; exact Hev. }
  split.
  - intros a b Ha Hb Hscore.
    destruct (Hrows a Ha) as (Hpos & Hwa), (Hrows b Hb) as (_ & Hwb).
    exists (exp (as_raw_score a / temperature) / total),
           (exp (as_raw_score b / temperature) / total).
    split; [exact Hwa | split; [exact Hwb | ] ].
    assert (Hinv : 0 < / total) by (apply Rinv_0_lt_compat; exact Hpos).
    split; intros Htemp.
    + assert (Ht : 0 < / temperature) by (apply Rinv_0_lt_compat; exact Htemp).
      assert (Hexp : exp (as_raw_score a / temperature)
                     <= exp (as_raw_score b / temperature))
        by (apply exp_monotone; unfold Rdiv; nra).
      unfold Rdiv; nra.
    + assert (Ht : / temperature < 0) by (apply Rinv_lt_0_compat; exact Htemp).
      assert (Hexp : exp (as_raw_score b / temperature)
                     <= exp (as_raw_score a / temperature))
        by (apply exp_monotone; unfold Rdiv; nra).
      unfold Rdiv; nra.
  - apply StronglySorted_firstn.
    eapply StronglySorted_impl;
      [ | apply (order_by_sorted (desc_nulls_first as_attention_weight));
          [intros x y; apply desc_nulls_first_total
          | intros x y z; apply desc_nulls_first_trans] ].
    intros a b Hab wa wb Hwa Hwb.
    unfold desc_nulls_first in Hab; rewrite Hwa, Hwb in Hab.
    apply Rleb_le in Hab; exact Hab.
Qed.

End AttentionScoresCoverage.

Section EdgeCases.
Variable cosine_distance : vector -> vector -> FLOAT.
Variable EXP : FLOAT -> result FLOAT.
Variable subvector : vector -> Z -> Z -> result vector.
Variable NOW : TIMESTAMPTZ.

(** *** Tables without embeddings, and parameters that are zero *)

(** X23: over a table in which no document has an embedding the
    functions that divide by a parameter, exponentiate or cut vectors
    return the empty result for every non-negative limit: no expression
    over a row is evaluated, so that a temperature, block size or decay of
    zero, or a failing [subvector], goes unnoticed.  For [temporal_search]
    this is stated for the [decay_days] up to 24855 in absolute value,
    whose product with 86400 is an [INT]. *)
Theorem no_embeddings_no_rows_and_no_errors (tbl : table) :
  embedding_not_null tbl = [] ->
  (forall query_embedding limit_count temperature,
     (0 <= limit_count)%Z ->
     attention_scores cosine_distance EXP tbl query_embedding limit_count
                      temperature = Ok [])
  /\ (forall source_ids head_count temperature,
        self_attention cosine_distance EXP tbl source_ids head_count temperature
        = Ok [])
  /\ (forall query_ids key_value_filter temperature,
        cross_attention cosine_distance EXP tbl query_ids key_value_filter
                        temperature = Ok [])
  /\ (forall query_embedding num_heads head_dim limit_count,
        (0 <= limit_count)%Z ->
        multihead_attention_aggregate cosine_distance subvector tbl
          query_embedding num_heads head_dim limit_count = Ok [])
  /\ (forall query_embedding block_size limit_count,
        (0 <= limit_count)%Z ->
        flash_attention_search cosine_distance EXP tbl query_embedding
                               block_size limit_count = Ok [])
  /\ (forall source_ids temperature,
        causal_attention cosine_distance EXP tbl source_ids temperature = Ok [])
  /\ (forall embedding_ids temperature,
        attention_matrix cosine_distance EXP tbl embedding_ids temperature = Ok [])
  /\ (forall query_embedding limit_count decay_days time_weight,
        (0 <= limit_count)%Z -> (Z.abs decay_days <= 24855)%Z ->
        temporal_search cosine_distance EXP NOW tbl query_embedding limit_count
                        decay_days time_weight = Ok []).
Proof.
  intros Hempty.
  repeat split.
  - intros q n t Hn; unfold attention_scores, softmax_sum, attention_weights.
    rewrite Hempty; simpl; rewrite LIMIT_ok, firstn_nil by exact Hn; reflexivity.
  - intros ids h t; unfold self_attention, softmax_scores, raw_scores,
      source_embeddings.
    rewrite Hempty; reflexivity.
  - intros ids flt t; unfold cross_attention, softmax_attention, raw_attention,
      queries.
    rewrite Hempty; reflexivity.
  - intros q h d n Hn; unfold multihead_attention_aggregate, per_head_attention.
    rewrite Hempty; simpl; rewrite LIMIT_ok, firstn_nil by exact Hn; reflexivity.
  - intros q b n Hn; unfold flash_attention_search, blocked, numbered_embeddings.
    rewrite Hempty; simpl; rewrite LIMIT_ok, firstn_nil by exact Hn; reflexivity.
  - intros ids t; unfold causal_attention, causal_softmax_scores, causal_pairs,
      sources.
    rewrite Hempty; reflexivity.
  - intros ids t; unfold attention_matrix, softmax, pairs, indexed.
    rewrite Hempty; reflexivity.
  - intros q n d w Hn Hd; unfold temporal_search.
    rewrite int4_mul_ok by lia; cbn [bind].
    rewrite Hempty; simpl; rewrite LIMIT_ok, firstn_nil by exact Hn; reflexivity.
Qed.

(** X24: a zero temperature or block size is a division by zero as soon
    as there is a row to compute.  [self_attention] with at least one
    source and one head, [cross_attention] with at least one query and
    one key, [causal_attention] with at least one source and
    [attention_matrix] with at least one selected document raise it for
    temperature 0, and [flash_attention_search] over a table with an
    embedding raises it for block size 0 and a limit of at least 1. *)
Theorem zero_temperature_or_block_size_raises (tbl : table) :
  (forall source_ids head_count,
     source_embeddings tbl source_ids <> [] -> (1 <= head_count)%Z ->
     self_attention cosine_distance EXP tbl source_ids head_count 0
     = Raise division_by_zero)
  /\ (forall query_ids key_value_filter,
        queries tbl query_ids <> [] ->
        keys tbl query_ids key_value_filter <> [] ->
        cross_attention cosine_distance EXP tbl query_ids key_value_filter 0
        = Raise division_by_zero)
  /\ (forall source_ids,
        sources tbl source_ids <> [] ->
        causal_attention cosine_distance EXP tbl source_ids 0
        = Raise division_by_zero)
  /\ (forall embedding_ids,
        indexed tbl embedding_ids <> [] ->
        attention_matrix cosine_distance EXP tbl embedding_ids 0
        = Raise division_by_zero)
  /\ (forall query_embedding limit_count,
        embedding_not_null tbl <> [] -> (1 <= limit_count)%Z ->
        flash_attention_search cosine_distance EXP tbl query_embedding 0
                               limit_count = Raise division_by_zero).
Proof.
  assert (Hnonempty : forall (A : Type) (l : list A) (x : A), In x l -> l <> [])
    by (intros A l x Hx ->; exact Hx).
  assert (Hhead : forall (A : Type) (l : list A), l <> [] -> exists x, In x l)
    by (intros A [| x l] Hl; [contradiction | exists x; left; reflexivity]).
  split; [ | split; [ | split; [ | split] ] ].
  - intros ids h Hsources Hheads.
    unfold self_attention, softmax_scores.
    rewrite (mapM_all_raise _ _ division_by_zero); [reflexivity | | ].
    + destruct (Hhead _ _ Hsources) as (s & Hs).
      assert (Ht : In s (embedding_not_null tbl))
        by (unfold source_embeddings in Hs; apply filter_In in Hs; tauto).
      eapply Hnonempty; unfold raw_scores.
      apply in_flat_map; exists s; split; [exact Hs | ].
      apply in_flat_map; exists s; split; [exact Ht | ].
      apply in_map, generate_series_In; split; [apply Z.le_refl | exact Hheads].
    + intros rs _; rewrite exp_scaled_zero_temperature; reflexivity.
  - intros ids flt Hq Hk.
    unfold cross_attention, softmax_attention.
    rewrite (mapM_all_raise _ _ division_by_zero); [reflexivity | | ].
    + destruct (Hhead _ _ Hq) as (q & Hq'), (Hhead _ _ Hk) as (k & Hk').
      eapply Hnonempty; unfold raw_attention.
      apply in_flat_map; exists q; split; [exact Hq' | ].
      apply in_map, Hk'.
    + intros ra _; rewrite exp_scaled_zero_temperature; reflexivity.
  - intros ids Hsources.
    unfold causal_attention, causal_softmax_scores.
    rewrite (mapM_all_raise _ _ division_by_zero); [reflexivity | | ].
    + destruct (Hhead _ _ Hsources) as (s & Hs).
      assert (Hs' := Hs); unfold sources in Hs'; apply filter_In in Hs'.
      destruct Hs' as (Ht & Hany); apply eq_ANY_In in Hany.
      eapply Hnonempty; apply (causal_pairs_In cosine_distance).
      exists s, s; repeat split; try assumption; apply Z.le_refl.
    + intros cp _; rewrite exp_scaled_zero_temperature; reflexivity.
  - intros ids Hindexed.
    unfold attention_matrix, softmax.
    rewrite (mapM_all_raise _ _ division_by_zero); [reflexivity | | ].
    + destruct (Hhead _ _ Hindexed) as (i & Hi).
      eapply Hnonempty; unfold pairs.
      apply in_flat_map; exists i; split; [exact Hi | ].
      apply in_map, Hi.
    + intros p _; rewrite exp_scaled_zero_temperature; reflexivity.
  - intros q n Hrows Hn.
    unfold flash_attention_search; rewrite LIMIT_pos by lia; unfold blocked.
    rewrite (mapM_all_raise _ _ division_by_zero).
    + reflexivity.
    + unfold numbered_embeddings; intros Hnil.
      apply (f_equal (@List.length numbered_row)) in Hnil.
      rewrite length_map in Hnil; unfold with_ordinality in Hnil.
      rewrite length_combine, series_from_length, Nat.min_id, order_by_length
        in Hnil.
      destruct (embedding_not_null tbl); [contradiction | discriminate Hnil].
    + intros ne _; reflexivity.
Qed.

End EdgeCases.

Lemma Permutation_filter_of {A : Type} (p : A -> bool) (l l' : list A) :
  Permutation l l' -> Permutation (filter p l) (filter p l').
Proof.
  induction 1 as [| x l l' _ IH | x y l | l l' l'' _ IH1 _ IH2]; simpl.
  - constructor.
  - destruct (p x); [constructor | ]; exact IH.
  - destruct (p x), (p y); try apply Permutation_refl.
    apply perm_swap.
  - exact (Permutation_trans IH1 IH2).
Qed.

Section GroupJoin.
Context {A K V : Type}.
Variable eqb : K -> K -> bool.
Variable key : A -> K.
Variable agg : group A -> V.
Variable default : V.
Hypothesis eqb_eq : forall a b, eqb a b = true <-> a = b.

Lemma group_by_keys_complete (l : list A) (a : A) :
  In a l -> In (key a) (map fst (group_by eqb key l)).
Proof.
  induction l as [| r l IH]; simpl; [contradiction | ].
  intros [-> | Hin]; [left; reflexivity | ].
  destruct (eqb (key a) (key r)) eqn:Heq.
  - left; symmetry; apply eqb_eq, Heq.
  - right; specialize (IH Hin).
    apply in_map_iff in IH; destruct IH as (g & Hg & Hin').
    apply in_map_iff; exists g; split; [exact Hg | ].
    apply filter_In; split; [exact Hin' | rewrite Hg, Heq; reflexivity].
Qed.

(** The aggregate of the group of a key. *)
Definition aggregate_of (l : list A) (k : K) : V :=
  match find (fun g => eqb (fst g) k) (group_by eqb key l) with
  | Some g => agg (snd g)
  | None => default
  end.

Lemma aggregate_of_group (l : list A) (k : K) (g : group A) :
  In (k, g) (group_by eqb key l) -> aggregate_of l k = agg g.
Proof.
  intros Hin; unfold aggregate_of.
  pose proof (group_by_NoDup_keys eqb key l eqb_eq) as Hnodup.
  destruct (find _ (group_by eqb key l)) as [g' | ] eqn:Hfind.
  - apply find_some in Hfind; destruct Hfind as (Hin' & Hk).
    apply eqb_eq in Hk.
    assert (g' = (k, g))
      by (apply (NoDup_map_injective fst (group_by eqb key l)); assumption).
    subst g'; reflexivity.
  - pose proof (find_none _ _ Hfind _ Hin) as Hk; simpl in Hk.
    rewrite (proj2 (eqb_eq k k) eq_refl) in Hk; discriminate Hk.
Qed.

(** Joining rows with the aggregates of their groups attaches to each
    row the aggregate of its own group. *)
Lemma JOIN_group_by (l : list A) :
  JOIN (fun a kv => eqb (key a) (fst kv)) l
       (map (fun g => (fst g, agg (snd g))) (group_by eqb key l))
  = map (fun a => (a, (key a, aggregate_of l (key a)))) l.
Proof.
  unfold JOIN; rewrite flat_map_concat_map.
  rewrite (map_ext_in _ (fun a => [(a, (key a, aggregate_of l (key a)))])).
  - induction l as [| a l' IH]; simpl; [reflexivity | ].
    clear IH; f_equal.
    generalize (aggregate_of (a :: l')); intros f.
    induction l' as [| b l' IH]; simpl; [reflexivity | rewrite IH; reflexivity].
  - intros a Ha.
    pose proof (group_by_NoDup_keys eqb key l eqb_eq) as Hnodup.
    pose proof (group_by_keys_complete l a Ha) as Hkey.
    apply in_map_iff in Hkey; destruct Hkey as ([k g] & Hk & Hg); simpl in Hk.
    subst k.
    rewrite (filter_singleton _ _ (key a, aggregate_of l (key a))).
    + reflexivity.
    + apply (NoDup_map_inv fst); rewrite map_map; simpl.
      rewrite (map_ext _ fst) by reflexivity; exact Hnodup.
    + apply in_map_iff; exists (key a, g); split; [ | exact Hg].
      simpl; rewrite (aggregate_of_group _ _ _ Hg); reflexivity.
    + simpl; apply eqb_eq; reflexivity.
    + intros kv Hkv Hne; apply in_map_iff in Hkv.
      destruct Hkv as ([k' g'] & <- & Hg'); simpl in *.
      destruct (eqb (key a) k') eqn:Heq; [ | reflexivity].
      apply eqb_eq in Heq; subst k'.
      exfalso; apply Hne.
      rewrite (aggregate_of_group _ _ _ Hg'); reflexivity.
Qed.

End GroupJoin.

Section FlashAttentionBlocks.
Variable cosine_distance : vector -> vector -> FLOAT.
Variable EXP : FLOAT -> result FLOAT.
Hypothesis EXP_exact : forall x y, EXP x = Ok y -> y = exp x.

(** *** flash_attention_search over several blocks *)

Section Blocks.
Variable query_embedding : vector.
Variable bl : list blocked_row.

(** The maximum of the block of a row, as [block_max] yields it. *)
Definition block_max_of (k : Z) : R :=
  aggregate_of Z.eqb b_blk_id
    (fun g => MAX_of (group_map (raw_score cosine_distance query_embedding) g))
    0 bl k.

Definition stable_exp_row (b : blocked_row) : block_attention_row :=
  {| ba_b := b;
     ba_raw_score := raw_score cosine_distance query_embedding b;
     ba_max_score := block_max_of (b_blk_id b);
     ba_stable_exp :=
       exp (raw_score cosine_distance query_embedding b
            - block_max_of (b_blk_id b)) |}.

Lemma block_attention_rows (ba : list block_attention_row) :
  block_attention cosine_distance EXP query_embedding bl = Ok ba ->
  ba = map stable_exp_row bl.
Proof.
  unfold block_attention, block_max; intros H.
  rewrite (JOIN_group_by Z.eqb b_blk_id
             (fun g => MAX_of (group_map (raw_score cosine_distance query_embedding) g))
             0 Zeqb_eq) in H.
  rewrite mapM_map in H.
  apply (mapM_function _ stable_exp_row) in H; [exact H | ].
  intros b y _ Hy; cbn [fst snd] in Hy.
  apply bind_inv in Hy; destruct Hy as (e & He & Hy).
  injection Hy as <-; rewrite (EXP_exact _ _ He); reflexivity.
Qed.

(** The sum of the block of a row, as [block_sums] yields it. *)
Definition block_sum_of (k : Z) : R :=
  sum_R (map ba_stable_exp
           (filter (fun r => Z.eqb (b_blk_id (ba_b r)) k) (map stable_exp_row bl))).

Lemma block_sum_of_pos (b : blocked_row) :
  In b bl -> 0 < block_sum_of (b_blk_id b).
Proof.
  intros Hb; unfold block_sum_of.
  apply sum_R_pos.
  - assert (Hin : In (stable_exp_row b)
                     (filter (fun r => Z.eqb (b_blk_id (ba_b r)) (b_blk_id b))
                             (map stable_exp_row bl)))
      by (apply filter_In; split; [apply in_map, Hb | apply Z.eqb_refl]).
    intros Hnil; apply map_eq_nil in Hnil; rewrite Hnil in Hin; exact Hin.
  - apply Forall_forall; intros x Hx; apply in_map_iff in Hx.
    destruct Hx as (r & <- & Hr); apply filter_In in Hr; destruct Hr as (Hr & _).
    apply in_map_iff in Hr; destruct Hr as (b' & <- & _); apply exp_pos.
Qed.

Definition flash_weight (b : blocked_row) : R :=
  exp (raw_score cosine_distance query_embedding b - block_max_of (b_blk_id b))
  / block_sum_of (b_blk_id b).

Definition flash_attention_row_of (b : blocked_row) : flash_attention_row :=
  {| fa_id := ne_id (b_ne b);
     fa_content := ne_content (b_ne b);
     fa_attention_score := Some (flash_weight b);
     fa_block_id := b_blk_id b;
     fa_metadata := ne_metadata (b_ne b) |}.

Lemma final_attention_rows :
  final_attention (map stable_exp_row bl) = Ok (map flash_attention_row_of bl).
Proof.
  unfold final_attention, block_sums.
  rewrite (JOIN_group_by Z.eqb (fun r => b_blk_id (ba_b r))
             (fun g => SUM_of (group_map ba_stable_exp g)) 0 Zeqb_eq).
  rewrite !mapM_map.
  apply mapM_total; intros b Hb; cbn [fst snd].
  assert (Hsum :
    aggregate_of Z.eqb (fun r => b_blk_id (ba_b r))
      (fun g => SUM_of (group_map ba_stable_exp g)) 0
      (map stable_exp_row bl) (b_blk_id (ba_b (stable_exp_row b)))
    = block_sum_of (b_blk_id b)).
  { pose proof (group_by_keys_complete Z.eqb (fun r => b_blk_id (ba_b r)) Zeqb_eq
                  (map stable_exp_row bl) (stable_exp_row b) (in_map _ _ _ Hb))
      as Hkey.
    apply in_map_iff in Hkey; destruct Hkey as ([k g] & Hk & Hg).
    simpl in Hk; subst k.
    rewrite (aggregate_of_group Z.eqb _ _ 0 Zeqb_eq _ _ _ Hg).
    unfold SUM_of; rewrite group_rows_map.
    rewrite (group_by_rows Z.eqb _ Zeqb_eq _ _ _ Hg); reflexivity. }
  rewrite Hsum.
  pose proof (block_sum_of_pos b Hb) as Hpos.
  unfold NULLIF; destruct (Req_dec_T (block_sum_of (b_blk_id b)) 0); [lra | ].
  unfold div_nullable; rewrite fdiv_ok by lra; reflexivity.
Qed.

Lemma flash_weight_block_sum (b : blocked_row) :
  In b bl ->
  0 < flash_weight b <= 1
  /\ sum_R (map flash_weight
              (filter (fun b' => Z.eqb (b_blk_id b') (b_blk_id b)) bl)) = 1.
Proof.
  intros Hb; pose proof (block_sum_of_pos b Hb) as Hpos.
  assert (Hsum :
    sum_R (map (fun b' => exp (raw_score cosine_distance query_embedding b'
                               - block_max_of (b_blk_id b')))
               (filter (fun b' => Z.eqb (b_blk_id b') (b_blk_id b)) bl))
    = block_sum_of (b_blk_id b)).
  { unfold block_sum_of; rewrite filter_map_comm, map_map; reflexivity. }
  split.
  - unfold flash_weight; split; [apply Rdiv_lt_0_compat; [apply exp_pos | exact Hpos] | ].
    apply Rmult_le_reg_r with (block_sum_of (b_blk_id b)); [exact Hpos | ].
    unfold Rdiv; rewrite Rmult_assoc, Rinv_l, Rmult_1_r, Rmult_1_l by lra.
    rewrite <- Hsum.
    apply (sum_R_member_le
             (fun b' => exp (raw_score cosine_distance query_embedding b'
                             - block_max_of (b_blk_id b')))).
    + intros y _; apply exp_pos.
    + apply filter_In; split; [exact Hb | apply Z.eqb_refl].
  - rewrite (map_ext_in flash_weight
               (fun b' => exp (raw_score cosine_distance query_embedding b'
                               - block_max_of (b_blk_id b'))
                          / block_sum_of (b_blk_id b))).
    + rewrite sum_R_map_div, Hsum; field; lra.
    + intros b' Hb'; apply filter_In in Hb'; destruct Hb' as (_ & Heq).
      apply Z.eqb_eq in Heq; unfold flash_weight; rewrite Heq; reflexivity.
Qed.

End Blocks.

(** X25: [flash_attention_search] normalises within each block.  When
    the limit does not cut the result, every returned weight is a number
    in (0, 1] and the weights of the rows of one block add up to 1,
    whatever the block size: over several blocks the weights of the
    result add up to the number of blocks. *)
Theorem flash_attention_search_normalises_per_block
    (tbl : table) (query_embedding : vector) (block_size limit_count : Z)
    (rows : list flash_attention_row) :
  (Z.of_nat (List.length (embedding_not_null tbl)) <= limit_count)%Z ->
  flash_attention_search cosine_distance EXP tbl query_embedding block_size
                         limit_count = Ok rows ->
  List.length rows = List.length (embedding_not_null tbl)
  /\ forall r, In r rows ->
       (exists w, fa_attention_score r = Some w /\ 0 < w <= 1)
       /\ sum_R (map (fun r' => COALESCE (fa_attention_score r') 0)
                     (filter (fun r' => Z.eqb (fa_block_id r') (fa_block_id r))
                             rows)) = 1.
Proof.
  intros Hlimit H; unfold flash_attention_search in H.
  apply LIMIT_inv in H; destruct H as [(-> & ->) | (_ & l & Hl & ->)].
  { split; [ | intros r []].
    destruct (embedding_not_null tbl); [reflexivity | simpl in Hlimit; lia]. }
  apply bind_inv in Hl; destruct Hl as (bl & Hbl & Hl).
  apply bind_inv in Hl; destruct Hl as (ba & Hba & Hl).
  apply bind_inv in Hl; destruct Hl as (fa & Hfa & Hl).
  injection Hl as <-.
  apply block_attention_rows in Hba; subst ba.
  rewrite final_attention_rows in Hfa; injection Hfa as <-.
  assert (Hlen : List.length bl = List.length (embedding_not_null tbl)).
  { unfold blocked in Hbl; apply mapM_length in Hbl; rewrite Hbl.
    unfold numbered_embeddings; rewrite length_map.
    unfold with_ordinality.
    rewrite length_combine, series_from_length, Nat.min_id; apply order_by_length. }
  rewrite firstn_all2 by (rewrite order_by_length, length_map; lia).
  set (mk := flash_attention_row_of query_embedding bl).
  assert (Hperm : Permutation (order_by (desc_nulls_first fa_attention_score)
                                        (map mk bl)) (map mk bl))
    by apply order_by_Permutation.
  split; [rewrite order_by_length, length_map; exact Hlen | ].
  intros r Hr; apply order_by_In, in_map_iff in Hr.
  destruct Hr as (b & <- & Hb).
  destruct (flash_weight_block_sum query_embedding bl b Hb) as (Hw & Hsum).
  split; [exists (flash_weight query_embedding bl b); split; [reflexivity | exact Hw] | ].
  rewrite (sum_R_Permutation _ _
             (Permutation_map _ (Permutation_filter_of _ _ _ Hperm))).
  rewrite filter_map_comm, map_map; exact Hsum.
Qed.

(** A selection of rows with distinct keys has distinct keys. *)
Lemma filter_keeps_distinct_keys {K A : Type} (key : A -> K) (keep : A -> bool)
    (rows : list A) :
  NoDup (map key rows) -> NoDup (map key (filter keep rows)).
Proof.
  intros Hkeys; induction rows as [| r rows IH]; simpl; [constructor | ].
  inversion Hkeys as [| k ks Hfresh Hrest]; subst.
  destruct (keep r); [ | exact (IH Hrest)].
  simpl; constructor; [ | exact (IH Hrest)].
  intros Hin; apply Hfresh.
  apply in_map_iff in Hin; destruct Hin as (r' & Hkey & Hin).
  apply filter_In in Hin; apply in_map_iff; exists r'; tauto.
Qed.

Lemma filter_firstn_length {A : Type} (p : A -> bool) (n : nat) (l : list A) :
  (List.length (filter p (firstn n l)) <= List.length (filter p l))%nat.
Proof.
  revert n; induction l as [| x l IH]; intros [| n]; simpl; try lia.
  destruct (p x); simpl; specialize (IH n); lia.
Qed.

Lemma blocked_rows (tbl : table) (block_size : Z) (bl : list blocked_row) :
  blocked tbl block_size = Ok bl ->
  map b_ne bl = numbered_embeddings tbl
  /\ forall b, In b bl ->
       block_size <> 0%Z
       /\ b_blk_id b = (Z.quot (ne_row_num (b_ne b) - 1) block_size + 1)%Z.
Proof.
  unfold blocked; intros H; apply mapM_inv in H.
  induction H as [| ne b l l' Hb _ IH]; [split; [reflexivity | contradiction] | ].
  apply bind_inv in Hb; destruct Hb as (d & Hd & Hb); injection Hb as <-.
  unfold idiv in Hd; destruct (Z.eqb_spec block_size 0) as [Hz | Hnz];
    [discriminate Hd | ].
  injection Hd as <-; destruct IH as (IH1 & IH2).
  split; [simpl; rewrite IH1; reflexivity | ].
  intros b [<- | Hin]; [split; [exact Hnz | reflexivity] | exact (IH2 b Hin)].
Qed.

(** X28: the block size bounds the blocks.  For a positive
    [block_size] every returned row lies in a block numbered from 1, and
    no block id is carried by more than [block_size] rows. *)
Theorem flash_attention_search_blocks_are_bounded
    (tbl : table) (query_embedding : vector) (block_size limit_count : Z)
    (rows : list flash_attention_row) :
  (0 < block_size)%Z ->
  flash_attention_search cosine_distance EXP tbl query_embedding block_size
                         limit_count = Ok rows ->
  (forall r, In r rows ->
     (1 <= fa_block_id r)%Z
     /\ ((fa_block_id r - 1) * block_size
         < Z.of_nat (List.length (embedding_not_null tbl)))%Z)
  /\ forall k,
       (Z.of_nat (List.length
                    (filter (fun r => Z.eqb (fa_block_id r) k) rows))
        <= block_size)%Z.
Proof.
  intros Hsize H; unfold flash_attention_search in H.
  apply LIMIT_inv in H; destruct H as [(-> & ->) | (_ & l & Hl & ->)].
  { split; [intros r [] | intros k; simpl; lia]. }
  apply bind_inv in Hl; destruct Hl as (bl & Hbl & Hl).
  apply bind_inv in Hl; destruct Hl as (ba & Hba & Hl).
  apply bind_inv in Hl; destruct Hl as (fa & Hfa & Hl).
  injection Hl as <-.
  apply block_attention_rows in Hba; subst ba.
  rewrite final_attention_rows in Hfa; injection Hfa as <-.
  destruct (blocked_rows _ _ _ Hbl) as (Hne & Hblk).
  set (mk := flash_attention_row_of query_embedding bl).
  assert (Hquot : forall b, In b bl ->
            (1 <= ne_row_num (b_ne b)
             <= Z.of_nat (List.length (embedding_not_null tbl)))%Z
            /\ ((b_blk_id b - 1) * block_size <= ne_row_num (b_ne b) - 1
                < b_blk_id b * block_size)%Z).
  { intros b Hb; destruct (Hblk b Hb) as (_ & Hid).
    assert (Hnum : (1 <= ne_row_num (b_ne b)
                    <= Z.of_nat (List.length (embedding_not_null tbl)))%Z)
      by (apply numbered_row_num; rewrite <- Hne; apply in_map, Hb).
    split; [exact Hnum | ].
    rewrite Hid, Z.quot_div_nonneg by lia.
    pose proof (Z.div_mod (ne_row_num (b_ne b) - 1) block_size ltac:(lia)).
    pose proof (Z.mod_pos_bound (ne_row_num (b_ne b) - 1) block_size Hsize).
    nia. }
  split.
  - intros r Hr; apply In_firstn, order_by_In, in_map_iff in Hr.
    destruct Hr as (b & <- & Hb); cbn [mk flash_attention_row_of fa_block_id].
    destruct (Hquot b Hb) as (Hnum & Hrange).
    split; nia.
  - intros k.
    assert (Hle :
      (List.length (filter (fun r => Z.eqb (fa_block_id r) k)
                      (firstn (Z.to_nat limit_count)
                         (order_by (desc_nulls_first fa_attention_score)
                                   (map mk bl))))
       <= List.length (filter (fun b => Z.eqb (b_blk_id b) k) bl))%nat).
    { eapply Nat.le_trans; [apply filter_firstn_length | ].
      rewrite (Permutation_length
                 (Permutation_filter_of _ _ _
                    (order_by_Permutation (desc_nulls_first fa_attention_score)
                                          (map mk bl)))).
      rewrite filter_map_comm, length_map; apply Nat.le_refl. }
    assert (Hblock :
      (List.length (filter (fun b => Z.eqb (b_blk_id b) k) bl)
       <= Z.to_nat block_size)%nat).
    { rewrite <- (length_map (fun b => ne_row_num (b_ne b))).
      rewrite <- (series_from_length ((k - 1) * block_size + 1) (Z.to_nat block_size)).
      apply NoDup_incl_length.
      - apply filter_keeps_distinct_keys.
        rewrite <- (map_map b_ne ne_row_num), Hne.
        unfold numbered_embeddings; rewrite map_map; cbn [ne_row_num].
        rewrite with_ordinality_snd; apply series_from_NoDup.
      - intros i Hi; apply in_map_iff in Hi; destruct Hi as (b & <- & Hb).
        apply filter_In in Hb; destruct Hb as (Hb & Hk).
        apply Z.eqb_eq in Hk; destruct (Hquot b Hb) as (_ & Hrange).
        apply series_from_In; rewrite Hk in Hrange; lia. }
    lia.
Qed.

End FlashAttentionBlocks.

Lemma sum_R_flat_map {A B : Type} (F : B -> R) (f : A -> list B) (l : list A) :
  sum_R (map F (flat_map f l)) = sum_R (map (fun x => sum_R (map F (f x))) l).
Proof.
  induction l as [| x l IH]; simpl; [reflexivity | ].
  rewrite map_app, sum_R_app, IH; reflexivity.
Qed.

Section SelfAttentionHeads.
Variable cosine_distance : vector -> vector -> FLOAT.
Variable EXP : FLOAT -> result FLOAT.

(** *** The heads of self_attention *)

(** A row of [raw_scores] moved to another head. *)
Definition at_head (h : Z) (rs : raw_scores_row) : raw_scores_row :=
  {| rs_s_id := rs_s_id rs;
     rs_s_content := rs_s_content rs;
     rs_t_id := rs_t_id rs;
     rs_t_content := rs_t_content rs;
     rs_h_idx := h;
     rs_score := rs_score rs |}.

Lemma raw_scores_at_head (tbl : table) (source_ids : list UUID) (head_count h : Z)
    (rs : raw_scores_row) :
  In rs (raw_scores cosine_distance tbl source_ids head_count) ->
  (1 <= h <= head_count)%Z ->
  In (at_head h rs) (raw_scores cosine_distance tbl source_ids head_count)
  /\ (1 <= rs_h_idx rs <= head_count)%Z.
Proof.
  unfold raw_scores; intros Hrs Hh.
  apply in_flat_map in Hrs; destruct Hrs as (s & Hs & Hrs).
  apply in_flat_map in Hrs; destruct Hrs as (t & Ht & Hrs).
  apply in_map_iff in Hrs; destruct Hrs as (h0 & <- & Hh0).
  split; [ | apply generate_series_In; exact Hh0].
  apply in_flat_map; exists s; split; [exact Hs | ].
  apply in_flat_map; exists t; split; [exact Ht | ].
  apply in_map_iff; exists h; split; [reflexivity | ].
  apply generate_series_In; exact Hh.
Qed.

(** The denominator of a partition does not depend on its head. *)
Lemma partition_sum_at_head (tbl : table) (source_ids : list UUID)
    (head_count h : Z) (g : R -> R) (a : raw_scores_row) :
  (1 <= rs_h_idx a <= head_count)%Z -> (1 <= h <= head_count)%Z ->
  sum_R (map (fun rs => g (rs_score rs))
             (filter (fun rs => same_partition rs (at_head h a))
                     (raw_scores cosine_distance tbl source_ids head_count)))
  = sum_R (map (fun rs => g (rs_score rs))
               (filter (fun rs => same_partition rs a)
                       (raw_scores cosine_distance tbl source_ids head_count))).
Proof.
  intros Ha Hh.
  assert (Hinner : forall (s t : embedding_row * vector) (h0 : Z),
            (1 <= h0 <= head_count)%Z ->
            sum_R (map (fun rs => g (rs_score rs))
                     (filter (fun rs => N.eqb (rs_s_id rs) (rs_s_id a)
                                        && Z.eqb (rs_h_idx rs) h0)
                        (map (fun h' : Z =>
                                {| rs_s_id := id (fst s);
                                   rs_s_content := content (fst s);
                                   rs_t_id := id (fst t);
                                   rs_t_content := content (fst t);
                                   rs_h_idx := h';
                                   rs_score := 1 - cosine_distance (snd s) (snd t) |})
                             (generate_series 1 head_count))))
            = if N.eqb (id (fst s)) (rs_s_id a)
              then g (1 - cosine_distance (snd s) (snd t)) else 0).
  { intros s t h0 Hh0; rewrite filter_map_comm; cbn [rs_s_id rs_h_idx].
    destruct (N.eqb (id (fst s)) (rs_s_id a)); cbn [andb].
    - rewrite (filter_singleton _ _ h0).
      + simpl; unfold sum_R; simpl; lra.
      + apply series_from_NoDup.
      + apply generate_series_In; exact Hh0.
      + apply Z.eqb_refl.
      + intros y _ Hy; apply Z.eqb_neq; exact Hy.
    - generalize (generate_series 1 head_count); intros l.
      induction l; simpl; auto. }
  unfold raw_scores.
  rewrite <- !filter_lateral, !sum_R_flat_map.
  f_equal; apply map_ext; intros s.
  rewrite <- !filter_lateral, !sum_R_flat_map.
  f_equal; apply map_ext; intros t.
  unfold same_partition; cbn [at_head rs_s_id rs_h_idx].
  rewrite (Hinner s t h Hh), (Hinner s t (rs_h_idx a) Ha); reflexivity.
Qed.

(** X26: the heads of [self_attention] are copies of one another.  The
    head index enters neither the similarity nor the normalisation, so a
    row returned for one head is returned, with the same attention score,
    for every head from 1 to [head_count]. *)
Theorem self_attention_heads_are_copies
    (tbl : table) (source_ids : list UUID) (head_count : Z) (temperature : R)
    (rows : list self_attention_row) :
  self_attention cosine_distance EXP tbl source_ids head_count temperature
    = Ok rows ->
  forall r h, In r rows -> (1 <= h <= head_count)%Z ->
    In {| sa_source_id := sa_source_id r;
          sa_attended_id := sa_attended_id r;
          sa_head_idx := h;
          sa_attention_score := sa_attention_score r;
          sa_source_content := sa_source_content r;
          sa_attended_content := sa_attended_content r |} rows.
Proof.
  unfold self_attention; intros H r h Hr Hh.
  apply bind_inv in H; destruct H as (ss & Hss & H); injection H as <-.
  apply in_map_iff in Hr; destruct Hr as (x & <- & Hx).
  apply order_by_In, filter_In in Hx; destruct Hx as (Hx & Hattn).
  unfold softmax_scores in Hss.
  apply bind_inv in Hss; destruct Hss as (exps & Hexps & Hss).
  apply (softmax_over_rows same_partition Build_softmax_scores_row) in Hss.
  destruct Hss as (-> & _).
  set (g := fun score => match exp_scaled EXP score temperature with
                         | Ok y => y
                         | Raise _ => 0
                         end).
  apply (mapM_function _ (fun rs => (rs, g (rs_score rs)))) in Hexps.
  2: { intros rs p _ Hp; apply bind_inv in Hp; destruct Hp as (e & He & Hp).
       injection Hp as <-; unfold g; rewrite He; reflexivity. }
  subst exps.
  apply in_map_iff in Hx; destruct Hx as (p & <- & Hp).
  apply in_map_iff in Hp; destruct Hp as (rs & <- & Hrs).
  cbn [fst snd sm_raw sm_attn_score] in *.
  destruct (raw_scores_at_head _ _ _ h _ Hrs Hh) as (Hcopy & Hhead).
  assert (Htotal : forall a,
            partition_total same_partition
              (map (fun rs => (rs, g (rs_score rs)))
                   (raw_scores cosine_distance tbl source_ids head_count)) a
            = sum_R (map (fun rs => g (rs_score rs))
                       (filter (fun rs => same_partition rs a)
                          (raw_scores cosine_distance tbl source_ids head_count)))).
  { intros a; unfold partition_total.
    rewrite filter_map_comm, map_map; reflexivity. }
  apply in_map_iff.
  exists {| sm_raw := at_head h rs;
            sm_attn_score :=
              g (rs_score rs)
              / partition_total same_partition
                  (map (fun rs => (rs, g (rs_score rs)))
                       (raw_scores cosine_distance tbl source_ids head_count))
                  (at_head h rs) |}.
  assert (Hsame :
    partition_total same_partition
      (map (fun rs => (rs, g (rs_score rs)))
           (raw_scores cosine_distance tbl source_ids head_count)) (at_head h rs)
    = partition_total same_partition
        (map (fun rs => (rs, g (rs_score rs)))
             (raw_scores cosine_distance tbl source_ids head_count)) rs).
  { rewrite !Htotal; apply partition_sum_at_head; assumption. }
  split.
  - cbn [sm_raw sm_attn_score at_head rs_s_id rs_t_id rs_h_idx rs_s_content
         rs_t_content rs_score].
    rewrite Hsame; reflexivity.
  - apply order_by_In, filter_In; split.
    + apply in_map_iff; exists (at_head h rs, g (rs_score rs)).
      split; [reflexivity | ].
      apply in_map_iff; exists (at_head h rs); split; [reflexivity | exact Hcopy].
    + cbn [sm_attn_score]; rewrite Hsame; exact Hattn.
Qed.

End SelfAttentionHeads.

Lemma filter_length_Forall2 {A B : Type} (R : A -> B -> Prop)
    (p : A -> bool) (q : B -> bool) (l : list A) (l' : list B) :
  (forall x y, R x y -> p x = q y) -> Forall2 R l l' ->
  List.length (filter p l) = List.length (filter q l').
Proof.
  intros Hpq; induction 1 as [| x y l l' Hxy _ IH]; simpl; [reflexivity | ].
  rewrite (Hpq x y Hxy); destruct (q y); simpl; rewrite IH; reflexivity.
Qed.

Section MultiheadCoverage.
Variable cosine_distance : vector -> vector -> FLOAT.
Variable subvector : vector -> Z -> Z -> result vector.

(** *** The head scores of multihead_attention_aggregate *)

Definition doc_key_of (ev : embedding_row * vector) : doc_key :=
  (id (fst ev), content (fst ev), metadata (fst ev)).

(** X27: [multihead_attention_aggregate] reports the mean of the head
    scores it lists.  The aggregated attention of every returned row is
    the arithmetic mean of its [head_attentions], which is not empty; under
    unique ids that array holds one score for each of the [num_heads]
    heads.  Without a head, [num_heads <= 0], no row is returned. *)
Theorem multihead_aggregated_attention_is_mean
    (tbl : table) (query_embedding : vector) (num_heads head_dim limit_count : Z)
    (rows : list multihead_row) :
  multihead_attention_aggregate cosine_distance subvector tbl query_embedding
    num_heads head_dim limit_count = Ok rows ->
  ((num_heads <= 0)%Z -> rows = [])
  /\ forall r, In r rows ->
       mh_head_attentions r <> []
       /\ mh_aggregated_attention r =
          sum_R (mh_head_attentions r) / INR (List.length (mh_head_attentions r))
       /\ (NoDup (map id tbl) ->
           Z.of_nat (List.length (mh_head_attentions r)) = num_heads).
Proof.
  unfold multihead_attention_aggregate; intros H.
  apply LIMIT_inv in H; destruct H as [(-> & ->) | (_ & l & Hl & ->)].
  { split; [intros _; reflexivity | intros r []]. }
  apply bind_inv in Hl; destruct Hl as (pha & Hpha & Hl); injection Hl as <-.
  unfold per_head_attention in Hpha; apply mapM_inv in Hpha.
  set (source := flat_map (fun ev : embedding_row * vector =>
                             map (pair ev) (generate_series 1 num_heads))
                          (embedding_not_null tbl)) in Hpha.
  assert (Hkeys : Forall2 (fun (eh : embedding_row * vector * Z) (p : per_head_row) =>
                             pha_key p = doc_key_of (fst eh)) source pha).
  { revert Hpha; generalize source; intros src Hpha.
    induction Hpha as [| eh p src pha Hp _ IH]; constructor; [ | exact IH].
    apply bind_inv in Hp; destruct Hp as (s & _ & Hp); injection Hp as <-.
    reflexivity. }
  split.
  - intros Hheads.
    assert (Hsrc : source = []).
    { unfold source, generate_series.
      replace (Z.to_nat (num_heads - 1 + 1)) with 0%nat by lia; simpl.
      generalize (embedding_not_null tbl); intros E; induction E; simpl; auto. }
    rewrite Hsrc in Hpha; inversion Hpha; subst.
    simpl; apply firstn_nil.
  - intros r Hr; apply In_firstn, order_by_In in Hr.
    unfold multihead_aggregated in Hr; apply in_map_iff in Hr.
    destruct Hr as ([k g] & <- & Hg).
    cbn [mh_head_attentions mh_aggregated_attention snd].
    pose proof (order_by_Permutation (asc_int pha_head_idx) (group_rows g)) as Hperm.
    assert (Hlen : List.length
                     (map pha_head_score
                        (order_by (asc_int pha_head_idx) (group_rows g)))
                   = List.length (group_rows g))
      by (rewrite length_map; apply order_by_length).
    split; [ | split].
    + intros Hnil; rewrite Hnil in Hlen; discriminate Hlen.
    + unfold AVG_of; rewrite group_rows_map, Hlen, length_map.
      rewrite (sum_R_Permutation _ _ (Permutation_map pha_head_score Hperm)).
      reflexivity.
    + intros Hunique; rewrite Hlen.
      rewrite (group_by_rows doc_key_eqb pha_key doc_key_eqb_eq _ _ _ Hg).
      destruct (group_by_key doc_key_eqb pha_key _ _ _ Hg) as (Hk & Hfst).
      destruct (Forall2_In_r _ _ _ _ Hkeys Hfst) as ([ev0 h0] & Hsrc & Hkey0).
      simpl in Hkey0.
      assert (Hcount :
        List.length (filter (fun p => doc_key_eqb (pha_key p) k) pha)
        = List.length (filter (fun eh : embedding_row * vector * Z =>
                                 doc_key_eqb (doc_key_of (fst eh)) k) source)).
      { symmetry.
        apply (filter_length_Forall2
                 (fun (eh : embedding_row * vector * Z) (p : per_head_row) =>
                    pha_key p = doc_key_of (fst eh))); [ | exact Hkeys].
        intros x y Hxy; rewrite Hxy; reflexivity. }
      rewrite Hcount; clear Hcount.
      unfold source in Hsrc |- *.
      apply in_flat_map in Hsrc; destruct Hsrc as (ev & Hev & Hsrc).
      apply in_map_iff in Hsrc; destruct Hsrc as (h & Heq & Hh).
      injection Heq as -> ->.
      rewrite <- filter_lateral.
      rewrite (flat_map_singleton _ _ ev0).
      * rewrite filter_map_comm; cbn [fst].
        rewrite (filter_ext _ (fun _ => true))
          by (intros h'; rewrite Hk, Hkey0; apply doc_key_eqb_eq; reflexivity).
        assert (Hall : forall (A : Type) (l : list A), filter (fun _ => true) l = l)
          by (intros A l; induction l; simpl; congruence).
        rewrite Hall, length_map.
        unfold generate_series; rewrite series_from_length.
        apply generate_series_In in Hh; lia.
      * apply embedding_not_null_rows_NoDup, Hunique.
      * exact Hev.
      * intros ev' Hev' Hne.
        rewrite filter_map_comm; cbn [fst].
        assert (Hother : doc_key_eqb (doc_key_of ev') k = false).
        { destruct (doc_key_eqb (doc_key_of ev') k) eqn:Heq; [ | reflexivity].
          apply doc_key_eqb_eq in Heq; rewrite Hk, Hkey0 in Heq.
          exfalso; apply Hne.
          destruct ev' as [e' v'], ev0 as [e0 v0].
          apply embedding_not_null_In in Hev, Hev'.
          unfold doc_key_of in Heq; simpl in Heq.
          assert (e' = e0)
            by (apply (NoDup_map_injective id tbl); try tauto; congruence).
          subst e'; f_equal; destruct Hev, Hev'; congruence. }
        rewrite (filter_ext _ (fun _ => false)) by (intros h'; exact Hother).
        generalize (generate_series 1 num_heads).
        intros l; induction l; simpl; auto.
Qed.

End MultiheadCoverage.

(** ** Calls that return *)

Section SuccessfulSearches.
Variable cosine_distance : vector -> vector -> FLOAT.

Lemma cluster_search_returns (tbl : table) (query_embeddings : list vector)
    (limit_count : Z) (aggregation_method : TEXT) :
  (0 <= limit_count)%Z ->
  exists rows,
    cluster_search cosine_distance tbl query_embeddings limit_count
                   aggregation_method = Ok rows.
Proof.
  intros Hlimit; unfold cluster_search.
  rewrite LIMIT_ok by exact Hlimit; cbn [bind]; eauto.
Qed.

End SuccessfulSearches.

Section SuccessfulTemporalSearch.
Variable cosine_distance : vector -> vector -> FLOAT.
Variable EXP : FLOAT -> result FLOAT.
Variable NOW : TIMESTAMPTZ.

Lemma temporal_search_succeeds (tbl : table) (query_embedding : vector)
    (limit_count decay_days : Z) (time_weight : R) :
  (0 <= limit_count)%Z -> decay_days <> 0%Z ->
  (-2147483648 <= decay_days * 86400 <= 2147483647)%Z ->
  (forall ev, In ev (embedding_not_null tbl) ->
     exists y,
       EXP (- epoch_between NOW (created_at (fst ev)) / IZR (decay_days * 86400))
       = Ok y) ->
  exists rows,
    temporal_search cosine_distance EXP NOW tbl query_embedding limit_count
                    decay_days time_weight = Ok rows.
Proof.
  intros Hlimit Hdecay Hrange Hexp; unfold temporal_search.
  rewrite int4_mul_ok by exact Hrange; cbn [bind].
  destruct (mapM_exists
              (temporal_row cosine_distance EXP NOW query_embedding
                            (decay_days * 86400) time_weight)
              (embedding_not_null tbl)) as (all & Hall).
  - intros ev Hev; destruct (Hexp ev Hev) as (y & Hy).
    unfold temporal_row, recency.
    rewrite fdiv_ok by (apply not_0_IZR; lia); cbn [bind].
    rewrite Hy; cbn [bind]; eauto.
  - rewrite Hall; cbn [bind]; rewrite LIMIT_ok by exact Hlimit; eauto.
Qed.

End SuccessfulTemporalSearch.

Section SuccessfulAttention.
Variable cosine_distance : vector -> vector -> FLOAT.
Variable EXP : FLOAT -> result FLOAT.
Hypothesis EXP_exact : forall x y, EXP x = Ok y -> y = exp x.

Lemma causal_attention_succeeds (tbl : table) (source_ids : list UUID)
    (temperature : R) :
  temperature <> 0 ->
  (forall cp, In cp (causal_pairs cosine_distance tbl source_ids) ->
     exists y, EXP (cp_score cp / temperature) = Ok y) ->
  exists ss rows,
    causal_softmax_scores cosine_distance EXP tbl source_ids temperature = Ok ss
    /\ causal_attention cosine_distance EXP tbl source_ids temperature = Ok rows.
Proof.
  intros Htemp Hexp.
  assert (Hss : exists ss, causal_softmax_scores cosine_distance EXP tbl source_ids
                             temperature = Ok ss).
  { unfold causal_softmax_scores.
    destruct (mapM_exists
                (fun cp => e <- exp_scaled EXP (cp_score cp) temperature ;; Ok (cp, e))
                (causal_pairs cosine_distance tbl source_ids))
      as (exps & Hexps).
    { intros cp Hcp; destruct (Hexp cp Hcp) as (y & Hy).
      unfold exp_scaled; rewrite fdiv_ok by assumption; simpl; rewrite Hy; simpl; eauto. }
    rewrite Hexps; cbn [bind].
    apply (softmax_over_defined same_source Build_causal_softmax_row
             same_source_refl).
    intros r Hr; apply mapM_tagged in Hexps; destruct Hexps as (_ & Hall).
    apply Hall, (exp_scaled_inv EXP EXP_exact) in Hr.
    destruct Hr as (_ & ->); apply exp_pos. }
  destruct Hss as (ss & Hss); exists ss.
  unfold causal_attention; rewrite Hss; cbn [bind]; eauto.
Qed.

Lemma attention_matrix_succeeds (tbl : table) (embedding_ids : list UUID)
    (temperature : R) :
  temperature <> 0 ->
  (forall p, In p (pairs cosine_distance tbl embedding_ids) ->
     exists y, EXP (p_score p / temperature) = Ok y) ->
  exists rows,
    attention_matrix cosine_distance EXP tbl embedding_ids temperature = Ok rows.
Proof.
  intros Htemp Hexp.
  assert (Hs : exists s, softmax cosine_distance EXP tbl embedding_ids temperature
                         = Ok s).
  { unfold softmax.
    destruct (mapM_exists
                (fun p => e <- exp_scaled EXP (p_score p) temperature ;; Ok (p, e))
                (pairs cosine_distance tbl embedding_ids))
      as (exps & Hexps).
    { intros p Hp; destruct (Hexp p Hp) as (y & Hy).
      unfold exp_scaled; rewrite fdiv_ok by assumption; simpl; rewrite Hy; simpl; eauto. }
    rewrite Hexps; cbn [bind].
    apply (softmax_over_defined same_row Build_softmax_row_of_matrix).
    - intros a; apply N.eqb_refl.
    - intros r Hr; apply mapM_tagged in Hexps; destruct Hexps as (_ & Hall).
      apply Hall, (exp_scaled_inv EXP EXP_exact) in Hr.
      destruct Hr as (_ & ->); apply exp_pos. }
  destruct Hs as (s & Hs).
  unfold attention_matrix; rewrite Hs; cbn [bind]; eauto.
Qed.

Lemma numbered_embeddings_source (tbl : table) (ne : numbered_row) :
  In ne (numbered_embeddings tbl) ->
  exists ev, In ev (embedding_not_null tbl) /\ ne_embedding ne = snd ev.
Proof.
  unfold numbered_embeddings; intros Hne.
  apply in_map_iff in Hne; destruct Hne as ([ev i] & <- & Hin).
  unfold with_ordinality in Hin; apply in_combine_l in Hin.
  apply order_by_In in Hin; exists ev; split; [exact Hin | reflexivity].
Qed.

Lemma flash_attention_search_succeeds (tbl : table) (query_embedding : vector)
    (block_size limit_count : Z) :
  (0 <= limit_count)%Z -> block_size <> 0%Z ->
  (forall ev, In ev (embedding_not_null tbl) ->
     0 <= cosine_distance (snd ev) query_embedding <= 2) ->
  (forall x, -2 <= x <= 2 -> exists y, EXP x = Ok y) ->
  exists rows,
    flash_attention_search cosine_distance EXP tbl query_embedding block_size
                           limit_count = Ok rows.
Proof.
  intros Hlimit Hsize Hdist Hexp; unfold flash_attention_search.
  destruct (mapM_exists
              (fun ne => d <- idiv (ne_row_num ne - 1) block_size ;;
                         Ok {| b_ne := ne; b_blk_id := d + 1 |})
              (numbered_embeddings tbl)) as (bl & Hbl).
  { intros ne _; unfold idiv.
    destruct (Z.eqb_spec block_size 0); [contradiction | cbn [bind]; eauto]. }
  fold (blocked tbl block_size) in Hbl.
  destruct (blocked_rows tbl block_size bl Hbl) as (Hne & _).
  assert (Hraw : forall b, In b bl ->
            -1 <= raw_score cosine_distance query_embedding b <= 1).
  { intros b Hb.
    destruct (numbered_embeddings_source tbl (b_ne b)) as (ev & Hev & Hemb);
      [rewrite <- Hne; apply in_map, Hb | ].
    unfold raw_score; rewrite Hemb; specialize (Hdist ev Hev); lra. }
  assert (Hba : exists ba,
            block_attention cosine_distance EXP query_embedding bl = Ok ba).
  { unfold block_attention, block_max.
    rewrite (JOIN_group_by Z.eqb b_blk_id
               (fun g => MAX_of (group_map (raw_score cosine_distance query_embedding) g))
               0 Zeqb_eq).
    rewrite mapM_map; apply mapM_exists; intros b Hb; cbn [fst snd].
    pose proof (group_by_keys_complete Z.eqb b_blk_id Zeqb_eq bl b Hb) as Hkey.
    apply in_map_iff in Hkey; destruct Hkey as ([k g] & Hk & Hg).
    simpl in Hk; subst k.
    rewrite (aggregate_of_group Z.eqb _ _ 0 Zeqb_eq _ _ _ Hg).
    assert (Hmax : -1 <= MAX_of (group_map (raw_score cosine_distance
                                              query_embedding) g) <= 1).
    { destruct (group_by_key Z.eqb b_blk_id _ _ _ Hg) as (_ & Hfst).
      pose proof (group_by_rows Z.eqb b_blk_id Zeqb_eq _ _ _ Hg) as Hrows.
      unfold MAX_of, group_map; cbn [fst snd].
      apply fold_left_Rmax_bounds; [apply Hraw, Hfst | ].
      apply Forall_forall; intros y Hy.
      apply in_map_iff in Hy; destruct Hy as (b' & <- & Hb').
      apply Hraw.
      assert (Hin : In b' (group_rows g)) by (right; exact Hb').
      rewrite Hrows in Hin; apply filter_In in Hin; tauto. }
    destruct (Hexp (raw_score cosine_distance query_embedding b
                    - MAX_of (group_map (raw_score cosine_distance
                                           query_embedding) g))) as (y & Hy);
      [specialize (Hraw b Hb); lra | ].
    rewrite Hy; cbn [bind]; eauto. }
  destruct Hba as (ba & Hba).
  rewrite Hbl; cbn [bind]; rewrite Hba; cbn [bind].
  apply (block_attention_rows cosine_distance EXP EXP_exact) in Hba; subst ba.
  rewrite final_attention_rows; cbn [bind].
  rewrite LIMIT_ok by exact Hlimit; eauto.
Qed.

End SuccessfulAttention.

(** ** The further properties on the sample tables *)

Lemma corpus_created_at (ev : embedding_row * vector) :
  In ev (embedding_not_null corpus) -> (10 <= created_at (fst ev) <= 30)%Z.
Proof.
  rewrite corpus_embeddings; intros [<- | [<- | [<- | [] ] ] ]; simpl; lia.
Qed.

Lemma corpus_recency_defined (ev : embedding_row * vector) :
  In ev (embedding_not_null corpus) ->
  exists y,
    EXP_float8 (- epoch_between 100 (created_at (fst ev)) / IZR (7 * 86400)) = Ok y.
Proof.
  intros Hev; apply corpus_created_at in Hev.
  eexists; apply EXP_float8_defined.
  unfold epoch_between; rewrite minus_IZR.
  assert (Ht : 10 <= IZR (created_at (fst ev)) <= 30)
    by (split; apply IZR_le; lia).
  change (IZR (7 * 86400)) with 604800.
  split.
  - apply Rmult_le_reg_r with 604800; [lra | ].
    unfold Rdiv; rewrite Rmult_assoc, Rinv_l by lra; lra.
  - apply Rmult_le_reg_r with 604800; [lra | ].
    unfold Rdiv; rewrite Rmult_assoc, Rinv_l by lra; lra.
Qed.

Lemma corpus_temporal_search (time_weight : R) :
  exists rows,
    temporal_search cosine EXP_float8 100 corpus [1; 0] 10 7 time_weight = Ok rows.
Proof.
  apply temporal_search_succeeds; [lia | lia | lia | ].
  exact corpus_recency_defined.
Qed.

Lemma corpus_pair_exp_defined (u v : vector) :
  u = [1; 0] \/ u = [0; 1] -> v = [1; 0] \/ v = [0; 1] ->
  exists y, EXP_float8 ((1 - cosine u v) / 1) = Ok y.
Proof.
  intros Hu Hv; pose proof (cosine_axes u v Hu Hv).
  eexists; apply EXP_float8_defined; lra.
Qed.

Lemma corpus_causal_attention (source_ids : list UUID) :
  exists ss rows,
    causal_softmax_scores cosine EXP_float8 corpus source_ids 1 = Ok ss
    /\ causal_attention cosine EXP_float8 corpus source_ids 1 = Ok rows.
Proof.
  apply (causal_attention_succeeds cosine EXP_float8 EXP_float8_exact); [lra | ].
  intros cp Hcp; apply causal_pairs_In in Hcp.
  destruct Hcp as (s & t & -> & Hs & _ & Ht & _); simpl.
  apply corpus_pair_exp_defined; apply corpus_axis_table; assumption.
Qed.

Lemma corpus_attention_matrix (embedding_ids : list UUID) :
  exists rows,
    attention_matrix cosine EXP_float8 corpus embedding_ids 1 = Ok rows.
Proof.
  apply (attention_matrix_succeeds cosine EXP_float8 EXP_float8_exact); [lra | ].
  intros p Hp; unfold pairs in Hp.
  apply in_flat_map in Hp; destruct Hp as (i1 & H1 & Hp).
  apply in_map_iff in Hp; destruct Hp as (i2 & <- & H2); simpl.
  assert (Haxis : forall i, In i (indexed corpus embedding_ids) ->
            ix_embedding i = [1; 0] \/ ix_embedding i = [0; 1]).
  { intros i Hi; unfold indexed in Hi.
    apply in_map_iff in Hi; destruct Hi as ([ev n] & <- & Hin).
    unfold with_ordinality in Hin; apply in_combine_l in Hin.
    apply order_by_In, filter_In in Hin; destruct Hin as (Hin & _).
    exact (corpus_axis_table ev Hin). }
  apply corpus_pair_exp_defined; apply Haxis; assumption.
Qed.

(** X2 on [corpus]: a coarse limit of 5 and a final limit of 2. *)
Lemma rag_retrieve_agrees_with_semantic_search_witness :
  exists rrows srows,
    rag_retrieve cosine corpus [1; 0] 5 2 (6 / 10) = Ok rrows
    /\ semantic_search cosine corpus [1; 0] 2 (6 / 10) None None = Ok srows
    /\ map (fun r => (rr_id r, rr_content r, rr_exact_similarity r, rr_metadata r))
           rrows
       = map (fun r => (ss_id r, ss_content r, ss_similarity r, ss_metadata r))
             srows
    /\ forall r, In r rrows -> rr_coarse_similarity r = rr_exact_similarity r.
Proof.
  apply (rag_retrieve_agrees_with_semantic_search cosine corpus [1; 0] 5 2 (6 / 10)).
  lia.
Defined.

(** X4 on [corpus] with two queries. *)
Lemma cluster_search_one_row_per_document_witness :
  exists rows,
    cluster_search cosine corpus [[1; 0]; [0; 1]] 10 "max" = Ok rows
    /\ NoDup (map (fun r => (cs_id r, cs_content r, cs_metadata r)) rows)
    /\ NoDup (map cs_id rows).
Proof.
  destruct (cluster_search_returns cosine corpus [[1; 0]; [0; 1]] 10 "max")
    as (rows & Hrows); [lia | ].
  exists rows; split; [exact Hrows | ].
  destruct (cluster_search_one_row_per_document cosine corpus [[1; 0]; [0; 1]]
              10 "max" rows Hrows) as (Hkeys & _ & Hids & _).
  split; [exact Hkeys | exact (Hids corpus_ids_unique)].
Defined.

(** X5 on [corpus]: a limit of 5 for three documents with an embedding. *)
Lemma mmr_search_covers_all_documents_witness :
  Permutation
    (map mmr_id (mmr_search cosine corpus [1; 0] 5 (1 / 2)))
    (map doc_id (embedding_not_null corpus)).
Proof.
  apply (mmr_search_covers_all_documents cosine corpus [1; 0] 5 (1 / 2)).
  - exact corpus_ids_unique.
  - rewrite corpus_embeddings; simpl; lia.
Defined.

(** X7 on [corpus], searching for the text of [doc_b]. *)
Lemma hybrid_search_returns_best_combined_witness :
  exists rows,
    hybrid_search cosine TEXT TEXT text_as_is text_as_is same_text_rank String.eqb
                  corpus [1; 0] "b" 10 (7 / 10) (3 / 10) = Ok rows
    /\ StronglySorted (fun a b => hs_combined_score b <= hs_combined_score a) rows
    /\ (Z.of_nat (List.length rows) <= 10)%Z.
Proof.
  destruct (hybrid_search_returns_best_combined cosine TEXT TEXT text_as_is
              text_as_is same_text_rank String.eqb corpus [1; 0] "b" 10
              (7 / 10) (3 / 10)) as (rows & Hrows & _ & Hsorted & Hlength & _);
    [lia | ].
  exists rows; tauto.
Defined.

(** X8 on the table of [doc_a]. *)
Lemma temporal_search_decay_days_errors_witness :
  temporal_search cosine EXP_float8 100 [doc_a] [1; 0] 10 0 (1 / 5)
  = Raise division_by_zero
  /\ temporal_search cosine EXP_float8 100 [doc_a] [1; 0] 10 30000 (1 / 5)
     = Raise numeric_value_out_of_range
  /\ temporal_search cosine EXP_float8 100 [doc_a] [1; 0] 0 0 (1 / 5) = Ok [].
Proof.
  destruct (temporal_search_decay_days_errors cosine EXP_float8 100 [doc_a]
              [1; 0] 10 (1 / 5)) as (Hzero & Hrange & Hnone);
    [lia | discriminate | ].
  split; [exact Hzero | split; [apply Hrange; simpl; lia | exact Hnone] ].
Defined.

(** X9 on [corpus], 100 microseconds after the epoch. *)
Lemma temporal_search_without_time_weight_witness :
  exists rows,
    temporal_search cosine EXP_float8 100 corpus [1; 0] 10 7 0 = Ok rows
    /\ map tmp_id rows = relevance_ranking cosine corpus [1; 0] 10
    /\ forall r, In r rows -> tmp_combined_score r = tmp_vector_similarity r.
Proof.
  destruct (corpus_temporal_search 0) as (rows & Hrows).
  exists rows; split; [exact Hrows | ].
  exact (temporal_search_without_time_weight cosine EXP_float8 100 corpus [1; 0]
           10 7 rows Hrows).
Defined.

(** X10 on [corpus]. *)
Lemma temporal_search_recency_decays_witness :
  exists rows,
    temporal_search cosine EXP_float8 100 corpus [1; 0] 10 7 (1 / 5) = Ok rows
    /\ (forall r, In r rows ->
          0 < tmp_recency_score r
          /\ (tmp_recency_score r <= 1 <-> (tmp_created_at r <= 100)%Z))
    /\ forall r1 r2, In r1 rows -> In r2 rows ->
         (tmp_created_at r1 <= tmp_created_at r2)%Z ->
         tmp_recency_score r1 <= tmp_recency_score r2.
Proof.
  destruct (corpus_temporal_search (1 / 5)) as (rows & Hrows).
  exists rows; split; [exact Hrows | ].
  destruct (temporal_search_recency_decays cosine EXP_float8 100 EXP_float8_exact
              corpus [1; 0] 10 7 (1 / 5) rows) as (Hvalue & Hmonotone);
    [lia | exact Hrows | ].
  split; [ | exact Hmonotone].
  intros r Hr; destruct (Hvalue r Hr) as (_ & Hpos & Hone); tauto.
Defined.

(** X11 on [corpus], where [doc_c] is newer than the equally similar
    [doc_a]. *)
Lemma temporal_search_score_follows_recency_witness :
  exists rows,
    temporal_search cosine EXP_float8 100 corpus [1; 0] 10 7 (1 / 5) = Ok rows
    /\ forall a b, In a rows -> In b rows ->
         tmp_vector_similarity a = tmp_vector_similarity b ->
         (tmp_created_at a <= tmp_created_at b)%Z ->
         tmp_combined_score a <= tmp_combined_score b.
Proof.
  destruct (corpus_temporal_search (1 / 5)) as (rows & Hrows).
  exists rows; split; [exact Hrows | ].
  intros a b Ha Hb Hsim Hcreated.
  destruct (temporal_search_score_follows_recency cosine EXP_float8 100
              EXP_float8_exact corpus [1; 0] 10 7 (1 / 5) rows
              ltac:(lra) Hrows a b Ha Hb Hsim Hcreated) as (Hnewer & _).
  apply Hnewer; lia.
Defined.

(** X12 on the table of [doc_b], which is orthogonal to the query. *)
Lemma attention_weighted_retrieve_null_row_witness :
  embedding_not_null [doc_b] <> []
  /\ attention_weighted_retrieve cosine [doc_b] [1; 0] 5 (1 / 10)
     = Ok {| cx_context_text := None;
             cx_total_attention := None;
             cx_contributing_ids := None |}.
Proof.
  split; [discriminate | ].
  apply (attention_weighted_retrieve_null_row cosine [doc_b] [1; 0] 5 (1 / 10)).
  - lia.
  - simpl; rewrite cosine_orthogonal; unfold sum_R; simpl; lra.
Defined.

(** X13 on [corpus]: the similarities 1, 0 and 1 add up to 2. *)
Lemma attention_weighted_retrieve_normalises_linearly_witness :
  exists sel row,
    attention_weighted_retrieve cosine corpus [1; 0] 5 (1 / 10) = Ok row
    /\ (Z.of_nat (List.length sel) <= 5)%Z
    /\ cx_contributing_ids row = array_agg (map doc_id sel)
    /\ cx_context_text row =
       string_agg (map (fun ev => content (fst ev)) sel) paragraph_break
    /\ sum_R (map (fun ev : embedding_row * vector =>
                     (1 - cosine (snd ev) [1; 0])
                     / sum_R (map (fun ev' : embedding_row * vector =>
                                     1 - cosine (snd ev') [1; 0])
                                  (embedding_not_null corpus))) sel) <= 1.
Proof.
  destruct (attention_weighted_retrieve_normalises_linearly cosine corpus [1; 0]
              5 (1 / 10))
    as (sel & row & Hrow & _ & _ & Hlength & Hids & Htext & _ & Hbound).
  - lia.
  - rewrite corpus_embeddings; simpl.
    rewrite cosine_same_axis, cosine_orthogonal; unfold sum_R; simpl; lra.
  - exists sel, row; repeat split; try assumption.
    apply Hbound; intros ev Hev.
    pose proof (axis_table_distances corpus ev corpus_axis_table Hev); lra.
Defined.

(** X14 on [corpus] with the sources 2 and 3. *)
Lemma causal_attention_attends_to_the_past_witness :
  exists rows,
    causal_attention cosine EXP_float8 corpus [2; 3]%N 1 = Ok rows
    /\ forall r, In r rows ->
         (cau_attended_created r <= cau_source_created r)%Z
         /\ 1 / 100 < cau_attention_score r
         /\ In (cau_source_id r) [2; 3]%N.
Proof.
  destruct (corpus_causal_attention [2; 3]%N) as (ss & rows & _ & Hrows).
  exists rows; split; [exact Hrows | ].
  intros r Hr.
  destruct (causal_attention_attends_to_the_past cosine EXP_float8 corpus
              [2; 3]%N 1 rows Hrows r Hr) as (Hpast & Hattn & Hsource & _).
  tauto.
Defined.

(** X15 on [corpus] with the sources 2 and 3. *)
Lemma causal_attention_weights_are_distribution_witness :
  exists ss,
    causal_softmax_scores cosine EXP_float8 corpus [2; 3]%N 1 = Ok ss
    /\ ss <> []
    /\ forall r, In r ss ->
         sum_R (map csm_attn
                  (filter (fun r' => same_source (csm_pair r') (csm_pair r)) ss)) = 1.
Proof.
  destruct (corpus_causal_attention [2; 3]%N) as (ss & rows & Hss & _).
  exists ss; split; [exact Hss | ].
  destruct (causal_attention_weights_are_distribution cosine EXP_float8 corpus
              [2; 3]%N 1 ss Hss) as (Hsum & Hself).
  split; [ | exact Hsum].
  destruct (Hself (doc_b, [0; 1]) (doc_b, [0; 1])) as (r & Hr & _).
  - rewrite corpus_embeddings; simpl; tauto.
  - simpl; tauto.
  - rewrite corpus_embeddings; simpl; tauto.
  - simpl; lia.
  - intros Hnil; rewrite Hnil in Hr; exact Hr.
Defined.

(** X16 on [corpus]: [doc_a] is the oldest document with an embedding. *)
Lemma causal_attention_oldest_source_witness :
  exists rows,
    causal_attention cosine EXP_float8 corpus [1; 3]%N 1 = Ok rows
    /\ (exists r, In r rows /\ cau_source_id r = 1%N)
    /\ forall r, In r rows -> cau_source_id r = 1%N ->
         cau_attended_id r = 1%N /\ cau_attention_score r = 1.
Proof.
  destruct (corpus_causal_attention [1; 3]%N) as (ss & rows & _ & Hrows).
  exists rows; split; [exact Hrows | ].
  apply (causal_attention_oldest_source cosine EXP_float8 corpus [1; 3]%N 1 rows
           doc_a [1; 0]).
  - exact corpus_ids_unique.
  - simpl; tauto.
  - reflexivity.
  - simpl; tauto.
  - intros e' v' He' Hv' Hne.
    destruct He' as [<- | [<- | [<- | [<- | [] ] ] ] ]; simpl;
      try lia; try discriminate Hv'.
    contradiction.
  - exact Hrows.
Defined.

(** X17 on [corpus]: of the ids 3, 1 and 9 two are documents with an
    embedding. *)
Lemma attention_matrix_shape_witness :
  exists rows,
    attention_matrix cosine EXP_float8 corpus [3; 1; 9]%N 1 = Ok rows
    /\ map (fun r => (am_row_idx r, am_col_idx r)) rows
       = [(1, 1); (1, 2); (2, 1); (2, 2)]%Z
    /\ List.length rows = 4%nat.
Proof.
  destruct (corpus_attention_matrix [3; 1; 9]%N) as (rows & Hrows).
  exists rows; split; [exact Hrows | ].
  pose proof (attention_matrix_shape cosine EXP_float8 corpus [3; 1; 9]%N 1 rows
                Hrows) as Hshape.
  rewrite corpus_embeddings in Hshape; exact Hshape.
Defined.

(** X18 on [corpus]: the id 1 listed twice. *)
Lemma attention_matrix_ignores_repeated_ids_witness :
  attention_matrix cosine EXP_float8 corpus ([1; 2] ++ [1])%N 1
  = attention_matrix cosine EXP_float8 corpus [1; 2]%N 1.
Proof.
  apply (attention_matrix_ignores_repeated_ids cosine EXP_float8 corpus
           [1; 2]%N [1]%N 1).
  intros x [<- | [] ]; simpl; tauto.
Defined.

(** X19 on [corpus]. *)
Lemma attention_matrix_rows_sum_to_one_witness :
  exists rows,
    attention_matrix cosine EXP_float8 corpus [1; 2]%N 1 = Ok rows
    /\ rows <> []
    /\ forall r, In r rows ->
         0 < am_attention_value r <= 1
         /\ sum_R (map am_attention_value
                     (filter (fun r' => N.eqb (am_row_id r') (am_row_id r)) rows)) = 1.
Proof.
  destruct (corpus_attention_matrix [1; 2]%N) as (rows & Hrows).
  exists rows; split; [exact Hrows | split].
  - pose proof (attention_matrix_length cosine EXP_float8 corpus [1; 2]%N 1 rows
                  Hrows) as Hlength.
    unfold matrix_documents in Hlength; rewrite corpus_embeddings in Hlength.
    intros Hnil; rewrite Hnil in Hlength; discriminate Hlength.
  - exact (attention_matrix_rows_sum_to_one cosine EXP_float8 EXP_float8_exact
             corpus [1; 2]%N 1 rows Hrows).
Defined.

(** X20 on [corpus]: the ids 3 and 1, against the order of the table. *)
Lemma attention_matrix_follows_array_order_witness :
  exists rows,
    attention_matrix cosine EXP_float8 corpus [3; 1]%N 1 = Ok rows
    /\ map (fun r => (am_row_id r, am_col_id r)) rows
       = [(3, 3); (3, 1); (1, 3); (1, 1)]%N
    /\ map (fun r => (am_row_idx r, am_col_idx r)) rows
       = [(1, 1); (1, 2); (2, 1); (2, 2)]%Z.
Proof.
  destruct (corpus_attention_matrix [3; 1]%N) as (rows & Hrows).
  exists rows; split; [exact Hrows | ].
  apply (attention_matrix_follows_array_order cosine EXP_float8 corpus [3; 1]%N 1
           rows).
  - exact corpus_ids_unique.
  - repeat constructor; simpl; intuition discriminate.
  - intros x [<- | [<- | [] ] ].
    + exists doc_c, [1; 0]; simpl; tauto.
    + exists doc_a, [1; 0]; simpl; tauto.
  - exact Hrows.
Defined.

(** X21 on [corpus]. *)
Lemma attention_scores_weights_form_distribution_witness :
  exists rows ws,
    attention_scores cosine EXP_float8 corpus [1; 0] 10 1 = Ok rows
    /\ map as_attention_weight rows = map Some ws
    /\ (forall w, In w ws -> 0 < w <= 1)
    /\ sum_R ws = 1.
Proof.
  destruct (attention_scores_succeeds cosine EXP_float8 corpus [1; 0] 10 1)
    as (rows & Hrows & _);
    [lia | lra | apply axis_table_exp_defined; [apply corpus_axis_table | lra] | ].
  destruct (attention_scores_weights_form_distribution cosine EXP_float8
              EXP_float8_exact corpus [1; 0] 10 1 rows Hrows)
    as (ws & Hweights & Hrange & _ & Hsum).
  exists rows, ws; repeat split; try assumption; try (apply Hrange; assumption).
  apply Hsum; rewrite corpus_embeddings; [simpl; lia | discriminate].
Defined.

(** X22 on [corpus] at temperature -1. *)
Lemma attention_scores_weights_follow_temperature_sign_witness :
  exists rows,
    attention_scores cosine EXP_float8 corpus [1; 0] 10 (-1) = Ok rows
    /\ rows <> []
    /\ forall a b, In a rows -> In b rows ->
         as_raw_score a <= as_raw_score b ->
         exists wa wb,
           as_attention_weight a = Some wa /\ as_attention_weight b = Some wb
           /\ wb <= wa.
Proof.
  destruct (attention_scores_succeeds cosine EXP_float8 corpus [1; 0] 10 (-1))
    as (rows & Hrows & Hlength);
    [lia | lra | apply axis_table_exp_defined; [apply corpus_axis_table | lra] | ].
  exists rows; split; [exact Hrows | split].
  - rewrite corpus_embeddings in Hlength.
    intros Hnil; rewrite Hnil in Hlength; discriminate Hlength.
  - intros a b Ha Hb Hscore.
    destruct (attention_scores_weights_follow_temperature_sign cosine EXP_float8
                EXP_float8_exact corpus [1; 0] 10 (-1) rows Hrows)
      as (Hweights & _).
    destruct (Hweights a b Ha Hb Hscore) as (wa & wb & Hwa & Hwb & _ & Hneg).
    exists wa, wb; split; [exact Hwa | split; [exact Hwb | apply Hneg; lra] ].
Defined.

(** X23 on a table whose only document awaits its embedding. *)
Lemma no_embeddings_no_rows_and_no_errors_witness :
  attention_scores cosine EXP_float8 [doc_pending] [1; 0] 10 0 = Ok []
  /\ self_attention cosine EXP_float8 [doc_pending] [4]%N 4 0 = Ok []
  /\ flash_attention_search cosine EXP_float8 [doc_pending] [1; 0] 0 10 = Ok []
  /\ attention_matrix cosine EXP_float8 [doc_pending] [4]%N 0 = Ok []
  /\ temporal_search cosine EXP_float8 100 [doc_pending] [1; 0] 10 0 (1 / 5) = Ok [].
Proof.
  destruct (no_embeddings_no_rows_and_no_errors cosine EXP_float8 subvector_slice
              100 [doc_pending] eq_refl)
    as (Hscores & Hself & _ & _ & Hflash & _ & Hmatrix & Htemporal).
  split; [apply Hscores; lia | ].
  split; [apply Hself | ].
  split; [apply Hflash; lia | ].
  split; [apply Hmatrix | apply Htemporal; lia].
Defined.

(** X25 on [corpus_reversed] in blocks of one document. *)
Lemma flash_attention_search_normalises_per_block_witness :
  exists rows,
    flash_attention_search cosine EXP_float8 corpus_reversed [1; 0] 1 10 = Ok rows
    /\ List.length rows = 2%nat
    /\ forall r, In r rows ->
         (exists w, fa_attention_score r = Some w /\ 0 < w <= 1)
         /\ sum_R (map (fun r' => COALESCE (fa_attention_score r') 0)
                       (filter (fun r' => Z.eqb (fa_block_id r') (fa_block_id r))
                               rows)) = 1.
Proof.
  destruct (flash_attention_search_succeeds cosine EXP_float8 EXP_float8_exact
              corpus_reversed [1; 0] 1 10) as (rows & Hrows).
  - lia.
  - lia.
  - intros ev Hev.
    pose proof (axis_table_distances _ ev corpus_reversed_axis_table Hev); lra.
  - intros x Hx; eexists; apply EXP_float8_defined; lra.
  - exists rows; split; [exact Hrows | ].
    apply (flash_attention_search_normalises_per_block cosine EXP_float8
             EXP_float8_exact corpus_reversed [1; 0] 1 10 rows);
      [rewrite corpus_reversed_embeddings; simpl; lia | exact Hrows].
Defined.

(** X26 on [corpus] with two heads. *)
Lemma self_attention_heads_are_copies_witness :
  exists rows,
    self_attention cosine EXP_float8 corpus [1; 2]%N 2 1 = Ok rows
    /\ forall r h, In r rows -> (1 <= h <= 2)%Z ->
         In {| sa_source_id := sa_source_id r;
               sa_attended_id := sa_attended_id r;
               sa_head_idx := h;
               sa_attention_score := sa_attention_score r;
               sa_source_content := sa_source_content r;
               sa_attended_content := sa_attended_content r |} rows.
Proof.
  destruct (self_attention_succeeds cosine EXP_float8 EXP_float8_exact
              corpus [1; 2]%N 2 1) as (ss & rows & _ & _ & Hrows).
  - lra.
  - intros rs Hrs; unfold raw_scores in Hrs.
    apply in_flat_map in Hrs; destruct Hrs as (s & Hs & Hrs).
    apply in_flat_map in Hrs; destruct Hrs as (t & Ht & Hrs).
    apply in_map_iff in Hrs; destruct Hrs as (h & <- & _).
    apply filter_In in Hs; destruct Hs as (Hs & _); simpl.
    apply corpus_pair_exp_defined; apply corpus_axis_table; assumption.
  - exists rows; split; [exact Hrows | ].
    exact (self_attention_heads_are_copies cosine EXP_float8 corpus [1; 2]%N 2 1
             rows Hrows).
Defined.

(** X27 on a table of one 384-dimensional document, with 4 heads of 48
    components. *)
Lemma multihead_aggregated_attention_is_mean_witness :
  exists rows,
    multihead_attention_aggregate cosine subvector_slice [doc_384] vector_384
      4 48 10 = Ok rows
    /\ forall r, In r rows ->
         mh_aggregated_attention r =
         sum_R (mh_head_attentions r) / INR (List.length (mh_head_attentions r))
         /\ Z.of_nat (List.length (mh_head_attentions r)) = 4%Z.
Proof.
  destruct (per_head_attention_succeeds cosine subvector_slice
              [doc_384] vector_384 4 48 doc_384_segments) as (pha & Hpha).
  eexists; split.
  - unfold multihead_attention_aggregate; rewrite Hpha; cbn [bind].
    apply LIMIT_ok; lia.
  - intros r Hr.
    destruct (multihead_aggregated_attention_is_mean cosine subvector_slice
                [doc_384] vector_384 4 48 10 _
                ltac:(unfold multihead_attention_aggregate; rewrite Hpha;
                      cbn [bind]; apply LIMIT_ok; lia)) as (_ & Hmean).
    destruct (Hmean r Hr) as (_ & Havg & Hcount).
    split; [exact Havg | apply Hcount].
    repeat constructor; simpl; tauto.
Defined.

(** X28 on [corpus_reversed] in blocks of one document. *)
Lemma flash_attention_search_blocks_are_bounded_witness :
  exists rows,
    flash_attention_search cosine EXP_float8 corpus_reversed [1; 0] 1 10 = Ok rows
    /\ forall k,
         (Z.of_nat (List.length
                      (filter (fun r => Z.eqb (fa_block_id r) k) rows)) <= 1)%Z.
Proof.
  destruct (flash_attention_search_succeeds cosine EXP_float8 EXP_float8_exact
              corpus_reversed [1; 0] 1 10) as (rows & Hrows).
  - lia.
  - lia.
  - intros ev Hev.
    pose proof (axis_table_distances _ ev corpus_reversed_axis_table Hev); lra.
  - intros x Hx; eexists; apply EXP_float8_defined; lra.
  - exists rows; split; [exact Hrows | ].
    destruct (flash_attention_search_blocks_are_bounded cosine EXP_float8
                EXP_float8_exact corpus_reversed [1; 0] 1 10 rows)
      as (_ & Hbound); [lia | exact Hrows | exact Hbound].
Defined.
